(** * Halide auto-scheduler (src/AutoSchedule.cpp): a shallow embedding

    The file follows the source top to bottom: the helpers of the anonymous
    namespace, [DependenceAnalysis], the [Partitioner] with its cost model
    and grouping loop, the schedule emitter's [vectorize_stage], and the
    entry point [generate_schedules].

    Conventions.
    - [int64_t] and [int] values are integers of [Z]; arithmetic on them is
      written with its two's-complement wrap-around ([add64], [sub64], ...).
    - [std::map] and [std::set] are association lists kept in key order, so
      that iteration visits the entries as the C++ containers do.
    - [internal_assert], [user_assert] and [get_element] on a missing key
      abort the run: such functions return [option], [None] being the abort.
    - What the file includes from other headers (the IR, the bounds engine,
      the region-cost oracle, the target description) is taken as a
      [Variable] of the enclosing [Section]. *)

From Stdlib Require Import ZArith String Ascii Bool Lia DecimalString List Permutation
  SpecFloat.
Import ListNotations.
Open Scope string_scope.
Open Scope list_scope.
Open Scope Z_scope.

(** ** Machine integers *)

Definition wrap64 (z : Z) : Z := (z + 2 ^ 63) mod 2 ^ 64 - 2 ^ 63.
Definition add64 (a b : Z) : Z := wrap64 (a + b).
Definition sub64 (a b : Z) : Z := wrap64 (a - b).
Definition mul64 (a b : Z) : Z := wrap64 (a * b).
Definition int64_max : Z := 2 ^ 63 - 1.
Definition int64_min : Z := - 2 ^ 63.

Definition wrap32 (z : Z) : Z := (z + 2 ^ 31) mod 2 ^ 32 - 2 ^ 31.
Definition add32 (a b : Z) : Z := wrap32 (a + b).
Definition sub32 (a b : Z) : Z := wrap32 (a - b).
Definition mul32 (a b : Z) : Z := wrap32 (a * b).

(** [uint64_t] products, as in [estimate_tiles *= dim_tiles]. *)
Definition wrapu64 (z : Z) : Z := z mod 2 ^ 64.
Definition mulu64 (a b : Z) : Z := wrapu64 (a * b).

(** An [int] lies in the 32-bit range, below [INT64_MAX]. *)
Lemma wrap32_range (z : Z) : - 2 ^ 31 <= wrap32 z < 2 ^ 31.
Proof.
  unfold wrap32. pose proof (Z.mod_pos_bound (z + 2 ^ 31) (2 ^ 32)). lia.
Qed.

Lemma int_range_zero : - 2 ^ 31 <= 0 < 2 ^ 31.
Proof. lia. Qed.

Lemma int_range_below_max (s : Z) : - 2 ^ 31 <= s < 2 ^ 31 -> s < int64_max.
Proof. unfold int64_max. lia. Qed.

(** ** Aborting computations *)

Notation "x <- e ;; k" :=
  (match e with Some x => k | None => None end)
    (at level 61, e at next level, right associativity).

Definition assert (b : bool) : option unit := if b then Some tt else None.

(** ** Ordered containers

    [std::map<K,V>] as a list of entries in increasing key order, [std::set<K>]
    as a list of keys in increasing order.  [klt] is the key's [operator<] and
    [keq] the equivalence it induces. *)

Section OrderedContainers.
Context {K V : Type}.
Variables (klt keq : K -> K -> bool).

(** [m.find(k)]: the mapped value, or [None] for [m.end()]. *)
Fixpoint om_find (k : K) (m : list (K * V)) : option V :=
  match m with
  | [] => None
  | (k', v) :: r => if keq k k' then Some v else om_find k r
  end.

(** [m[k] = v]. *)
Fixpoint om_put (k : K) (v : V) (m : list (K * V)) : list (K * V) :=
  match m with
  | [] => [(k, v)]
  | (k', v') :: r =>
      if keq k k' then (k', v) :: r
      else if klt k k' then (k, v) :: m
      else (k', v') :: om_put k v r
  end.

(** [m.emplace(k, v)] and [m.insert({k, v})]: no effect on a present key. *)
Definition om_emplace (k : K) (v : V) (m : list (K * V)) : list (K * V) :=
  match om_find k m with
  | Some _ => m
  | None => om_put k v m
  end.

(** [m.erase(k)]. *)
Definition om_erase (k : K) (m : list (K * V)) : list (K * V) :=
  filter (fun kv => negb (keq k (fst kv))) m.

Definition om_mem (k : K) (m : list (K * V)) : bool :=
  match om_find k m with Some _ => true | None => false end.

(** [s.find(k) != s.end()]. *)
Definition os_mem (k : K) (s : list K) : bool := existsb (keq k) s.

(** [s.insert(k)]. *)
Fixpoint os_insert (k : K) (s : list K) : list K :=
  match s with
  | [] => [k]
  | k' :: r =>
      if keq k k' then s
      else if klt k k' then k :: s
      else k' :: os_insert k r
  end.

(** [s.insert(first, last)]. *)
Definition os_insert_all (ks : list K) (s : list K) : list K :=
  fold_left (fun acc k => os_insert k acc) ks s.

(** [s.erase(k)]. *)
Definition os_erase (k : K) (s : list K) : list K :=
  filter (fun k' => negb (keq k k')) s.
End OrderedContainers.

(** Lookup after the updates, for a key equivalence that is symmetric and
    transitive. *)
Section OrderedContainerFacts.
Context {K V : Type}.
Variables (klt keq : K -> K -> bool).
Hypothesis keq_sym : forall a b, keq a b = keq b a.
Hypothesis keq_trans : forall a b c, keq a b = true -> keq b c = true -> keq a c = true.

Lemma keq_congr (a b c : K) : keq a b = true -> keq c a = keq c b.
Proof.
  intros Hab.
  destruct (keq c a) eqn:Hca, (keq c b) eqn:Hcb; try reflexivity.
  - rewrite (keq_trans c a b Hca Hab) in Hcb. discriminate.
  - rewrite keq_sym in Hab. rewrite (keq_trans c b a Hcb Hab) in Hca. discriminate.
Qed.

Lemma om_find_put (k k' : K) (v : V) (m : list (K * V)) :
  om_find keq k (om_put klt keq k' v m)
  = if keq k k' then Some v else om_find keq k m.
Proof.
  induction m as [| [k1 v1] r IH]; simpl.
  - reflexivity.
  - destruct (keq k' k1) eqn:E1.
    + simpl. rewrite (keq_congr k' k1 k E1).
      destruct (keq k k1); reflexivity.
    + destruct (klt k' k1); simpl.
      * reflexivity.
      * rewrite IH.
        destruct (keq k k1) eqn:E2; [| reflexivity].
        destruct (keq k k') eqn:E3; [| reflexivity].
        rewrite keq_sym in E3.
        rewrite (keq_trans k' k k1 E3 E2) in E1. discriminate.
Qed.

Lemma om_find_erase (k k' : K) (m : list (K * V)) :
  om_find keq k (om_erase keq k' m)
  = if keq k k' then None else om_find keq k m.
Proof.
  unfold om_erase.
  induction m as [| [k1 v1] r IH]; simpl.
  - destruct (keq k k'); reflexivity.
  - destruct (keq k' k1) eqn:E1; simpl.
    + rewrite IH.
      destruct (keq k k') eqn:E2; [reflexivity |].
      rewrite keq_sym in E1.
      rewrite (keq_congr k1 k' k E1), E2. reflexivity.
    + rewrite IH.
      destruct (keq k k1) eqn:E2; [| reflexivity].
      destruct (keq k k') eqn:E3; [| reflexivity].
      rewrite keq_sym in E3.
      rewrite (keq_trans k' k k1 E3 E2) in E1. discriminate.
Qed.

Lemma om_find_In (k : K) (v : V) (m : list (K * V)) :
  om_find keq k m = Some v -> exists k1, In (k1, v) m /\ keq k k1 = true.
Proof.
  induction m as [| [k1 v1] r IH]; simpl; [discriminate |].
  destruct (keq k k1) eqn:E.
  - intros [= <-]. exists k1. auto.
  - intros H. destruct (IH H) as (k2 & Hin & Hk). exists k2. auto.
Qed.

Lemma om_find_keq (a b : K) (m : list (K * V)) :
  keq a b = true -> om_find keq a m = om_find keq b m.
Proof.
  intros Hab. induction m as [| [k1 v1] r IH]; simpl; [reflexivity |].
  rewrite IH.
  replace (keq b k1) with (keq a k1); [reflexivity |].
  rewrite (keq_sym a k1), (keq_sym b k1). apply keq_congr. exact Hab.
Qed.

(** An entry of [om_put k v m] holds the new value under [k] or a key
    equivalent to it, or is an entry of [m]. *)
Lemma om_put_In (k k1 : K) (v v1 : V) (m : list (K * V)) :
  In (k1, v1) (om_put klt keq k v m) ->
  (v1 = v /\ (k1 = k \/ keq k k1 = true)) \/ In (k1, v1) m.
Proof.
  induction m as [| [k2 v2] r IH]; simpl.
  - intros [[= <- <-] | []]. left. auto.
  - destruct (keq k k2) eqn:E.
    + simpl. intros [[= <- <-] | H]; [left; auto | right; now right].
    + destruct (klt k k2); simpl.
      * intros [[= <- <-] | H]; [left; auto | now right].
      * intros [H | H]; [right; now left |].
        destruct (IH H) as [Hl | Hr]; [now left | right; now right].
Qed.

Lemma om_erase_In (k k1 : K) (v1 : V) (m : list (K * V)) :
  In (k1, v1) (om_erase keq k m) -> In (k1, v1) m.
Proof. unfold om_erase. intros H. apply filter_In in H. exact (proj1 H). Qed.

Lemma om_emplace_In (k k1 : K) (v v1 : V) (m : list (K * V)) :
  In (k1, v1) (om_emplace klt keq k v m) ->
  (v1 = v /\ (k1 = k \/ keq k k1 = true)) \/ In (k1, v1) m.
Proof.
  unfold om_emplace. destruct (om_find keq k m); [now right | apply om_put_In].
Qed.
End OrderedContainerFacts.

(** A container whose entries stand in strictly increasing key order, as
    the entries of every [std::map] do. *)
Section SortedContainers.
Context {K V : Type}.
Variables (klt keq : K -> K -> bool).

Fixpoint om_sorted (m : list (K * V)) : Prop :=
  match m with
  | [] => True
  | kv :: r => Forall (fun kv' => klt (fst kv) (fst kv') = true) r /\ om_sorted r
  end.

Hypothesis keq_sym : forall a b, keq a b = keq b a.
Hypothesis keq_trans : forall a b c, keq a b = true -> keq b c = true -> keq a c = true.
Hypothesis klt_trans : forall a b c, klt a b = true -> klt b c = true -> klt a c = true.
Hypothesis klt_not_keq : forall a b, klt a b = true -> keq a b = false.
Hypothesis klt_asym : forall a b, klt a b = true -> klt b a = false.
Hypothesis klt_total : forall a b, keq a b = false -> klt a b = false -> klt b a = true.
Hypothesis klt_keq_r : forall a b c, keq a b = true -> klt c a = klt c b.

Lemma om_put_sorted (k : K) (v : V) (m : list (K * V)) :
  om_sorted m -> om_sorted (om_put klt keq k v m).
Proof.
  induction m as [| [k1 v1] r IH]; simpl.
  - intros _. split; [constructor | exact I].
  - intros [Hall Hr]. destruct (keq k k1) eqn:E.
    + simpl. split; assumption.
    + destruct (klt k k1) eqn:L.
      * simpl. split; [| split; assumption].
        constructor; [exact L |].
        apply Forall_forall. intros x Hx. rewrite Forall_forall in Hall.
        apply (klt_trans _ _ _ L (Hall x Hx)).
      * simpl. split; [| now apply IH].
        apply Forall_forall. intros [k2 v2] Hx. simpl.
        assert (Hk1k : klt k1 k = true).
        { apply klt_total; assumption. }
        apply (om_put_In klt keq) in Hx as [[_ [-> | Heq]] | Hin].
        -- exact Hk1k.
        -- now rewrite <- (klt_keq_r _ _ k1 Heq).
        -- rewrite Forall_forall in Hall. exact (Hall _ Hin).
Qed.

Lemma om_emplace_sorted (k : K) (v : V) (m : list (K * V)) :
  om_sorted m -> om_sorted (om_emplace klt keq k v m).
Proof.
  unfold om_emplace. destruct (om_find keq k m); [auto | apply om_put_sorted].
Qed.

Lemma om_erase_sorted (k : K) (m : list (K * V)) :
  om_sorted m -> om_sorted (om_erase keq k m).
Proof.
  unfold om_erase. induction m as [| kv r IH]; simpl; [auto |].
  intros [Hall Hr]. destruct (negb (keq k (fst kv))); simpl; [| now apply IH].
  split; [| now apply IH].
  apply Forall_forall. intros x Hx. apply filter_In in Hx as [Hx _].
  rewrite Forall_forall in Hall. exact (Hall x Hx).
Qed.

(** In a sorted container every entry is the one its key finds. *)
Lemma om_sorted_find (k : K) (v : V) (m : list (K * V)) :
  om_sorted m -> keq k k = true -> In (k, v) m -> om_find keq k m = Some v.
Proof.
  intros Hs Hrefl. induction m as [| [k1 v1] r IH]; simpl; [intros [] |].
  destruct Hs as [Hall Hr]. intros [[= -> ->] | Hin].
  - now rewrite Hrefl.
  - rewrite Forall_forall in Hall. specialize (Hall _ Hin). simpl in Hall.
    apply klt_not_keq in Hall. rewrite keq_sym, Hall. now apply IH.
Qed.

(** Assigning to a present key does not change the number of entries. *)
Lemma om_put_length (k : K) (v : V) (m : list (K * V)) :
  om_sorted m -> om_find keq k m <> None ->
  length (om_put klt keq k v m) = length m.
Proof.
  induction m as [| [k1 v1] r IH]; simpl; [congruence |].
  intros [Hall Hr] Hf. destruct (keq k k1) eqn:E; [reflexivity |].
  destruct (om_find keq k r) as [v2 |] eqn:F; [| congruence].
  destruct (om_find_In keq k v2 r F) as (k2 & Hin & Hk).
  rewrite Forall_forall in Hall. specialize (Hall _ Hin). simpl in Hall.
  rewrite keq_sym in Hk. rewrite (klt_keq_r _ _ k1 Hk) in Hall.
  rewrite (klt_asym _ _ Hall). simpl. f_equal. apply IH; [exact Hr | congruence].
Qed.

(** Erasing a present key removes an entry. *)
Lemma om_erase_length (k : K) (m : list (K * V)) :
  om_find keq k m <> None -> (length (om_erase keq k m) < length m)%nat.
Proof.
  unfold om_erase. induction m as [| [k1 v1] r IH]; simpl; [congruence |].
  destruct (keq k k1) eqn:E; simpl.
  - intros _. apply Nat.lt_succ_r. apply filter_length_le.
  - intros Hf. apply -> Nat.succ_lt_mono. now apply IH.
Qed.

Lemma om_erase_length_le (k : K) (m : list (K * V)) :
  (length (om_erase keq k m) <= length m)%nat.
Proof. unfold om_erase. apply filter_length_le. Qed.
End SortedContainers.

(** Membership after [s.insert(k)] and [s.erase(k)]. *)
Section OrderedSetFacts.
Context {K : Type}.
Variables (klt keq : K -> K -> bool).
Hypothesis keq_sym : forall a b, keq a b = keq b a.
Hypothesis keq_trans : forall a b c, keq a b = true -> keq b c = true -> keq a c = true.

Lemma os_mem_insert (k k' : K) (s : list K) :
  os_mem keq k (os_insert klt keq k' s) = keq k k' || os_mem keq k s.
Proof.
  unfold os_mem. induction s as [| x s IH]; simpl; [reflexivity |].
  destruct (keq k' x) eqn:E; simpl.
  - rewrite (keq_congr keq keq_sym keq_trans k' x k E).
    destruct (keq k x); reflexivity.
  - destruct (klt k' x); simpl; [reflexivity |].
    rewrite IH. destruct (keq k k'), (keq k x); reflexivity.
Qed.

Lemma os_mem_erase (k k' : K) (s : list K) :
  os_mem keq k (os_erase keq k' s) = negb (keq k k') && os_mem keq k s.
Proof.
  unfold os_mem, os_erase. induction s as [| x s IH]; simpl.
  - now rewrite andb_false_r.
  - destruct (keq k' x) eqn:E; simpl.
    + rewrite IH. rewrite keq_sym in E.
      rewrite (keq_congr keq keq_sym keq_trans x k' k E).
      destruct (keq k k'); reflexivity.
    + rewrite IH. destruct (keq k x) eqn:E2; simpl; [| reflexivity].
      destruct (keq k k') eqn:E3; simpl; [| reflexivity].
      rewrite keq_sym in E3. rewrite (keq_trans k' k x E3 E2) in E. discriminate.
Qed.

Lemma os_insert_In (k k' : K) (s : list K) :
  In k (os_insert klt keq k' s) -> k = k' \/ In k s.
Proof.
  induction s as [| x s IH]; simpl.
  - intros [H | []]. now left.
  - destruct (keq k' x); [intros H; now right |].
    destruct (klt k' x); simpl.
    + intros [H | H]; [now left | now right].
    + intros [H | H]; [right; now left |].
      destruct (IH H) as [Hl | Hr]; [now left | right; now right].
Qed.
End OrderedSetFacts.

(** Containers keyed by [std::string]. *)
Definition smap (V : Type) : Type := list (string * V).
Definition sset : Type := list string.

Definition sm_find {V} := @om_find string V String.eqb.
Definition sm_put {V} := @om_put string V String.ltb String.eqb.
Definition sm_emplace {V} := @om_emplace string V String.ltb String.eqb.
Definition sm_erase {V} := @om_erase string V String.eqb.
Definition sm_mem {V} := @om_mem string V String.eqb.
Definition ss_mem := @os_mem string String.eqb.
Definition ss_insert := @os_insert string String.ltb String.eqb.
Definition ss_erase := @os_erase string String.eqb.

(** [get_element(m, k)]: aborts on a missing key. *)
Definition get_element {V} (m : smap V) (k : string) : option V := sm_find k m.

Lemma string_eqb_trans (a b c : string) :
  String.eqb a b = true -> String.eqb b c = true -> String.eqb a c = true.
Proof.
  intros H1 H2. apply String.eqb_eq in H1, H2. subst. apply String.eqb_refl.
Qed.

Lemma sm_find_put {V} (k k' : string) (v : V) (m : smap V) :
  sm_find k (sm_put k' v m) = if String.eqb k k' then Some v else sm_find k m.
Proof. apply om_find_put; [apply String.eqb_sym | apply string_eqb_trans]. Qed.

Lemma sm_find_erase {V} (k k' : string) (m : smap V) :
  sm_find k (sm_erase k' m) = if String.eqb k k' then None else sm_find k m.
Proof. apply om_find_erase; [apply String.eqb_sym | apply string_eqb_trans]. Qed.

(** The order of [std::string] keys. *)
Lemma string_ltb_lt (a b : string) : String.ltb a b = true <-> String.compare a b = Lt.
Proof. unfold String.ltb. destruct (String.compare a b); split; congruence. Qed.

Lemma string_compare_trans (a b c : string) :
  String.compare a b = Lt -> String.compare b c = Lt -> String.compare a c = Lt.
Proof.
  revert b c. induction a as [| x a IH]; intros [| y b] [| z c]; simpl;
    try congruence.
  unfold Ascii.compare.
  destruct (N.compare_spec (N_of_ascii x) (N_of_ascii y)) as [Exy | Lxy | Gxy];
    try discriminate;
    destruct (N.compare_spec (N_of_ascii y) (N_of_ascii z)) as [Eyz | Lyz | Gyz];
    try discriminate; intros H1 H2.
  - rewrite Exy, Eyz, N.compare_refl. now apply (IH b c).
  - rewrite Exy. now rewrite (proj2 (N.compare_lt_iff _ _) Lyz).
  - rewrite <- Eyz. now rewrite (proj2 (N.compare_lt_iff _ _) Lxy).
  - now rewrite (proj2 (N.compare_lt_iff _ _) (N.lt_trans _ _ _ Lxy Lyz)).
Qed.

Lemma string_ltb_trans (a b c : string) :
  String.ltb a b = true -> String.ltb b c = true -> String.ltb a c = true.
Proof. rewrite !string_ltb_lt. apply string_compare_trans. Qed.

Lemma string_ltb_asym (a b : string) : String.ltb a b = true -> String.ltb b a = false.
Proof.
  unfold String.ltb. rewrite (String.compare_antisym b a).
  destruct (String.compare a b); simpl; congruence.
Qed.

Lemma string_ltb_not_eqb (a b : string) : String.ltb a b = true -> String.eqb a b = false.
Proof.
  intros H. apply String.eqb_neq. intros ->.
  rewrite (string_ltb_asym _ _ H) in H. discriminate.
Qed.

Lemma string_ltb_total (a b : string) :
  String.eqb a b = false -> String.ltb a b = false -> String.ltb b a = true.
Proof.
  unfold String.ltb. intros Hne. apply String.eqb_neq in Hne.
  rewrite (String.compare_antisym b a).
  destruct (String.compare a b) eqn:E; simpl; try congruence.
  apply String.compare_eq_iff in E. congruence.
Qed.

Lemma string_ltb_eqb_r (a b c : string) :
  String.eqb a b = true -> String.ltb c a = String.ltb c b.
Proof. intros H. apply String.eqb_eq in H. now subst. Qed.

(** [std::map<string, V>] in key order. *)
Definition sm_sorted {V} (m : smap V) : Prop := om_sorted String.ltb m.

Lemma sm_put_sorted {V} (k : string) (v : V) (m : smap V) :
  sm_sorted m -> sm_sorted (sm_put k v m).
Proof.
  apply om_put_sorted;
    [apply string_ltb_trans | apply string_ltb_total | apply string_ltb_eqb_r].
Qed.

Lemma sm_emplace_sorted {V} (k : string) (v : V) (m : smap V) :
  sm_sorted m -> sm_sorted (sm_emplace k v m).
Proof.
  apply om_emplace_sorted;
    [apply string_ltb_trans | apply string_ltb_total | apply string_ltb_eqb_r].
Qed.

Lemma sm_erase_sorted {V} (k : string) (m : smap V) :
  sm_sorted m -> sm_sorted (sm_erase k m).
Proof. apply om_erase_sorted. Qed.

Lemma sm_sorted_find {V} (k : string) (v : V) (m : smap V) :
  sm_sorted m -> In (k, v) m -> sm_find k m = Some v.
Proof.
  intros Hs. apply om_sorted_find with (klt := String.ltb);
    [apply String.eqb_sym | apply string_ltb_not_eqb | exact Hs | apply String.eqb_refl].
Qed.

Lemma sm_find_In {V} (k : string) (v : V) (m : smap V) :
  sm_find k m = Some v -> In (k, v) m.
Proof.
  intros H. apply om_find_In in H as (k1 & Hin & Hk).
  apply String.eqb_eq in Hk. now subst.
Qed.

Lemma sm_find_emplace {V} (k k' : string) (v : V) (m : smap V) :
  sm_find k (sm_emplace k' v m)
  = match sm_find k' m with
    | Some _ => sm_find k m
    | None => if String.eqb k k' then Some v else sm_find k m
    end.
Proof.
  unfold sm_emplace, om_emplace. change (om_find String.eqb k' m) with (sm_find k' m).
  destruct (sm_find k' m); [reflexivity | apply sm_find_put].
Qed.

Lemma sm_find_not_In {V} (k : string) (m : smap V) :
  (forall v, ~ In (k, v) m) -> sm_find k m = None.
Proof.
  intros H. destruct (sm_find k m) as [v |] eqn:E; [| reflexivity].
  apply sm_find_In in E. now apply H in E.
Qed.

(** The first key of a sorted map does not come again. *)
Lemma sm_sorted_tail {V} (k : string) (v : V) (r : smap V) :
  sm_sorted ((k, v) :: r) -> sm_find k r = None /\ sm_sorted r.
Proof.
  intros [Hall Hr]. split; [| exact Hr].
  apply sm_find_not_In. intros v' Hin.
  rewrite Forall_forall in Hall. specialize (Hall _ Hin). simpl in Hall.
  apply string_ltb_not_eqb in Hall. rewrite String.eqb_refl in Hall. discriminate.
Qed.

(** A loop [for (kv : m) acc[kv.first] = g(kv)] over a sorted map [m]. *)
Lemma sm_fold_put_find {V W} (g : string -> V -> W) (m : smap V) :
  sm_sorted m ->
  forall (acc : smap W) (k : string),
    sm_find k (fold_left (fun acc kv => sm_put (fst kv) (g (fst kv) (snd kv)) acc) m acc)
    = match sm_find k m with
      | Some v => Some (g k v)
      | None => sm_find k acc
      end.
Proof.
  induction m as [| [k1 v1] r IH]; intros Hs acc k; simpl; [reflexivity |].
  apply sm_sorted_tail in Hs as [Hk1 Hr].
  rewrite (IH Hr). unfold sm_find at 3. simpl. fold (@sm_find V).
  rewrite sm_find_put.
  destruct (String.eqb_spec k k1) as [-> | Hne]; [now rewrite Hk1 | reflexivity].
Qed.

Lemma sm_find_map_values {V W} (g : V -> W) (m : smap V) (k : string) :
  sm_find k (map (fun kv => (fst kv, g (snd kv))) m) = option_map g (sm_find k m).
Proof.
  induction m as [| [k1 v1] r IH]; simpl; [reflexivity |].
  unfold sm_find in *. simpl. destruct (String.eqb k k1); [reflexivity | exact IH].
Qed.

Lemma sm_sorted_map_values {V W} (g : string * V -> W) (m : smap V) :
  sm_sorted m -> sm_sorted (map (fun kv => (fst kv, g kv)) m).
Proof.
  induction m as [| kv r IH]; simpl; [auto |].
  intros [Hall Hr]. split; [| now apply IH].
  apply Forall_forall. intros x Hx. apply in_map_iff in Hx as (y & <- & Hy).
  rewrite Forall_forall in Hall. exact (Hall y Hy).
Qed.

(** ** The IR, as far as this file looks into it *)

Inductive Expr : Type :=
| IntImm (value : Z)
| Var (name : string)
| Add (a b : Expr)
| Sub (a b : Expr)
| PosInf
| NegInf
| Opaque (id : nat).

(** [e.as<IntImm>()]. *)
Definition as_IntImm (e : Expr) : option Z :=
  match e with IntImm v => Some v | _ => None end.

(** [e.as<Variable>()]. *)
Definition as_Variable (e : Expr) : option string :=
  match e with Var n => Some n | _ => None end.

Record Interval : Type := mkInterval { imin : Expr; imax : Expr }.

(** [Interval()]: the unbounded interval. *)
Definition Interval_everything : Interval := mkInterval NegInf PosInf.

Definition Box : Type := list Interval.
Definition DimBounds : Type := smap Interval.

Record Bound : Type := mkBound { bvar : string; bmin : Expr; bextent : Expr }.

Inductive ForType : Type := Serial | Parallel | Vectorized | Unrolled.
Inductive DimType : Type := PureVar | PureRVar | ImpureRVar.

Record Dim : Type := mkDim { dvar : string; for_type : ForType; dim_type : DimType }.

Definition is_rvar (d : Dim) : bool :=
  match dim_type d with PureVar => false | _ => true end.
Definition is_pure (d : Dim) : bool :=
  match dim_type d with ImpureRVar => false | _ => true end.

Inductive LoopLevel : Type :=
| LLInlined
| LLRoot
| LLAt (func var : string).

Record Schedule : Type := mkSchedule {
  splits : list nat;
  bounds : list Bound;
  estimates : list Bound;
  dims : list Dim;
  rvars : list string;
  store_level : LoopLevel;
  compute_level : LoopLevel
}.

Record StageDef : Type := mkStageDef {
  values : list Expr;
  def_args : list Expr;
  schedule : Schedule;
  specializations : list nat
}.

Inductive TypeCode : Type := TInt | TUInt | TFloat | THandle.
Record HType : Type := mkHType { code : TypeCode; bits : Z; lanes : Z }.

Inductive ExternFuncArgument : Type :=
| ArgFunc (name : string)
| ArgExpr (e : Expr)
| ArgBuffer (name : string) (dimensions : nat).

Record Function : Type := mkFunction {
  name : string;
  args : list string;
  definition : StageDef;
  updates : list StageDef;
  output_types : list HType;
  has_extern_definition : bool;
  extern_arguments : list ExternFuncArgument
}.

(** [get_stage_definition(f, stage_num)]: the pure definition for stage 0,
    update [stage_num - 1] otherwise. *)
Definition get_stage_definition (f : Function) (stage_num : nat) : StageDef :=
  match stage_num with
  | O => definition f
  | S u => nth u (updates f) (definition f)
  end.

(** The loop variables of a definition: [dims] without the trailing
    [__outermost], i.e. what [for (d = 0; d < (int)dims.size() - 1; d++)]
    visits. *)
Definition loop_dims (ds : list Dim) : list Dim := removelast ds.

Definition stage_loop_dims (f : Function) (stage_num : nat) : list Dim :=
  loop_dims (dims (schedule (get_stage_definition f stage_num))).

(** ** [struct FStage] *)

Record FStage : Type := mkFStage { func : Function; stage_num : nat }.

Definition FStage_eqb (a b : FStage) : bool :=
  String.eqb (name (func a)) (name (func b)) && Nat.eqb (stage_num a) (stage_num b).

Definition FStage_ltb (a b : FStage) : bool :=
  String.ltb (name (func a)) (name (func b))
  || (String.eqb (name (func a)) (name (func b)) && Nat.ltb (stage_num a) (stage_num b)).

Lemma FStage_eqb_sym (a b : FStage) : FStage_eqb a b = FStage_eqb b a.
Proof.
  unfold FStage_eqb. now rewrite String.eqb_sym, Nat.eqb_sym.
Qed.

Lemma FStage_eqb_trans (a b c : FStage) :
  FStage_eqb a b = true -> FStage_eqb b c = true -> FStage_eqb a c = true.
Proof.
  unfold FStage_eqb. intros H1 H2.
  apply andb_true_iff in H1 as [Hn1 Hs1]. apply andb_true_iff in H2 as [Hn2 Hs2].
  apply Nat.eqb_eq in Hs1, Hs2.
  rewrite (string_eqb_trans _ _ _ Hn1 Hn2), Hs1, Hs2, Nat.eqb_refl. reflexivity.
Qed.

Lemma FStage_eqb_refl (a : FStage) : FStage_eqb a a = true.
Proof. unfold FStage_eqb. now rewrite String.eqb_refl, Nat.eqb_refl. Qed.

Lemma fm_find_put {V} (k k' : FStage) (v : V) (m : list (FStage * V)) :
  om_find FStage_eqb k (om_put FStage_ltb FStage_eqb k' v m)
  = if FStage_eqb k k' then Some v else om_find FStage_eqb k m.
Proof. apply om_find_put; [apply FStage_eqb_sym | apply FStage_eqb_trans]. Qed.

Lemma fm_find_erase {V} (k k' : FStage) (m : list (FStage * V)) :
  om_find FStage_eqb k (om_erase FStage_eqb k' m)
  = if FStage_eqb k k' then None else om_find FStage_eqb k m.
Proof. apply om_find_erase; [apply FStage_eqb_sym | apply FStage_eqb_trans]. Qed.

Lemma fm_find_keq {V} (a b : FStage) (m : list (FStage * V)) :
  FStage_eqb a b = true -> om_find FStage_eqb a m = om_find FStage_eqb b m.
Proof. apply om_find_keq; [apply FStage_eqb_sym | apply FStage_eqb_trans]. Qed.

(** [FStage::operator<] is a strict order that agrees with [operator==]. *)
Lemma FStage_ltb_spec (a b : FStage) :
  FStage_ltb a b = true <->
  String.ltb (name (func a)) (name (func b)) = true
  \/ (name (func a) = name (func b) /\ (stage_num a < stage_num b)%nat).
Proof.
  unfold FStage_ltb. rewrite orb_true_iff, andb_true_iff, String.eqb_eq, Nat.ltb_lt.
  reflexivity.
Qed.

Lemma FStage_eqb_spec (a b : FStage) :
  FStage_eqb a b = true <->
  name (func a) = name (func b) /\ stage_num a = stage_num b.
Proof.
  unfold FStage_eqb. rewrite andb_true_iff, String.eqb_eq, Nat.eqb_eq. reflexivity.
Qed.

Lemma FStage_ltb_trans (a b c : FStage) :
  FStage_ltb a b = true -> FStage_ltb b c = true -> FStage_ltb a c = true.
Proof.
  rewrite !FStage_ltb_spec. intros [H1 | [E1 L1]] [H2 | [E2 L2]].
  - left. exact (string_ltb_trans _ _ _ H1 H2).
  - left. now rewrite <- E2.
  - left. now rewrite E1.
  - right. split; [congruence | lia].
Qed.

Lemma FStage_ltb_asym (a b : FStage) :
  FStage_ltb a b = true -> FStage_ltb b a = false.
Proof.
  intros H. destruct (FStage_ltb b a) eqn:E; [| reflexivity].
  apply FStage_ltb_spec in H, E.
  destruct H as [H1 | [E1 L1]], E as [H2 | [E2 L2]].
  - rewrite (string_ltb_asym _ _ H1) in H2. discriminate.
  - rewrite E2 in H1. rewrite (string_ltb_asym _ _ H1) in H1. discriminate.
  - rewrite E1 in H2. rewrite (string_ltb_asym _ _ H2) in H2. discriminate.
  - lia.
Qed.

Lemma FStage_ltb_not_eqb (a b : FStage) :
  FStage_ltb a b = true -> FStage_eqb a b = false.
Proof.
  intros H. destruct (FStage_eqb a b) eqn:E; [| reflexivity].
  apply FStage_ltb_spec in H. apply FStage_eqb_spec in E as [En Es].
  destruct H as [H | [_ L]]; [| lia].
  rewrite En in H. rewrite (string_ltb_asym _ _ H) in H. discriminate.
Qed.

Lemma FStage_ltb_total (a b : FStage) :
  FStage_eqb a b = false -> FStage_ltb a b = false -> FStage_ltb b a = true.
Proof.
  unfold FStage_eqb, FStage_ltb. intros He Hl.
  apply orb_false_iff in Hl as [Hl1 Hl2].
  destruct (String.eqb (name (func a)) (name (func b))) eqn:En; simpl in *.
  - rewrite String.eqb_sym, En. simpl.
    apply Nat.eqb_neq in He. apply Nat.ltb_ge in Hl2.
    replace (Nat.ltb (stage_num b) (stage_num a)) with true
      by (symmetry; apply Nat.ltb_lt; lia).
    apply orb_true_r.
  - now rewrite (string_ltb_total _ _ En Hl1).
Qed.

Lemma FStage_ltb_eqb_r (a b c : FStage) :
  FStage_eqb a b = true -> FStage_ltb c a = FStage_ltb c b.
Proof.
  intros H. apply FStage_eqb_spec in H as [En Es].
  unfold FStage_ltb. now rewrite En, Es.
Qed.

(** X27.  [FStage::operator<] is a strict weak order that agrees with
    [FStage::operator==]: no stage is below itself, the order is
    transitive, and two stages are equal exactly when neither is below the
    other, so a [std::map] keyed by stages finds a key exactly when an
    equal one was stored. *)
Theorem FStage_strict_weak_order :
  (forall a, FStage_ltb a a = false)
  /\ (forall a b c, FStage_ltb a b = true -> FStage_ltb b c = true ->
                    FStage_ltb a c = true)
  /\ (forall a b, FStage_eqb a b = true
                  <-> FStage_ltb a b = false /\ FStage_ltb b a = false).
Proof.
  split; [| split].
  - intros a. destruct (FStage_ltb a a) eqn:E; [| reflexivity].
    pose proof (FStage_ltb_asym a a E). congruence.
  - exact FStage_ltb_trans.
  - intros a b. split.
    + intros He. split.
      * destruct (FStage_ltb a b) eqn:E; [| reflexivity].
        rewrite (FStage_ltb_not_eqb a b E) in He. discriminate.
      * destruct (FStage_ltb b a) eqn:E; [| reflexivity].
        rewrite FStage_eqb_sym in He.
        rewrite (FStage_ltb_not_eqb b a E) in He. discriminate.
    + intros [Hab Hba]. destruct (FStage_eqb a b) eqn:E; [reflexivity |].
      rewrite (FStage_ltb_total a b E Hab) in Hba. discriminate.
Qed.


(** ** Control flow of the longer functions

    [Go a]: fall through with [a]; [Return r]: an early [return r];
    [Crash]: a failed [internal_assert] or an undefined read. *)

Inductive flow (R A : Type) : Type :=
| Go (a : A)
| Return (r : R)
| Crash.
Arguments Go {R A} a.
Arguments Return {R A} r.
Arguments Crash {R A}.

Definition flow_bind {R A B} (m : flow R A) (k : A -> flow R B) : flow R B :=
  match m with
  | Go a => k a
  | Return r => Return r
  | Crash => Crash
  end.

Notation "x <~ e ;; k" := (flow_bind e (fun x => k))
  (at level 61, e at next level, right associativity).

Definition lift_opt {R A} (o : option A) : flow R A :=
  match o with Some a => Go a | None => Crash end.

Definition run_flow {R} (m : flow R R) : option R :=
  match m with
  | Go r => Some r
  | Return r => Some r
  | Crash => None
  end.

Fixpoint flow_fold {R A B} (f : B -> A -> flow R B) (l : list A) (acc : B) : flow R B :=
  match l with
  | [] => Go acc
  | a :: r => acc' <~ f acc a ;; flow_fold f r acc'
  end.

Fixpoint foldM {A B} (f : B -> A -> option B) (l : list A) (acc : B) : option B :=
  match l with
  | [] => Some acc
  | a :: r => acc' <- f acc a ;; foldM f r acc'
  end.

Fixpoint mapM {A B} (f : A -> option B) (l : list A) : option (list B) :=
  match l with
  | [] => Some []
  | a :: r => b <- f a ;; bs <- mapM f r ;; Some (b :: bs)
  end.

(** A vector with its indices, for [for (size_t i = 0; i < v.size(); i++)]. *)
Definition indexed {A} (l : list A) : list (nat * A) := combine (seq 0 (length l)) l.

(** ** Helpers of the anonymous namespace *)

Definition set_level_root (s : Schedule) : Schedule :=
  mkSchedule (splits s) (bounds s) (estimates s) (dims s) (rvars s) LLRoot LLRoot.

Definition set_def_root (d : StageDef) : StageDef :=
  mkStageDef (values d) (def_args d) (set_level_root (schedule d)) (specializations d).

Definition set_function_defaults (f : Function) : Function :=
  mkFunction (name f) (args f) (set_def_root (definition f))
             (map set_def_root (updates f)) (output_types f)
             (has_extern_definition f) (extern_arguments f).

(** [set_schedule_defaults(env)]. *)
Definition set_schedule_defaults (env : smap Function) : smap Function :=
  map (fun kv => (fst kv, set_function_defaults (snd kv))) env.

Definition is_some {A} (o : option A) : bool :=
  match o with Some _ => true | None => false end.

(** A definition stored and computed at root. *)
Definition stage_at_root (d : StageDef) : Prop :=
  store_level (schedule d) = LLRoot /\ compute_level (schedule d) = LLRoot.

Definition all_stages_at_root (f : Function) : Prop :=
  stage_at_root (definition f) /\ Forall stage_at_root (updates f).

Lemma set_schedule_defaults_root (env : smap Function) (n : string) (f : Function) :
  In (n, f) (set_schedule_defaults env) -> all_stages_at_root f.
Proof.
  unfold set_schedule_defaults. intros H.
  apply in_map_iff in H as ([n0 f0] & [= <- <-] & _).
  split; [split; reflexivity |].
  simpl. apply Forall_forall. intros d Hd.
  apply in_map_iff in Hd as (d0 & <- & _). split; reflexivity.
Qed.

(** The condition under which the inner loop of [check_estimates_on_outputs]
    clears the flag. *)
Definition estimate_rejected (vars : list string) (e : Bound) : bool :=
  negb (existsb (String.eqb (bvar e)) vars)
  || negb (is_some (as_IntImm (bmin e)) && is_some (as_IntImm (bextent e))).

(** The inner [for] loop: a rejected estimate clears the flag and leaves the
    loop. *)
Fixpoint check_estimates_inner (vars : list string) (ests : list Bound)
         (estimates_avail : bool) : bool :=
  match ests with
  | [] => estimates_avail
  | e :: r =>
      if estimate_rejected vars e then false
      else check_estimates_inner vars r estimates_avail
  end.

(** The outer [for] loop: a size mismatch clears the flag and leaves the
    loop; otherwise the inner loop runs and the next output is visited. *)
Fixpoint check_estimates_outer (outputs : list Function) (estimates_avail : bool) : bool :=
  match outputs with
  | [] => estimates_avail
  | out :: rest =>
      let ests := estimates (schedule (definition out)) in
      if negb (Nat.eqb (length ests) (length (args out))) then false
      else check_estimates_outer rest (check_estimates_inner (args out) ests estimates_avail)
  end.

Definition check_estimates_on_outputs (outputs : list Function) : bool :=
  check_estimates_outer outputs true.

(** ** [struct DependenceAnalysis] *)

(** Iterators of [std::map<string, V>]: an entry of the container [owner],
    or that container's [end()].  Iterators of two containers never compare
    equal. *)
Inductive map_iterator (V : Type) : Type :=
| ItEntry (owner : nat) (key : string) (value : V)
| ItEnd (owner : nat).
Arguments ItEntry {V} owner key value.
Arguments ItEnd {V} owner.

Definition it_find {V} (owner : nat) (k : string) (m : smap V) : map_iterator V :=
  match sm_find k m with
  | Some v => ItEntry owner k v
  | None => ItEnd owner
  end.

Definition it_eqb {V} (a b : map_iterator V) : bool :=
  match a, b with
  | ItEnd o1, ItEnd o2 => Nat.eqb o1 o2
  | ItEntry o1 k1 _, ItEntry o2 k2 _ => Nat.eqb o1 o2 && String.eqb k1 k2
  | _, _ => false
  end.

(** The two local maps of [redundant_regions]. *)
Definition regions_id : nat := 0.
Definition regions_shifted_id : nat := 1.

Fixpoint map2 {A B C} (f : A -> B -> C) (l1 : list A) (l2 : list B) : list C :=
  match l1, l2 with
  | a :: r1, b :: r2 => f a b :: map2 f r1 r2
  | _, _ => []
  end.

(** The estimate [get_pipeline_bounds] takes for an argument: the most
    recent one that names it. *)
Definition most_recent_estimate (ests : list Bound) (arg : string) : option Bound :=
  find (fun est => String.eqb (bvar est) arg) (rev ests).

(** [Scope<Interval>]: the innermost binding of a name first. *)
Definition Scope : Type := list (string * Interval).

Definition scope_push (n : string) (i : Interval) (s : Scope) : Scope := (n, i) :: s.

(** [f_queue] of [regions_required]. *)
Definition StageQueue : Type := list (FStage * DimBounds).

Section DependenceAnalysis.
(** The member [env]. *)
Variable env : smap Function.
(** [simplify] of Simplify.h and [Interval::make_intersection]. *)
Variable simplify : Expr -> Expr.
Variable make_intersection : Interval -> Interval -> Interval.
(** From Bounds.h, each with the member [func_val_bounds] as its last
    argument: [merge_boxes(a, b)] (the value of [a] afterwards),
    [boxes_required(e, scope, func_val_bounds)] and
    [bounds_of_expr_in_scope(e, scope, func_val_bounds)]. *)
Variable merge_boxes : Box -> Box -> Box.
Variable boxes_required : Expr -> Scope -> smap Box.
Variable bounds_of_expr_in_scope : Expr -> Scope -> Interval.
(** From AutoScheduleUtils.h: [SubstituteVarEstimates().mutate(e)] and
    [get_stage_bounds(f, stage_num, pure_bounds)]; the overload that
    returns a vector holds this answer for every stage of [f]. *)
Variable substitute_var_estimates : Expr -> Expr.
Variable get_stage_bounds : Function -> nat -> DimBounds -> DimBounds.

Definition simplify_box (b : Box) : Box :=
  map (fun i => mkInterval (simplify (imin i)) (simplify (imax i))) b.

(** One round of the loop of [merge_regions]. *)
Definition merge_region (result : smap Box) (reg : string * Box) : smap Box :=
  match sm_find (fst reg) result with
  | None => sm_emplace (fst reg) (snd reg) result
  | Some b => sm_put (fst reg) (merge_boxes b (snd reg)) result
  end.

Definition merge_regions (result partial : smap Box) : smap Box :=
  fold_left merge_region partial result.

Definition queue_func_regions (f_queue : StageQueue) (prod_func : Function) (region : Box)
  : option StageQueue :=
  _ <- assert (Nat.eqb (length region) (length (args prod_func))) ;;
  let prod_pure_bounds :=
    fold_left (fun b av => sm_put (fst av) (snd av) b) (combine (args prod_func) region) [] in
  let num_stages := S (length (updates prod_func)) in
  Some (f_queue
          ++ map (fun prod_s =>
                    (mkFStage prod_func prod_s,
                     get_stage_bounds prod_func prod_s prod_pure_bounds))
                 (seq 0 num_stages)).

(** One round of the loop of [merge_and_queue_regions], on the queue and
    the global map of regions. *)
Definition merge_and_queue_step (prods : sset) (only_regions_computed : bool)
           (curr_func_name : string) (st : StageQueue * smap Box) (reg : string * Box)
  : option (StageQueue * smap Box) :=
  let f_queue := fst st in
  let regions :=
    if negb only_regions_computed
       || (only_regions_computed && negb (String.eqb (fst reg) curr_func_name))
    then merge_region (snd st) reg else snd st in
  if negb (ss_mem (fst reg) prods) then Some (f_queue, regions)
  else
    match sm_find (fst reg) env with
    | Some prod_func =>
        if negb (String.eqb (fst reg) curr_func_name) then
          f_queue <- queue_func_regions f_queue prod_func (snd reg) ;;
          Some (f_queue, regions)
        else Some (f_queue, regions)
    | None => Some (f_queue, regions)
    end.

Definition merge_and_queue_regions (st : StageQueue * smap Box) (curr_regions : smap Box)
           (prods : sset) (only_regions_computed : bool) (curr_func_name : string)
  : option (StageQueue * smap Box) :=
  foldM (merge_and_queue_step prods only_regions_computed curr_func_name) curr_regions st.

(** The scope of a stage: its loop bounds with the parameter estimates
    substituted, simplified. *)
Definition stage_scope (def : StageDef) (curr_bounds : DimBounds) : option Scope :=
  foldM (fun curr_scope d =>
           b <- get_element curr_bounds (dvar d) ;;
           let lower := substitute_var_estimates (imin b) in
           let upper := substitute_var_estimates (imax b) in
           Some (scope_push (dvar d) (mkInterval (simplify lower) (simplify upper))
                            curr_scope))
        (loop_dims (dims (schedule def))) [].

(** [for (v = 0; v < n; v++) reg[name].push_back(Interval())]: no entry at
    all for [n = 0]. *)
Definition infinite_region (n : string) (dimensions : nat) : smap Box :=
  match dimensions with
  | O => []
  | S _ => [(n, repeat Interval_everything dimensions)]
  end.

(** One argument of an extern definition. *)
Definition extern_argument_step (prods : sset) (only_regions_computed : bool)
           (s : FStage) (curr_scope : Scope) (st : StageQueue * smap Box)
           (arg : ExternFuncArgument) : option (StageQueue * smap Box) :=
  match arg with
  | ArgFunc prod_name =>
      prod_func <- get_element env prod_name ;;
      let prod_reg := infinite_region prod_name (length (args prod_func)) in
      merge_and_queue_regions st prod_reg prods only_regions_computed (name (func s))
  | ArgExpr e =>
      let arg_regions := boxes_required (substitute_var_estimates e) curr_scope in
      merge_and_queue_regions st arg_regions prods only_regions_computed (name (func s))
  | ArgBuffer buf_name dimensions =>
      Some (fst st, merge_regions (snd st) (infinite_region buf_name dimensions))
  end.

(** One value of the definition: the regions its expression and the
    left-hand-side arguments read, and the region of the stage itself. *)
Definition value_step (prods : sset) (only_regions_computed : bool) (s : FStage)
           (def : StageDef) (curr_scope : Scope) (st : StageQueue * smap Box) (val : Expr)
  : option (StageQueue * smap Box) :=
  let curr_regions := boxes_required (substitute_var_estimates val) curr_scope in
  let with_args :=
    fold_left
      (fun acc arg =>
         let arg_regions := boxes_required (substitute_var_estimates arg) curr_scope in
         (merge_regions (fst acc) arg_regions,
          snd acc ++ [bounds_of_expr_in_scope arg curr_scope]))
      (def_args def) (curr_regions, []) in
  let curr_regions := merge_region (fst with_args) (name (func s), snd with_args) in
  merge_and_queue_regions st curr_regions prods only_regions_computed (name (func s)).

(** The body of the [while] loop up to [pop_front], for the front entry. *)
Definition visit_stage (prods : sset) (only_regions_computed : bool)
           (front : FStage * DimBounds) (st : StageQueue * smap Box)
  : option (StageQueue * smap Box) :=
  let s := fst front in
  let curr_bounds := snd front in
  let def := get_stage_definition (func s) (stage_num s) in
  curr_scope <- stage_scope def curr_bounds ;;
  st <- (if has_extern_definition (func s)
         then foldM (extern_argument_step prods only_regions_computed s curr_scope)
                    (extern_arguments (func s)) st
         else Some st) ;;
  foldM (value_step prods only_regions_computed s def curr_scope) (values def) st.

(** [while (!f_queue.empty())]; [fuel] bounds the number of entries
    visited, and the answer is [None] when it runs out. *)
Fixpoint traverse_queue (fuel : nat) (prods : sset) (only_regions_computed : bool)
         (f_queue : StageQueue) (regions : smap Box) : option (smap Box) :=
  match f_queue with
  | [] => Some regions
  | front :: _ =>
      match fuel with
      | O => None
      | S fuel' =>
          st <- visit_stage prods only_regions_computed front (f_queue, regions) ;;
          traverse_queue fuel' prods only_regions_computed (tl (fst st)) (snd st)
      end
  end.

(** The estimate of dimension [i] of [curr_f], for a bound that is not an
    integer literal; the last matching estimate stays.  Reading [->value]
    of an estimate that is no literal is undefined. *)
Definition estimate_matches (curr_f : Function) (i : nat) (b : Bound) : bool :=
  match nth_error (args curr_f) i with
  | Some a => String.eqb (bvar b) a
  | None => false
  end.

Definition concrete_lower (curr_f : Function) (i : nat) (lower : Expr) : option Expr :=
  foldM (fun lower b =>
           if estimate_matches curr_f i b then
             bmin_value <- as_IntImm (bmin b) ;;
             Some (IntImm bmin_value)
           else Some lower)
        (estimates (schedule (definition curr_f))) lower.

Definition concrete_upper (curr_f : Function) (i : nat) (upper : Expr) : option Expr :=
  foldM (fun upper b =>
           if estimate_matches curr_f i b then
             bmin_value <- as_IntImm (bmin b) ;;
             bextent_value <- as_IntImm (bextent b) ;;
             Some (IntImm (sub64 (add64 bmin_value bextent_value) 1))
           else Some upper)
        (estimates (schedule (definition curr_f))) upper.

Definition concrete_interval (fname : string) (i : nat) (iv : Interval) : option Interval :=
  let in_env := sm_find fname env in
  lower <- match as_IntImm (imin iv), in_env with
           | None, Some curr_f => concrete_lower curr_f i (imin iv)
           | _, _ => Some (imin iv)
           end ;;
  upper <- match as_IntImm (imax iv), in_env with
           | None, Some curr_f => concrete_upper curr_f i (imax iv)
           | _, _ => Some (imax iv)
           end ;;
  Some (mkInterval lower upper).

(** The last loop of [regions_required]. *)
Definition concrete_regions (regions : smap Box) : option (smap Box) :=
  foldM (fun concrete f_reg =>
           concrete_box <- mapM (fun iv => concrete_interval (fst f_reg) (fst iv) (snd iv))
                                (indexed (simplify_box (snd f_reg))) ;;
           Some (sm_put (fst f_reg) concrete_box concrete))
        regions [].

(** [regions_required(f, stage_num, bounds, prods, only_regions_computed)]. *)
Definition regions_required (fuel : nat) (f : Function) (stage_num : nat)
           (bnds : DimBounds) (prods : sset) (only_regions_computed : bool)
  : option (smap Box) :=
  let start := mkFStage f stage_num in
  regions <- traverse_queue fuel prods only_regions_computed [(start, bnds)] [] ;;
  concrete_regions regions.

(** [regions_required(f, pure_bounds, prods, only_regions_computed)]. *)
Definition regions_required_pure (fuel : nat) (f : Function) (pure_bounds : DimBounds)
           (prods : sset) (only_regions_computed : bool) : option (smap Box) :=
  foldM (fun regions s =>
           let bnds := get_stage_bounds f s pure_bounds in
           stage_regions <- regions_required fuel f s bnds prods only_regions_computed ;;
           Some (merge_regions regions stage_regions))
        (seq 0 (S (length (updates f)))) [].

(** The loop that builds [shifted_bounds]. *)
Definition shift_bounds (var : string) (bnds : DimBounds) : DimBounds :=
  fold_left
    (fun shifted b =>
       if String.eqb (fst b) var then
         let len := Add (Sub (imax (snd b)) (imin (snd b))) (IntImm 1) in
         sm_put (fst b) (mkInterval (Add (imin (snd b)) len) (Add (imax (snd b)) len)) shifted
       else sm_put (fst b) (snd b) shifted)
    bnds [].

(** One round of the loop over [regions]: the iterator into
    [regions_shifted] is compared with [regions.end()]. *)
Definition overlap_step (regions_shifted : smap Box) (overlaps : smap Box)
           (reg : string * Box) : option (smap Box) :=
  let iter := it_find regions_shifted_id (fst reg) regions_shifted in
  if it_eqb iter (ItEnd regions_id) then Some overlaps
  else
    match iter with
    | ItEnd _ => None
    | ItEntry _ _ b_shifted =>
        let b := snd reg in
        _ <- assert (Nat.eqb (length b) (length b_shifted)) ;;
        let b_intersect := map2 make_intersection b b_shifted in
        _ <- assert (negb (sm_mem (fst reg) overlaps)) ;;
        Some (sm_emplace (fst reg) b_intersect overlaps)
    end.

Definition redundant_regions (fuel : nat) (f : Function) (stage_num : nat) (var : string)
           (bnds : DimBounds) (prods : sset) (only_regions_computed : bool)
  : option (smap Box) :=
  regions <- regions_required fuel f stage_num bnds prods only_regions_computed ;;
  let shifted_bounds := shift_bounds var bnds in
  regions_shifted <- regions_required fuel f stage_num shifted_bounds prods
                                      only_regions_computed ;;
  overlaps <- foldM (overlap_step regions_shifted) regions [] ;;
  Some (map (fun kv => (fst kv, simplify_box (snd kv))) overlaps).

(** [overlap_regions]: one [redundant_regions] query per loop dimension. *)
Definition overlap_regions (fuel : nat) (f : Function) (stage_num : nat) (bnds : DimBounds)
           (prods : sset) (only_regions_computed : bool) : option (list (smap Box)) :=
  foldM (fun conc_overlaps d =>
           conc_reg <- redundant_regions fuel f stage_num (dvar d) bnds prods
                                         only_regions_computed ;;
           Some (conc_overlaps ++ [conc_reg]))
        (stage_loop_dims f stage_num) [].

(** The loop over the arguments of an output: [pure_bounds] and
    [out_box].  An argument without estimate gets the unbounded interval in
    [pure_bounds] and nothing in [out_box]. *)
Definition output_bounds (out : Function) : DimBounds * Box :=
  fold_left
    (fun acc arg =>
       match most_recent_estimate (estimates (schedule (definition out))) arg with
       | Some est =>
           let I := mkInterval (bmin est)
                               (simplify (Sub (Add (bmin est) (bextent est)) (IntImm 1))) in
           (sm_emplace arg I (fst acc), snd acc ++ [I])
       | None => (sm_emplace arg Interval_everything (fst acc), snd acc)
       end)
    (args out) ([], []).

(** [get_pipeline_bounds(analysis, outputs)]. *)
Definition get_pipeline_bounds (fuel : nat) (outputs : list Function) : option (smap Box) :=
  foldM (fun pipeline_bounds out =>
           let pure_bounds := fst (output_bounds out) in
           let out_box := snd (output_bounds out) in
           let prods := fold_left (fun s fpair => ss_insert (fst fpair) s) env [] in
           regions <- regions_required_pure fuel out pure_bounds prods false ;;
           let regions := sm_emplace (name out) out_box regions in
           Some (merge_regions pipeline_bounds regions))
        outputs [].

(** What the comment in [redundant_regions] describes: a producer absent
    from the shifted query is skipped. *)
Definition overlap_step_documented (regions_shifted : smap Box) (overlaps : smap Box)
           (reg : string * Box) : option (smap Box) :=
  match sm_find (fst reg) regions_shifted with
  | None => Some overlaps
  | Some b_shifted =>
      let b := snd reg in
      _ <- assert (Nat.eqb (length b) (length b_shifted)) ;;
      _ <- assert (negb (sm_mem (fst reg) overlaps)) ;;
      Some (sm_emplace (fst reg) (map2 make_intersection b b_shifted) overlaps)
  end.

(** *** The guard for a producer missing from the shifted query *)

(** An iterator into [regions_shifted] is never [regions.end()]. *)
Lemma shifted_iterator_not_regions_end (regions_shifted : smap Box) (k : string) :
  it_eqb (it_find regions_shifted_id k regions_shifted) (ItEnd regions_id) = false.
Proof. unfold it_find. destruct (sm_find k regions_shifted); reflexivity. Qed.

Lemma overlap_step_missing (regions_shifted overlaps : smap Box) (reg : string * Box) :
  sm_find (fst reg) regions_shifted = None ->
  overlap_step regions_shifted overlaps reg = None.
Proof.
  intros H. unfold overlap_step.
  rewrite shifted_iterator_not_regions_end. unfold it_find. now rewrite H.
Qed.

Lemma overlap_step_present (regions_shifted overlaps : smap Box) (reg : string * Box) :
  sm_find (fst reg) regions_shifted <> None ->
  overlap_step regions_shifted overlaps reg
  = overlap_step_documented regions_shifted overlaps reg.
Proof.
  intros H. unfold overlap_step, overlap_step_documented.
  rewrite shifted_iterator_not_regions_end. unfold it_find.
  destruct (sm_find (fst reg) regions_shifted) as [b_shifted |]; [| congruence].
  destruct (assert (Nat.eqb _ _)); [| reflexivity].
  destruct (assert (negb _)); reflexivity.
Qed.

Lemma foldM_fails {A B} (f : B -> A -> option B) (l : list A) (a : A) :
  In a l -> (forall acc, f acc a = None) -> forall acc, foldM f l acc = None.
Proof.
  intros Hin Hf. induction l as [| x l IH]; intros acc; simpl; [destruct Hin |].
  destruct Hin as [-> | Hin].
  - now rewrite Hf.
  - destruct (f acc x); [now apply IH | reflexivity].
Qed.

(** C5, on the code: when the query at the shifted bounds lacks a
    producer that the query at [bounds] reports, [redundant_regions] does
    not skip the producer; the comparison with [regions.end()] lets the
    end iterator of [regions_shifted] through and the read of
    [iter->second] is undefined. *)
Theorem redundant_regions_missing_producer
        (fuel : nat) (f : Function) (stage_num : nat) (var : string) (bnds : DimBounds)
        (prods : sset) (only_regions_computed : bool)
        (regions regions_shifted : smap Box) (p : string) (b : Box) :
  regions_required fuel f stage_num bnds prods only_regions_computed = Some regions ->
  regions_required fuel f stage_num (shift_bounds var bnds) prods only_regions_computed
  = Some regions_shifted ->
  In (p, b) regions ->
  sm_find p regions_shifted = None ->
  redundant_regions fuel f stage_num var bnds prods only_regions_computed = None
  /\ foldM (overlap_step_documented regions_shifted) [(p, b)] [] = Some [].
Proof.
  intros Hr Hs Hin Hmiss. split.
  - unfold redundant_regions. rewrite Hr, Hs.
    rewrite (foldM_fails (overlap_step regions_shifted) regions (p, b) Hin); [reflexivity |].
    intros acc. now apply overlap_step_missing.
  - simpl. unfold overlap_step_documented. simpl. now rewrite Hmiss.
Qed.

(** Where every producer is present in the shifted query, the result is
    the per-dimension intersection of the two boxes, simplified. *)
Lemma redundant_regions_all_present
      (fuel : nat) (f : Function) (stage_num : nat) (var : string) (bnds : DimBounds)
      (prods : sset) (only_regions_computed : bool)
      (regions regions_shifted : smap Box) :
  regions_required fuel f stage_num bnds prods only_regions_computed = Some regions ->
  regions_required fuel f stage_num (shift_bounds var bnds) prods only_regions_computed
  = Some regions_shifted ->
  (forall p b, In (p, b) regions -> sm_find p regions_shifted <> None) ->
  redundant_regions fuel f stage_num var bnds prods only_regions_computed
  = (overlaps <- foldM (overlap_step_documented regions_shifted) regions [] ;;
     Some (map (fun kv => (fst kv, simplify_box (snd kv))) overlaps)).
Proof.
  intros Hr Hs Hall. unfold redundant_regions. rewrite Hr, Hs.
  replace (foldM (overlap_step regions_shifted) regions [])
    with (foldM (overlap_step_documented regions_shifted) regions []); [reflexivity |].
  clear Hr. generalize (@nil (string * Box)).
  induction regions as [| [p0 b0] r IH]; intros acc; simpl; [reflexivity |].
  rewrite overlap_step_present by (apply (Hall p0 b0); now left).
  destruct (overlap_step_documented regions_shifted acc (p0, b0)); [| reflexivity].
  apply IH. intros p1 b1 Hin. apply (Hall p1 b1). now right.
Qed.
(** *** Further properties of the dependence analysis *)

Lemma foldM_keeps {A B} (P : B -> Prop) (f : B -> A -> option B) (l : list A) :
  (forall acc a acc', P acc -> f acc a = Some acc' -> P acc') ->
  forall acc r, P acc -> foldM f l acc = Some r -> P r.
Proof.
  intros Hf. induction l as [| a l IH]; intros acc r Hacc; simpl.
  - now intros [= <-].
  - destruct (f acc a) as [acc' |] eqn:E; [| discriminate].
    apply IH. exact (Hf _ _ _ Hacc E).
Qed.

Lemma fold_left_ext {A B} (f g : A -> B -> A) (l : list B) (a : A) :
  (forall x y, f x y = g x y) -> fold_left f l a = fold_left g l a.
Proof.
  intros H. revert a. induction l as [| y l IH]; intros a; simpl; [reflexivity |].
  now rewrite H, IH.
Qed.

Lemma merge_region_find (result : smap Box) (reg : string * Box) (k : string) :
  sm_find k (merge_region result reg)
  = if String.eqb k (fst reg)
    then Some (match sm_find (fst reg) result with
               | Some b => merge_boxes b (snd reg)
               | None => snd reg
               end)
    else sm_find k result.
Proof.
  unfold merge_region.
  destruct (sm_find (fst reg) result) as [b |] eqn:E.
  - apply sm_find_put.
  - now rewrite sm_find_emplace, E.
Qed.

(** X1. [merge_regions(result, partial)] loses no function: a function of
    both maps gets the merged box, a function of one map keeps its box,
    and no other key appears. *)
Theorem merge_regions_find (result partial : smap Box) (k : string) :
  sm_sorted partial ->
  sm_find k (merge_regions result partial)
  = match sm_find k result, sm_find k partial with
    | Some a, Some b => Some (merge_boxes a b)
    | Some a, None => Some a
    | None, Some b => Some b
    | None, None => None
    end.
Proof.
  unfold merge_regions. revert result.
  induction partial as [| [k1 b1] r IH]; intros result Hs; simpl.
  - destruct (sm_find k result); reflexivity.
  - apply sm_sorted_tail in Hs as [Hk1 Hr].
    rewrite (IH _ Hr), merge_region_find. simpl.
    unfold sm_find at 4. simpl. fold (@sm_find Box).
    destruct (String.eqb_spec k k1) as [-> | Hne].
    + rewrite Hk1. destruct (sm_find k1 result); reflexivity.
    + reflexivity.
Qed.

(** The interval [i] moved up by its own extent [max - min + 1]. *)
Definition shifted_interval (i : Interval) : Interval :=
  let len := Add (Sub (imax i) (imin i)) (IntImm 1) in
  mkInterval (Add (imin i) len) (Add (imax i) len).

(** X2. The shifted bounds of [redundant_regions] hold the same
    variables as [bounds]; the interval of [var] has its [min] and its
    [max] moved up by [max - min + 1], and every other interval is the one
    of [bounds]. *)
Theorem shift_bounds_find (var k : string) (bnds : DimBounds) :
  sm_sorted bnds ->
  sm_find k (shift_bounds var bnds)
  = option_map (fun i => if String.eqb k var then shifted_interval i else i)
               (sm_find k bnds).
Proof.
  intros Hs. unfold shift_bounds.
  pose (g := fun (n : string) (i : Interval) =>
               if String.eqb n var then shifted_interval i else i).
  rewrite (fold_left_ext _ (fun acc kv => sm_put (fst kv) (g (fst kv) (snd kv)) acc)).
  - rewrite (sm_fold_put_find g bnds Hs).
    destruct (sm_find k bnds); reflexivity.
  - intros acc [n i]. unfold g. simpl. destruct (String.eqb n var); reflexivity.
Qed.

(** The answer of [regions_required] is a map in key order. *)
Lemma concrete_regions_sorted (regions r : smap Box) :
  concrete_regions regions = Some r -> sm_sorted r.
Proof.
  unfold concrete_regions.
  apply (foldM_keeps (fun m : smap Box => sm_sorted m)); [| exact I].
  intros acc a acc' Hacc.
  destruct (mapM _ _) as [cb |]; [| discriminate].
  intros [= <-]. now apply sm_put_sorted.
Qed.

Lemma regions_required_sorted fuel f stage_num bnds prods only_regions_computed r :
  regions_required fuel f stage_num bnds prods only_regions_computed = Some r ->
  sm_sorted r.
Proof.
  unfold regions_required.
  destruct (traverse_queue _ _ _ _ _) as [regions |]; [| discriminate].
  apply concrete_regions_sorted.
Qed.

(** The loop over [regions], for a shifted query that holds every
    producer with a box of the same dimension. *)
Lemma overlap_fold_find (regions_shifted : smap Box) (regions : smap Box) :
  sm_sorted regions ->
  (forall p b, In (p, b) regions ->
               exists b', sm_find p regions_shifted = Some b' /\ length b = length b') ->
  forall overlaps,
    (forall p, sm_find p overlaps <> None -> sm_find p regions = None) ->
    exists res,
      foldM (overlap_step regions_shifted) regions overlaps = Some res
      /\ forall p,
           sm_find p res
           = match sm_find p regions with
             | Some b =>
                 option_map (fun b' => map2 make_intersection b b')
                            (sm_find p regions_shifted)
             | None => sm_find p overlaps
             end.
Proof.
  induction regions as [| [p1 b1] r IH]; intros Hs Hall overlaps Hfresh; simpl.
  - exists overlaps. split; reflexivity.
  - apply sm_sorted_tail in Hs as [Hp1 Hr].
    destruct (Hall p1 b1) as (b1' & Hb1' & Hlen); [now left |].
    unfold overlap_step at 1. rewrite shifted_iterator_not_regions_end.
    unfold it_find. simpl. rewrite Hb1'. rewrite Hlen, Nat.eqb_refl. simpl.
    assert (Hnew : sm_find p1 overlaps = None).
    { destruct (sm_find p1 overlaps) eqn:E; [| reflexivity].
      assert (Hne : sm_find p1 overlaps <> None) by congruence.
      apply Hfresh in Hne. unfold sm_find in Hne. simpl in Hne.
      rewrite String.eqb_refl in Hne. discriminate. }
    unfold sm_mem, om_mem. fold (@sm_find Box). rewrite Hnew. simpl.
    destruct (IH Hr (fun p b Hin => Hall p b (or_intror Hin))
                 (sm_emplace p1 (map2 make_intersection b1 b1') overlaps))
      as (res & Hres & Hfind).
    + intros p Hp. rewrite sm_find_emplace, Hnew in Hp.
      destruct (String.eqb p p1) eqn:Ep.
      * apply String.eqb_eq in Ep. subst p. exact Hp1.
      * specialize (Hfresh p Hp). unfold sm_find in Hfresh. simpl in Hfresh.
        now rewrite Ep in Hfresh.
    + exists res. split; [exact Hres |]. intros p. rewrite Hfind.
      rewrite sm_find_emplace, Hnew.
      unfold sm_find at 3. simpl. fold (@sm_find Box).
      destruct (String.eqb_spec p p1) as [-> | Hne].
      * rewrite Hp1. now rewrite Hb1'.
      * reflexivity.
Qed.

(** X3. When the query at the shifted bounds reports every producer of
    the query at [bounds], with boxes of the same dimension,
    [redundant_regions] answers, and its answer holds for each producer
    the simplified per-dimension intersection of the two boxes, and
    nothing else. *)
Theorem redundant_regions_intersects
        (fuel : nat) (f : Function) (stage_num : nat) (var : string) (bnds : DimBounds)
        (prods : sset) (only_regions_computed : bool)
        (regions regions_shifted : smap Box) :
  regions_required fuel f stage_num bnds prods only_regions_computed = Some regions ->
  regions_required fuel f stage_num (shift_bounds var bnds) prods only_regions_computed
  = Some regions_shifted ->
  (forall p b, In (p, b) regions ->
               exists b', sm_find p regions_shifted = Some b' /\ length b = length b') ->
  exists overlaps,
    redundant_regions fuel f stage_num var bnds prods only_regions_computed
    = Some overlaps
    /\ forall p,
         sm_find p overlaps
         = match sm_find p regions, sm_find p regions_shifted with
           | Some b, Some b' => Some (simplify_box (map2 make_intersection b b'))
           | _, _ => None
           end.
Proof.
  intros Hr Hsh Hall. unfold redundant_regions. rewrite Hr, Hsh.
  destruct (overlap_fold_find regions_shifted regions
              (regions_required_sorted _ _ _ _ _ _ _ Hr) Hall [])
    as (res & Hres & Hfind); [intros p Hp; now elim Hp |].
  rewrite Hres. eexists. split; [reflexivity |].
  intros p. rewrite sm_find_map_values, Hfind.
  destruct (sm_find p regions); [| reflexivity].
  destruct (sm_find p regions_shifted); reflexivity.
Qed.

(** X4. A query whose bounds leave out a loop variable of the queried
    stage gets no answer, whatever the producers: the scope of the stage
    cannot be built. *)
Theorem regions_required_needs_loop_bounds
        (fuel : nat) (f : Function) (stage_num : nat) (bnds : DimBounds)
        (prods : sset) (only_regions_computed : bool) (d : Dim) :
  In d (stage_loop_dims f stage_num) ->
  sm_find (dvar d) bnds = None ->
  regions_required fuel f stage_num bnds prods only_regions_computed = None.
Proof.
  intros Hin Hmiss. unfold regions_required.
  destruct fuel as [| fuel]; simpl; [reflexivity |].
  unfold visit_stage. simpl. unfold stage_scope.
  rewrite (foldM_fails _ _ d Hin); [reflexivity |].
  intros acc. unfold get_element. now rewrite Hmiss.
Qed.

(** X5. [overlap_regions] answers with one map per loop dimension of the
    stage, in the order of the dimensions. *)
Theorem overlap_regions_one_per_dim
        (fuel : nat) (f : Function) (stage_num : nat) (bnds : DimBounds)
        (prods : sset) (only_regions_computed : bool) (conc_overlaps : list (smap Box)) :
  overlap_regions fuel f stage_num bnds prods only_regions_computed = Some conc_overlaps ->
  length conc_overlaps = length (stage_loop_dims f stage_num)
  /\ forall d dim,
       nth_error (stage_loop_dims f stage_num) d = Some dim ->
       exists conc_reg,
         nth_error conc_overlaps d = Some conc_reg
         /\ redundant_regions fuel f stage_num (dvar dim) bnds prods
                              only_regions_computed = Some conc_reg.
Proof.
  unfold overlap_regions.
  assert (H : forall l acc res,
             foldM (fun conc_overlaps d =>
                      conc_reg <- redundant_regions fuel f stage_num (dvar d) bnds prods
                                                    only_regions_computed ;;
                      Some (conc_overlaps ++ [conc_reg])) l acc = Some res ->
             length res = (length acc + length l)%nat
             /\ forall d dim, nth_error l d = Some dim ->
                  exists conc_reg,
                    nth_error res (length acc + d) = Some conc_reg
                    /\ redundant_regions fuel f stage_num (dvar dim) bnds prods
                                         only_regions_computed = Some conc_reg).
  { induction l as [| x l IH]; intros acc res; simpl.
    - intros [= <-]. split; [lia |]. intros [| d] dim; discriminate.
    - destruct (redundant_regions _ _ _ (dvar x) _ _ _) as [cr |] eqn:E; [| discriminate].
      intros Hf. destruct (IH _ _ Hf) as [Hlen Hnth].
      rewrite length_app in Hlen, Hnth. simpl in Hlen, Hnth.
      split; [lia |]. intros [| d] dim; simpl.
      + intros [= <-]. exists cr. split; [| exact E].
        assert (Hpre : forall l' acc' res',
                   foldM (fun conc_overlaps d =>
                            conc_reg <- redundant_regions fuel f stage_num (dvar d) bnds
                                                          prods only_regions_computed ;;
                            Some (conc_overlaps ++ [conc_reg])) l' acc' = Some res' ->
                   exists tl, res' = acc' ++ tl).
        { clear. induction l' as [| y l' IH']; intros acc' res'; simpl.
          - intros [= <-]. exists []. now rewrite app_nil_r.
          - destruct (redundant_regions _ _ _ (dvar y) _ _ _); [| discriminate].
            intros Hf. destruct (IH' _ _ Hf) as (tl & ->).
            exists (s :: tl). now rewrite <- app_assoc. }
        destruct (Hpre _ _ _ Hf) as (tl & ->).
        rewrite Nat.add_0_r, <- app_assoc. simpl.
        rewrite nth_error_app2 by lia. now rewrite Nat.sub_diag.
      + intros Hd. destruct (Hnth d dim Hd) as (cr' & Hn & Hr).
        exists cr'. split; [| exact Hr].
        replace (length acc + S d)%nat with (length acc + 1 + d)%nat by lia. exact Hn. }
  intros Hf. destruct (H _ _ _ Hf) as [Hlen Hnth]. split; [exact Hlen |].
  intros d dim Hd. exact (Hnth d dim Hd).
Qed.

Lemma foldM_app {A B} (f : B -> A -> option B) (l1 l2 : list A) (acc : B) :
  foldM f (l1 ++ l2) acc = (acc' <- foldM f l1 acc ;; foldM f l2 acc').
Proof.
  revert acc. induction l1 as [| a l1 IH]; intros acc; simpl.
  - reflexivity.
  - destruct (f acc a); [apply IH | reflexivity].
Qed.








(** *** The last loop of [regions_required] *)

(** The estimates of [curr_f] that the loop reads for dimension [i]. *)
Definition estimates_of_dim (curr_f : Function) (i : nat) : list Bound :=
  filter (estimate_matches curr_f i) (estimates (schedule (definition curr_f))).

Lemma concrete_lower_last (curr_f : Function) (i : nat) (ests : list Bound) :
  (forall e, In e ests -> estimate_matches curr_f i e = true ->
             as_IntImm (bmin e) <> None) ->
  forall lower,
    foldM (fun lower b =>
             if estimate_matches curr_f i b then
               bmin_value <- as_IntImm (bmin b) ;;
               Some (IntImm bmin_value)
             else Some lower) ests lower
    = Some (match find (estimate_matches curr_f i) (rev ests) with
            | Some e => bmin e
            | None => lower
            end).
Proof.
  induction ests as [| e ests IH] using rev_ind; intros Hlit lower; [reflexivity |].
  rewrite foldM_app, IH
    by (intros e0 H0 Hm0; exact (Hlit e0 (in_or_app _ _ _ (or_introl H0)) Hm0)).
  rewrite rev_app_distr. simpl.
  destruct (estimate_matches curr_f i e) eqn:Em; [| reflexivity].
  assert (Hin : In e (ests ++ [e])) by (apply in_or_app; right; now left).
  specialize (Hlit e Hin Em).
  destruct (bmin e); try (now elim Hlit). reflexivity.
Qed.

Lemma concrete_upper_last (curr_f : Function) (i : nat) (ests : list Bound) :
  (forall e, In e ests -> estimate_matches curr_f i e = true ->
             as_IntImm (bmin e) <> None /\ as_IntImm (bextent e) <> None) ->
  forall upper,
    foldM (fun upper b =>
             if estimate_matches curr_f i b then
               bmin_value <- as_IntImm (bmin b) ;;
               bextent_value <- as_IntImm (bextent b) ;;
               Some (IntImm (sub64 (add64 bmin_value bextent_value) 1))
             else Some upper) ests upper
    = Some (match find (estimate_matches curr_f i) (rev ests) with
            | Some e =>
                match bmin e, bextent e with
                | IntImm m, IntImm x => IntImm (sub64 (add64 m x) 1)
                | _, _ => upper
                end
            | None => upper
            end).
Proof.
  induction ests as [| e ests IH] using rev_ind; intros Hlit upper; [reflexivity |].
  rewrite foldM_app, IH
    by (intros e0 H0 Hm0; exact (Hlit e0 (in_or_app _ _ _ (or_introl H0)) Hm0)).
  rewrite rev_app_distr. simpl.
  destruct (estimate_matches curr_f i e) eqn:Em; [| reflexivity].
  assert (Hin : In e (ests ++ [e])) by (apply in_or_app; right; now left).
  destruct (Hlit e Hin Em) as [Hm Hx].
  destruct (bmin e); try (now elim Hm).
  destruct (bextent e); try (now elim Hx). reflexivity.
Qed.

(** X7. The last loop of [regions_required] leaves a bound that is an
    integer literal alone, and leaves every bound of a name outside [env]
    alone.  For a function of [env], a lower bound that is no literal
    becomes the [min] of the last estimate on that dimension, and an upper
    bound that is no literal becomes [min + extent - 1] of it; without an
    estimate on the dimension the bound stays.  One estimate on the
    dimension whose [min] is no literal, and the loop does not answer. *)
Theorem concrete_interval_spec (fname : string) (i : nat) (iv : Interval) :
  (sm_find fname env = None -> concrete_interval fname i iv = Some iv)
  /\ (as_IntImm (imin iv) <> None -> as_IntImm (imax iv) <> None ->
      concrete_interval fname i iv = Some iv)
  /\ (forall curr_f,
        sm_find fname env = Some curr_f ->
        (forall e, In e (estimates_of_dim curr_f i) ->
                   as_IntImm (bmin e) <> None /\ as_IntImm (bextent e) <> None) ->
        concrete_interval fname i iv
        = Some (match last (map Some (estimates_of_dim curr_f i)) None with
                | Some e =>
                    mkInterval
                      (match as_IntImm (imin iv) with
                       | Some _ => imin iv
                       | None => bmin e
                       end)
                      (match as_IntImm (imax iv), bmin e, bextent e with
                       | None, IntImm m, IntImm x => IntImm (sub64 (add64 m x) 1)
                       | _, _, _ => imax iv
                       end)
                | None => iv
                end))
  /\ (forall curr_f e,
        sm_find fname env = Some curr_f ->
        In e (estimates_of_dim curr_f i) ->
        as_IntImm (bmin e) = None ->
        as_IntImm (imin iv) = None ->
        concrete_interval fname i iv = None).
Proof.
  unfold concrete_interval. split; [| split; [| split]].
  - intros ->. destruct (as_IntImm (imin iv)), (as_IntImm (imax iv)), iv; reflexivity.
  - intros Hlo Hhi.
    destruct (as_IntImm (imin iv)); [| now elim Hlo].
    destruct (as_IntImm (imax iv)); [| now elim Hhi].
    destruct (sm_find fname env), iv; reflexivity.
  - intros curr_f -> Hlit.
    assert (Hlast : forall l, find (estimate_matches curr_f i) (rev l)
                              = last (map Some (filter (estimate_matches curr_f i) l)) None).
    { induction l as [| e l IHl] using rev_ind; [reflexivity |].
      rewrite rev_app_distr, filter_app. simpl.
      destruct (estimate_matches curr_f i e) eqn:Em.
      - rewrite map_app. simpl. now rewrite last_last.
      - simpl. now rewrite app_nil_r. }
    assert (Hlit' : forall e, In e (estimates (schedule (definition curr_f))) ->
                              estimate_matches curr_f i e = true ->
                              as_IntImm (bmin e) <> None /\ as_IntImm (bextent e) <> None).
    { intros e He Hm. apply Hlit. unfold estimates_of_dim. now apply filter_In. }
    unfold concrete_lower, concrete_upper.
    unfold estimates_of_dim. rewrite <- Hlast.
    destruct (as_IntImm (imin iv)) eqn:Elo, (as_IntImm (imax iv)) eqn:Ehi.
    + destruct (find _ _), iv; reflexivity.
    + rewrite concrete_upper_last by exact Hlit'.
      destruct (find _ _) as [e |]; [| now destruct iv].
      destruct (bmin e), (bextent e); try reflexivity; now destruct iv.
    + rewrite concrete_lower_last by (intros e He Hm; exact (proj1 (Hlit' e He Hm))).
      destruct (find _ _) as [e |]; [| now destruct iv].
      destruct (bmin e), (bextent e); try reflexivity; now destruct iv.
    + rewrite concrete_lower_last by (intros e He Hm; exact (proj1 (Hlit' e He Hm))).
      rewrite concrete_upper_last by exact Hlit'.
      destruct (find _ _) as [e |]; [| now destruct iv].
      destruct (bmin e), (bextent e); try reflexivity; now destruct iv.
  - intros curr_f e -> He Hsym Hlo. rewrite Hlo.
    unfold estimates_of_dim in He. apply filter_In in He as [He Hm].
    unfold concrete_lower.
    rewrite (foldM_fails _ _ e He); [reflexivity |].
    intros acc. now rewrite Hm, Hsym.
Qed.
End DependenceAnalysis.

(** ** [struct Partitioner] *)

(** [struct Cost] of RegionCosts.h. *)
Record Cost : Type := mkCost { arith : Z; memory : Z }.

Record GroupAnalysis : Type := mkGroupAnalysis { cost : Cost; parallelism : Z }.

Record Group : Type := mkGroup {
  output : FStage;
  members : list FStage;
  inlined : sset;
  tile_sizes : smap Z
}.

(** The fields [prod] and [cons] of the source. *)
Record GroupingChoice : Type := mkGroupingChoice { choice_prod : string; choice_cons : FStage }.

Definition GroupingChoice_eqb (a b : GroupingChoice) : bool :=
  String.eqb (choice_prod a) (choice_prod b) && FStage_eqb (choice_cons a) (choice_cons b).

Definition GroupingChoice_ltb (a b : GroupingChoice) : bool :=
  String.ltb (choice_prod a) (choice_prod b)
  || (String.eqb (choice_prod a) (choice_prod b) && FStage_ltb (choice_cons a) (choice_cons b)).

Record GroupConfig : Type := mkGroupConfig { config_tile_sizes : smap Z; analysis : GroupAnalysis }.

Inductive Level : Type := INLINE | FAST_MEM.

(** The mutable members of the partitioner. *)
Record Partitioner : Type := mkPartitioner {
  grouping_cache : list (GroupingChoice * GroupConfig);
  groups : list (FStage * Group);
  children : list (FStage * list FStage);
  group_costs : list (FStage * GroupAnalysis)
}.

Definition fm_find {V} := @om_find FStage V FStage_eqb.
Definition fm_put {V} := @om_put FStage V FStage_ltb FStage_eqb.
Definition fm_emplace {V} := @om_emplace FStage V FStage_ltb FStage_eqb.
Definition fm_erase {V} := @om_erase FStage V FStage_eqb.
Definition fs_mem := @os_mem FStage FStage_eqb.
Definition fs_insert := @os_insert FStage FStage_ltb FStage_eqb.
Definition fs_erase := @os_erase FStage FStage_eqb.

Definition set_tile_sizes (g : Group) (ts : smap Z) : Group :=
  mkGroup (output g) (members g) (inlined g) ts.

(** [tiling == m] on [map<string, int>]. *)
Fixpoint tiling_eqb (a b : smap Z) : bool :=
  match a, b with
  | [], [] => true
  | (k1, v1) :: r1, (k2, v2) :: r2 => String.eqb k1 k2 && (v1 =? v2) && tiling_eqb r1 r2
  | _, _ => false
  end.

Section PartitionerModel.
(** The members the partitioner only reads. *)
Variable env : smap Function.
Variable pipeline_bounds : smap Box.
Variable outputs : list Function.
(** [arch_params.parallelism]. *)
Variable arch_parallelism : Z.

(** From AutoScheduleUtils.h: the [unknown] sentinel, [get_parents],
    [get_stage_bounds], [get_extent], [box_size], [combine_load_costs];
    from ParallelRVar.h: [can_parallelize_rvar]; from Function.h:
    [Function::is_pure]. *)
Variable unknown : Z.
Variable get_parents : Function -> nat -> sset.
Variable get_stage_bounds : Function -> nat -> DimBounds -> DimBounds.
Variable get_extent : Interval -> Z.
Variable box_size : Box -> Z.
Variable combine_load_costs : smap Z -> smap Z -> smap Z.
Variable can_parallelize_rvar : string -> string -> StageDef -> bool.
Variable Function_is_pure : Function -> bool.

(** [dep_analysis.regions_required] (the stage query). *)
Variable regions_required :
  Function -> nat -> DimBounds -> sset -> bool -> option (smap Box).

(** The members of [RegionCosts] the partitioner calls. *)
Variable region_cost : smap Box -> sset -> Cost.
Variable stage_region_cost : string -> nat -> DimBounds -> sset -> Cost.
Variable detailed_load_costs : smap Box -> sset -> smap Z.
Variable stage_detailed_load_costs : string -> nat -> DimBounds -> sset -> smap Z.
Variable region_size : string -> Box -> Z.
Variable input_region_size : string -> Box -> Z.

(** The two floating-point computations of [analyze_group]:
    [std::ceil((float)extent / size)] as stored in a [uint64_t], and
    [std::trunc(std::min(1 + footprint * load_slope, (float)balance))]. *)
Variable ceil_div_float : Z -> Z -> Z.
Variable cost_factor : Z -> Z.

Definition unknown_analysis : GroupAnalysis :=
  mkGroupAnalysis (mkCost unknown unknown) unknown.

(** The stages of a function: [for (s = 0; s < updates().size() + 1; s++)]. *)
Definition stages_of (f : Function) : list FStage :=
  map (mkFStage f) (seq 0 (S (length (updates f)))).

(** [children[p].insert(c)]. *)
Definition children_insert (p c : FStage) (ch : list (FStage * list FStage))
  : list (FStage * list FStage) :=
  match fm_find p ch with
  | Some s => fm_put p (fs_insert c s) ch
  | None => fm_put p [c] ch
  end.

(** The constructor: every stage in a group of its own, and the children
    map of the pipeline graph. *)
Definition initial_groups : list (FStage * Group) :=
  fold_left
    (fun gs kv =>
       fold_left (fun gs stg => fm_emplace stg (mkGroup stg [stg] [] []) gs)
                 (stages_of (snd kv)) gs)
    env [].

Definition initial_children : list (FStage * list FStage) :=
  fold_left
    (fun ch kv =>
       fold_left
         (fun ch s =>
            let f := snd kv in
            let ch1 :=
              fold_left
                (fun ch c =>
                   match sm_find c env with
                   | Some prod_func =>
                       if negb (String.eqb c (fst kv)) then
                         children_insert (mkFStage prod_func (length (updates prod_func)))
                                         (mkFStage f s) ch
                       else ch
                   | None => ch
                   end)
                (get_parents f s) ch in
            match s with
            | O => ch1
            | S s' => children_insert (mkFStage f s') (mkFStage f s) ch1
            end)
         (seq 0 (S (length (updates (snd kv))))) ch)
    env [].

Definition new_Partitioner : Partitioner :=
  mkPartitioner [] initial_groups initial_children [].

(** [get_pipeline_cost]. *)
Definition get_pipeline_cost (p : Partitioner) : option Cost :=
  _ <- assert (0 <? Z.of_nat (length (group_costs p))) ;;
  foldM (fun total_cost g =>
           a <- fm_find (fst g) (group_costs p) ;;
           Some (mkCost (add64 (arith total_cost) (arith (cost a)))
                        (add64 (memory total_cost) (memory (cost a)))))
        (groups p) (mkCost 0 0).

(** [get_bounds]. *)
Definition get_bounds (s : FStage) : option DimBounds :=
  bnds <- foldM (fun bnds da =>
                   box <- get_element pipeline_bounds (name (func s)) ;;
                   i <- nth_error box (fst da) ;;
                   Some (sm_put (snd da) i bnds))
                (indexed (args (func s))) [] ;;
  Some (get_stage_bounds (func s) (stage_num s) bnds).

(** The body of the loop of [get_bounds_from_tile_sizes]. *)
Definition tile_bound (def_bounds : DimBounds) (ts : smap Z) (var : string)
  : option Interval :=
  bound <- get_element def_bounds var ;;
  match sm_find var ts with
  | Some size =>
      let extent := get_extent bound in
      if extent >=? mul32 2 size
      then Some (mkInterval (IntImm 0) (IntImm (sub32 size 1)))
      else Some bound
  | None => Some bound
  end.

Definition get_bounds_from_tile_sizes (s : FStage) (ts : smap Z) : option DimBounds :=
  def_bounds <- get_bounds s ;;
  foldM (fun bnds d =>
           i <- tile_bound def_bounds ts (dvar d) ;;
           Some (sm_put (dvar d) i bnds))
        (stage_loop_dims (func s) (stage_num s)) [].

(** *** [analyze_group]

    The parameter [show_analysis] only selects debug output and is left
    out. *)

Definition group_members_of (g : Group) : sset :=
  fold_left (fun acc stg => ss_insert (name (func stg)) acc) (members g) [].

Definition is_member_name (g : Group) (c : string) : bool :=
  existsb (fun m => String.eqb (name (func m)) c) (members g).

Definition group_inputs_of (g : Group) : sset :=
  fold_left
    (fun acc stg =>
       fold_left (fun acc c => if is_member_name g c then acc else ss_insert c acc)
                 (get_parents (func stg) (stage_num stg)) acc)
    (members g) [].

(** The loop counting tiles: [(estimate_tiles, parallelism,
    num_ele_per_tile)]. *)
Definition count_tiles_step (g : Group) (def : StageDef) (stg_bounds : DimBounds)
           (acc : Z * Z * Z) (d : Dim) : flow GroupAnalysis (Z * Z * Z) :=
  let '(estimate_tiles, par, num_ele_per_tile) := acc in
  match sm_find (dvar d) (tile_sizes g) with
  | Some size =>
      bound <~ lift_opt (get_element stg_bounds (dvar d)) ;;
      let extent := get_extent bound in
      if extent =? unknown then Return unknown_analysis
      else
        let dim_tiles := ceil_div_float extent size in
        Go (mulu64 estimate_tiles dim_tiles,
            (if can_parallelize_rvar (dvar d) (name (func (output g))) def
             then mulu64 par dim_tiles else par),
            mulu64 num_ele_per_tile size)
  | None => Go acc
  end.

(** Separating [compute_regions] into [(group_reg, prod_reg, input_reg)]. *)
Definition split_regions (g : Group) (group_members group_inputs : sset)
           (compute_regions : smap Box) : smap Box * smap Box * smap Box :=
  fold_left
    (fun acc reg =>
       let '(group_reg, prod_reg, input_reg) := acc in
       if ss_mem (fst reg) group_members
          && negb (String.eqb (fst reg) (name (func (output g))))
       then (sm_emplace (fst reg) (snd reg) group_reg, prod_reg, input_reg)
       else if ss_mem (fst reg) group_inputs then
         if sm_mem (fst reg) env
         then (group_reg, sm_emplace (fst reg) (snd reg) prod_reg, input_reg)
         else (group_reg, prod_reg, sm_emplace (fst reg) (snd reg) input_reg)
       else acc)
    compute_regions ([], [], []).

(** [out_tile_extent].  For a function without arguments the bound
    [args.size() - 1] of the loop wraps around and [args[0]] is read out of
    range. *)
Definition out_tile_extent_of (g : Group) (tile_bounds : DimBounds) : option Box :=
  match stage_num (output g) with
  | O =>
      match args (func (output g)) with
      | [] => None
      | a =>
          Some (map (fun arg =>
                       match sm_find arg tile_bounds with
                       | Some i => i
                       | None => Interval_everything
                       end)
                    (removelast a))
      end
  | S _ => Some []
  end.

(** What [analyze_group] has computed when it enters the loop over
    [group_load_costs]. *)
Record TileContext : Type := mkTileContext {
  tc_estimate_tiles : Z;
  tc_parallelism : Z;
  tc_group_members : sset;
  tc_alloc_regions : smap Box;
  tc_group_cost : Cost;
  tc_group_load_costs : smap Z;
  tc_out_tile_extent : Box
}.

Definition analyze_group_setup (g : Group) : flow GroupAnalysis TileContext :=
  let def := get_stage_definition (func (output g)) (stage_num (output g)) in
  let group_members := group_members_of g in
  let group_inputs := group_inputs_of g in
  stg_bounds <~ lift_opt (get_bounds (output g)) ;;
  tiles <~ flow_fold (count_tiles_step g def stg_bounds)
                     (loop_dims (dims (schedule def))) (1, 1, 1) ;;
  let '(estimate_tiles, par, _) := tiles in
  tile_bounds <~ lift_opt (get_bounds_from_tile_sizes (output g) (tile_sizes g)) ;;
  alloc_regions <~ lift_opt (regions_required (func (output g)) (stage_num (output g))
                                              tile_bounds group_members false) ;;
  compute_regions <~ lift_opt (regions_required (func (output g)) (stage_num (output g))
                                                tile_bounds group_members true) ;;
  let '(group_reg, _, _) := split_regions g group_members group_inputs compute_regions in
  let tile_cost := region_cost group_reg (inlined g) in
  if (arith tile_cost =? unknown) || (memory tile_cost =? unknown)
  then Return unknown_analysis
  else
    let out_cost := stage_region_cost (name (func (output g))) (stage_num (output g))
                                      tile_bounds (inlined g) in
    if (arith out_cost =? unknown) || (memory out_cost =? unknown)
    then Return unknown_analysis
    else if existsb (fun reg => box_size (snd reg) =? unknown) alloc_regions
    then Return unknown_analysis
    else
      let group_cost := mkCost (add64 (arith tile_cost) (arith out_cost))
                               (add64 (memory tile_cost) (memory out_cost)) in
      let group_load_costs := detailed_load_costs group_reg (inlined g) in
      let out_load_costs :=
        stage_detailed_load_costs (name (func (output g))) (stage_num (output g))
                                  tile_bounds (inlined g) in
      let combined := combine_load_costs group_load_costs out_load_costs in
      ote <~ lift_opt (out_tile_extent_of g tile_bounds) ;;
      Go (mkTileContext estimate_tiles par group_members alloc_regions
                        group_cost combined ote).

Definition model_reuse : bool := false.

(** One round of the loop over [group_load_costs]; [mem] is
    [per_tile_cost.memory]. *)
Definition load_cost_step (g : Group) (ctx : TileContext) (mem : Z)
           (f_load : string * Z) : flow GroupAnalysis Z :=
  let fname := fst f_load in
  _ <~ lift_opt (assert (negb (ss_mem fname (inlined g)))) ;;
  alloc_reg <~ lift_opt (get_element (tc_alloc_regions ctx) fname) ;;
  let is_group_member := ss_mem fname (tc_group_members ctx) in
  let is_output := String.eqb fname (name (func (output g))) in
  mf <~ (if negb is_output && is_group_member
         then Go (mem, region_size fname alloc_reg)
         else
           f_load_pipeline_bounds <~ lift_opt (get_element pipeline_bounds fname) ;;
           let is_function := sm_mem fname env in
           fi <~ (if negb is_function
                  then Go (input_region_size fname f_load_pipeline_bounds,
                           input_region_size fname alloc_reg)
                  else if is_output
                  then _ <~ lift_opt (assert is_group_member) ;;
                       Go (region_size fname f_load_pipeline_bounds,
                           region_size fname (tc_out_tile_extent ctx))
                  else Go (region_size fname f_load_pipeline_bounds,
                           region_size fname alloc_reg)) ;;
           let '(initial_footprint, footprint) := fi in
           let '(mem', footprint') :=
             if model_reuse
             then (add64 mem (mul64 (cost_factor initial_footprint) footprint), footprint)
             else (mem, initial_footprint) in
           if footprint' =? unknown then Return unknown_analysis
           else Go (mem', footprint')) ;;
  let '(mem1, footprint) := mf in
  Go (add64 mem1 (mul64 (cost_factor footprint) (snd f_load))).

(** [per_tile_cost.memory] after the loop. *)
Definition per_tile_memory (g : Group) (ctx : TileContext) : flow GroupAnalysis Z :=
  flow_fold (load_cost_step g ctx) (tc_group_load_costs ctx) 0.

Definition analyze_group_flow (g : Group) : flow GroupAnalysis GroupAnalysis :=
  ctx <~ analyze_group_setup g ;;
  mem <~ per_tile_memory g ctx ;;
  let per_tile_cost := mkCost (arith (tc_group_cost ctx)) mem in
  let g_analysis :=
    mkGroupAnalysis
      (mkCost (mul64 (arith per_tile_cost) (tc_estimate_tiles ctx))
              (mul64 (memory per_tile_cost) (tc_estimate_tiles ctx)))
      (wrap64 (tc_parallelism ctx)) in
  _ <~ lift_opt (assert (memory per_tile_cost >? 0)) ;;
  Go g_analysis.

Definition analyze_group (g : Group) : option GroupAnalysis :=
  run_flow (analyze_group_flow g).

(** *** [generate_tile_configs] *)

Definition min_inner_dim_size : Z := 64.
Definition size_variants : list Z := [1; 4; 8; 16; 32; 64; 128; 256].

(** The dimensions that are tiled: the loop variables that are not rvars. *)
Definition tile_vars_of (stg : FStage) : list string :=
  map dvar (filter (fun d => negb (is_rvar d))
                   (stage_loop_dims (func stg) (stage_num stg))).

(** [if (!tiling.empty()) { if (!is_duplicate) tile_configs.push_back(tiling); }] *)
Definition push_config (tiling : smap Z) (tile_configs : list (smap Z)) : list (smap Z) :=
  match tiling with
  | [] => tile_configs
  | _ :: _ =>
      if existsb (tiling_eqb tiling) tile_configs then tile_configs
      else tile_configs ++ [tiling]
  end.

Definition skewed_tiling (tile_vars : list string) (i : nat) (dim_size : Z) : smap Z :=
  let t0 := sm_put (nth i tile_vars EmptyString)
                   (if Nat.eqb i 0 then Z.max dim_size min_inner_dim_size else dim_size) [] in
  fold_left
    (fun t jv =>
       if Nat.ltb (fst jv) i then sm_put (snd jv) (last size_variants 0) t
       else if Nat.ltb i (fst jv) then sm_put (snd jv) (hd 0 size_variants) t
       else t)
    (indexed tile_vars) t0.

Definition skewed_configs (tile_vars : list string) (tile_configs : list (smap Z))
  : list (smap Z) :=
  fold_left
    (fun cfgs i =>
       fold_left (fun cfgs dim_size => push_config (skewed_tiling tile_vars i dim_size) cfgs)
                 size_variants cfgs)
    (seq 0 (length tile_vars)) tile_configs.

Definition square_tiling (tile_vars : list string) (dim_size : Z) : smap Z :=
  fold_left
    (fun t jv =>
       sm_put (snd jv)
              (if Nat.eqb (fst jv) 0 then Z.max dim_size min_inner_dim_size else dim_size) t)
    (indexed tile_vars) [].

Definition square_configs (tile_vars : list string) (tile_configs : list (smap Z))
  : list (smap Z) :=
  fold_left (fun cfgs dim_size => push_config (square_tiling tile_vars dim_size) cfgs)
            size_variants tile_configs.

Definition reorder_tiling (tile_vars : list string) (i : Z) : smap Z :=
  fold_left
    (fun t jv =>
       if Z.land (Z.shiftr i (Z.of_nat (fst jv))) 1 =? 1
       then sm_put (snd jv) (if Nat.eqb (fst jv) 0 then min_inner_dim_size else 1) t
       else t)
    (indexed tile_vars) [].

(** [for (int i = 0; i < (1 << tile_vars.size()); i++)]. *)
Definition reorder_masks (n : nat) : list Z :=
  map Z.of_nat (seq 0 (Z.to_nat (wrap32 (Z.shiftl 1 (Z.of_nat n))))).

Definition reorder_configs (tile_vars : list string) (tile_configs : list (smap Z))
  : list (smap Z) :=
  fold_left (fun cfgs i => push_config (reorder_tiling tile_vars i) cfgs)
            (reorder_masks (length tile_vars)) tile_configs.

Definition generate_tile_configs (stg : FStage) : list (smap Z) :=
  let tile_vars := tile_vars_of stg in
  reorder_configs tile_vars (square_configs tile_vars (skewed_configs tile_vars [])).

(** *** [estimate_benefit] on two analyses *)

Definition estimate_benefit (old_grouping new_grouping : GroupAnalysis)
           (no_redundant_work ensure_parallelism : bool) : Z :=
  if ensure_parallelism && (parallelism new_grouping <? arch_parallelism) then unknown
  else if negb (arith (cost old_grouping) =? unknown)
          && negb (arith (cost new_grouping) =? unknown) then
    let arith_benefit := sub64 (arith (cost old_grouping)) (arith (cost new_grouping)) in
    if no_redundant_work && (arith_benefit <? 0) then unknown
    else if negb (memory (cost old_grouping) =? unknown)
            && negb (memory (cost new_grouping) =? unknown) then
      let mem_benefit := sub64 (memory (cost old_grouping)) (memory (cost new_grouping)) in
      add64 mem_benefit arith_benefit
    else unknown
  else unknown.

(** *** [find_best_tile_config] *)

Definition best_tile_step (g : Group) (best : smap Z * GroupAnalysis) (config : smap Z)
  : option (smap Z * GroupAnalysis) :=
  new_analysis <- analyze_group (set_tile_sizes g config) ;;
  let benefit := estimate_benefit (snd best) new_analysis false true in
  if benefit >? 0 then Some (config, new_analysis) else Some best.

Definition find_best_tile_config (g : Group) : option (smap Z * GroupAnalysis) :=
  let no_tile_config : smap Z := [] in
  no_tile_analysis <- analyze_group (set_tile_sizes g no_tile_config) ;;
  if arith (cost no_tile_analysis) =? unknown
  then Some (no_tile_config, no_tile_analysis)
  else foldM (best_tile_step g) (generate_tile_configs (output g))
             (no_tile_config, no_tile_analysis).

(** *** Evaluating a grouping choice *)

(** [merge_groups(prod_group, cons_group)], the overload that builds the
    merged group of a choice. *)
Definition merge_two_groups (prod_group cons_group : Group) : Group :=
  let group_members := members prod_group ++ members cons_group in
  let inl1 := fold_left (fun s f => ss_insert f s) (inlined prod_group) [] in
  let inl2 := fold_left (fun s f => ss_insert f s) (inlined cons_group) inl1 in
  mkGroup (output cons_group) group_members inl2 [].

(** INLINE mode: tile size one along every loop dimension of the
    consumer's output stage. *)
Definition inline_tile_sizes (cons_g : Group) : smap Z :=
  fold_left (fun ts d => sm_put (dvar d) 1 ts)
            (stage_loop_dims (func (output cons_g)) (stage_num (output cons_g))) [].

Definition evaluate_choice (p : Partitioner) (choice : GroupingChoice) (level : Level)
  : option GroupConfig :=
  prod_f <- get_element env (choice_prod choice) ;;
  prod_groups <- mapM (fun prod_s => fm_find prod_s (groups p)) (stages_of prod_f) ;;
  cons_g <- fm_find (choice_cons choice) (groups p) ;;
  let group := fold_left (fun group prod_g => merge_two_groups prod_g group)
                         prod_groups cons_g in
  match level with
  | INLINE =>
      let ts := inline_tile_sizes cons_g in
      let inl1 :=
        fold_left
          (fun s prod_g =>
             fold_left (fun s m => ss_insert (name (func m)) s) (members prod_g) s)
          prod_groups (inlined group) in
      let inl2 := fold_left (fun s f => ss_insert f s) (inlined cons_g) inl1 in
      let group' := mkGroup (output group) (members group) inl2 ts in
      group_analysis <- analyze_group group' ;;
      Some (mkGroupConfig ts group_analysis)
  | FAST_MEM =>
      config <- find_best_tile_config group ;;
      Some (mkGroupConfig (fst config) (snd config))
  end.

(** *** [estimate_benefit] on the choices of one producer *)

Definition add_analysis (acc a : GroupAnalysis) : GroupAnalysis :=
  mkGroupAnalysis (mkCost (add64 (arith (cost acc)) (arith (cost a)))
                          (add64 (memory (cost acc)) (memory (cost a))))
                  (Z.min (parallelism acc) (parallelism a)).

Definition zero_analysis : GroupAnalysis := mkGroupAnalysis (mkCost 0 0) int64_max.

(** The first loop: [(no_merge_groups, new_group_analysis)]. *)
Fixpoint new_grouping_loop (choices : list (GroupingChoice * GroupConfig))
         (no_merge_groups : list FStage) (acc : GroupAnalysis)
  : option (list FStage * GroupAnalysis) :=
  match choices with
  | [] => Some (no_merge_groups, acc)
  | choice :: rest =>
      prod_f <- get_element env (choice_prod (fst choice)) ;;
      let nm1 := fold_left (fun s stg => fs_insert stg s) (stages_of prod_f) no_merge_groups in
      let nm2 := fs_insert (choice_cons (fst choice)) nm1 in
      let analysisg := analysis (snd choice) in
      if negb (arith (cost analysisg) =? unknown)
      then new_grouping_loop rest nm2 (add_analysis acc analysisg)
      else Some (nm2, unknown_analysis)
  end.

(** The second loop, over [no_merge_groups]. *)
Fixpoint old_grouping_loop (costs : list (FStage * GroupAnalysis))
         (no_merge_groups : list FStage) (acc : GroupAnalysis) : option GroupAnalysis :=
  match no_merge_groups with
  | [] => Some acc
  | g :: rest =>
      analysisg <- fm_find g costs ;;
      if negb (arith (cost analysisg) =? unknown)
      then old_grouping_loop costs rest (add_analysis acc analysisg)
      else Some unknown_analysis
  end.

Definition estimate_benefit_choices (p : Partitioner)
           (choices : list (GroupingChoice * GroupConfig))
           (no_redundant_work ensure_parallelism : bool) : option Z :=
  r <- new_grouping_loop choices [] zero_analysis ;;
  old_group_analysis <- old_grouping_loop (group_costs p) (fst r) zero_analysis ;;
  Some (estimate_benefit old_group_analysis (snd r) no_redundant_work ensure_parallelism).

(** *** [choose_candidate_grouping] *)

Definition gc_find := @om_find GroupingChoice GroupConfig GroupingChoice_eqb.
Definition gc_emplace :=
  @om_emplace GroupingChoice GroupConfig GroupingChoice_ltb GroupingChoice_eqb.
Definition gc_erase := @om_erase GroupingChoice GroupConfig GroupingChoice_eqb.

Definition set_cache (p : Partitioner) (c : list (GroupingChoice * GroupConfig))
  : Partitioner :=
  mkPartitioner c (groups p) (children p) (group_costs p).

(** The loop over [children[prod]]: the choices of one producer, read from
    the cache or evaluated and cached. *)
Definition candidate_choice_step (level : Level) (prod_f : Function)
           (acc : list (GroupingChoice * GroupConfig) * Partitioner) (c : FStage)
  : option (list (GroupingChoice * GroupConfig) * Partitioner) :=
  let '(choices, p) := acc in
  let cand_choice := mkGroupingChoice (name prod_f) c in
  match gc_find cand_choice (grouping_cache p) with
  | Some best_config => Some (choices ++ [(cand_choice, best_config)], p)
  | None =>
      best_config <- evaluate_choice p cand_choice level ;;
      Some (choices ++ [(cand_choice, best_config)],
            set_cache p (gc_emplace cand_choice best_config (grouping_cache p)))
  end.

(** [children[prod]]: a missing key is inserted with an empty set. *)
Definition children_at (prod : FStage) (p : Partitioner) : list FStage * Partitioner :=
  match fm_find prod (children p) with
  | Some s => (s, p)
  | None => ([], mkPartitioner (grouping_cache p) (groups p)
                               (fm_put prod [] (children p)) (group_costs p))
  end.

(** One round of the loop over [cands]; the state carries [best_choices]
    and [best_benefit]. *)
Definition candidate_step (level : Level)
           (acc : list (GroupingChoice * GroupConfig) * Z * Partitioner)
           (cand : string * string)
  : option (list (GroupingChoice * GroupConfig) * Z * Partitioner) :=
  let '(best_choices, best_benefit, p) := acc in
  prod_f <- get_element env (fst cand) ;;
  let prod := mkFStage prod_f (length (updates prod_f)) in
  let '(ch, p1) := children_at prod p in
  r <- foldM (candidate_choice_step level prod_f) ch ([], p1) ;;
  let '(choices, p2) := r in
  overall_benefit <- estimate_benefit_choices p2 choices false true ;;
  if best_benefit <? overall_benefit
  then Some (choices, overall_benefit, p2)
  else Some (best_choices, best_benefit, p2).

Definition choose_candidate_grouping (p : Partitioner) (cands : list (string * string))
           (level : Level)
  : option (list (GroupingChoice * GroupConfig) * Partitioner) :=
  r <- foldM (candidate_step level) cands ([], 0, p) ;;
  Some (fst (fst r), snd r).

(** *** [merge_groups(choice, eval, level)] *)

Definition set_groups (p : Partitioner) (gs : list (FStage * Group)) : Partitioner :=
  mkPartitioner (grouping_cache p) gs (children p) (group_costs p).

(** One round of the loop over the producer's stages: [child_group] and
    [cand_group] are references into [groups]. *)
Definition absorb_stage (level : Level) (child : FStage) (gs : list (FStage * Group))
           (cand : FStage) : option (list (FStage * Group)) :=
  child_group <- fm_find child gs ;;
  cand_group <- fm_find cand gs ;;
  let cand_funcs := members cand_group in
  let new_inlined :=
    match level with
    | INLINE =>
        fold_left (fun s stg => ss_insert (name (func stg)) s) cand_funcs (inlined child_group)
    | FAST_MEM =>
        fold_left (fun s f => ss_insert f s) (inlined cand_group) (inlined child_group)
    end in
  Some (fm_put child
               (mkGroup (output child_group) (members child_group ++ cand_funcs)
                        new_inlined (tile_sizes child_group))
               gs).

Definition merge_groups (p : Partitioner) (choice : GroupingChoice) (eval : GroupConfig)
           (level : Level) : option Partitioner :=
  prod_f <- get_element env (choice_prod choice) ;;
  let child := choice_cons choice in
  _ <- fm_find child (groups p) ;;
  gs <- foldM (absorb_stage level child) (stages_of prod_f) (groups p) ;;
  child_group <- fm_find child gs ;;
  let child_group' := set_tile_sizes child_group (config_tile_sizes eval) in
  a <- analyze_group child_group' ;;
  Some (mkPartitioner (grouping_cache p) (fm_put child child_group' gs)
                      (children p) (fm_put child a (group_costs p))).

(** *** [initialize_groups] *)

Definition initialize_step (acc : list (FStage * Group) * list (FStage * GroupAnalysis))
           (g : FStage * Group)
  : option (list (FStage * Group) * list (FStage * GroupAnalysis)) :=
  best <- find_best_tile_config (snd g) ;;
  Some (fst acc ++ [(fst g, set_tile_sizes (snd g) (fst best))],
        fm_emplace (output (snd g)) (snd best) (snd acc)).

Definition initialize_groups (p : Partitioner) : option Partitioner :=
  r <- foldM initialize_step (groups p) ([], group_costs p) ;;
  Some (mkPartitioner [] (fst r) (children p) (snd r)).

(** *** [group] *)

Definition is_FAST_MEM (l : Level) : bool :=
  match l with FAST_MEM => true | INLINE => false end.
Definition is_INLINE (l : Level) : bool :=
  match l with INLINE => true | FAST_MEM => false end.

(** The loop that collects [cand]. *)
Definition candidate_of (p : Partitioner) (level : Level)
           (cand : list (string * string)) (g : FStage * Group)
  : option (list (string * string)) :=
  let is_output :=
    existsb (fun f => String.eqb (name (func (fst g))) (name f)) outputs in
  prod_f <- get_element env (name (func (fst g))) ;;
  let is_final_stage := Nat.eqb (stage_num (fst g)) (length (updates prod_f)) in
  if is_output || negb is_final_stage then Some cand
  else
    match fm_find (fst g) (children p) with
    | Some ch =>
        let child_groups := fold_left (fun s c => ss_insert (name (func c)) s) ch [] in
        let num_children := length child_groups in
        if Nat.eqb num_children 1 && is_FAST_MEM level
        then Some (cand ++ [(name prod_f, hd EmptyString child_groups)])
        else if is_INLINE level && Function_is_pure prod_f
        then Some (cand ++ [(name prod_f, EmptyString)])
        else Some cand
    | None => Some cand
    end.

Definition group_candidates (p : Partitioner) (level : Level)
  : option (list (string * string)) :=
  foldM (candidate_of p level) (groups p) [].

(** Invalidating the entries of the grouping cache. *)
Definition invalid_keys (cache : list (GroupingChoice * GroupConfig))
           (prod_group_children : list FStage) : list GroupingChoice :=
  fold_left
    (fun keys c =>
       fold_left
         (fun keys entry =>
            if String.eqb (choice_prod (fst entry)) (name (func c))
               || FStage_eqb (choice_cons (fst entry)) c
            then os_insert GroupingChoice_ltb GroupingChoice_eqb (fst entry) keys
            else keys)
         cache keys)
    prod_group_children [].

Definition invalidate_cache (cache : list (GroupingChoice * GroupConfig))
           (prod_group_children : list FStage) : list (GroupingChoice * GroupConfig) :=
  fold_left (fun c key => gc_erase key c) (invalid_keys cache prod_group_children) cache.

(** One round of the loop that removes the producer's stages. *)
Definition erase_stage (prod_group_children : list FStage) (p : Partitioner)
           (prod_group : FStage) : Partitioner :=
  let ch1 := fm_erase prod_group (children p) in
  let ch2 :=
    map (fun f =>
           if fs_mem prod_group (snd f)
           then (fst f, os_insert_all FStage_ltb FStage_eqb prod_group_children
                                      (fs_erase prod_group (snd f)))
           else f)
        ch1 in
  mkPartitioner (grouping_cache p) (fm_erase prod_group (groups p)) ch2
                (fm_erase prod_group (group_costs p)).

Definition cost_total (c : Cost) : Z := add64 (arith c) (memory c).

(** The body of the [while (!fixpoint)] loop: the new state and the value
    of [fixpoint] at the end of the round. *)
Definition group_iteration (level : Level) (p : Partitioner) : option (Partitioner * bool) :=
  pre_merge <- get_pipeline_cost p ;;
  cand <- group_candidates p level ;;
  r <- choose_candidate_grouping p cand level ;;
  let '(best, p1) := r in
  match best with
  | [] => Some (p1, true)
  | b0 :: _ =>
      let prod := choice_prod (fst b0) in
      prod_f <- get_element env prod ;;
      let num_stages := S (length (updates prod_f)) in
      let final_stage := mkFStage prod_f (num_stages - 1) in
      prod_group_children <- fm_find final_stage (children p1) ;;
      let p1' := set_cache p1 (invalidate_cache (grouping_cache p1) prod_group_children) in
      p2 <- foldM (fun p g =>
                     _ <- assert (String.eqb (choice_prod (fst g)) prod) ;;
                     merge_groups p (fst g) (snd g) level)
                  best p1' ;;
      let p3 := fold_left (erase_stage prod_group_children) (stages_of prod_f) p2 in
      post_merge <- get_pipeline_cost p3 ;;
      _ <- assert (cost_total pre_merge >=? cost_total post_merge) ;;
      Some (p3, false)
  end.

(** The loop itself, cut off after [fuel] rounds. *)
Fixpoint group (fuel : nat) (level : Level) (p : Partitioner) : option Partitioner :=
  match fuel with
  | O => None
  | S n =>
      r <- group_iteration level p ;;
      if snd r then Some (fst r) else group n level (fst r)
  end.

(** What [generate_schedules] does with the partitioner once it is
    built: [initialize_groups], the INLINE pass, [grouping_cache.clear()],
    the FAST_MEM pass. *)
Definition partition_pipeline (fuel : nat) : option Partitioner :=
  p <- initialize_groups new_Partitioner ;;
  p <- group fuel INLINE p ;;
  group fuel FAST_MEM (set_cache p []).

(** *** Properties of the pairwise [estimate_benefit] *)

(** The cases in which the specification has [estimate_benefit] answer
    [unknown]: an unknown cost field, too little parallelism under
    [ensure_parallelism], a negative arithmetic benefit under
    [no_redundant_work]. *)
Definition benefit_is_refused (old_grouping new_grouping : GroupAnalysis)
           (no_redundant_work ensure_parallelism : bool) : bool :=
  (arith (cost old_grouping) =? unknown)
  || (arith (cost new_grouping) =? unknown)
  || (memory (cost old_grouping) =? unknown)
  || (memory (cost new_grouping) =? unknown)
  || (ensure_parallelism && (parallelism new_grouping <? arch_parallelism))
  || (no_redundant_work
      && (sub64 (arith (cost old_grouping)) (arith (cost new_grouping)) <? 0)).

(** A cost small enough for differences and their sum not to wrap. *)
Definition small_cost (z : Z) : Prop := - 2 ^ 61 < z < 2 ^ 61.

Lemma wrap64_small (z : Z) : - 2 ^ 63 <= z < 2 ^ 63 -> wrap64 z = z.
Proof.
  intros H. unfold wrap64.
  rewrite Z.mod_small by lia. lia.
Qed.

Lemma add64_comm (a b : Z) : add64 a b = add64 b a.
Proof. unfold add64. now rewrite Z.add_comm. Qed.

Lemma sub64_small (a b : Z) : small_cost a -> small_cost b -> sub64 a b = a - b.
Proof.
  unfold small_cost, sub64. intros Ha Hb. apply wrap64_small. lia.
Qed.

(** C3. [estimate_benefit old new no_redundant_work ensure_parallelism] is
    [(old.arith - new.arith) + (old.memory - new.memory)] in [int64_t]
    arithmetic, except that it is [unknown] when one of the four cost
    fields is unknown, or [ensure_parallelism] holds and the new
    parallelism is below the machine's, or [no_redundant_work] holds and
    the arithmetic benefit is negative.  For costs that are small enough
    not to wrap, the [int64_t] expression is the exact integer. *)
Theorem estimate_benefit_spec (old_grouping new_grouping : GroupAnalysis)
        (no_redundant_work ensure_parallelism : bool) :
  estimate_benefit old_grouping new_grouping no_redundant_work ensure_parallelism =
    (if benefit_is_refused old_grouping new_grouping no_redundant_work ensure_parallelism
     then unknown
     else add64 (sub64 (arith (cost old_grouping)) (arith (cost new_grouping)))
                (sub64 (memory (cost old_grouping)) (memory (cost new_grouping))))
  /\ (small_cost (arith (cost old_grouping)) ->
      small_cost (arith (cost new_grouping)) ->
      small_cost (memory (cost old_grouping)) ->
      small_cost (memory (cost new_grouping)) ->
      add64 (sub64 (arith (cost old_grouping)) (arith (cost new_grouping)))
            (sub64 (memory (cost old_grouping)) (memory (cost new_grouping)))
      = (arith (cost old_grouping) - arith (cost new_grouping))
        + (memory (cost old_grouping) - memory (cost new_grouping))
      /\ sub64 (arith (cost old_grouping)) (arith (cost new_grouping))
         = arith (cost old_grouping) - arith (cost new_grouping)).
Proof.
  split.
  - unfold estimate_benefit, benefit_is_refused.
    rewrite (add64_comm (sub64 (memory _) _)).
    destruct ensure_parallelism, no_redundant_work;
      destruct (parallelism new_grouping <? arch_parallelism);
      destruct (arith (cost old_grouping) =? unknown);
      destruct (arith (cost new_grouping) =? unknown);
      destruct (memory (cost old_grouping) =? unknown);
      destruct (memory (cost new_grouping) =? unknown);
      destruct (sub64 (arith (cost old_grouping)) (arith (cost new_grouping)) <? 0);
      reflexivity.
  - intros Hoa Hna Hom Hnm.
    rewrite !sub64_small by assumption.
    split; [| reflexivity].
    unfold add64, small_cost in *. apply wrap64_small. lia.
Qed.

(** *** Properties of [get_bounds_from_tile_sizes] *)

Lemma wrap32_small (z : Z) : - 2 ^ 31 <= z < 2 ^ 31 -> wrap32 z = z.
Proof.
  intros H. unfold wrap32.
  rewrite Z.mod_small by lia. lia.
Qed.

(** The loop of [get_bounds_from_tile_sizes] maps every visited variable
    to its [tile_bound] and leaves the other keys alone. *)
Lemma tile_bounds_loop (def_bounds : DimBounds) (ts : smap Z) (ds : list Dim) :
  (forall d, In d ds -> sm_find (dvar d) def_bounds <> None) ->
  forall acc : DimBounds,
  exists r,
    foldM (fun bnds d =>
             i <- tile_bound def_bounds ts (dvar d) ;;
             Some (sm_put (dvar d) i bnds)) ds acc = Some r
    /\ forall v, sm_find v r =
                 if existsb (String.eqb v) (map dvar ds)
                 then tile_bound def_bounds ts v
                 else sm_find v acc.
Proof.
  induction ds as [| d ds IH]; intros Hall acc; simpl.
  - exists acc. split; [reflexivity | intros v; reflexivity].
  - assert (Hd : sm_find (dvar d) def_bounds <> None) by (apply Hall; now left).
    destruct (tile_bound def_bounds ts (dvar d)) as [i |] eqn:Ei.
    + destruct (IH (fun d' H => Hall d' (or_intror H)) (sm_put (dvar d) i acc))
        as (r & Hr & Hfind).
      exists r. split; [exact Hr |].
      intros v. rewrite Hfind, sm_find_put.
      destruct (String.eqb v (dvar d)) eqn:Ev; simpl.
      * apply String.eqb_eq in Ev. subst v.
        destruct (existsb _ _); [reflexivity | now rewrite Ei].
      * reflexivity.
    + exfalso. unfold tile_bound, get_element in Ei.
      destruct (sm_find (dvar d) def_bounds); [| congruence].
      destruct (sm_find (dvar d) ts); [destruct (_ >=? _) |]; discriminate.
Qed.

Lemma existsb_dvar_In (d : Dim) (ds : list Dim) :
  In d ds -> existsb (String.eqb (dvar d)) (map dvar ds) = true.
Proof.
  intros H. apply existsb_exists. exists (dvar d). split.
  - now apply in_map.
  - apply String.eqb_refl.
Qed.

(** C8. For a stage whose bounds are all present and tile sizes that fit
    an [int] doubling, the tile bound of a loop dimension [v] is
    [[0, tile_sizes[v] - 1]] when [tile_sizes] holds [v] and the extent of
    the dimension's bound is at least [2 * tile_sizes[v]]; it is the full
    bound of the dimension in every other case.  Only loop dimensions get
    a tile bound. *)
Theorem get_bounds_from_tile_sizes_spec (s : FStage) (ts : smap Z)
        (def_bounds : DimBounds) :
  get_bounds s = Some def_bounds ->
  (forall d, In d (stage_loop_dims (func s) (stage_num s)) ->
             sm_find (dvar d) def_bounds <> None) ->
  (forall v size, sm_find v ts = Some size -> - 2 ^ 30 <= size < 2 ^ 30) ->
  exists tile_bounds,
    get_bounds_from_tile_sizes s ts = Some tile_bounds
    /\ (forall d, In d (stage_loop_dims (func s) (stage_num s)) ->
        exists full,
          sm_find (dvar d) def_bounds = Some full
          /\ sm_find (dvar d) tile_bounds =
             Some (match sm_find (dvar d) ts with
                   | Some size =>
                       if 2 * size <=? get_extent full
                       then mkInterval (IntImm 0) (IntImm (size - 1))
                       else full
                   | None => full
                   end))
    /\ (forall v, sm_find v tile_bounds <> None ->
                  In v (map dvar (stage_loop_dims (func s) (stage_num s)))).
Proof.
  intros Hb Hall Hsmall.
  unfold get_bounds_from_tile_sizes. rewrite Hb.
  destruct (tile_bounds_loop def_bounds ts _ Hall []) as (r & Hr & Hfind).
  exists r. split; [exact Hr |]. split.
  - intros d Hd.
    destruct (sm_find (dvar d) def_bounds) as [full |] eqn:Ef;
      [| exfalso; now apply (Hall d Hd)].
    exists full. split; [reflexivity |].
    rewrite Hfind, (existsb_dvar_In d _ Hd).
    unfold tile_bound, get_element. rewrite Ef.
    destruct (sm_find (dvar d) ts) as [size |] eqn:Es; [| reflexivity].
    specialize (Hsmall _ _ Es).
    unfold mul32, sub32. rewrite !wrap32_small by lia.
    rewrite Z.geb_leb. destruct (2 * size <=? get_extent full); reflexivity.
  - intros v Hv. rewrite Hfind in Hv.
    destruct (existsb (String.eqb v) _) eqn:Ex; [| now simpl in Hv].
    apply existsb_exists in Ex as (x & Hx & Hvx).
    apply String.eqb_eq in Hvx. now subst x.
Qed.

(** *** Properties of [analyze_group] *)

Lemma flow_fold_Return {R A B} (P : R -> Prop) (f : B -> A -> flow R B) :
  (forall acc a r, f acc a = Return r -> P r) ->
  forall l acc r, flow_fold f l acc = Return r -> P r.
Proof.
  intros Hf. induction l as [| a l IH]; intros acc r; simpl.
  - discriminate.
  - destruct (f acc a) as [acc' | r' |] eqn:E; simpl.
    + apply IH.
    + intros [= <-]. eapply Hf. exact E.
    + discriminate.
Qed.

Lemma count_tiles_step_Return g def stg_bounds acc d r :
  count_tiles_step g def stg_bounds acc d = Return r -> r = unknown_analysis.
Proof.
  unfold count_tiles_step. destruct acc as [[t p] n].
  destruct (sm_find (dvar d) (tile_sizes g)); [| discriminate].
  destruct (get_element stg_bounds (dvar d)); simpl; [| discriminate].
  destruct (_ =? unknown); [| discriminate].
  now intros [= <-].
Qed.

Lemma load_cost_step_Return g ctx mem f_load r :
  load_cost_step g ctx mem f_load = Return r -> r = unknown_analysis.
Proof.
  unfold load_cost_step, model_reuse.
  destruct (assert _); simpl; [| discriminate].
  destruct (get_element (tc_alloc_regions ctx) _); simpl; [| discriminate].
  destruct (negb _ && _); simpl; [discriminate |].
  destruct (get_element pipeline_bounds _); simpl; [| discriminate].
  destruct (negb (sm_mem _ env)); simpl.
  - destruct (_ =? unknown); simpl; [now intros [= <-] | discriminate].
  - destruct (String.eqb _ _); simpl.
    + destruct (assert _); simpl; [| discriminate].
      destruct (_ =? unknown); simpl; [now intros [= <-] | discriminate].
    + destruct (_ =? unknown); simpl; [now intros [= <-] | discriminate].
Qed.

Lemma analyze_group_setup_Return g r :
  analyze_group_setup g = Return r -> r = unknown_analysis.
Proof.
  unfold analyze_group_setup.
  destruct (get_bounds (output g)) as [stg_bounds |]; simpl; [| discriminate].
  destruct (flow_fold _ _ _) as [[[t p] n] | r' |] eqn:Et; simpl.
  - destruct (get_bounds_from_tile_sizes _ _); simpl; [| discriminate].
    destruct (regions_required _ _ _ _ false); simpl; [| discriminate].
    destruct (regions_required _ _ _ _ true); simpl; [| discriminate].
    destruct (split_regions _ _ _ _) as [[group_reg prod_reg] input_reg].
    destruct (_ || _); [now intros [= <-] |].
    destruct (_ || _); [now intros [= <-] |].
    destruct (existsb _ _); [now intros [= <-] |].
    destruct (out_tile_extent_of _ _); simpl; discriminate.
  - intros [= <-].
    eapply (flow_fold_Return (fun r => r = unknown_analysis)); [| exact Et].
    intros acc d r0. apply count_tiles_step_Return.
  - discriminate.
Qed.

Lemma per_tile_memory_Return g ctx r :
  per_tile_memory g ctx = Return r -> r = unknown_analysis.
Proof.
  unfold per_tile_memory.
  apply (flow_fold_Return (fun r => r = unknown_analysis)).
  intros acc a r0. apply load_cost_step_Return.
Qed.

(** C10. An analysis that [analyze_group] returns and that is not the
    all-unknown one was computed from a strictly positive per-tile memory
    cost: the assertion before the final [return] lets nothing else
    through.  In particular a group whose combined detailed-load map is
    empty when the loop over it starts makes [analyze_group] abort. *)
Theorem analyze_group_memory_positive (g : Group) :
  (forall a, analyze_group g = Some a -> a <> unknown_analysis ->
     exists ctx mem,
       analyze_group_setup g = Go ctx
       /\ per_tile_memory g ctx = Go mem
       /\ 0 < mem
       /\ a = mkGroupAnalysis
                (mkCost (mul64 (arith (tc_group_cost ctx)) (tc_estimate_tiles ctx))
                        (mul64 mem (tc_estimate_tiles ctx)))
                (wrap64 (tc_parallelism ctx)))
  /\ (forall ctx, analyze_group_setup g = Go ctx ->
                  tc_group_load_costs ctx = [] -> analyze_group g = None).
Proof.
  split.
  - intros a Ha Hknown. unfold analyze_group, analyze_group_flow in Ha.
    destruct (analyze_group_setup g) as [ctx | r |] eqn:Es; simpl in Ha.
    + destruct (per_tile_memory g ctx) as [mem | r |] eqn:Em; simpl in Ha.
      * destruct (mem >? 0) eqn:Epos; simpl in Ha; [| discriminate].
        injection Ha as <-. exists ctx, mem.
        apply Z.gtb_lt in Epos. auto.
      * injection Ha as <-. exfalso. apply Hknown.
        exact (per_tile_memory_Return g ctx _ Em).
      * discriminate.
    + injection Ha as <-. exfalso. apply Hknown.
      exact (analyze_group_setup_Return g _ Es).
    + discriminate.
  - intros ctx Hs Hempty. unfold analyze_group, analyze_group_flow.
    rewrite Hs. simpl. unfold per_tile_memory. rewrite Hempty. reflexivity.
Qed.

(** *** Properties of [find_best_tile_config] *)

(** A cost field as the region-cost oracle reports it: [unknown], or a
    count small enough for the differences below not to wrap. *)
Definition plausible_cost (z : Z) : Prop := z = unknown \/ small_cost z.

Definition plausible (a : GroupAnalysis) : Prop :=
  plausible_cost (arith (cost a)) /\ plausible_cost (memory (cost a)).

Definition known (a : GroupAnalysis) : bool :=
  negb (arith (cost a) =? unknown) && negb (memory (cost a) =? unknown).

Definition total_cost (a : GroupAnalysis) : Z := arith (cost a) + memory (cost a).

Lemma plausible_known_small (a : GroupAnalysis) :
  plausible a -> known a = true ->
  small_cost (arith (cost a)) /\ small_cost (memory (cost a)).
Proof.
  unfold plausible, plausible_cost, known. intros [Ha Hm] Hk.
  apply andb_true_iff in Hk as [Hka Hkm].
  apply negb_true_iff, Z.eqb_neq in Hka, Hkm. tauto.
Qed.

(** With [no_redundant_work = false] and [ensure_parallelism = true]. *)
Lemma estimate_benefit_value (old_grouping new_grouping : GroupAnalysis) :
  plausible old_grouping -> plausible new_grouping ->
  estimate_benefit old_grouping new_grouping false true =
    if parallelism new_grouping <? arch_parallelism then unknown
    else if known old_grouping && known new_grouping
         then total_cost old_grouping - total_cost new_grouping
         else unknown.
Proof.
  intros Ho Hn. unfold estimate_benefit. simpl.
  destruct (parallelism new_grouping <? arch_parallelism); [reflexivity |].
  destruct (known old_grouping) eqn:Eo, (known new_grouping) eqn:En.
  - destruct (plausible_known_small _ Ho Eo) as [Hoa Hom].
    destruct (plausible_known_small _ Hn En) as [Hna Hnm].
    unfold known in Eo, En.
    apply andb_true_iff in Eo as [Eoa Eom]. apply andb_true_iff in En as [Ena Enm].
    rewrite Eoa, Ena, Eom, Enm. simpl.
    rewrite !sub64_small by assumption.
    unfold add64, total_cost, small_cost in *. rewrite wrap64_small by lia. lia.
  - unfold known in Eo, En. apply andb_true_iff in Eo as [Eoa Eom].
    rewrite Eoa, Eom. simpl.
    destruct (negb (arith (cost new_grouping) =? unknown)); simpl in *; [| reflexivity].
    now rewrite En.
  - unfold known in Eo.
    destruct (negb (arith (cost old_grouping) =? unknown)); simpl in *; [| reflexivity].
    rewrite Eo.
    destruct (negb (arith (cost new_grouping) =? unknown)); reflexivity.
  - unfold known in Eo.
    destruct (negb (arith (cost old_grouping) =? unknown)); simpl in *; [| reflexivity].
    rewrite Eo.
    destruct (negb (arith (cost new_grouping) =? unknown)); reflexivity.
Qed.

(** Comparing a candidate with the running best is comparing their
    benefits over the starting analysis [a0]. *)
Lemma running_best_comparison (a0 ba a : GroupAnalysis) :
  unknown <= 0 -> plausible a0 -> plausible ba -> plausible a ->
  0 < estimate_benefit a0 ba false true ->
  (estimate_benefit ba a false true >? 0)
  = (estimate_benefit a0 a false true >? estimate_benefit a0 ba false true).
Proof.
  intros Hu H0 Hb Ha.
  rewrite !estimate_benefit_value by assumption.
  destruct (parallelism ba <? arch_parallelism); [intros; lia |].
  destruct (known a0); simpl; [| intros; lia].
  destruct (known ba); simpl; [| intros; lia].
  intros Hpos.
  destruct (parallelism a <? arch_parallelism); [| destruct (known a)];
    match goal with
    | |- (?x >? ?y) = (?u >? ?v) =>
        destruct (Z.gtb_spec x y), (Z.gtb_spec u v); try reflexivity; lia
    end.
Qed.

(** The analysis of [g] under a tile configuration, and the benefit of an
    analysis over the no-tile analysis [a0], as [find_best_tile_config]
    asks for it. *)
Definition tile_analysis (g : Group) (c : smap Z) : option GroupAnalysis :=
  analyze_group (set_tile_sizes g c).

Definition tile_benefit (a0 a : GroupAnalysis) : Z := estimate_benefit a0 a false true.

(** The state of the loop of [find_best_tile_config] after the candidates
    [seen]: still the no-tile configuration, no candidate having a
    positive benefit; or the first candidate of maximal benefit. *)
Definition best_so_far (g : Group) (a0 : GroupAnalysis) (seen : list (smap Z))
           (best : smap Z * GroupAnalysis) : Prop :=
  (fst best = [] /\ snd best = a0
   /\ forall c a, In c seen -> tile_analysis g c = Some a -> tile_benefit a0 a <= 0)
  \/ (exists pre post,
        seen = pre ++ fst best :: post
        /\ tile_analysis g (fst best) = Some (snd best)
        /\ 0 < tile_benefit a0 (snd best)
        /\ (forall c a, In c seen -> tile_analysis g c = Some a ->
                        tile_benefit a0 a <= tile_benefit a0 (snd best))
        /\ (forall c a, In c pre -> tile_analysis g c = Some a ->
                        tile_benefit a0 a < tile_benefit a0 (snd best))).

Lemma best_tile_fold (g : Group) (a0 : GroupAnalysis) :
  unknown <= 0 -> plausible a0 ->
  forall todo seen best,
    (forall c, In c (seen ++ todo) ->
               exists a, tile_analysis g c = Some a /\ plausible a) ->
    best_so_far g a0 seen best ->
    exists best',
      foldM (best_tile_step g) todo best = Some best'
      /\ best_so_far g a0 (seen ++ todo) best'.
Proof.
  intros Hu Hp0. induction todo as [| c todo IH]; intros seen best Hall Hinv.
  - exists best. rewrite app_nil_r. split; [reflexivity | exact Hinv].
  - destruct (Hall c) as (a & Hca & Hpa); [apply in_or_app; right; now left |].
    simpl. unfold best_tile_step at 1. fold (tile_analysis g c). rewrite Hca.
    replace (seen ++ c :: todo) with ((seen ++ [c]) ++ todo) in *
      by (rewrite <- app_assoc; reflexivity).
    assert (Hstep : best_so_far g a0 (seen ++ [c])
                      (if estimate_benefit (snd best) a false true >? 0
                       then (c, a) else best)).
    { destruct Hinv as [(Hc0 & Hb0 & Hle) | (pre & post & Hseen & Hbest & Hpos & Hle & Hlt)].
      - rewrite Hb0. fold (tile_benefit a0 a).
        destruct (Z.gtb_spec (tile_benefit a0 a) 0) as [Hgt | Hngt].
        + right. exists seen, []. simpl. repeat split; auto.
          * intros c' a' Hin Hc'. apply in_app_or in Hin as [Hin | [<- | []]].
            -- specialize (Hle _ _ Hin Hc'). lia.
            -- rewrite Hca in Hc'. injection Hc' as <-. lia.
          * intros c' a' Hin Hc'. specialize (Hle _ _ Hin Hc'). lia.
        + left. repeat split; auto.
          intros c' a' Hin Hc'. apply in_app_or in Hin as [Hin | [<- | []]].
          * exact (Hle _ _ Hin Hc').
          * rewrite Hca in Hc'. now injection Hc' as <-.
      - assert (Hpb : plausible (snd best)).
        { destruct (Hall (fst best)) as (b & Hb & Hpb).
          - apply in_or_app. left. apply in_or_app. left.
            rewrite Hseen. apply in_or_app. right. now left.
          - rewrite Hbest in Hb. now injection Hb as <-. }
        rewrite (running_best_comparison a0 (snd best) a Hu Hp0 Hpb Hpa Hpos).
        fold (tile_benefit a0 a) (tile_benefit a0 (snd best)).
        destruct (Z.gtb_spec (tile_benefit a0 a) (tile_benefit a0 (snd best)))
          as [Hgt | Hngt].
        + right. exists seen, []. simpl. repeat split; auto.
          * lia.
          * intros c' a' Hin Hc'. apply in_app_or in Hin as [Hin | [<- | []]].
            -- specialize (Hle _ _ Hin Hc'). lia.
            -- rewrite Hca in Hc'. injection Hc' as <-. lia.
          * intros c' a' Hin Hc'. specialize (Hle _ _ Hin Hc'). lia.
        + right. exists pre, (post ++ [c]). repeat split; auto.
          * rewrite Hseen, <- app_assoc. reflexivity.
          * intros c' a' Hin Hc'. apply in_app_or in Hin as [Hin | [<- | []]].
            -- exact (Hle _ _ Hin Hc').
            -- rewrite Hca in Hc'. now injection Hc' as <-. }
    destruct (estimate_benefit (snd best) a false true >? 0);
      apply (IH (seen ++ [c])); auto.
Qed.

(** C6. [find_best_tile_config] starts from the no-tile configuration and
    its analysis [a0], visits the generated candidates in order, and
    returns the first candidate whose benefit over [a0] (with
    [no_redundant_work = false], [ensure_parallelism = true]) is maximal,
    earlier candidates of equal benefit being kept; when no candidate has
    a positive benefit the no-tile configuration stays. *)
Theorem find_best_tile_config_first_max (g : Group) (a0 : GroupAnalysis) :
  unknown <= 0 ->
  analyze_group (set_tile_sizes g []) = Some a0 ->
  plausible a0 ->
  (forall c, In c (generate_tile_configs (output g)) ->
             exists a, tile_analysis g c = Some a /\ plausible a) ->
  exists cfg an,
    find_best_tile_config g = Some (cfg, an)
    /\ ((cfg = [] /\ an = a0
         /\ forall c a, In c (generate_tile_configs (output g)) ->
                        tile_analysis g c = Some a -> tile_benefit a0 a <= 0)
        \/ (exists pre post,
              generate_tile_configs (output g) = pre ++ cfg :: post
              /\ tile_analysis g cfg = Some an
              /\ 0 < tile_benefit a0 an
              /\ (forall c a, In c (generate_tile_configs (output g)) ->
                              tile_analysis g c = Some a ->
                              tile_benefit a0 a <= tile_benefit a0 an)
              /\ (forall c a, In c pre -> tile_analysis g c = Some a ->
                              tile_benefit a0 a < tile_benefit a0 an))).
Proof.
  intros Hu H0 Hp0 Hall. unfold find_best_tile_config. rewrite H0.
  destruct (arith (cost a0) =? unknown) eqn:Eu.
  - exists [], a0. split; [reflexivity |]. left. repeat split.
    intros c a _ _. unfold tile_benefit, estimate_benefit. simpl.
    rewrite Eu. simpl. destruct (_ <? _); exact Hu.
  - destruct (best_tile_fold g a0 Hu Hp0 (generate_tile_configs (output g)) []
                             ([], a0)) as ([cfg an] & Hfold & Hinv).
    + exact Hall.
    + left. simpl. repeat split. intros c a [].
    + exists cfg, an. split; [exact Hfold |]. exact Hinv.
Qed.

(** *** Which variables get a tile size *)

Definition loop_var_names (stg : FStage) : list string :=
  map dvar (stage_loop_dims (func stg) (stage_num stg)).

(** Every key of [ts] is one of [vars]. *)
Definition keys_within (ts : smap Z) (vars : list string) : Prop :=
  forall v, sm_find v ts <> None -> In v vars.

Lemma keys_within_nil (vars : list string) : keys_within [] vars.
Proof. intros v H. now simpl in H. Qed.

Lemma keys_within_put (ts : smap Z) (vars : list string) (k : string) (z : Z) :
  keys_within ts vars -> In k vars -> keys_within (sm_put k z ts) vars.
Proof.
  intros Hts Hk v Hv. rewrite sm_find_put in Hv.
  destruct (String.eqb v k) eqn:E.
  - apply String.eqb_eq in E. now subst.
  - now apply Hts.
Qed.

Lemma keys_within_incl (ts : smap Z) (vars vars' : list string) :
  keys_within ts vars -> incl vars vars' -> keys_within ts vars'.
Proof. intros H Hi v Hv. apply Hi, H, Hv. Qed.

Lemma indexed_In {A} (l : list A) (j : nat) (a : A) :
  In (j, a) (indexed l) -> In a l.
Proof. unfold indexed. apply in_combine_r. Qed.

(** A fold that only puts keys of [vars] keeps the keys within [vars]. *)
Lemma keys_within_fold {A} (f : smap Z -> A -> smap Z) (vars : list string) (l : list A) :
  (forall t a, In a l -> keys_within t vars -> keys_within (f t a) vars) ->
  forall t, keys_within t vars -> keys_within (fold_left f l t) vars.
Proof.
  induction l as [| a l IH]; intros Hf t Ht; simpl; [exact Ht |].
  apply IH.
  - intros t' a' Hin. apply Hf. now right.
  - apply Hf; [now left | exact Ht].
Qed.

Lemma skewed_tiling_keys (tile_vars : list string) (i : nat) (dim_size : Z) :
  (i < length tile_vars)%nat ->
  keys_within (skewed_tiling tile_vars i dim_size) tile_vars.
Proof.
  intros Hi. unfold skewed_tiling. apply keys_within_fold.
  - intros t [j v] Hin Ht. simpl.
    apply indexed_In in Hin.
    destruct (Nat.ltb j i); [now apply keys_within_put |].
    destruct (Nat.ltb i j); [now apply keys_within_put | exact Ht].
  - apply keys_within_put; [apply keys_within_nil | now apply nth_In].
Qed.

Lemma square_tiling_keys (tile_vars : list string) (dim_size : Z) :
  keys_within (square_tiling tile_vars dim_size) tile_vars.
Proof.
  unfold square_tiling. apply keys_within_fold; [| apply keys_within_nil].
  intros t [j v] Hin Ht. simpl. apply indexed_In in Hin. now apply keys_within_put.
Qed.

Lemma reorder_tiling_keys (tile_vars : list string) (i : Z) :
  keys_within (reorder_tiling tile_vars i) tile_vars.
Proof.
  unfold reorder_tiling. apply keys_within_fold; [| apply keys_within_nil].
  intros t [j v] Hin Ht. simpl. apply indexed_In in Hin.
  destruct (_ =? 1); [now apply keys_within_put | exact Ht].
Qed.

Definition configs_within (cfgs : list (smap Z)) (vars : list string) : Prop :=
  forall c, In c cfgs -> keys_within c vars.

Lemma push_config_within (tiling : smap Z) (cfgs : list (smap Z)) (vars : list string) :
  keys_within tiling vars -> configs_within cfgs vars ->
  configs_within (push_config tiling cfgs) vars.
Proof.
  intros Ht Hc. unfold push_config. destruct tiling as [| e r]; [exact Hc |].
  destruct (existsb _ _); [exact Hc |].
  intros c Hin. apply in_app_or in Hin as [Hin | [<- | []]]; [now apply Hc | exact Ht].
Qed.

Lemma configs_within_fold {A} (f : list (smap Z) -> A -> list (smap Z))
      (vars : list string) (l : list A) :
  (forall cfgs a, In a l -> configs_within cfgs vars -> configs_within (f cfgs a) vars) ->
  forall cfgs, configs_within cfgs vars -> configs_within (fold_left f l cfgs) vars.
Proof.
  induction l as [| a l IH]; intros Hf cfgs Hc; simpl; [exact Hc |].
  apply IH.
  - intros c' a' Hin. apply Hf. now right.
  - apply Hf; [now left | exact Hc].
Qed.

(** Tile enumeration only names the tiled variables of the stage. *)
Lemma generate_tile_configs_keys (stg : FStage) :
  configs_within (generate_tile_configs stg) (tile_vars_of stg).
Proof.
  unfold generate_tile_configs, reorder_configs, square_configs, skewed_configs.
  apply configs_within_fold.
  { intros cfgs i _ Hc. apply push_config_within; [apply reorder_tiling_keys | exact Hc]. }
  apply configs_within_fold.
  { intros cfgs s _ Hc. apply push_config_within; [apply square_tiling_keys | exact Hc]. }
  apply configs_within_fold; [| intros c []].
  intros cfgs i Hi Hc. apply in_seq in Hi.
  apply configs_within_fold; [| exact Hc].
  intros cfgs' s _ Hc'. apply push_config_within; [| exact Hc'].
  apply skewed_tiling_keys. lia.
Qed.

Lemma tile_vars_are_pure_loop_vars (stg : FStage) (v : string) :
  In v (tile_vars_of stg) ->
  exists d, In d (stage_loop_dims (func stg) (stage_num stg))
            /\ dvar d = v /\ is_rvar d = false.
Proof.
  unfold tile_vars_of. intros H. apply in_map_iff in H as (d & Hd & Hin).
  apply filter_In in Hin as [Hin Hr]. exists d. repeat split; auto.
  now apply negb_true_iff in Hr.
Qed.

Lemma tile_vars_incl_loop_vars (stg : FStage) :
  incl (tile_vars_of stg) (loop_var_names stg).
Proof.
  intros v H. destruct (tile_vars_are_pure_loop_vars stg v H) as (d & Hin & <- & _).
  unfold loop_var_names. now apply in_map.
Qed.

Lemma foldM_invariant {A B} (P : B -> Prop) (f : B -> A -> option B) (l : list A) :
  (forall acc a acc', In a l -> P acc -> f acc a = Some acc' -> P acc') ->
  forall acc r, P acc -> foldM f l acc = Some r -> P r.
Proof.
  induction l as [| a l IH]; intros Hf acc r Hacc; simpl.
  - now intros [= <-].
  - destruct (f acc a) as [acc' |] eqn:E; [| discriminate].
    apply IH.
    + intros acc0 a0 acc1 Hin. apply Hf. now right.
    + eapply Hf; [now left | exact Hacc | exact E].
Qed.

(** [find_best_tile_config] answers the empty configuration or one of
    the generated ones. *)
Lemma find_best_tile_config_keys (g : Group) (cfg : smap Z) (an : GroupAnalysis) :
  find_best_tile_config g = Some (cfg, an) ->
  keys_within cfg (tile_vars_of (output g)).
Proof.
  unfold find_best_tile_config.
  destruct (analyze_group _) as [a0 |]; [| discriminate].
  destruct (_ =? unknown).
  - intros [= <- _]. apply keys_within_nil.
  - intros H.
    apply (foldM_invariant
             (fun best => keys_within (fst best) (tile_vars_of (output g)))) in H;
      [exact H | | apply keys_within_nil].
    intros best c best' Hin Hbest. unfold best_tile_step.
    destruct (analyze_group _); [| discriminate].
    destruct (_ >? 0); intros [= <-]; [| exact Hbest].
    simpl. now apply generate_tile_configs_keys.
Qed.

Lemma inline_tile_sizes_keys (cons_g : Group) :
  keys_within (inline_tile_sizes cons_g) (loop_var_names (output cons_g)).
Proof.
  unfold inline_tile_sizes. apply keys_within_fold; [| apply keys_within_nil].
  intros t d Hin Ht. apply keys_within_put; [exact Ht |].
  unfold loop_var_names. now apply in_map.
Qed.

(** INLINE mode gives every loop dimension of the consumer, reduction
    variables included, the tile size one. *)
Lemma inline_tile_sizes_all (cons_g : Group) (d : Dim) :
  In d (stage_loop_dims (func (output cons_g)) (stage_num (output cons_g))) ->
  sm_find (dvar d) (inline_tile_sizes cons_g) = Some 1.
Proof.
  unfold inline_tile_sizes.
  generalize (stage_loop_dims (func (output cons_g)) (stage_num (output cons_g))).
  intros ds. generalize (@nil (string * Z)).
  induction ds as [| d' ds IH] using rev_ind; intros t Hin; [destruct Hin |].
  rewrite fold_left_app. simpl. rewrite sm_find_put.
  destruct (String.eqb (dvar d) (dvar d')) eqn:E; [reflexivity |].
  apply in_app_or in Hin as [Hin | [<- | []]].
  - now apply IH.
  - now rewrite String.eqb_refl in E.
Qed.

(** *** Invariants of the grouping loop *)

(** The tile sizes of every group name loop variables of its output
    stage. *)
Definition tiles_ok (gs : list (FStage * Group)) : Prop :=
  forall k g, In (k, g) gs ->
              keys_within (tile_sizes g) (loop_var_names (output g)).

(** An evaluated choice names loop variables of the output stage of the
    consumer's group. *)
Definition eval_ok (gs : list (FStage * Group)) (e : GroupingChoice * GroupConfig) : Prop :=
  forall g, fm_find (choice_cons (fst e)) gs = Some g ->
            keys_within (config_tile_sizes (snd e)) (loop_var_names (output g)).

Definition choices_ok (gs : list (FStage * Group))
           (choices : list (GroupingChoice * GroupConfig)) : Prop :=
  forall e, In e choices -> eval_ok gs e.

Definition grouping_ok (p : Partitioner) : Prop :=
  tiles_ok (groups p) /\ choices_ok (groups p) (grouping_cache p).

(** Every group of [gs'] is a group of [gs] with the same output. *)
Definition same_outputs (gs gs' : list (FStage * Group)) : Prop :=
  forall k g', fm_find k gs' = Some g' ->
               exists g, fm_find k gs = Some g /\ output g = output g'.

Lemma same_outputs_refl gs : same_outputs gs gs.
Proof. intros k g H. exists g. auto. Qed.

Lemma same_outputs_trans gs1 gs2 gs3 :
  same_outputs gs1 gs2 -> same_outputs gs2 gs3 -> same_outputs gs1 gs3.
Proof.
  intros H12 H23 k g3 H3.
  destruct (H23 k g3 H3) as (g2 & H2 & E2).
  destruct (H12 k g2 H2) as (g1 & H1 & E1).
  exists g1. split; [exact H1 | congruence].
Qed.

Lemma eval_ok_same_outputs gs gs' e :
  same_outputs gs gs' -> eval_ok gs e -> eval_ok gs' e.
Proof.
  intros Hs He g' Hg'. destruct (Hs _ _ Hg') as (g & Hg & <-). now apply He.
Qed.

Lemma choices_ok_same_outputs gs gs' choices :
  same_outputs gs gs' -> choices_ok gs choices -> choices_ok gs' choices.
Proof. intros Hs Hc e He. eapply eval_ok_same_outputs; eauto. Qed.

Lemma eval_ok_keq gs a b cfg :
  GroupingChoice_eqb a b = true -> eval_ok gs (a, cfg) -> eval_ok gs (b, cfg).
Proof.
  unfold GroupingChoice_eqb, eval_ok. simpl. intros Hab Ha g Hg.
  apply andb_true_iff in Hab as [_ Hc]. apply Ha.
  unfold fm_find in *. now rewrite (fm_find_keq _ _ _ Hc).
Qed.

Lemma GroupingChoice_eqb_sym a b : GroupingChoice_eqb a b = GroupingChoice_eqb b a.
Proof. unfold GroupingChoice_eqb. now rewrite String.eqb_sym, FStage_eqb_sym. Qed.

Lemma same_outputs_put gs child g0 g' :
  fm_find child gs = Some g0 -> output g' = output g0 ->
  same_outputs gs (fm_put child g' gs).
Proof.
  intros Hf Ho k g1. unfold fm_find, fm_put in *. rewrite fm_find_put.
  destruct (FStage_eqb k child) eqn:E.
  - intros [= <-]. exists g0. rewrite (fm_find_keq _ _ _ E). auto.
  - intros H. exists g1. auto.
Qed.

Lemma same_outputs_erase gs k0 : same_outputs gs (fm_erase k0 gs).
Proof.
  intros k g1. unfold fm_find, fm_erase. rewrite fm_find_erase.
  destruct (FStage_eqb k k0); [discriminate |]. intros H. exists g1. auto.
Qed.

Lemma tiles_ok_put gs child g' :
  tiles_ok gs ->
  keys_within (tile_sizes g') (loop_var_names (output g')) ->
  tiles_ok (fm_put child g' gs).
Proof.
  intros Ht Hg k g1 Hin. unfold fm_put in Hin.
  apply om_put_In in Hin as [[-> _] | Hin]; [exact Hg | exact (Ht _ _ Hin)].
Qed.

Lemma tiles_ok_erase gs k0 : tiles_ok gs -> tiles_ok (fm_erase k0 gs).
Proof.
  intros Ht k g Hin. unfold fm_erase in Hin. apply om_erase_In in Hin. exact (Ht _ _ Hin).
Qed.

Lemma fm_find_tiles_ok gs k g :
  tiles_ok gs -> fm_find k gs = Some g ->
  keys_within (tile_sizes g) (loop_var_names (output g)).
Proof.
  intros Ht Hf. unfold fm_find in Hf.
  apply om_find_In in Hf as (k1 & Hin & _). exact (Ht _ _ Hin).
Qed.

Lemma merge_fold_output (l : list Group) (cons_g : Group) :
  output (fold_left (fun group prod_g => merge_two_groups prod_g group) l cons_g)
  = output cons_g.
Proof.
  revert cons_g. induction l as [| a l IH]; intros cons_g; simpl; [reflexivity |].
  now rewrite IH.
Qed.

Lemma evaluate_choice_ok p choice level cfg :
  evaluate_choice p choice level = Some cfg -> eval_ok (groups p) (choice, cfg).
Proof.
  unfold evaluate_choice, eval_ok. intros H g Hg. simpl in Hg |- *.
  destruct (get_element env _); [| discriminate].
  destruct (mapM _ _) as [prod_groups |]; [| discriminate].
  rewrite Hg in H.
  destruct level.
  - destruct (analyze_group _); [| discriminate]. injection H as <-. simpl.
    apply inline_tile_sizes_keys.
  - destruct (find_best_tile_config _) as [[c a] |] eqn:Ef; [| discriminate].
    injection H as <-. simpl.
    apply find_best_tile_config_keys in Ef. rewrite merge_fold_output in Ef.
    eapply keys_within_incl; [exact Ef | apply tile_vars_incl_loop_vars].
Qed.

(** What [choose_candidate_grouping] keeps of the partitioner and
    establishes of the choices it collects. *)
Definition choosing_ok (p0 : Partitioner)
           (choices : list (GroupingChoice * GroupConfig)) (p : Partitioner) : Prop :=
  groups p = groups p0 /\ group_costs p = group_costs p0
  /\ choices_ok (groups p0) (grouping_cache p)
  /\ choices_ok (groups p0) choices.

Lemma candidate_choice_step_ok level prod_f p0 choices p c choices' p' :
  choosing_ok p0 choices p ->
  candidate_choice_step level prod_f (choices, p) c = Some (choices', p') ->
  choosing_ok p0 choices' p'.
Proof.
  intros (Hg & Hc & Hcache & Hch). unfold candidate_choice_step.
  destruct (gc_find _ _) as [best_config |] eqn:Ef.
  - intros [= <- <-]. repeat split; auto.
    intros e He. apply in_app_or in He as [He | [<- | []]]; [now apply Hch |].
    unfold gc_find in Ef. apply om_find_In in Ef as (k1 & Hin & Hk).
    apply (eval_ok_keq _ k1); [now rewrite GroupingChoice_eqb_sym |].
    now apply Hcache.
  - destruct (evaluate_choice _ _ _) as [best_config |] eqn:Ee; [| discriminate].
    intros [= <- <-]. simpl.
    apply evaluate_choice_ok in Ee. rewrite Hg in Ee.
    repeat split; auto.
    + intros [k1 v1] He. unfold gc_emplace in He.
      apply om_emplace_In in He as [[-> [-> | Hk]] | He]; [exact Ee | | now apply Hcache].
      now apply (eval_ok_keq _ _ _ _ Hk).
    + intros e He. apply in_app_or in He as [He | [<- | []]]; [now apply Hch | exact Ee].
Qed.

Lemma children_at_ok prod p s p' :
  children_at prod p = (s, p') ->
  groups p' = groups p /\ group_costs p' = group_costs p
  /\ grouping_cache p' = grouping_cache p.
Proof.
  unfold children_at. destruct (fm_find _ _); intros [= <- <-]; auto.
Qed.

Lemma candidate_step_ok level p0 best benefit p cand best' benefit' p' :
  choosing_ok p0 best p ->
  candidate_step level (best, benefit, p) cand = Some (best', benefit', p') ->
  choosing_ok p0 best' p'.
Proof.
  intros (Hg & Hc & Hcache & Hbest). unfold candidate_step.
  destruct (get_element env _) as [prod_f |]; [| discriminate].
  destruct (children_at _ p) as [ch p1] eqn:Ech.
  apply children_at_ok in Ech as (Hg1 & Hc1 & Hcache1).
  destruct (foldM _ ch _) as [[choices p2] |] eqn:Ef; [| discriminate].
  assert (H2 : choosing_ok p0 choices p2).
  { apply (foldM_invariant
             (fun st => choosing_ok p0 (fst st) (snd st))) in Ef; [exact Ef | |].
    - intros [chs q] c [chs' q'] _ Hq Hstep. simpl in *.
      eapply candidate_choice_step_ok; eauto.
    - simpl. split; [congruence |]. split; [congruence |].
      split; [rewrite Hcache1; exact Hcache | intros e []]. }
  destruct H2 as (Hg2 & Hc2 & Hcache2 & Hch2).
  destruct (estimate_benefit_choices _ _ _ _); [| discriminate].
  destruct (_ <? _); intros [= <- <- <-]; repeat split; auto.
Qed.

Lemma choose_candidate_grouping_ok p cands level best p' :
  choices_ok (groups p) (grouping_cache p) ->
  choose_candidate_grouping p cands level = Some (best, p') ->
  choosing_ok p best p'.
Proof.
  intros Hcache. unfold choose_candidate_grouping.
  destruct (foldM _ cands _) as [[[b z] q] |] eqn:Ef; [| discriminate].
  intros [= <- <-].
  apply (foldM_invariant
           (fun st => choosing_ok p (fst (fst st)) (snd st))) in Ef; [exact Ef | |].
  - intros [[b1 z1] q1] c [[b2 z2] q2] _ Hq Hstep. simpl in *.
    eapply candidate_step_ok; eauto.
  - simpl. repeat split; auto. intros e [].
Qed.

Lemma invalidate_cache_In cache ch e :
  In e (invalidate_cache cache ch) -> In e cache.
Proof.
  unfold invalidate_cache. generalize (invalid_keys cache ch). intros keys.
  revert cache. induction keys as [| key keys IH]; intros cache; simpl; [auto |].
  intros H. apply IH in H. destruct e as [k v]. unfold gc_erase in H.
  now apply om_erase_In in H.
Qed.

Lemma absorb_stage_ok level child gs cand gs' :
  absorb_stage level child gs cand = Some gs' ->
  tiles_ok gs -> tiles_ok gs' /\ same_outputs gs gs'.
Proof.
  unfold absorb_stage.
  destruct (fm_find child gs) as [child_group |] eqn:Ec; [| discriminate].
  destruct (fm_find cand gs) as [cand_group |]; [| discriminate].
  intros [= <-] Ht. split.
  - apply tiles_ok_put; [exact Ht |]. simpl. exact (fm_find_tiles_ok _ _ _ Ht Ec).
  - eapply same_outputs_put; [exact Ec | reflexivity].
Qed.

Lemma merge_groups_ok p choice eval level p' :
  merge_groups p choice eval level = Some p' ->
  tiles_ok (groups p) -> eval_ok (groups p) (choice, eval) ->
  tiles_ok (groups p') /\ same_outputs (groups p) (groups p')
  /\ grouping_cache p' = grouping_cache p.
Proof.
  unfold merge_groups. intros H Ht He.
  destruct (get_element env _) as [prod_f |]; [| discriminate].
  destruct (fm_find (choice_cons choice) (groups p)); [| discriminate].
  destruct (foldM _ _ _) as [gs |] eqn:Ef; [| discriminate].
  assert (Hgs : tiles_ok gs /\ same_outputs (groups p) gs).
  { apply (foldM_invariant (fun gs => tiles_ok gs /\ same_outputs (groups p) gs)) in Ef;
      [exact Ef | | split; [exact Ht | apply same_outputs_refl]].
    intros acc cand acc' _ [Ha Hs] Hstep.
    destruct (absorb_stage_ok _ _ _ _ _ Hstep Ha) as [Ha' Hs'].
    split; [exact Ha' | eapply same_outputs_trans; eauto]. }
  destruct Hgs as [Htg Hsg].
  destruct (fm_find (choice_cons choice) gs) as [child_group |] eqn:Ec; [| discriminate].
  destruct (analyze_group _); [| discriminate].
  injection H as <-. simpl. repeat split.
  - apply tiles_ok_put; [exact Htg |]. simpl.
    destruct (Hsg _ _ Ec) as (gc0 & Hgc0 & <-). now apply He.
  - eapply same_outputs_trans; [exact Hsg |].
    eapply same_outputs_put; [exact Ec | reflexivity].
Qed.

Lemma erase_stage_ok ch p k :
  tiles_ok (groups p) ->
  tiles_ok (groups (erase_stage ch p k))
  /\ same_outputs (groups p) (groups (erase_stage ch p k))
  /\ grouping_cache (erase_stage ch p k) = grouping_cache p.
Proof.
  intros Ht. unfold erase_stage. simpl. repeat split.
  - now apply tiles_ok_erase.
  - apply same_outputs_erase.
Qed.

(** One round of the loop keeps the invariant. *)
Lemma group_iteration_ok level p p' b :
  grouping_ok p -> group_iteration level p = Some (p', b) -> grouping_ok p'.
Proof.
  intros [Ht Hcache]. unfold group_iteration.
  destruct (get_pipeline_cost p) as [pre_merge |]; [| discriminate].
  destruct (group_candidates p level) as [cand |]; [| discriminate].
  destruct (choose_candidate_grouping p cand level) as [[best p1] |] eqn:Ech; [| discriminate].
  apply choose_candidate_grouping_ok in Ech as (Hg1 & Hc1 & Hcache1 & Hbest); [| exact Hcache].
  destruct best as [| b0 best].
  - intros [= <- <-]. split; rewrite Hg1; assumption.
  - destruct (get_element env _) as [prod_f |]; [| discriminate].
    destruct (fm_find _ (children p1)) as [pgc |]; [| discriminate].
    destruct (foldM _ (b0 :: best) _) as [p2 |] eqn:Ef; [| discriminate].
    set (cache1 := invalidate_cache (grouping_cache p1) pgc) in *.
    assert (H2 : tiles_ok (groups p2) /\ same_outputs (groups p) (groups p2)
                 /\ grouping_cache p2 = cache1).
    { apply (foldM_invariant
               (fun q => tiles_ok (groups q) /\ same_outputs (groups p) (groups q)
                         /\ grouping_cache q = cache1)) in Ef; [exact Ef | |].
      - intros q g q' Hin (Hq1 & Hq2 & Hq3) Hstep.
        destruct (assert _); [| discriminate].
        assert (Heg : eval_ok (groups q) (fst g, snd g)).
        { eapply eval_ok_same_outputs; [exact Hq2 |].
          rewrite <- surjective_pairing. now apply Hbest. }
        destruct (merge_groups_ok _ _ _ _ _ Hstep Hq1 Heg) as (Hm1 & Hm2 & Hm3).
        repeat split; [exact Hm1 | eapply same_outputs_trans; eauto | congruence].
      - simpl. rewrite Hg1. repeat split; [exact Ht | apply same_outputs_refl]. }
    destruct (get_pipeline_cost _); [| discriminate].
    destruct (assert _); [| discriminate].
    intros [= <- <-].
    assert (H3 : forall l q,
               tiles_ok (groups q) /\ same_outputs (groups p) (groups q)
               /\ grouping_cache q = cache1 ->
               tiles_ok (groups (fold_left (erase_stage pgc) l q))
               /\ same_outputs (groups p) (groups (fold_left (erase_stage pgc) l q))
               /\ grouping_cache (fold_left (erase_stage pgc) l q) = cache1).
    { induction l as [| k l IH]; intros q Hq; simpl; [exact Hq |].
      apply IH. destruct Hq as (Hq1 & Hq2 & Hq3).
      destruct (erase_stage_ok pgc q k Hq1) as (He1 & He2 & He3).
      repeat split; [exact He1 | eapply same_outputs_trans; eauto | congruence]. }
    destruct (H3 (stages_of prod_f) p2 H2) as (Hf1 & Hf2 & Hf3).
    change (grouping_ok (fold_left (erase_stage pgc) (stages_of prod_f) p2)).
    split; [exact Hf1 |].
    rewrite Hf3. eapply choices_ok_same_outputs; [exact Hf2 |].
    intros e He. apply Hcache1. now apply invalidate_cache_In in He.
Qed.

Lemma group_ok fuel level p p' :
  grouping_ok p -> group fuel level p = Some p' -> grouping_ok p'.
Proof.
  revert p. induction fuel as [| n IH]; intros p Hp; simpl; [discriminate |].
  destruct (group_iteration level p) as [[p1 b] |] eqn:Ei; [| discriminate].
  apply (group_iteration_ok _ _ _ _ Hp) in Ei. simpl.
  destruct b; [now intros [= <-] | now apply IH].
Qed.

(** After [initialize_groups] every tile size belongs to a pure loop
    variable of the group's output stage. *)
Definition tiles_pure (gs : list (FStage * Group)) : Prop :=
  forall k g, In (k, g) gs -> keys_within (tile_sizes g) (tile_vars_of (output g)).

Lemma initialize_groups_pure p p' :
  initialize_groups p = Some p' -> tiles_pure (groups p') /\ grouping_cache p' = [].
Proof.
  unfold initialize_groups.
  destruct (foldM _ _ _) as [r |] eqn:Ef; [| discriminate].
  intros [= <-]. simpl. split; [| reflexivity].
  apply (foldM_invariant (fun acc => tiles_pure (fst acc))) in Ef; [exact Ef | |].
  - intros acc [k g] acc' _ Hacc. unfold initialize_step. simpl.
    destruct (find_best_tile_config g) as [[cfg an] |] eqn:Eb; [| discriminate].
    intros [= <-]. simpl. intros k1 g1 Hin.
    apply in_app_or in Hin as [Hin | [[= <- <-] | []]]; [exact (Hacc _ _ Hin) |].
    simpl. exact (find_best_tile_config_keys _ _ _ Eb).
  - intros k g [].
Qed.

Lemma tiles_pure_ok gs : tiles_pure gs -> tiles_ok gs.
Proof.
  intros H k g Hin. eapply keys_within_incl; [exact (H _ _ Hin) |].
  apply tile_vars_incl_loop_vars.
Qed.

(** The states of the grouping process: after [initialize_groups], after
    each round of [group] in either mode, and after the cache is cleared
    between the two passes. *)
Inductive grouping_state : Partitioner -> Prop :=
| after_initialize p p' :
    initialize_groups p = Some p' -> grouping_state p'
| after_iteration level p p' b :
    grouping_state p -> group_iteration level p = Some (p', b) -> grouping_state p'
| after_cache_clear p :
    grouping_state p -> grouping_state (set_cache p []).

Lemma grouping_state_ok p : grouping_state p -> grouping_ok p.
Proof.
  induction 1 as [p p' Hi | level p p' b _ IH Hstep | p _ IH].
  - apply initialize_groups_pure in Hi as [Hpure Hcache]. split.
    + now apply tiles_pure_ok.
    + rewrite Hcache. intros e [].
  - eapply group_iteration_ok; eauto.
  - destruct IH as [Ht _]. split; [exact Ht | intros e []].
Qed.

Lemma group_state fuel level p p' :
  grouping_state p -> group fuel level p = Some p' -> grouping_state p'.
Proof.
  revert p. induction fuel as [| n IH]; intros p Hp; simpl; [discriminate |].
  destruct (group_iteration level p) as [[p1 b] |] eqn:Ei; [| discriminate].
  apply (after_iteration _ _ _ _ Hp) in Ei. simpl.
  destruct b; [now intros [= <-] | now apply IH].
Qed.

(** The partitioner that [generate_cpu_schedule] reads is such a state. *)
Lemma partition_pipeline_state fuel p :
  partition_pipeline fuel = Some p -> grouping_state p.
Proof.
  unfold partition_pipeline.
  destruct (initialize_groups new_Partitioner) as [p1 |] eqn:E1; [| discriminate].
  destruct (group fuel INLINE p1) as [p2 |] eqn:E2; [| discriminate].
  intros E3. apply (group_state _ _ _ _ (after_cache_clear _
    (group_state _ _ _ _ (after_initialize _ _ E1) E2)) E3).
Qed.

(** C4, as the code has it.  At every state of the grouping process the
    keys of every group's [tile_sizes] are loop variables of the group's
    output stage.  Tile enumeration ([generate_tile_configs], and with it
    [find_best_tile_config]) names pure loop variables only, whereas
    INLINE-mode evaluation gives every loop dimension of the consumer's
    stage, reduction variables included, the tile size one. *)
Theorem tile_sizes_name_loop_variables (p : Partitioner) :
  grouping_state p ->
  (forall k g v, In (k, g) (groups p) -> sm_find v (tile_sizes g) <> None ->
                 In v (loop_var_names (output g)))
  /\ (forall stg c v, In c (generate_tile_configs stg) -> sm_find v c <> None ->
        exists d, In d (stage_loop_dims (func stg) (stage_num stg))
                  /\ dvar d = v /\ is_rvar d = false)
  /\ (forall g cfg an v, find_best_tile_config g = Some (cfg, an) ->
        sm_find v cfg <> None ->
        exists d, In d (stage_loop_dims (func (output g)) (stage_num (output g)))
                  /\ dvar d = v /\ is_rvar d = false)
  /\ (forall choice cfg cons_g d,
        evaluate_choice p choice INLINE = Some cfg ->
        fm_find (choice_cons choice) (groups p) = Some cons_g ->
        In d (stage_loop_dims (func (output cons_g)) (stage_num (output cons_g))) ->
        sm_find (dvar d) (config_tile_sizes cfg) = Some 1).
Proof.
  intros Hs. apply grouping_state_ok in Hs as [Ht _]. repeat split.
  - intros k g v Hin Hv. exact (Ht _ _ Hin v Hv).
  - intros stg c v Hc Hv. apply tile_vars_are_pure_loop_vars.
    exact (generate_tile_configs_keys stg c Hc v Hv).
  - intros g cfg an v Hb Hv. apply tile_vars_are_pure_loop_vars.
    exact (find_best_tile_config_keys g cfg an Hb v Hv).
  - intros choice cfg cons_g d He Hc Hd. unfold evaluate_choice in He.
    destruct (get_element env _); [| discriminate].
    destruct (mapM _ _); [| discriminate].
    rewrite Hc in He.
    destruct (analyze_group _); [| discriminate].
    injection He as <-. simpl. now apply inline_tile_sizes_all.
Qed.

(** *** The cost of the pipeline along the grouping loop *)

Lemma get_pipeline_cost_ext p p' :
  groups p' = groups p -> group_costs p' = group_costs p ->
  get_pipeline_cost p' = get_pipeline_cost p.
Proof. unfold get_pipeline_cost. now intros -> ->. Qed.

(** [choose_candidate_grouping] leaves the groups and their costs alone. *)
Definition keeps_groups (p0 p : Partitioner) : Prop :=
  groups p = groups p0 /\ group_costs p = group_costs p0.

Lemma candidate_choice_step_keeps level prod_f p0 choices p c choices' p' :
  keeps_groups p0 p ->
  candidate_choice_step level prod_f (choices, p) c = Some (choices', p') ->
  keeps_groups p0 p'.
Proof.
  intros Hk. unfold candidate_choice_step.
  destruct (gc_find _ _); [now intros [= <- <-] |].
  destruct (evaluate_choice _ _ _); [| discriminate].
  now intros [= <- <-].
Qed.

Lemma candidate_step_keeps level p0 best benefit p cand best' benefit' p' :
  keeps_groups p0 p ->
  candidate_step level (best, benefit, p) cand = Some (best', benefit', p') ->
  keeps_groups p0 p'.
Proof.
  intros [Hg Hc]. unfold candidate_step.
  destruct (get_element env _) as [prod_f |]; [| discriminate].
  destruct (children_at _ p) as [ch p1] eqn:Ech.
  apply children_at_ok in Ech as (Hg1 & Hc1 & _).
  destruct (foldM _ ch _) as [[choices p2] |] eqn:Ef; [| discriminate].
  assert (H2 : keeps_groups p0 p2).
  { apply (foldM_invariant (fun st => keeps_groups p0 (snd st))) in Ef; [exact Ef | |].
    - intros [chs q] c [chs' q'] _ Hq Hstep. simpl in *.
      eapply candidate_choice_step_keeps; eauto.
    - simpl. split; congruence. }
  destruct (estimate_benefit_choices _ _ _ _); [| discriminate].
  destruct (_ <? _); now intros [= <- <- <-].
Qed.

Lemma choose_candidate_grouping_keeps p cands level best p' :
  choose_candidate_grouping p cands level = Some (best, p') -> keeps_groups p p'.
Proof.
  unfold choose_candidate_grouping.
  destruct (foldM _ cands _) as [[[b z] q] |] eqn:Ef; [| discriminate].
  intros [= <- <-].
  apply (foldM_invariant (fun st => keeps_groups p (snd st))) in Ef; [exact Ef | |].
  - intros [[b1 z1] q1] c [[b2 z2] q2] _ Hq Hstep. simpl in *.
    eapply candidate_step_keeps; eauto.
  - simpl. split; reflexivity.
Qed.

(** The total the assertion of [group] compares, before and after. *)
Definition cost_not_increased (p p' : Partitioner) : Prop :=
  exists pre_merge post_merge,
    get_pipeline_cost p = Some pre_merge
    /\ get_pipeline_cost p' = Some post_merge
    /\ cost_total post_merge <= cost_total pre_merge.

Lemma group_iteration_cost level p p' b :
  group_iteration level p = Some (p', b) -> cost_not_increased p p'.
Proof.
  unfold group_iteration, cost_not_increased.
  destruct (get_pipeline_cost p) as [pre_merge |] eqn:Epre; [| discriminate].
  destruct (group_candidates p level) as [cand |]; [| discriminate].
  destruct (choose_candidate_grouping p cand level) as [[best p1] |] eqn:Ech; [| discriminate].
  apply choose_candidate_grouping_keeps in Ech as [Hg1 Hc1].
  destruct best as [| b0 best].
  - intros [= <- <-]. exists pre_merge, pre_merge. repeat split; [| lia].
    now rewrite (get_pipeline_cost_ext p p1 Hg1 Hc1).
  - destruct (get_element env _) as [prod_f |]; [| discriminate].
    destruct (fm_find _ (children p1)) as [pgc |]; [| discriminate].
    destruct (foldM _ (b0 :: best) _) as [p2 |]; [| discriminate].
    destruct (get_pipeline_cost (fold_left _ _ _)) as [post_merge |] eqn:Epost;
      [| discriminate].
    destruct (assert _) eqn:Ea; [| discriminate].
    intros [= <- <-]. exists pre_merge, post_merge.
    repeat split; [exact Epost |].
    unfold assert in Ea.
    destruct (cost_total pre_merge >=? cost_total post_merge) eqn:Eb; [| discriminate].
    apply Z.geb_le in Eb. lia.
Qed.

(** C1. Every round of [Partitioner::group] that applies a merge ends
    with the pipeline cost, the sum of [arith + memory] over the groups
    as [get_pipeline_cost] adds it up, not above its value at the start
    of the round: the assertion closing the round lets nothing else
    through.  Hence the cost at the end of [group] is not above the cost
    at its start. *)
Theorem group_cost_non_increasing :
  (forall level p p',
      group_iteration level p = Some (p', false) -> cost_not_increased p p')
  /\ (forall fuel level p p',
         group fuel level p = Some p' -> cost_not_increased p p').
Proof.
  split.
  - intros level p p'. apply group_iteration_cost.
  - induction fuel as [| n IH]; intros level p p'; simpl; [discriminate |].
    destruct (group_iteration level p) as [[p1 b] |] eqn:Ei; [| discriminate].
    apply group_iteration_cost in Ei as (c0 & c1 & H0 & H1 & Hle). simpl.
    destruct b.
    + intros [= <-]. exists c0, c1. auto.
    + intros Hg. apply IH in Hg as (c1' & c2 & H1' & H2 & Hle').
      rewrite H1 in H1'. injection H1' as <-.
      exists c0, c2. repeat split; auto. lia.
Qed.

(** *** The grouping loop ends *)

(** [map<FStage, V>] in key order. *)
Definition fm_sorted {V} (m : list (FStage * V)) : Prop := om_sorted FStage_ltb m.

Lemma fm_put_sorted {V} (k : FStage) (v : V) (m : list (FStage * V)) :
  fm_sorted m -> fm_sorted (fm_put k v m).
Proof.
  apply om_put_sorted;
    [apply FStage_ltb_trans | apply FStage_ltb_total | apply FStage_ltb_eqb_r].
Qed.

Lemma fm_emplace_sorted {V} (k : FStage) (v : V) (m : list (FStage * V)) :
  fm_sorted m -> fm_sorted (fm_emplace k v m).
Proof.
  apply om_emplace_sorted;
    [apply FStage_ltb_trans | apply FStage_ltb_total | apply FStage_ltb_eqb_r].
Qed.

Lemma fm_erase_sorted {V} (k : FStage) (m : list (FStage * V)) :
  fm_sorted m -> fm_sorted (fm_erase k m).
Proof. apply om_erase_sorted. Qed.

Lemma fm_put_length {V} (k : FStage) (v : V) (m : list (FStage * V)) :
  fm_sorted m -> fm_find k m <> None -> length (fm_put k v m) = length m.
Proof.
  apply om_put_length; [apply FStage_eqb_sym | apply FStage_ltb_asym | apply FStage_ltb_eqb_r].
Qed.

(** Sortedness looks at the keys only. *)
Lemma om_sorted_keys {K V W} (klt : K -> K -> bool) (m : list (K * V)) (m' : list (K * W)) :
  map fst m = map fst m' -> om_sorted klt m -> om_sorted klt m'.
Proof.
  revert m'. induction m as [| kv r IH]; intros [| kv' r']; simpl; try discriminate; auto.
  intros [= Hk Hr] [Hall Hs]. split; [| now apply IH].
  rewrite Hk in Hall.
  apply Forall_forall. intros x Hx.
  assert (Hin : In (fst x) (map fst r)) by (rewrite Hr; now apply in_map).
  apply in_map_iff in Hin as (y & Hy & Hiny). rewrite <- Hy.
  rewrite Forall_forall in Hall. exact (Hall y Hiny).
Qed.

Lemma fm_find_put_present {V} (k k' : FStage) (v : V) (m : list (FStage * V)) :
  fm_find k m <> None -> fm_find k (fm_put k' v m) <> None.
Proof.
  intros H. unfold fm_find, fm_put. rewrite fm_find_put.
  destruct (FStage_eqb k k'); [discriminate | exact H].
Qed.

(** What one merged stage leaves of [groups]. *)
Definition same_group_keys (gs gs' : list (FStage * Group)) : Prop :=
  fm_sorted gs' /\ length gs' = length gs
  /\ forall k, fm_find k gs <> None -> fm_find k gs' <> None.

Lemma absorb_stage_keys level child gs cand gs' :
  fm_sorted gs -> absorb_stage level child gs cand = Some gs' ->
  same_group_keys gs gs' /\ fm_find cand gs' <> None.
Proof.
  intros Hs. unfold absorb_stage.
  destruct (fm_find child gs) as [child_group |] eqn:Ec; [| discriminate].
  destruct (fm_find cand gs) as [cand_group |] eqn:Ed; [| discriminate].
  intros [= <-].
  assert (Hc : fm_find child gs <> None) by congruence.
  assert (Hd : fm_find cand gs <> None) by congruence.
  split; [split; [now apply fm_put_sorted | split] |].
  - now apply fm_put_length.
  - intros k Hk. now apply fm_find_put_present.
  - now apply fm_find_put_present.
Qed.

Lemma same_group_keys_trans gs1 gs2 gs3 :
  same_group_keys gs1 gs2 -> same_group_keys gs2 gs3 -> same_group_keys gs1 gs3.
Proof.
  intros (_ & L1 & F1) (S2 & L2 & F2). split; [exact S2 | split; [congruence |]].
  intros k Hk. apply F2, F1, Hk.
Qed.

Lemma absorb_stages_keys level child (stages : list FStage) :
  forall gs gs',
    fm_sorted gs -> foldM (absorb_stage level child) stages gs = Some gs' ->
    same_group_keys gs gs'
    /\ forall cand, In cand stages -> fm_find cand gs' <> None.
Proof.
  induction stages as [| c stages IH]; intros gs gs' Hs; simpl.
  - intros [= <-]. split; [split; [exact Hs | split; [reflexivity | auto]] | intros c []].
  - destruct (absorb_stage level child gs c) as [gs1 |] eqn:E; [| discriminate].
    apply (absorb_stage_keys _ _ _ _ _ Hs) in E as [K1 Hc].
    intros Hf. destruct (IH _ _ (proj1 K1) Hf) as [K2 Hall].
    split; [exact (same_group_keys_trans _ _ _ K1 K2) |].
    intros cand [<- | Hin]; [| now apply Hall].
    destruct K2 as (_ & _ & F2). now apply F2.
Qed.

Lemma merge_groups_keys p choice eval level p' :
  fm_sorted (groups p) -> merge_groups p choice eval level = Some p' ->
  same_group_keys (groups p) (groups p')
  /\ forall prod_f, get_element env (choice_prod choice) = Some prod_f ->
                    forall cand, In cand (stages_of prod_f) ->
                                 fm_find cand (groups p') <> None.
Proof.
  intros Hs. unfold merge_groups.
  destruct (get_element env (choice_prod choice)) as [prod_f |]; [| discriminate].
  destruct (fm_find (choice_cons choice) (groups p)); [| discriminate].
  destruct (foldM _ _ _) as [gs |] eqn:Ef; [| discriminate].
  apply (absorb_stages_keys _ _ _ _ _ Hs) in Ef as [K Hall].
  destruct (fm_find (choice_cons choice) gs) as [child_group |] eqn:Ec; [| discriminate].
  destruct (analyze_group _); [| discriminate].
  intros [= <-]. simpl.
  assert (Hc : fm_find (choice_cons choice) gs <> None) by congruence.
  destruct K as (S1 & L1 & F1).
  split; [split; [now apply fm_put_sorted | split] |].
  - rewrite <- L1. now apply fm_put_length.
  - intros k Hk. apply fm_find_put_present. now apply F1.
  - intros prod_f' [= <-] cand Hin. apply fm_find_put_present. now apply Hall.
Qed.

Lemma erase_stages_groups (prod_group_children : list FStage) (stages : list FStage) :
  forall p,
    fm_sorted (groups p) ->
    fm_sorted (groups (fold_left (erase_stage prod_group_children) stages p))
    /\ (length (groups (fold_left (erase_stage prod_group_children) stages p))
        <= length (groups p))%nat
    /\ forall cand, In cand stages ->
         fm_find cand (groups (fold_left (erase_stage prod_group_children) stages p))
         = None.
Proof.
  induction stages as [| s stages IH]; intros p Hs; simpl.
  - split; [exact Hs | split; [lia | intros c []]].
  - destruct (IH (erase_stage prod_group_children p s)) as (S1 & L1 & F1).
    { simpl. now apply fm_erase_sorted. }
    split; [exact S1 | split].
    + simpl in L1. pose proof (om_erase_length_le FStage_eqb s (groups p)) as L2.
      unfold fm_erase in L1. lia.
    + intros cand [<- | Hin]; [| now apply F1].
      assert (Hgone : forall l q,
                 fm_find s (groups q) = None ->
                 fm_find s (groups (fold_left (erase_stage prod_group_children) l q)) = None).
      { clear. induction l as [| x l IHl]; intros q Hq; simpl; [exact Hq |].
        apply IHl. simpl. unfold fm_find, fm_erase. rewrite fm_find_erase.
        destruct (FStage_eqb s x); [reflexivity | exact Hq]. }
      apply Hgone. simpl. unfold fm_find, fm_erase. rewrite fm_find_erase.
      now rewrite FStage_eqb_refl.
Qed.

(** A round that merges leaves fewer groups. *)
Lemma group_iteration_fewer level p p' :
  fm_sorted (groups p) ->
  group_iteration level p = Some (p', false) ->
  fm_sorted (groups p') /\ (length (groups p') < length (groups p))%nat.
Proof.
  intros Hs. unfold group_iteration.
  destruct (get_pipeline_cost p); [| discriminate].
  destruct (group_candidates p level); [| discriminate].
  destruct (choose_candidate_grouping p _ level) as [[best p1] |] eqn:Ech; [| discriminate].
  apply choose_candidate_grouping_keeps in Ech as [Hg1 _].
  destruct best as [| b0 best]; [discriminate |].
  destruct (get_element env (choice_prod (fst b0))) as [prod_f |] eqn:Ep; [| discriminate].
  destruct (fm_find _ (children p1)) as [pgc |]; [| discriminate].
  destruct (foldM _ (b0 :: best) _) as [p2 |] eqn:Ef; [| discriminate].
  destruct (get_pipeline_cost _); [| discriminate].
  destruct (assert _); [| discriminate].
  intros [= <-].
  assert (H2 : same_group_keys (groups p) (groups p2)
               /\ forall cand, In cand (stages_of prod_f) ->
                               fm_find cand (groups p2) <> None).
  { simpl in Ef. rewrite String.eqb_refl in Ef. simpl in Ef.
    destruct (merge_groups _ (fst b0) (snd b0) level) as [q |] eqn:Em; [| discriminate].
    apply merge_groups_keys in Em as [K Hall]; [| simpl; now rewrite Hg1].
    simpl in K. rewrite Hg1 in K.
    specialize (Hall prod_f Ep).
    assert (Hrest : forall l q q',
               same_group_keys (groups p) (groups q) ->
               (forall cand, In cand (stages_of prod_f) -> fm_find cand (groups q) <> None) ->
               foldM (fun p g =>
                        _ <- assert (String.eqb (choice_prod (fst g)) (choice_prod (fst b0))) ;;
                        merge_groups p (fst g) (snd g) level) l q = Some q' ->
               same_group_keys (groups p) (groups q')
               /\ forall cand, In cand (stages_of prod_f) ->
                               fm_find cand (groups q') <> None).
    { clear - Ep. induction l as [| g l IHl]; intros q q' Kq Hq; simpl.
      - intros [= <-]. now split.
      - destruct (assert _); [| discriminate].
        destruct (merge_groups q (fst g) (snd g) level) as [q1 |] eqn:Em; [| discriminate].
        apply merge_groups_keys in Em as [K1 _]; [| exact (proj1 Kq)].
        apply IHl.
        + exact (same_group_keys_trans _ _ _ Kq K1).
        + intros cand Hin. destruct K1 as (_ & _ & F1). apply F1. now apply Hq. }
    exact (Hrest _ _ _ K Hall Ef). }
  destruct H2 as [(S2 & L2 & _) Hfinal].
  destruct (erase_stages_groups pgc (stages_of prod_f) p2 S2) as (S3 & L3 & Hgone).
  split; [exact S3 |].
  assert (Hlt : (length (groups (fold_left (erase_stage pgc) (stages_of prod_f) p2))
                 < length (groups p2))%nat).
  { unfold stages_of. simpl.
    set (first := mkFStage prod_f 0).
    pose proof (om_erase_length FStage_eqb first (groups p2)) as Hdrop.
    destruct (erase_stages_groups pgc
                (map (mkFStage prod_f) (seq 1 (length (updates prod_f))))
                (erase_stage pgc p2 first)) as (_ & Lrest & _).
    { simpl. now apply fm_erase_sorted. }
    simpl in Lrest. unfold fm_erase in Lrest.
    assert (Hpresent : om_find FStage_eqb first (groups p2) <> None).
    { apply (Hfinal first). unfold stages_of. simpl. now left. }
    specialize (Hdrop Hpresent). lia. }
  change (length (groups (fold_left (erase_stage pgc) (stages_of prod_f) p2))
          < length (groups p))%nat.
  lia.
Qed.

Lemma group_iteration_sorted level p p' b :
  fm_sorted (groups p) -> group_iteration level p = Some (p', b) ->
  fm_sorted (groups p') /\ (length (groups p') <= length (groups p))%nat.
Proof.
  intros Hs. destruct b.
  - unfold group_iteration.
    destruct (get_pipeline_cost p); [| discriminate].
    destruct (group_candidates p level); [| discriminate].
    destruct (choose_candidate_grouping p _ level) as [[best p1] |] eqn:Ech; [| discriminate].
    apply choose_candidate_grouping_keeps in Ech as [Hg1 _].
    destruct best as [| b0 best].
    + intros [= <-]. rewrite Hg1. split; [exact Hs | lia].
    + destruct (get_element env _); [| discriminate].
      destruct (fm_find _ (children p1)); [| discriminate].
      destruct (foldM _ _ _); [| discriminate].
      destruct (get_pipeline_cost _); [| discriminate].
      destruct (assert _); discriminate.
  - intros H. apply (group_iteration_fewer _ _ _ Hs) in H as [S1 L1]. split; [exact S1 | lia].
Qed.

Lemma group_sorted fuel level :
  forall p p', fm_sorted (groups p) -> group fuel level p = Some p' ->
               fm_sorted (groups p') /\ (length (groups p') <= length (groups p))%nat.
Proof.
  induction fuel as [| n IH]; intros p p' Hs; simpl; [discriminate |].
  destruct (group_iteration level p) as [[p1 b] |] eqn:Ei; [| discriminate].
  apply (group_iteration_sorted _ _ _ _ Hs) in Ei as [S1 L1]. simpl.
  destruct b; [intros [= <-]; now split |].
  intros H. destruct (IH _ _ S1 H) as [S2 L2]. split; [exact S2 | lia].
Qed.

(** More rounds than there are groups are never used. *)
Lemma group_fuel_enough level (bound : nat) :
  forall p n m,
    fm_sorted (groups p) -> (length (groups p) <= bound)%nat ->
    (bound < n)%nat -> (bound < m)%nat ->
    group n level p = group m level p.
Proof.
  induction bound as [| bound IH]; intros p n m Hs Hlen Hn Hm;
    (destruct n as [| n]; [lia |]); (destruct m as [| m]; [lia |]); simpl;
    destruct (group_iteration level p) as [[p1 b] |] eqn:Ei; try reflexivity;
    simpl; destruct b; try reflexivity;
    apply (group_iteration_fewer _ _ _ Hs) in Ei as [S1 L1].
  - lia.
  - apply IH; [exact S1 | lia | lia | lia].
Qed.

Lemma initialize_step_keys (l : list (FStage * Group)) :
  forall acc r,
    foldM initialize_step l acc = Some r ->
    map fst (fst r) = map fst (fst acc) ++ map fst l.
Proof.
  induction l as [| g l IH]; intros acc r; simpl.
  - intros [= <-]. now rewrite app_nil_r.
  - unfold initialize_step at 1.
    destruct (find_best_tile_config (snd g)) as [best |]; [| discriminate].
    intros H. apply IH in H. simpl in H. rewrite H, map_app, <- app_assoc. reflexivity.
Qed.

Lemma initialize_groups_keys p p' :
  initialize_groups p = Some p' -> map fst (groups p') = map fst (groups p).
Proof.
  unfold initialize_groups.
  destruct (foldM _ _ _) as [r |] eqn:E; [| discriminate].
  intros [= <-]. simpl. apply initialize_step_keys in E. exact E.
Qed.

Lemma fold_left_keeps {A B} (P : A -> Prop) (f : A -> B -> A) (l : list B) :
  (forall a b, P a -> P (f a b)) -> forall a, P a -> P (fold_left f l a).
Proof.
  intros Hf. induction l as [| b l IH]; intros a Ha; simpl; [exact Ha |].
  apply IH, Hf, Ha.
Qed.

Lemma initial_groups_sorted : fm_sorted initial_groups.
Proof.
  unfold initial_groups.
  apply (fold_left_keeps (fun gs : list (FStage * Group) => fm_sorted gs)); [| exact I].
  intros gs kv Hgs.
  apply (fold_left_keeps (fun gs : list (FStage * Group) => fm_sorted gs)); [| exact Hgs].
  intros gs' stg. apply fm_emplace_sorted.
Qed.

Lemma om_emplace_length {K V} (klt keq : K -> K -> bool) (k : K) (v : V) (m : list (K * V)) :
  (length (om_emplace klt keq k v m) <= S (length m))%nat.
Proof.
  unfold om_emplace. destruct (om_find keq k m); [lia |].
  induction m as [| [k1 v1] r IH]; simpl; [lia |].
  destruct (keq k k1); [simpl; lia |].
  destruct (klt k k1); simpl; lia.
Qed.

Lemma initial_groups_count :
  (length initial_groups <= length (flat_map (fun kv => stages_of (snd kv)) env))%nat.
Proof.
  unfold initial_groups.
  assert (Hin : forall (f : Function) (l : list FStage) (gs : list (FStage * Group)),
             (length (fold_left (fun gs stg => fm_emplace stg (mkGroup stg [stg] [] []) gs)
                                l gs)
              <= length gs + length l)%nat).
  { intros f l. induction l as [| s l IHl]; intros gs; simpl; [lia |].
    specialize (IHl (fm_emplace s (mkGroup s [s] [] []) gs)).
    pose proof (om_emplace_length FStage_ltb FStage_eqb s (mkGroup s [s] [] []) gs) as H1.
    unfold fm_emplace in *. lia. }
  assert (Hout : forall (e : smap Function) (gs : list (FStage * Group)),
             (length (fold_left
                        (fun gs kv =>
                           fold_left (fun gs stg => fm_emplace stg (mkGroup stg [stg] [] []) gs)
                                     (stages_of (snd kv)) gs) e gs)
              <= length gs + length (flat_map (fun kv => stages_of (snd kv)) e))%nat).
  { induction e as [| kv e IHe]; intros gs; cbn [fold_left flat_map]; [simpl; lia |].
    specialize (IHe (fold_left (fun gs stg => fm_emplace stg (mkGroup stg [stg] [] []) gs)
                               (stages_of (snd kv)) gs)).
    pose proof (Hin (snd kv) (stages_of (snd kv)) gs) as H1.
    rewrite length_app. lia. }
  specialize (Hout env []). simpl in Hout. exact Hout.
Qed.

(** X8. Every round of [Partitioner::group] that merges leaves fewer
    groups than it found, so a pass stops after at most as many rounds as
    there are groups: rounds allowed beyond that number change nothing.
    For the two passes of [generate_schedules] the number of stages of the
    pipeline is such a number. *)
Theorem grouping_ends_within_group_count :
  (forall level p p',
      fm_sorted (groups p) -> group_iteration level p = Some (p', false) ->
      (length (groups p') < length (groups p))%nat)
  /\ (forall level p n m,
         fm_sorted (groups p) ->
         (length (groups p) < n)%nat -> (length (groups p) < m)%nat ->
         group n level p = group m level p)
  /\ (forall n m,
         (length (groups new_Partitioner) < n)%nat ->
         (length (groups new_Partitioner) < m)%nat ->
         partition_pipeline n = partition_pipeline m)
  /\ (length (groups new_Partitioner)
      <= length (flat_map (fun kv => stages_of (snd kv)) env))%nat.
Proof.
  split; [| split; [| split]].
  - intros level p p' Hs Hi. exact (proj2 (group_iteration_fewer _ _ _ Hs Hi)).
  - intros level p n m Hs Hn Hm.
    now apply (group_fuel_enough level (length (groups p))).
  - intros n m Hn Hm. unfold partition_pipeline.
    destruct (initialize_groups new_Partitioner) as [p1 |] eqn:E1; [| reflexivity].
    apply initialize_groups_keys in E1.
    assert (S1 : fm_sorted (groups p1)).
    { apply (om_sorted_keys _ (groups new_Partitioner)); [now symmetry |].
      exact initial_groups_sorted. }
    assert (L1 : length (groups p1) = length (groups new_Partitioner)).
    { rewrite <- (length_map fst (groups p1)), E1. apply length_map. }
    rewrite (group_fuel_enough INLINE (length (groups p1)) p1 n m S1) by lia.
    destruct (group m INLINE p1) as [p2 |] eqn:E2; [| reflexivity].
    apply (group_sorted _ _ _ _ S1) in E2 as [S2 L2].
    apply (group_fuel_enough FAST_MEM (length (groups p1))); simpl; [exact S2 | lia | lia | lia].
  - exact initial_groups_count.
Qed.

(** *** The constructor *)

Lemma fold_left_keeps_In {A B} (P : A -> Prop) (f : A -> B -> A) (l : list B) :
  (forall a b, In b l -> P a -> P (f a b)) -> forall a, P a -> P (fold_left f l a).
Proof.
  induction l as [| b l IH]; intros Hf a Ha; simpl; [exact Ha |].
  apply IH.
  - intros a0 b0 Hin. apply Hf. now right.
  - apply Hf; [now left | exact Ha].
Qed.

Lemma om_put_fresh_In {K V} (klt keq : K -> K -> bool) (k k1 : K) (v v1 : V)
      (m : list (K * V)) :
  om_find keq k m = None ->
  In (k1, v1) (om_put klt keq k v m) -> (k1, v1) = (k, v) \/ In (k1, v1) m.
Proof.
  induction m as [| [k2 v2] r IH]; simpl.
  - intros _ [H | []]. now left.
  - destruct (keq k k2); [discriminate |]. intros Hf.
    destruct (klt k k2); simpl.
    + intros [H | H]; [now left | now right].
    + intros [H | H]; [right; now left |].
      destruct (IH Hf H) as [Hl | Hr]; [now left | right; now right].
Qed.

Lemma fm_emplace_In {V} (k k1 : FStage) (v v1 : V) (m : list (FStage * V)) :
  In (k1, v1) (fm_emplace k v m) -> (k1, v1) = (k, v) \/ In (k1, v1) m.
Proof.
  unfold fm_emplace, om_emplace.
  destruct (om_find FStage_eqb k m) eqn:E; [now right |].
  now apply om_put_fresh_In.
Qed.

Lemma fm_find_emplace {V} (k k' : FStage) (v : V) (m : list (FStage * V)) :
  fm_find k (fm_emplace k' v m)
  = match fm_find k' m with
    | Some _ => fm_find k m
    | None => if FStage_eqb k k' then Some v else fm_find k m
    end.
Proof.
  unfold fm_emplace, om_emplace. change (om_find FStage_eqb k' m) with (fm_find k' m).
  destruct (fm_find k' m); [reflexivity | apply fm_find_put].
Qed.

(** A group that holds one stage and nothing else. *)
Definition singleton_group (stg : FStage) : Group := mkGroup stg [stg] [] [].

Definition singleton_groups (gs : list (FStage * Group)) : Prop :=
  forall k g, In (k, g) gs ->
              g = singleton_group k
              /\ exists n f, In (n, f) env /\ In k (stages_of f).

Definition holds_stage (gs : list (FStage * Group)) (stg : FStage) : Prop :=
  exists k, fm_find stg gs = Some (singleton_group k) /\ FStage_eqb stg k = true.

Lemma holds_stage_emplace gs stg k :
  singleton_groups gs -> holds_stage gs stg ->
  holds_stage (fm_emplace k (singleton_group k) gs) stg.
Proof.
  intros Hsg (k0 & Hf & Hk). unfold holds_stage. rewrite fm_find_emplace.
  destruct (fm_find k gs); [now exists k0 |].
  destruct (FStage_eqb stg k) eqn:E; [now exists k | now exists k0].
Qed.

Lemma holds_stage_new gs stg :
  singleton_groups gs -> holds_stage (fm_emplace stg (singleton_group stg) gs) stg.
Proof.
  intros Hsg. unfold holds_stage. rewrite fm_find_emplace.
  destruct (fm_find stg gs) as [g |] eqn:E.
  - replace (fm_find stg gs) with (Some g).
    apply om_find_In in E as (k1 & Hin & Hk).
    destruct (Hsg _ _ Hin) as [-> _]. now exists k1.
  - rewrite FStage_eqb_refl. exists stg. split; [reflexivity | apply FStage_eqb_refl].
Qed.

(** X9. The constructor places every stage of every function of the
    environment in a group of its own: each group holds exactly the stage
    it is keyed by, nothing inlined and no tile sizes, and every stage of
    the environment finds its group.  No cost and no cached choice exists
    yet. *)
Theorem constructor_groups_are_singletons :
  (forall k g, In (k, g) (groups new_Partitioner) ->
      g = singleton_group k /\ exists n f, In (n, f) env /\ In k (stages_of f))
  /\ (forall n f stg, In (n, f) env -> In stg (stages_of f) ->
        exists k, fm_find stg (groups new_Partitioner) = Some (singleton_group k)
                  /\ FStage_eqb stg k = true)
  /\ group_costs new_Partitioner = []
  /\ grouping_cache new_Partitioner = [].
Proof.
  assert (Hstep : forall f (l : list FStage) gs,
             (exists n, In (n, f) env) -> incl l (stages_of f) ->
             singleton_groups gs ->
             singleton_groups
               (fold_left (fun gs stg => fm_emplace stg (mkGroup stg [stg] [] []) gs) l gs)
             /\ (forall stg, holds_stage gs stg \/ In stg l ->
                   holds_stage
                     (fold_left (fun gs stg => fm_emplace stg (mkGroup stg [stg] [] []) gs)
                                l gs) stg)).
  { intros f l. induction l as [| s l IHl]; intros gs Hf Hincl Hsg; simpl.
    - split; [exact Hsg |]. intros stg [H | []]. exact H.
    - assert (Hsg' : singleton_groups (fm_emplace s (mkGroup s [s] [] []) gs)).
      { intros k g Hin. apply fm_emplace_In in Hin as [[= -> ->] | Hin].
        - split; [reflexivity |]. destruct Hf as (n & Hn).
          exists n, f. split; [exact Hn |]. apply Hincl. now left.
        - now apply Hsg. }
      destruct (IHl _ Hf (fun x Hx => Hincl x (or_intror Hx)) Hsg') as [H1 H2].
      split; [exact H1 |].
      intros stg [H | [<- | Hin]]; apply H2.
      + left. now apply (holds_stage_emplace gs stg s).
      + left. now apply holds_stage_new.
      + now right. }
  assert (Hall : forall (e : smap Function) gs,
             incl e env -> singleton_groups gs ->
             singleton_groups
               (fold_left
                  (fun gs kv =>
                     fold_left (fun gs stg => fm_emplace stg (mkGroup stg [stg] [] []) gs)
                               (stages_of (snd kv)) gs) e gs)
             /\ (forall stg,
                    holds_stage gs stg
                    \/ (exists n f, In (n, f) e /\ In stg (stages_of f)) ->
                    holds_stage
                      (fold_left
                         (fun gs kv =>
                            fold_left
                              (fun gs stg => fm_emplace stg (mkGroup stg [stg] [] []) gs)
                              (stages_of (snd kv)) gs) e gs) stg)).
  { induction e as [| [n f] e IHe]; intros gs Hincl Hsg; cbn [fold_left].
    - split; [exact Hsg |]. intros stg [H | (n & f & [] & _)]. exact H.
    - destruct (Hstep f (stages_of f) gs) as [H1 H2];
        [exists n; apply Hincl; now left | apply incl_refl | exact Hsg |].
      destruct (IHe _ (fun x Hx => Hincl x (or_intror Hx)) H1) as [H3 H4].
      split; [exact H3 |].
      intros stg [H | (n' & f' & [[= <- <-] | Hin] & Hs)]; apply H4.
      + left. apply H2. now left.
      + left. apply H2. now right.
      + right. now exists n', f'. }
  destruct (Hall env [] (incl_refl _)) as [H1 H2]; [intros k g [] |].
  split; [exact H1 | split; [| split; reflexivity]].
  intros n f stg Hin Hs. apply H2. right. now exists n, f.
Qed.

(** [children[p]] holds [c]. *)
Definition is_child (ch : list (FStage * list FStage)) (p c : FStage) : bool :=
  match fm_find p ch with
  | Some s => fs_mem c s
  | None => false
  end.

Lemma fs_mem_insert (c' c : FStage) (s : list FStage) :
  fs_mem c' (fs_insert c s) = FStage_eqb c' c || fs_mem c' s.
Proof. apply os_mem_insert; [apply FStage_eqb_sym | apply FStage_eqb_trans]. Qed.

Lemma fs_mem_erase (c' c : FStage) (s : list FStage) :
  fs_mem c' (fs_erase c s) = negb (FStage_eqb c' c) && fs_mem c' s.
Proof. apply os_mem_erase; [apply FStage_eqb_sym | apply FStage_eqb_trans]. Qed.

Lemma is_child_insert ch p c p' c' :
  is_child (children_insert p c ch) p' c'
  = (FStage_eqb p' p && FStage_eqb c' c) || is_child ch p' c'.
Proof.
  unfold is_child, children_insert.
  destruct (fm_find p ch) as [s |] eqn:Ep; unfold fm_find, fm_put in *;
    rewrite fm_find_put; destruct (FStage_eqb p' p) eqn:E; simpl; try reflexivity.
  - rewrite (fm_find_keq p' p ch E), Ep. apply fs_mem_insert.
  - rewrite (fm_find_keq p' p ch E), Ep. unfold fs_mem, os_mem. simpl.
    now rewrite orb_false_r.
Qed.

Lemma is_child_fold {A} (step : list (FStage * list FStage) -> A -> list (FStage * list FStage))
      (edge : A -> FStage -> FStage -> bool) (l : list A) :
  (forall ch a p c, is_child (step ch a) p c = edge a p c || is_child ch p c) ->
  forall ch p c,
    is_child (fold_left step l ch) p c
    = existsb (fun a => edge a p c) l || is_child ch p c.
Proof.
  intros Hstep. induction l as [| a l IH]; intros ch p c; simpl; [reflexivity |].
  rewrite IH, Hstep.
  destruct (edge a p c), (existsb _ l), (is_child ch p c); reflexivity.
Qed.

(** The edges of the pipeline graph: from the last stage of a producer
    that is in the environment to a stage of another function that calls
    it, and from each stage of a function to the next one. *)
Definition call_edge (n : string) (f : Function) (s : nat) (name : string)
           (p c : FStage) : bool :=
  match sm_find name env with
  | Some prod_func =>
      negb (String.eqb name n)
      && (FStage_eqb p (mkFStage prod_func (length (updates prod_func)))
          && FStage_eqb c (mkFStage f s))
  | None => false
  end.

Definition stage_edge (n : string) (f : Function) (s : nat) (p c : FStage) : bool :=
  match s with
  | O => false
  | S s' => FStage_eqb p (mkFStage f s') && FStage_eqb c (mkFStage f s)
  end
  || existsb (fun name => call_edge n f s name p c) (get_parents f s).

Definition pipeline_edge (p c : FStage) : bool :=
  existsb (fun kv =>
             existsb (fun s => stage_edge (fst kv) (snd kv) s p c)
                     (seq 0 (S (length (updates (snd kv))))))
          env.

(** X10. The children map the constructor builds holds exactly the
    edges of the pipeline graph: a stage is a child of the last stage of
    every other function of the environment that it calls, and of the
    stage before it in its own function.  Calls to names outside the
    environment and calls of a function to itself add no edge. *)
Theorem constructor_children_are_the_edges (p c : FStage) :
  is_child (children new_Partitioner) p c = pipeline_edge p c
  /\ (pipeline_edge p c = true <->
      exists n f s,
        In (n, f) env /\ (s <= length (updates f))%nat
        /\ FStage_eqb c (mkFStage f s) = true
        /\ ((exists s', s = S s' /\ FStage_eqb p (mkFStage f s') = true)
            \/ (exists name prod_func,
                   In name (get_parents f s) /\ name <> n
                   /\ sm_find name env = Some prod_func
                   /\ FStage_eqb p (mkFStage prod_func (length (updates prod_func)))
                      = true))).
Proof.
  split.
  - simpl. unfold initial_children, pipeline_edge.
    rewrite (is_child_fold _ (fun kv p c =>
               existsb (fun s => stage_edge (fst kv) (snd kv) s p c)
                       (seq 0 (S (length (updates (snd kv))))))).
    + unfold is_child at 1. simpl. apply orb_false_r.
    + intros ch kv p0 c0.
      apply (is_child_fold _ (fun s p c => stage_edge (fst kv) (snd kv) s p c)).
      intros ch1 s p1 c1. unfold stage_edge.
      assert (Hcalls :
                is_child
                  (fold_left
                     (fun ch name =>
                        match sm_find name env with
                        | Some prod_func =>
                            if negb (String.eqb name (fst kv)) then
                              children_insert
                                (mkFStage prod_func (length (updates prod_func)))
                                (mkFStage (snd kv) s) ch
                            else ch
                        | None => ch
                        end)
                     (get_parents (snd kv) s) ch1) p1 c1
                = existsb (fun name => call_edge (fst kv) (snd kv) s name p1 c1)
                          (get_parents (snd kv) s)
                  || is_child ch1 p1 c1).
      { apply (is_child_fold _ (fun name p c => call_edge (fst kv) (snd kv) s name p c)).
        intros ch2 name p2 c2. unfold call_edge.
        destruct (sm_find name env) as [prod_func |]; [| reflexivity].
        destruct (negb (String.eqb name (fst kv))); [| reflexivity].
        simpl. apply is_child_insert. }
      destruct s as [| s'].
      * rewrite Hcalls. reflexivity.
      * rewrite is_child_insert, Hcalls.
        destruct (FStage_eqb p1 _ && FStage_eqb c1 _), (existsb _ _), (is_child ch1 p1 c1);
          reflexivity.
  - unfold pipeline_edge. rewrite existsb_exists. split.
    + intros ([n f] & Hin & Hs). cbn [fst snd] in Hs.
      apply existsb_exists in Hs as (s & Hseq & He).
      apply in_seq in Hseq. exists n, f, s.
      split; [exact Hin |]. split; [lia |].
      unfold stage_edge in He. apply orb_true_iff in He as [He | He].
      * destruct s as [| s']; [discriminate |].
        apply andb_true_iff in He as [Hp Hc].
        split; [exact Hc |]. left. now exists s'.
      * apply existsb_exists in He as (name & Hname & Hc).
        unfold call_edge in Hc.
        destruct (sm_find name env) as [prod_func |] eqn:Ef; [| discriminate].
        apply andb_true_iff in Hc as [Hne Hc]. apply andb_true_iff in Hc as [Hp Hc].
        split; [exact Hc |]. right. exists name, prod_func.
        apply negb_true_iff, String.eqb_neq in Hne. auto.
    + intros (n & f & s & Hin & Hle & Hc & Hedge).
      exists (n, f). split; [exact Hin |]. cbn [fst snd].
      apply existsb_exists. exists s. split; [apply in_seq; lia |].
      unfold stage_edge. apply orb_true_iff.
      destruct Hedge as [(s' & -> & Hp) | (name & prod_func & Hname & Hne & Hf & Hp)].
      * left. now rewrite Hp, Hc.
      * right. apply existsb_exists. exists name. split; [exact Hname |].
        unfold call_edge. rewrite Hf, Hp, Hc.
        apply String.eqb_neq in Hne. now rewrite Hne.
Qed.

(** *** [initialize_groups] *)

Lemma fm_sorted_tail {V} (k : FStage) (v : V) (r : list (FStage * V)) :
  fm_sorted ((k, v) :: r) ->
  fm_sorted r /\ forall k' v', In (k', v') r -> FStage_eqb k' k = false.
Proof.
  intros [Hall Hr]. split; [exact Hr |].
  intros k' v' Hin. rewrite Forall_forall in Hall. specialize (Hall _ Hin). simpl in Hall.
  rewrite FStage_eqb_sym. now apply FStage_ltb_not_eqb.
Qed.

(** The loop of [initialize_groups] over groups of one stage each. *)
Lemma initialize_fold (l : list (FStage * Group)) :
  fm_sorted l ->
  (forall k g, In (k, g) l -> g = singleton_group k) ->
  forall acc_g acc_c r,
    (forall k g, In (k, g) l -> fm_find k acc_c = None) ->
    foldM initialize_step l (acc_g, acc_c) = Some r ->
    (forall k g, In (k, g) (fst r) ->
       In (k, g) acc_g
       \/ exists cfg an,
            find_best_tile_config (singleton_group k) = Some (cfg, an)
            /\ g = set_tile_sizes (singleton_group k) cfg
            /\ fm_find k (snd r) = Some an)
    /\ (forall k, fm_find k acc_c <> None -> fm_find k (snd r) = fm_find k acc_c)
    /\ (l = [] -> snd r = acc_c).
Proof.
  induction l as [| [k0 g0] l IH]; intros Hs Hsg acc_g acc_c r Hfresh; simpl.
  - intros [= <-]. simpl. split; [intros k g H; now left | split; reflexivity].
  - unfold initialize_step at 1. simpl.
    rewrite (Hsg k0 g0 (or_introl eq_refl)).
    destruct (find_best_tile_config (singleton_group k0)) as [[cfg an] |] eqn:Eb;
      [| discriminate].
    simpl. intros Hf.
    apply fm_sorted_tail in Hs as [Hs Hne].
    assert (Hk0 : fm_find k0 (fm_emplace k0 an acc_c) = Some an).
    { rewrite fm_find_emplace, (Hfresh k0 g0 (or_introl eq_refl)).
      now rewrite FStage_eqb_refl. }
    assert (Hfresh' : forall k g, In (k, g) l -> fm_find k (fm_emplace k0 an acc_c) = None).
    { intros k g H. rewrite fm_find_emplace, (Hfresh k0 g0 (or_introl eq_refl)).
      rewrite (Hne k g H). exact (Hfresh k g (or_intror H)). }
    destruct (IH Hs (fun k g H => Hsg k g (or_intror H)) _ _ _ Hfresh' Hf) as (H1 & H2 & _).
    split; [| split; [| discriminate]].
    + intros k g Hin. destruct (H1 k g Hin) as [Hacc | Hnew]; [| now right].
      apply in_app_or in Hacc as [Hacc | [[= <- <-] | []]]; [now left |].
      right. exists cfg, an. split; [exact Eb | split; [reflexivity |]].
      rewrite H2; [exact Hk0 | congruence].
    + intros k Hk. rewrite H2.
      * rewrite fm_find_emplace, (Hfresh k0 g0 (or_introl eq_refl)).
        destruct (FStage_eqb k k0) eqn:E; [| reflexivity].
        pose proof (Hfresh k0 g0 (or_introl eq_refl)) as H0.
        unfold fm_find in Hk, H0. rewrite (fm_find_keq k k0 acc_c E) in Hk.
        now rewrite H0 in Hk.
      * rewrite fm_find_emplace, (Hfresh k0 g0 (or_introl eq_refl)).
        destruct (FStage_eqb k k0); [discriminate | exact Hk].
Qed.

Lemma pipeline_cost_defined (p : Partitioner) :
  groups p <> [] ->
  (forall k g, In (k, g) (groups p) -> fm_find k (group_costs p) <> None) ->
  get_pipeline_cost p <> None.
Proof.
  intros Hne Hall. unfold get_pipeline_cost.
  assert (Hsome : forall (l : list (FStage * Group)) acc,
             (forall k g, In (k, g) l -> fm_find k (group_costs p) <> None) ->
             foldM (fun total_cost g =>
                      a <- fm_find (fst g) (group_costs p) ;;
                      Some (mkCost (add64 (arith total_cost) (arith (cost a)))
                                   (add64 (memory total_cost) (memory (cost a)))))
                   l acc <> None).
  { induction l as [| [k g] l IH]; intros acc Hl; simpl; [discriminate |].
    destruct (fm_find k (group_costs p)) eqn:E; [| now elim (Hl k g (or_introl eq_refl))].
    apply IH. intros k' g' H. apply (Hl k' g'). now right. }
  destruct (group_costs p) as [| c0 cs] eqn:Ec.
  - destruct (groups p) as [| [k g] gs]; [now elim Hne |].
    now elim (Hall k g (or_introl eq_refl)).
  - simpl. apply Hsome. exact Hall.
Qed.

Lemma initial_groups_hold_their_key (k : FStage) (g : Group) :
  In (k, g) initial_groups -> g = singleton_group k.
Proof.
  revert k g. unfold initial_groups.
  apply (fold_left_keeps
           (fun gs : list (FStage * Group) =>
              forall k g, In (k, g) gs -> g = singleton_group k)); [| intros k g []].
  intros gs kv Hgs.
  apply (fold_left_keeps
           (fun gs : list (FStage * Group) =>
              forall k g, In (k, g) gs -> g = singleton_group k)); [| exact Hgs].
  intros gs' stg Hgs' k g Hin.
  apply fm_emplace_In in Hin as [[= -> ->] | Hin]; [reflexivity | now apply Hgs'].
Qed.

(** X11. [initialize_groups] on the partitioner the constructor built
    gives every group the best tile configuration of its one stage and
    records the analysis of that configuration as the cost of the group;
    the groups stay the same stages.  Once it has run on a pipeline with
    at least one stage, [get_pipeline_cost] finds a cost for every
    group. *)
Theorem initialize_groups_costs (p' : Partitioner) :
  initialize_groups new_Partitioner = Some p' ->
  (forall k g, In (k, g) (groups p') ->
     exists cfg an,
       find_best_tile_config (singleton_group k) = Some (cfg, an)
       /\ g = set_tile_sizes (singleton_group k) cfg
       /\ fm_find k (group_costs p') = Some an)
  /\ map fst (groups p') = map fst (groups new_Partitioner)
  /\ grouping_cache p' = []
  /\ (groups p' <> [] -> get_pipeline_cost p' <> None).
Proof.
  intros Hi. pose proof (initialize_groups_keys _ _ Hi) as Hkeys.
  unfold initialize_groups in Hi.
  destruct (foldM initialize_step (groups new_Partitioner) _) as [r |] eqn:Ef;
    [| discriminate].
  injection Hi as <-. simpl in *.
  destruct (initialize_fold initial_groups initial_groups_sorted
              initial_groups_hold_their_key [] [] r) as (H1 & _ & _);
    [reflexivity | exact Ef |].
  assert (Hgroups : forall k g, In (k, g) (fst r) ->
            exists cfg an,
              find_best_tile_config (singleton_group k) = Some (cfg, an)
              /\ g = set_tile_sizes (singleton_group k) cfg
              /\ fm_find k (snd r) = Some an).
  { intros k g Hin. destruct (H1 k g Hin) as [[] | H]. exact H. }
  split; [exact Hgroups | split; [exact Hkeys | split; [reflexivity |]]].
  intros Hne. apply pipeline_cost_defined; [exact Hne |].
  simpl. intros k g Hin. destruct (Hgroups k g Hin) as (cfg & an & _ & _ & Hc). congruence.
Qed.

(** X12. With an empty environment the partitioner has no group and no
    cost, and the first thing [group] does, [get_pipeline_cost], fails its
    assertion [group_costs.size() > 0]: the two passes never answer. *)
Theorem empty_environment_aborts :
  env = [] ->
  groups new_Partitioner = []
  /\ initialize_groups new_Partitioner = Some new_Partitioner
  /\ get_pipeline_cost new_Partitioner = None
  /\ forall fuel, partition_pipeline fuel = None.
Proof.
  intros Henv.
  assert (Hg : groups new_Partitioner = []).
  { simpl. unfold initial_groups. now rewrite Henv. }
  assert (Hc : children new_Partitioner = []).
  { simpl. unfold initial_children. now rewrite Henv. }
  assert (Hnew : new_Partitioner = mkPartitioner [] [] [] []).
  { unfold new_Partitioner in *. simpl in Hg, Hc. now rewrite Hg, Hc. }
  split; [exact Hg |]. rewrite Hnew.
  split; [reflexivity | split; [reflexivity |]].
  intros fuel. unfold partition_pipeline. rewrite Hnew. simpl.
  destruct fuel; reflexivity.
Qed.

(** *** Benefits of unknown costs *)

Lemma estimate_benefit_unknown_new (old_grouping : GroupAnalysis)
      (no_redundant_work ensure_parallelism : bool) :
  estimate_benefit old_grouping unknown_analysis no_redundant_work ensure_parallelism
  = unknown.
Proof.
  unfold estimate_benefit, unknown_analysis. simpl.
  destruct (ensure_parallelism && _); [reflexivity |].
  rewrite Z.eqb_refl, andb_false_r. reflexivity.
Qed.

Lemma estimate_benefit_unknown_old (new_grouping : GroupAnalysis)
      (no_redundant_work ensure_parallelism : bool) :
  estimate_benefit unknown_analysis new_grouping no_redundant_work ensure_parallelism
  = unknown.
Proof.
  unfold estimate_benefit, unknown_analysis. simpl.
  destruct (ensure_parallelism && _); [reflexivity |].
  rewrite Z.eqb_refl. reflexivity.
Qed.

Lemma new_grouping_loop_unknown (choices : list (GroupingChoice * GroupConfig)) :
  forall nm acc r c,
    new_grouping_loop choices nm acc = Some r ->
    In c choices -> arith (cost (analysis (snd c))) = unknown ->
    snd r = unknown_analysis.
Proof.
  induction choices as [| c0 rest IH]; intros nm acc r c; simpl; [intros _ [] |].
  destruct (get_element env (choice_prod (fst c0))) as [prod_f |]; [| discriminate].
  destruct (arith (cost (analysis (snd c0))) =? unknown) eqn:E; simpl.
  - intros [= <-] _ _. reflexivity.
  - intros Hr [<- | Hin] Hu.
    + rewrite Hu, Z.eqb_refl in E. discriminate.
    + exact (IH _ _ _ _ Hr Hin Hu).
Qed.

(** When the first loop visits every choice, the consumer of each choice
    is among [no_merge_groups]. *)
Lemma new_grouping_loop_consumers (choices : list (GroupingChoice * GroupConfig)) :
  forall nm acc r,
    new_grouping_loop choices nm acc = Some r ->
    snd r = unknown_analysis
    \/ ((forall c, In c choices -> fs_mem (choice_cons (fst c)) (fst r) = true)
        /\ forall k, fs_mem k nm = true -> fs_mem k (fst r) = true).
Proof.
  assert (Hgrow : forall (l : list FStage) nm k,
             fs_mem k nm = true ->
             fs_mem k (fold_left (fun s stg => fs_insert stg s) l nm) = true).
  { induction l as [| s l IHl]; intros nm k Hk; simpl; [exact Hk |].
    apply IHl. rewrite fs_mem_insert, Hk. apply orb_true_r. }
  induction choices as [| c0 rest IH]; intros nm acc r; cbn [new_grouping_loop].
  - intros [= <-]. right. split; [intros c [] | auto].
  - destruct (get_element env (choice_prod (fst c0))) as [prod_f |]; [| discriminate].
    destruct (negb _); [| intros [= <-]; now left].
    intros Hr. destruct (IH _ _ _ Hr) as [Hu | [Hall Hkeep]]; [now left |].
    right. split.
    + intros c [<- | Hin]; [| now apply Hall].
      apply Hkeep. rewrite fs_mem_insert, FStage_eqb_refl. reflexivity.
    + intros k Hk. apply Hkeep. rewrite fs_mem_insert.
      rewrite (Hgrow _ _ _ Hk). apply orb_true_r.
Qed.

Lemma old_grouping_loop_unknown (costs : list (FStage * GroupAnalysis))
      (no_merge_groups : list FStage) :
  forall acc r k a,
    old_grouping_loop costs no_merge_groups acc = Some r ->
    fs_mem k no_merge_groups = true ->
    fm_find k costs = Some a -> arith (cost a) = unknown ->
    r = unknown_analysis.
Proof.
  induction no_merge_groups as [| g rest IH]; intros acc r k a; simpl; [discriminate |].
  destruct (fm_find g costs) as [ag |] eqn:Eg; [| discriminate].
  destruct (arith (cost ag) =? unknown) eqn:E; simpl.
  - intros [= <-] _ _ _. reflexivity.
  - intros Hr Hmem Hk Hu. unfold fs_mem, os_mem in Hmem. simpl in Hmem.
    apply orb_true_iff in Hmem as [Hkg | Hmem].
    + unfold fm_find in Hk, Eg. rewrite (fm_find_keq k g costs Hkg), Eg in Hk.
      injection Hk as ->. rewrite Hu, Z.eqb_refl in E. discriminate.
    + exact (IH _ _ _ _ Hr Hmem Hk Hu).
Qed.

(** X13. The benefit of the choices of one producer is [unknown] as soon
    as the evaluation of one choice has an unknown cost, or the recorded
    cost of the consumer group of one choice is unknown. *)
Theorem unknown_cost_gives_unknown_benefit
        (p : Partitioner) (choices : list (GroupingChoice * GroupConfig))
        (no_redundant_work ensure_parallelism : bool) (benefit : Z)
        (c : GroupingChoice * GroupConfig) :
  estimate_benefit_choices p choices no_redundant_work ensure_parallelism = Some benefit ->
  In c choices ->
  arith (cost (analysis (snd c))) = unknown
  \/ (exists a, fm_find (choice_cons (fst c)) (group_costs p) = Some a
                /\ arith (cost a) = unknown) ->
  benefit = unknown.
Proof.
  unfold estimate_benefit_choices.
  destruct (new_grouping_loop choices [] zero_analysis) as [r |] eqn:En; [| discriminate].
  destruct (old_grouping_loop (group_costs p) (fst r) zero_analysis) as [old |] eqn:Eo;
    [| discriminate].
  intros [= <-] Hin [Hu | (a & Ha & Hu)].
  - rewrite (new_grouping_loop_unknown _ _ _ _ _ En Hin Hu).
    apply estimate_benefit_unknown_new.
  - destruct (new_grouping_loop_consumers _ _ _ _ En) as [Hn | [Hall _]].
    + rewrite Hn. apply estimate_benefit_unknown_new.
    + rewrite (old_grouping_loop_unknown _ _ _ _ _ _ Eo (Hall c Hin) Ha Hu).
      apply estimate_benefit_unknown_old.
Qed.

(** *** The choice of a round *)

Lemma estimate_benefit_choices_costs (p q : Partitioner)
      (choices : list (GroupingChoice * GroupConfig)) (nrw ep : bool) :
  group_costs q = group_costs p ->
  estimate_benefit_choices q choices nrw ep = estimate_benefit_choices p choices nrw ep.
Proof. unfold estimate_benefit_choices. now intros ->. Qed.

Lemma candidate_choices_producer level prod_f (ch : list FStage) :
  forall choices0 p1 choices p2,
    foldM (candidate_choice_step level prod_f) ch (choices0, p1) = Some (choices, p2) ->
    map (fun c => fst c) choices
    = map (fun c => fst c) choices0 ++ map (mkGroupingChoice (name prod_f)) ch.
Proof.
  induction ch as [| c ch IH]; intros choices0 p1 choices p2; simpl.
  - intros [= <- <-]. now rewrite app_nil_r.
  - unfold candidate_choice_step at 1.
    destruct (gc_find _ _) as [cfg |].
    + intros H. apply IH in H. rewrite H, map_app, <- app_assoc. reflexivity.
    + destruct (evaluate_choice _ _ _) as [cfg |]; [| discriminate].
      intros H. apply IH in H. rewrite H, map_app, <- app_assoc. reflexivity.
Qed.

(** What the loop of [choose_candidate_grouping] holds in [best_choices]
    and [best_benefit]. *)
Definition best_so_far_of (p : Partitioner) (cands : list (string * string))
           (st : list (GroupingChoice * GroupConfig) * Z * Partitioner) : Prop :=
  keeps_groups p (snd st)
  /\ ((fst (fst st) = [] /\ snd (fst st) = 0)
      \/ (0 < snd (fst st)
          /\ estimate_benefit_choices p (fst (fst st)) false true = Some (snd (fst st))
          /\ exists cand prod_f,
               In cand cands /\ get_element env (fst cand) = Some prod_f
               /\ forall c, In c (fst (fst st)) -> choice_prod (fst c) = name prod_f)).

Lemma candidate_step_best p cands level st cand st' :
  In cand cands -> best_so_far_of p cands st ->
  candidate_step level st cand = Some st' -> best_so_far_of p cands st'.
Proof.
  destruct st as [[best benefit] q]. intros Hin [Hk Hbest] Hstep. simpl in Hk, Hbest.
  pose proof Hstep as Hkeep. destruct st' as [[best' benefit'] q'].
  apply (candidate_step_keeps _ _ _ _ _ _ _ _ _ Hk) in Hkeep.
  split; [exact Hkeep |]. simpl.
  unfold candidate_step in Hstep.
  destruct (get_element env (fst cand)) as [prod_f |] eqn:Ep; [| discriminate].
  destruct (children_at _ q) as [ch q1] eqn:Ech.
  apply children_at_ok in Ech as (Hg1 & Hc1 & _).
  destruct (foldM _ ch _) as [[choices q2] |] eqn:Ef; [| discriminate].
  pose proof (candidate_choices_producer _ _ _ _ _ _ _ Ef) as Hprod. simpl in Hprod.
  assert (K2 : keeps_groups p q2).
  { apply (foldM_invariant (fun s => keeps_groups p (snd s))) in Ef; [exact Ef | |].
    - intros [chs x] c [chs' x'] _ Hx Hs. simpl in *.
      eapply candidate_choice_step_keeps; eauto.
    - destruct Hk as [Hkg Hkc]. split; simpl; congruence. }
  destruct (estimate_benefit_choices q2 choices false true) as [overall |] eqn:Eb;
    [| discriminate].
  rewrite (estimate_benefit_choices_costs p q2 _ _ _ (proj2 K2)) in Eb.
  destruct (benefit <? overall) eqn:Elt; injection Hstep as <- <- <-.
  - right. apply Z.ltb_lt in Elt. split.
    + destruct Hbest as [[_ ->] | [Hpos _]]; lia.
    + split; [exact Eb |]. exists cand, prod_f. split; [exact Hin | split; [exact Ep |]].
      intros c Hc.
      assert (Hc' : In (fst c) (map (fun c => fst c) choices)) by now apply in_map.
      rewrite Hprod in Hc'. apply in_map_iff in Hc' as (x & <- & _). reflexivity.
  - exact Hbest.
Qed.

(** X14. The choice of a round, when there is one, belongs to one
    candidate producer and has a strictly positive benefit over the costs
    the groups have; choosing changes neither the groups nor their costs.
    Without candidates there is no choice. *)
Theorem chosen_grouping_has_positive_benefit
        (p : Partitioner) (cands : list (string * string)) (level : Level)
        (best : list (GroupingChoice * GroupConfig)) (p' : Partitioner) :
  choose_candidate_grouping p cands level = Some (best, p') ->
  groups p' = groups p /\ group_costs p' = group_costs p
  /\ (cands = [] -> best = [])
  /\ (best <> [] ->
      exists benefit cand prod_f,
        estimate_benefit_choices p best false true = Some benefit
        /\ 0 < benefit
        /\ In cand cands /\ get_element env (fst cand) = Some prod_f
        /\ forall c, In c best -> choice_prod (fst c) = name prod_f).
Proof.
  intros Hch. pose proof (choose_candidate_grouping_keeps _ _ _ _ _ Hch) as [Hg Hc].
  split; [exact Hg | split; [exact Hc |]].
  unfold choose_candidate_grouping in Hch.
  destruct (foldM _ cands _) as [[[b z] q] |] eqn:Ef; [| discriminate].
  injection Hch as <- <-. split.
  - intros ->. simpl in Ef. now injection Ef as <- _ _.
  - intros Hne.
    assert (Hgen : forall l st st',
               incl l cands -> best_so_far_of p cands st ->
               foldM (candidate_step level) l st = Some st' ->
               best_so_far_of p cands st').
    { induction l as [| a l IH]; intros st st' Hincl Hst; simpl.
      - now intros [= <-].
      - destruct (candidate_step level st a) as [st1 |] eqn:E; [| discriminate].
        apply IH; [intros x Hx; apply Hincl; now right |].
        apply (candidate_step_best p cands level st a st1);
          [apply Hincl; now left | exact Hst | exact E]. }
    assert (Hinv : best_so_far_of p cands (b, z, q)).
    { apply (Hgen cands ([], 0, p) _ (incl_refl _)); [| exact Ef].
      split; [split; reflexivity | left; split; reflexivity]. }
    destruct Hinv as [_ [[Hb _] | (Hpos & Hben & cand & prod_f & Hin & Hp & Hall)]];
      simpl in *.
    + now elim Hne.
    + exists z, cand, prod_f. auto.
Qed.

(** *** The candidates of a round *)

(** The functions of a set of child stages. *)
Definition child_names (ch : list FStage) : sset :=
  fold_left (fun s c => ss_insert (name (func c)) s) ch [].

(** What [group] asks of a group before it offers its function for
    grouping. *)
Definition grouping_candidate (p : Partitioner) (level : Level) (cand : string * string)
  : Prop :=
  exists k g prod_f ch,
    In (k, g) (groups p)
    /\ get_element env (name (func k)) = Some prod_f
    /\ fst cand = name prod_f
    /\ stage_num k = length (updates prod_f)
    /\ (forall f, In f outputs -> name f <> name (func k))
    /\ fm_find k (children p) = Some ch
    /\ match level with
       | INLINE => Function_is_pure prod_f = true /\ snd cand = EmptyString
       | FAST_MEM => exists child, child_names ch = [child] /\ snd cand = child
       end.

(** X15. Every candidate of a round comes from a group that is keyed by
    the last stage of its function, is no output of the pipeline and has
    children.  In the INLINE pass the function is pure and no consumer is
    named; in the FAST_MEM pass the children belong to one function, which
    is the consumer named. *)
Theorem grouping_candidates_spec (p : Partitioner) (level : Level)
        (cands : list (string * string)) :
  group_candidates p level = Some cands ->
  forall cand, In cand cands -> grouping_candidate p level cand.
Proof.
  unfold group_candidates.
  assert (Hgen : forall l acc res,
             incl l (groups p) ->
             (forall cand, In cand acc -> grouping_candidate p level cand) ->
             foldM (candidate_of p level) l acc = Some res ->
             forall cand, In cand res -> grouping_candidate p level cand).
  { induction l as [| [k g] l IH]; intros acc res Hincl Hacc; simpl.
    - now intros [= <-].
    - destruct (candidate_of p level acc (k, g)) as [acc' |] eqn:E; [| discriminate].
      apply IH; [intros x Hx; apply Hincl; now right |].
      unfold candidate_of in E. simpl in E.
      destruct (get_element env (name (func k))) as [prod_f |] eqn:Ep; [| discriminate].
      destruct (existsb _ outputs) eqn:Eo; simpl in E; [injection E as <-; exact Hacc |].
      destruct (Nat.eqb (stage_num k) (length (updates prod_f))) eqn:Es; simpl in E;
        [| injection E as <-; exact Hacc].
      destruct (fm_find k (children p)) as [ch |] eqn:Ec; [| injection E as <-; exact Hacc].
      apply Nat.eqb_eq in Es.
      assert (Hout : forall f, In f outputs -> name f <> name (func k)).
      { intros f Hf Hn.
        assert (Ht : existsb (fun f => String.eqb (name (func k)) (name f)) outputs = true).
        { apply existsb_exists. exists f. split; [exact Hf |]. now apply String.eqb_eq. }
        rewrite Ht in Eo. discriminate. }
      assert (Hk : In (k, g) (groups p)) by (apply Hincl; now left).
      destruct (Nat.eqb _ 1 && is_FAST_MEM level) eqn:Ef.
      + injection E as <-. intros cand Hin.
        apply in_app_or in Hin as [Hin | [<- | []]]; [now apply Hacc |].
        apply andb_true_iff in Ef as [Hone Hfast].
        destruct level; [discriminate |].
        exists k, g, prod_f, ch.
        split; [exact Hk |]. split; [exact Ep |]. split; [reflexivity |].
        split; [exact Es |]. split; [exact Hout |]. split; [exact Ec |].
        apply Nat.eqb_eq in Hone. fold (child_names ch) in Hone. fold (child_names ch).
        destruct (child_names ch) as [| c0 [| c1 r]]; try discriminate Hone.
        exists c0. split; reflexivity.
      + destruct (is_INLINE level && Function_is_pure prod_f) eqn:Ei.
        * injection E as <-. intros cand Hin.
          apply in_app_or in Hin as [Hin | [<- | []]]; [now apply Hacc |].
          apply andb_true_iff in Ei as [Hinl Hpure].
          destruct level; [| discriminate].
          exists k, g, prod_f, ch.
          split; [exact Hk |]. split; [exact Ep |]. split; [reflexivity |].
          split; [exact Es |]. split; [exact Hout |]. split; [exact Ec |].
          split; [exact Hpure | reflexivity].
        * injection E as <-. exact Hacc. }
  intros H cand Hc.
  apply (Hgen (groups p) [] cands (incl_refl _)); [intros c [] | exact H | exact Hc].
Qed.

(** *** Invalidating the grouping cache *)

Lemma GroupingChoice_eqb_trans (a b c : GroupingChoice) :
  GroupingChoice_eqb a b = true -> GroupingChoice_eqb b c = true ->
  GroupingChoice_eqb a c = true.
Proof.
  unfold GroupingChoice_eqb. intros H1 H2.
  apply andb_true_iff in H1 as [P1 C1]. apply andb_true_iff in H2 as [P2 C2].
  now rewrite (string_eqb_trans _ _ _ P1 P2), (FStage_eqb_trans _ _ _ C1 C2).
Qed.

(** The test of the loop that collects [invalid_keys]. *)
Definition stale_for (c : FStage) (e : GroupingChoice * GroupConfig) : bool :=
  String.eqb (choice_prod (fst e)) (name (func c))
  || FStage_eqb (choice_cons (fst e)) c.

Lemma stale_for_eqb (c : FStage) (e e' : GroupingChoice * GroupConfig) :
  GroupingChoice_eqb (fst e) (fst e') = true -> stale_for c e = stale_for c e'.
Proof.
  unfold GroupingChoice_eqb, stale_for. intros H.
  apply andb_true_iff in H as [Hp Hc]. apply String.eqb_eq in Hp. rewrite Hp.
  f_equal. rewrite (FStage_eqb_sym _ c), (FStage_eqb_sym _ c).
  apply (keq_congr FStage_eqb FStage_eqb_sym FStage_eqb_trans). exact Hc.
Qed.

Definition gc_mem (k : GroupingChoice) (keys : list GroupingChoice) : bool :=
  os_mem GroupingChoice_eqb k keys.

Lemma gc_mem_insert (k k' : GroupingChoice) (keys : list GroupingChoice) :
  gc_mem k (os_insert GroupingChoice_ltb GroupingChoice_eqb k' keys)
  = GroupingChoice_eqb k k' || gc_mem k keys.
Proof.
  apply os_mem_insert; [apply GroupingChoice_eqb_sym | apply GroupingChoice_eqb_trans].
Qed.

Lemma invalid_keys_stale (cache : list (GroupingChoice * GroupConfig))
      (prod_group_children : list FStage) (k : GroupingChoice) :
  In k (invalid_keys cache prod_group_children) ->
  exists e c, In e cache /\ In c prod_group_children
              /\ stale_for c e = true /\ k = fst e.
Proof.
  revert k. unfold invalid_keys.
  apply (fold_left_keeps_In
           (fun keys => forall k, In k keys ->
              exists e c, In e cache /\ In c prod_group_children
                          /\ stale_for c e = true /\ k = fst e)); [| intros k []].
  intros keys c Hc Hkeys.
  apply (fold_left_keeps_In
           (fun keys => forall k, In k keys ->
              exists e c, In e cache /\ In c prod_group_children
                          /\ stale_for c e = true /\ k = fst e)); [| exact Hkeys].
  intros keys' e He Hkeys' k.
  fold (stale_for c e). destruct (stale_for c e) eqn:Es; [| apply Hkeys'].
  intros Hin. apply os_insert_In in Hin as [-> | Hin]; [| now apply Hkeys'].
  now exists e, c.
Qed.

Lemma invalid_keys_complete (cache : list (GroupingChoice * GroupConfig))
      (prod_group_children : list FStage) (e : GroupingChoice * GroupConfig) (c : FStage) :
  In e cache -> In c prod_group_children -> stale_for c e = true ->
  gc_mem (fst e) (invalid_keys cache prod_group_children) = true.
Proof.
  intros He Hc Hs. unfold invalid_keys.
  assert (Hinner : forall c' (l : list (GroupingChoice * GroupConfig)) keys,
             gc_mem (fst e) keys = true
             \/ (In e l /\ stale_for c' e = true) ->
             gc_mem (fst e)
               (fold_left
                  (fun keys entry =>
                     if String.eqb (choice_prod (fst entry)) (name (func c'))
                        || FStage_eqb (choice_cons (fst entry)) c'
                     then os_insert GroupingChoice_ltb GroupingChoice_eqb (fst entry) keys
                     else keys) l keys) = true).
  { intros c'. induction l as [| x l IHl]; intros keys; simpl.
    - intros [H | [[] _]]. exact H.
    - intros H. apply IHl.
      fold (stale_for c' x). destruct H as [H | [[<- | Hin] Hst]].
      + left. destruct (stale_for c' x); [| exact H].
        rewrite gc_mem_insert, H. apply orb_true_r.
      + left. rewrite Hst, gc_mem_insert.
        unfold GroupingChoice_eqb. now rewrite String.eqb_refl, FStage_eqb_refl.
      + now right. }
  assert (Houter : forall (l : list FStage) keys,
             gc_mem (fst e) keys = true \/ In c l ->
             gc_mem (fst e)
               (fold_left
                  (fun keys c' =>
                     fold_left
                       (fun keys entry =>
                          if String.eqb (choice_prod (fst entry)) (name (func c'))
                             || FStage_eqb (choice_cons (fst entry)) c'
                          then os_insert GroupingChoice_ltb GroupingChoice_eqb
                                         (fst entry) keys
                          else keys) cache keys) l keys) = true).
  { induction l as [| x l IHl]; intros keys; simpl.
    - intros [H | []]. exact H.
    - intros H. apply IHl. destruct H as [H | [-> | Hin]].
      + left. apply Hinner. now left.
      + left. apply Hinner. right. now split.
      + now right. }
  apply Houter. now right.
Qed.

Lemma erase_keys_In (keys : list GroupingChoice) :
  forall (cache : list (GroupingChoice * GroupConfig)) e,
    In e (fold_left (fun c key => gc_erase key c) keys cache)
    <-> In e cache /\ forall k, In k keys -> GroupingChoice_eqb k (fst e) = false.
Proof.
  induction keys as [| k0 keys IH]; intros cache e; simpl.
  - split; [intros H; split; [exact H | intros k []] | now intros [H _]].
  - rewrite IH. unfold gc_erase, om_erase. rewrite filter_In, negb_true_iff. split.
    + intros [[Hin Hk0] Hall]. split; [exact Hin |].
      intros k [<- | Hk]; [exact Hk0 | now apply Hall].
    + intros [Hin Hall]. split; [split; [exact Hin | apply Hall; now left] |].
      intros k Hk. apply Hall. now right.
Qed.

(** X16. Invalidating the grouping cache for the children of a merged
    producer removes exactly the cached choices that name one of the
    children as consumer, or the function of one of them as producer; every
    other cached choice stays. *)
Theorem invalidate_cache_spec (cache : list (GroupingChoice * GroupConfig))
        (prod_group_children : list FStage) (e : GroupingChoice * GroupConfig) :
  In e (invalidate_cache cache prod_group_children)
  <-> In e cache /\ forall c, In c prod_group_children -> stale_for c e = false.
Proof.
  unfold invalidate_cache. rewrite erase_keys_In. split.
  - intros [Hin Hkeys]. split; [exact Hin |]. intros c Hc.
    destruct (stale_for c e) eqn:Es; [| reflexivity].
    pose proof (invalid_keys_complete cache prod_group_children e c Hin Hc Es) as Hm.
    unfold gc_mem, os_mem in Hm. apply existsb_exists in Hm as (k & Hk & Heq).
    rewrite GroupingChoice_eqb_sym, (Hkeys k Hk) in Heq. discriminate.
  - intros [Hin Hfresh]. split; [exact Hin |]. intros k Hk.
    apply invalid_keys_stale in Hk as (e' & c & He' & Hc & Hs & ->).
    destruct (GroupingChoice_eqb (fst e') (fst e)) eqn:Eq; [| reflexivity].
    rewrite (stale_for_eqb c e' e Eq), (Hfresh c Hc) in Hs. discriminate.
Qed.

(** *** A group without tiles *)

Lemma count_tiles_untiled (g : Group) (def : StageDef) (stg_bounds : DimBounds)
      (l : list Dim) (acc : Z * Z * Z) :
  tile_sizes g = [] ->
  flow_fold (count_tiles_step g def stg_bounds) l acc = Go acc.
Proof.
  intros Ht. induction l as [| d l IH]; simpl; [reflexivity |].
  unfold count_tiles_step at 1. destruct acc as [[t par] n]. rewrite Ht. simpl.
  exact IH.
Qed.

Lemma analyze_group_setup_untiled (g : Group) (ctx : TileContext) :
  tile_sizes g = [] -> analyze_group_setup g = Go ctx ->
  tc_estimate_tiles ctx = 1 /\ tc_parallelism ctx = 1.
Proof.
  intros Ht. unfold analyze_group_setup.
  destruct (get_bounds (output g)) as [stg_bounds |]; simpl; [| discriminate].
  rewrite (count_tiles_untiled g _ stg_bounds _ _ Ht). simpl.
  destruct (get_bounds_from_tile_sizes _ _); simpl; [| discriminate].
  destruct (regions_required _ _ _ _ false); simpl; [| discriminate].
  destruct (regions_required _ _ _ _ true); simpl; [| discriminate].
  destruct (split_regions _ _ _ _) as [[group_reg prod_reg] input_reg].
  destruct (_ || _); [discriminate |].
  destruct (_ || _); [discriminate |].
  destruct (existsb _ _); [discriminate |].
  destruct (out_tile_extent_of _ _); simpl; [| discriminate].
  intros [= <-]. split; reflexivity.
Qed.

(** X17. The analysis of a group without tile sizes counts one tile and
    no parallelism: it is the all-unknown analysis or has parallelism 1.
    On a machine with more than one core such a grouping therefore never
    has a known benefit when parallelism must be ensured. *)
Theorem untiled_group_is_serial (g : Group) (a : GroupAnalysis) :
  tile_sizes g = [] -> analyze_group g = Some a ->
  (a = unknown_analysis \/ parallelism a = 1)
  /\ (1 < arch_parallelism ->
      forall old_grouping no_redundant_work,
        estimate_benefit old_grouping a no_redundant_work true = unknown).
Proof.
  intros Ht Ha.
  assert (Hcase : a = unknown_analysis \/ parallelism a = 1).
  { unfold analyze_group, analyze_group_flow in Ha.
    destruct (analyze_group_setup g) as [ctx | r |] eqn:Es; simpl in Ha.
    - destruct (analyze_group_setup_untiled g ctx Ht Es) as [_ Hp].
      destruct (per_tile_memory g ctx) as [mem | r |] eqn:Em; simpl in Ha.
      + destruct (assert _); simpl in Ha; [| discriminate].
        injection Ha as <-. right. simpl. now rewrite Hp.
      + injection Ha as <-. left. exact (per_tile_memory_Return _ _ _ Em).
      + discriminate.
    - injection Ha as <-. left. exact (analyze_group_setup_Return _ _ Es).
    - discriminate. }
  split; [exact Hcase |].
  intros Harch old_grouping nrw. destruct Hcase as [-> | Hp].
  - apply estimate_benefit_unknown_new.
  - unfold estimate_benefit. rewrite Hp.
    replace (1 <? arch_parallelism) with true by (symmetry; now apply Z.ltb_lt).
    reflexivity.
Qed.
(** *** [find_max_access_stride] and [analyze_spatial_locality]

    From other headers: [expr_uses_vars] on the names of a [Scope<int>],
    [Type::bytes], the type of an expression, the number of storage
    dimensions of a function, [costs.inputs], [perform_inline], the
    [call_args] that [FindAllCalls] collects over a definition and the
    names that [FindVarsUsingVar] collects. *)
Variable expr_uses_vars : Expr -> list string -> bool.
Variable type_bytes : HType -> Z.
Variable expr_type : Expr -> HType.
Variable storage_dims_size : Function -> nat.
Variable costs_inputs : smap HType.
Variable perform_inline : Expr -> sset -> Expr.
Variable find_all_calls : StageDef -> list (string * list Expr).
Variable find_vars_using_var : string -> StageDef -> list string.

(** [bytes_per_ele] and [num_storage_dims]. *)
Definition storage_layout (func_acc : string) (buffer_bounds : Box) : option (Z * nat) :=
  match sm_find func_acc env with
  | Some f =>
      Some (fold_left (fun bytes_per_ele e => add64 bytes_per_ele (type_bytes (expr_type e)))
                      (values (definition f)) 0,
            storage_dims_size f)
  | None =>
      t <- get_element costs_inputs func_acc ;;
      Some (type_bytes t, length buffer_bounds)
  end.

(** One round of the loop over the storage dimensions, on
    [(curr_stride, stride)]. *)
Definition access_stride_step (vars : list string) (acc_exprs : list Expr)
           (buffer_bounds : Box) (acc : Z * Z) (sdim : nat) : option (Z * Z) :=
  e <- nth_error acc_exprs sdim ;;
  let stride := if expr_uses_vars e vars then Z.max (snd acc) (fst acc) else snd acc in
  dim_range <- nth_error buffer_bounds sdim ;;
  Some (mul64 (fst acc) (get_extent dim_range), stride).

Definition find_max_access_stride (vars : list string) (func_acc : string)
           (acc_exprs : list Expr) (buffer_bounds : Box) : option Z :=
  layout <- storage_layout func_acc buffer_bounds ;;
  let '(bytes_per_ele, num_storage_dims) := layout in
  _ <- assert (Nat.leb num_storage_dims (length acc_exprs)) ;;
  r <- foldM (access_stride_step vars acc_exprs buffer_bounds)
             (seq 0 num_storage_dims) (bytes_per_ele, 0) ;;
  Some (snd r).

(** The accesses of one loop dimension, summed in an [int]. *)
Definition total_stride_step (allocation_bounds : smap Box) (dep_vars : list string)
           (total_stride : Z) (call : string * list Expr) : option Z :=
  call_alloc_reg <- match sm_find (fst call) allocation_bounds with
                    | Some b => Some b
                    | None => get_element pipeline_bounds (fst call)
                    end ;;
  s <- find_max_access_stride dep_vars (fst call) (snd call) call_alloc_reg ;;
  Some (wrap32 (add64 total_stride s)).

Definition analyze_spatial_locality (stg : FStage) (allocation_bounds : smap Box)
           (inlines : sset) : option (smap Z) :=
  _ <- assert (negb (has_extern_definition (func stg))) ;;
  let def0 := get_stage_definition (func stg) (stage_num stg) in
  let def := mkStageDef (map (fun v => perform_inline v inlines) (values def0))
                        (map (fun a => perform_inline a inlines) (def_args def0))
                        (schedule def0) (specializations def0) in
  let call_args := find_all_calls def ++ [(name (func stg), def_args def)] in
  let ds := dims (schedule def) in
  (* [d < dims.size() - 1] on [size_t] *)
  _ <- assert (negb (Nat.eqb (length ds) 0)) ;;
  foldM (fun var_strides d =>
           let dep_vars := find_vars_using_var (dvar d) def in
           total_stride <- foldM (total_stride_step allocation_bounds dep_vars)
                                 call_args 0 ;;
           Some (sm_put (dvar d) total_stride var_strides))
        (loop_dims ds) [].

(** [curr_stride] when the loop reaches storage dimension [sdim]. *)
Definition stride_at (bytes_per_ele : Z) (buffer_bounds : Box) (sdim : nat) : Z :=
  fold_left (fun curr_stride dim_range => mul64 curr_stride (get_extent dim_range))
            (firstn sdim buffer_bounds) bytes_per_ele.

Lemma firstn_succ_nth {A} (l : list A) (k : nat) (x : A) :
  nth_error l k = Some x -> firstn (S k) l = firstn k l ++ [x].
Proof.
  revert k. induction l as [| a l IH]; intros [| k]; simpl; try discriminate.
  - now intros [= ->].
  - intros H. f_equal. now apply IH.
Qed.

Lemma access_stride_loop (vars : list string) (acc_exprs : list Expr)
      (buffer_bounds : Box) (bytes_per_ele : Z) (n : nat) (curr stride : Z) :
  foldM (access_stride_step vars acc_exprs buffer_bounds) (seq 0 n) (bytes_per_ele, 0)
  = Some (curr, stride) ->
  curr = stride_at bytes_per_ele buffer_bounds n
  /\ (n <= length buffer_bounds)%nat
  /\ 0 <= stride
  /\ (forall sdim e, (sdim < n)%nat -> nth_error acc_exprs sdim = Some e ->
                     expr_uses_vars e vars = true ->
                     stride_at bytes_per_ele buffer_bounds sdim <= stride)
  /\ (stride = 0
      \/ exists sdim e, (sdim < n)%nat /\ nth_error acc_exprs sdim = Some e
                        /\ expr_uses_vars e vars = true
                        /\ stride = stride_at bytes_per_ele buffer_bounds sdim).
Proof.
  revert curr stride. induction n as [| n IH]; intros curr stride.
  - simpl. intros [= <- <-]. repeat split; [lia | lia | | now left].
    intros sdim e Hs. lia.
  - rewrite seq_S, foldM_app. simpl.
    destruct (foldM _ (seq 0 n) _) as [[c0 s0] |] eqn:E0; simpl; [| discriminate].
    destruct (IH c0 s0 eq_refl) as (Hc & Hlen & Hpos & Hmax & Hsrc).
    unfold access_stride_step. simpl.
    destruct (nth_error acc_exprs n) as [e |] eqn:Ee; simpl; [| discriminate].
    destruct (nth_error buffer_bounds n) as [rng |] eqn:Er; simpl; [| discriminate].
    intros [= <- <-].
    assert (Hn : (n < length buffer_bounds)%nat).
    { apply nth_error_Some. congruence. }
    split; [| split; [lia |]].
    { unfold stride_at. rewrite (firstn_succ_nth _ _ _ Er), fold_left_app. simpl.
      fold (stride_at bytes_per_ele buffer_bounds n). now rewrite Hc. }
    destruct (expr_uses_vars e vars) eqn:Eu.
    + split; [lia |]. split.
      * intros sdim e' Hs He' Hu. destruct (Nat.eq_dec sdim n) as [-> | Hne].
        -- rewrite <- Hc. lia.
        -- specialize (Hmax sdim e' ltac:(lia) He' Hu). lia.
      * destruct (Z.max_spec s0 c0) as [[Hlt ->] | [Hge ->]].
        -- right. exists n, e. repeat split; auto.
        -- destruct Hsrc as [-> | (sdim & e' & Hs & He' & Hu & ->)]; [now left |].
           right. exists sdim, e'. repeat split; auto.
    + split; [exact Hpos |]. split.
      * intros sdim e' Hs He' Hu. destruct (Nat.eq_dec sdim n) as [-> | Hne].
        -- congruence.
        -- exact (Hmax sdim e' ltac:(lia) He' Hu).
      * destruct Hsrc as [-> | (sdim & e' & Hs & He' & Hu & ->)]; [now left |].
        right. exists sdim, e'. repeat split; auto.
Qed.

(** X22.  The stride [find_max_access_stride] returns is the largest of 0
    and the strides of the storage dimensions whose access expression uses
    the loop variable, the stride of a dimension being the bytes of an
    element times the extents of the dimensions before it (in 64-bit
    arithmetic).  So the result is never negative, a stride that has
    wrapped below zero is ignored, and the result is 0 when no access
    expression uses the variable.  The function gives a result only when
    there are at least as many access expressions and buffer bounds as
    storage dimensions. *)
Theorem find_max_access_stride_spec (vars : list string) (func_acc : string)
        (acc_exprs : list Expr) (buffer_bounds : Box) (r : Z) :
  find_max_access_stride vars func_acc acc_exprs buffer_bounds = Some r ->
  exists bytes_per_ele num_storage_dims,
    storage_layout func_acc buffer_bounds = Some (bytes_per_ele, num_storage_dims)
    /\ (num_storage_dims <= length acc_exprs)%nat
    /\ (num_storage_dims <= length buffer_bounds)%nat
    /\ 0 <= r
    /\ (forall sdim e,
           (sdim < num_storage_dims)%nat -> nth_error acc_exprs sdim = Some e ->
           expr_uses_vars e vars = true ->
           stride_at bytes_per_ele buffer_bounds sdim <= r)
    /\ (r = 0
        \/ exists sdim e,
             (sdim < num_storage_dims)%nat /\ nth_error acc_exprs sdim = Some e
             /\ expr_uses_vars e vars = true
             /\ r = stride_at bytes_per_ele buffer_bounds sdim).
Proof.
  unfold find_max_access_stride.
  destruct (storage_layout func_acc buffer_bounds) as [[bytes n] |]; simpl;
    [| discriminate].
  destruct (Nat.leb_spec n (length acc_exprs)) as [Hle | Hgt]; simpl; [| discriminate].
  destruct (foldM _ (seq 0 n) _) as [[curr stride] |] eqn:E; simpl; [| discriminate].
  intros [= <-].
  destruct (access_stride_loop _ _ _ _ _ _ _ E) as (_ & Hlen & Hpos & Hmax & Hsrc).
  exists bytes, n. repeat split; auto.
Qed.

Lemma total_stride_int (allocation_bounds : smap Box) (dep_vars : list string)
      (call_args : list (string * list Expr)) :
  forall total r,
    - 2 ^ 31 <= total < 2 ^ 31 ->
    foldM (total_stride_step allocation_bounds dep_vars) call_args total = Some r ->
    - 2 ^ 31 <= r < 2 ^ 31.
Proof.
  induction call_args as [| c l IH]; intros total r Ht; simpl.
  - now intros [= <-].
  - destruct (total_stride_step allocation_bounds dep_vars total c) as [t' |] eqn:E;
      simpl; [| discriminate].
    apply IH. unfold total_stride_step in E.
    destruct (match sm_find (fst c) allocation_bounds with
              | Some b => Some b
              | None => get_element pipeline_bounds (fst c)
              end); simpl in E; [| discriminate].
    destruct (find_max_access_stride _ _ _ _); simpl in E; [| discriminate].
    injection E as <-. apply wrap32_range.
Qed.

Lemma strides_fold (allocation_bounds : smap Box) (def : StageDef)
      (call_args : list (string * list Expr)) (l : list Dim) :
  forall acc strides,
    foldM (fun var_strides d =>
             total_stride <- foldM (total_stride_step allocation_bounds
                                      (find_vars_using_var (dvar d) def))
                                   call_args 0 ;;
             Some (sm_put (dvar d) total_stride var_strides)) l acc = Some strides ->
    (forall k, sm_mem k strides = true <-> In k (map dvar l) \/ sm_mem k acc = true)
    /\ ((forall k s, sm_find k acc = Some s -> - 2 ^ 31 <= s < 2 ^ 31) ->
        forall k s, sm_find k strides = Some s -> - 2 ^ 31 <= s < 2 ^ 31).
Proof.
  induction l as [| d l IH]; intros acc strides; simpl.
  - intros [= <-]. split; [| intros H; exact H].
    intros k. split; [intros H; right; exact H | intros [[] | H]; exact H].
  - destruct (foldM _ call_args 0) as [t |] eqn:Et; simpl; [| discriminate].
    intros H. destruct (IH _ _ H) as [Hkeys Hint]. split.
    + intros k. rewrite Hkeys.
      assert (Hm : sm_mem k (sm_put (dvar d) t acc) = String.eqb k (dvar d) || sm_mem k acc).
      { unfold sm_mem, om_mem.
        change (om_find String.eqb k (sm_put (dvar d) t acc))
          with (sm_find k (sm_put (dvar d) t acc)).
        rewrite sm_find_put. destruct (String.eqb k (dvar d)); reflexivity. }
      rewrite Hm. destruct (String.eqb k (dvar d)) eqn:Ek; simpl.
      * apply String.eqb_eq in Ek.
        split; [intros _; left; left; now symmetry | intros _; now right].
      * apply String.eqb_neq in Ek. split.
        -- intros [Hin | Hacc]; [left; right; exact Hin | right; exact Hacc].
        -- intros [[E | Hin] | Hacc];
             [exfalso; apply Ek; symmetry; exact E | left; exact Hin | right; exact Hacc].
    + intros Hacc. apply Hint. intros k s. rewrite sm_find_put.
      destruct (String.eqb k (dvar d)); [| apply Hacc].
      intros [= <-]. exact (total_stride_int _ _ _ 0 t int_range_zero Et).
Qed.

Lemma analyze_spatial_locality_fold (stg : FStage) (allocation_bounds : smap Box)
      (inlines : sset) (strides : smap Z) :
  analyze_spatial_locality stg allocation_bounds inlines = Some strides ->
  has_extern_definition (func stg) = false
  /\ exists def call_args,
       foldM (fun var_strides d =>
                total_stride <- foldM (total_stride_step allocation_bounds
                                         (find_vars_using_var (dvar d) def))
                                      call_args 0 ;;
                Some (sm_put (dvar d) total_stride var_strides))
             (stage_loop_dims (func stg) (stage_num stg)) [] = Some strides.
Proof.
  unfold analyze_spatial_locality.
  destruct (has_extern_definition (func stg)); simpl; [discriminate |].
  destruct (negb (Nat.eqb _ 0)); simpl; [| discriminate].
  intros H. split; [reflexivity |]. eexists. eexists. exact H.
Qed.

(** X23.  When [analyze_spatial_locality] returns, the stage is not an
    extern one, the strides are keyed by exactly the names of the loop
    dimensions of the stage, and every stride is the value of an [int]:
    within the 32-bit range, hence below [INT64_MAX]. *)
Theorem analyze_spatial_locality_spec (stg : FStage) (allocation_bounds : smap Box)
        (inlines : sset) (strides : smap Z) :
  analyze_spatial_locality stg allocation_bounds inlines = Some strides ->
  has_extern_definition (func stg) = false
  /\ (forall k, sm_mem k strides = true
                <-> In k (map dvar (stage_loop_dims (func stg) (stage_num stg))))
  /\ (forall k s, sm_find k strides = Some s ->
                  - 2 ^ 31 <= s < 2 ^ 31 /\ s < int64_max).
Proof.
  intros H.
  apply analyze_spatial_locality_fold in H as (Hext & def & call_args & H).
  apply strides_fold in H as [Hkeys Hint].
  split; [exact Hext |]. split.
  - intros k. rewrite Hkeys. split; [| intros Hin; left; exact Hin].
    intros [Hin | Hacc]; [exact Hin | discriminate].
  - intros k s Hs. assert (Hr : - 2 ^ 31 <= s < 2 ^ 31).
    { apply (fun H => Hint H k s Hs). intros k' s'. discriminate. }
    split; [exact Hr | exact (int_range_below_max s Hr)].
Qed.


(** *** [group_storage_bounds] *)

(** The loop that fills [group_alloc]. *)
Definition group_alloc_step (g : Group) (reg_alloc : smap Box) (group_alloc : smap Box)
           (s : FStage) : smap Box :=
  match sm_find (name (func s)) reg_alloc with
  | Some b =>
      if negb (String.eqb (name (func s)) (name (func (output g))))
      then sm_put (name (func s)) b group_alloc
      else group_alloc
  | None => group_alloc
  end.

Definition group_storage_bounds (p : Partitioner) : option (list (FStage * smap Box)) :=
  foldM (fun group_storage_bounds gpair =>
           let g := snd gpair in
           bnds <- get_bounds_from_tile_sizes (output g) (tile_sizes g) ;;
           let prods := group_members_of g in
           reg_alloc <- regions_required (func (output g)) (stage_num (output g))
                                         bnds prods false ;;
           let group_alloc := fold_left (group_alloc_step g reg_alloc) (members g) [] in
           Some (fm_put (fst gpair) group_alloc group_storage_bounds))
        (groups p) [].

(** The storage bounds of one group, as [group_storage_bounds] computes
    them. *)
Definition group_alloc_of (g : Group) : option (smap Box) :=
  bnds <- get_bounds_from_tile_sizes (output g) (tile_sizes g) ;;
  reg_alloc <- regions_required (func (output g)) (stage_num (output g))
                                bnds (group_members_of g) false ;;
  Some (fold_left (group_alloc_step g reg_alloc) (members g) []).

Lemma group_alloc_find (g : Group) (reg_alloc : smap Box) (l : list FStage) :
  forall acc n,
    sm_find n (fold_left (group_alloc_step g reg_alloc) l acc)
    = if existsb (fun m => String.eqb (name (func m)) n) l
         && negb (String.eqb n (name (func (output g))))
      then match sm_find n reg_alloc with
           | Some b => Some b
           | None => sm_find n acc
           end
      else sm_find n acc.
Proof.
  induction l as [| s l IH]; intros acc n; simpl; [reflexivity |].
  rewrite IH. unfold group_alloc_step.
  destruct (String.eqb_spec (name (func s)) n) as [E | Hne]; simpl.
  - rewrite E.
    destruct (sm_find n reg_alloc) as [b |] eqn:Er;
      destruct (String.eqb n (name (func (output g)))) eqn:Eo; simpl;
      rewrite ?andb_false_r, ?andb_true_r, ?sm_find_put, ?String.eqb_refl;
      try reflexivity;
      destruct (existsb _ l); reflexivity.
  - assert (Hn : String.eqb n (name (func s)) = false).
    { apply String.eqb_neq. congruence. }
    destruct (sm_find (name (func s)) reg_alloc) as [b |]; [| reflexivity].
    destruct (negb (String.eqb (name (func s)) (name (func (output g)))));
      [| reflexivity].
    rewrite sm_find_put, Hn. reflexivity.
Qed.

Lemma fm_foldM_put_find {V W} (h : V -> option W) (m : list (FStage * V)) :
  fm_sorted m ->
  forall acc r,
    foldM (fun acc kv => w <- h (snd kv) ;; Some (fm_put (fst kv) w acc)) m acc = Some r ->
    forall k,
      fm_find k r = match fm_find k m with
                    | Some v => h v
                    | None => fm_find k acc
                    end.
Proof.
  induction m as [| [k1 v1] rest IH]; intros Hs acc r; simpl.
  - now intros [= <-].
  - destruct (h v1) as [w |] eqn:Ew; simpl; [| discriminate].
    apply fm_sorted_tail in Hs as [Hrest Hfresh].
    intros H k. rewrite (IH Hrest _ _ H k).
    unfold fm_find at 3. simpl. fold (@fm_find V).
    destruct (FStage_eqb k k1) eqn:Ek.
    + assert (Hnone : fm_find k rest = None).
      { destruct (fm_find k rest) as [v |] eqn:Ef; [| reflexivity].
        unfold fm_find in Ef. apply om_find_In in Ef as (k2 & Hin & Hk2).
        specialize (Hfresh _ _ Hin).
        rewrite FStage_eqb_sym in Hk2.
        rewrite (FStage_eqb_trans _ _ _ Hk2 Ek) in Hfresh. discriminate. }
      rewrite Hnone. unfold fm_find, fm_put. rewrite fm_find_put, Ek. now rewrite Ew.
    + destruct (fm_find k rest); [reflexivity |].
      unfold fm_find, fm_put. now rewrite fm_find_put, Ek.
Qed.

(** X26.  [group_storage_bounds] has an entry for every group and for
    nothing else.  The entry of a group holds, of the regions required by
    the group's output over one tile, those of the functions that have a
    member stage in the group, the function of the output itself left
    out. *)
Theorem group_storage_bounds_spec (p : Partitioner)
        (storage_bounds : list (FStage * smap Box)) :
  fm_sorted (groups p) ->
  group_storage_bounds p = Some storage_bounds ->
  (forall k, fm_find k (groups p) = None -> fm_find k storage_bounds = None)
  /\ (forall k g,
         fm_find k (groups p) = Some g ->
         exists bnds reg_alloc group_alloc,
           get_bounds_from_tile_sizes (output g) (tile_sizes g) = Some bnds
           /\ regions_required (func (output g)) (stage_num (output g))
                               bnds (group_members_of g) false = Some reg_alloc
           /\ fm_find k storage_bounds = Some group_alloc
           /\ forall n,
                sm_find n group_alloc
                = if is_member_name g n && negb (String.eqb n (name (func (output g))))
                  then sm_find n reg_alloc
                  else None).
Proof.
  intros Hs H.
  assert (Hfind : forall k,
             fm_find k storage_bounds
             = match fm_find k (groups p) with
               | Some g => group_alloc_of g
               | None => None
               end).
  { intros k.
    rewrite (fm_foldM_put_find group_alloc_of (groups p) Hs [] storage_bounds).
    - destruct (fm_find k (groups p)); reflexivity.
    - unfold group_storage_bounds in H. rewrite <- H.
      clear. generalize (@nil (FStage * smap Box)).
      induction (groups p) as [| gp l IH]; intros acc; simpl; [reflexivity |].
      unfold group_alloc_of at 1.
      destruct (get_bounds_from_tile_sizes _ _); simpl; [| reflexivity].
      destruct (regions_required _ _ _ _ _); simpl; [| reflexivity].
      apply IH. }
  split.
  - intros k Hk. now rewrite Hfind, Hk.
  - intros k g Hk. specialize (Hfind k). rewrite Hk in Hfind.
    assert (Hsome : group_alloc_of g <> None).
    { unfold group_storage_bounds in H. unfold fm_find in Hk.
      apply om_find_In in Hk as (k2 & Hin & _).
      revert H Hin. clear. generalize (@nil (FStage * smap Box)).
      induction (groups p) as [| gp l IH]; intros acc H Hin; simpl in *; [tauto |].
      unfold group_alloc_of.
      destruct Hin as [-> | Hin].
      - simpl in H.
        destruct (get_bounds_from_tile_sizes _ _); simpl in *; [| discriminate].
        destruct (regions_required _ _ _ _ _); simpl in *; discriminate.
      - destruct (get_bounds_from_tile_sizes (output (snd gp)) _); simpl in H;
          [| discriminate].
        destruct (regions_required (func (output (snd gp))) _ _ _ _); simpl in H;
          [| discriminate].
        exact (IH _ H Hin). }
    unfold group_alloc_of in Hfind, Hsome.
    destruct (get_bounds_from_tile_sizes _ _) as [bnds |] eqn:Eb; simpl in *;
      [| congruence].
    destruct (regions_required _ _ _ _ _) as [reg_alloc |] eqn:Er; simpl in *;
      [| congruence].
    exists bnds, reg_alloc. eexists. split; [reflexivity |]. split; [exact Er |].
    split; [exact Hfind |].
    intros n. rewrite group_alloc_find. unfold is_member_name.
    destruct (existsb _ (members g) && _); [| reflexivity].
    destruct (sm_find n reg_alloc); reflexivity.
Qed.

(** *** What [merge_groups] does to the consumer group *)

Lemma ss_mem_insert_names {A} (g : A -> string) (l : list A) :
  forall s n,
    ss_mem n (fold_left (fun s x => ss_insert (g x) s) l s)
    = existsb (fun x => String.eqb n (g x)) l || ss_mem n s.
Proof.
  induction l as [| x l IH]; intros s n; simpl; [reflexivity |].
  rewrite IH. unfold ss_mem, ss_insert.
  rewrite (os_mem_insert String.ltb String.eqb String.eqb_sym string_eqb_trans).
  destruct (String.eqb n (g x)); simpl; [apply orb_true_r | reflexivity].
Qed.

Lemma Forall2_impl_In {A B} (P Q : A -> B -> Prop) (l1 : list A) (l2 : list B) :
  (forall a b, In a l1 -> P a b -> Q a b) -> Forall2 P l1 l2 -> Forall2 Q l1 l2.
Proof.
  intros H HP. induction HP as [| a b l1 l2 Hab HP IH]; constructor.
  - apply H; [now left | exact Hab].
  - apply IH. intros a' b' Hin. apply H. now right.
Qed.

(** The names a producer group adds to [inlined] of the consumer group. *)
Definition inlined_from (level : Level) (n : string) (cand_group : Group) : bool :=
  match level with
  | INLINE => existsb (fun stg => String.eqb n (name (func stg))) (members cand_group)
  | FAST_MEM => ss_mem n (inlined cand_group)
  end.

(** The consumer group after it has absorbed the groups [cands]. *)
Definition absorbed (level : Level) (old_child new_child : Group) (cands : list Group)
  : Prop :=
  output new_child = output old_child
  /\ tile_sizes new_child = tile_sizes old_child
  /\ members new_child = members old_child ++ flat_map members cands
  /\ forall n, ss_mem n (inlined new_child)
               = ss_mem n (inlined old_child) || existsb (inlined_from level n) cands.

Lemma absorb_stages_spec (level : Level) (child : FStage) (stages : list FStage) :
  forall gs gs' cg0,
    (forall cand, In cand stages -> FStage_eqb cand child = false) ->
    fm_find child gs = Some cg0 ->
    foldM (absorb_stage level child) stages gs = Some gs' ->
    exists cands cg',
      Forall2 (fun cand g => fm_find cand gs = Some g) stages cands
      /\ fm_find child gs' = Some cg'
      /\ absorbed level cg0 cg' cands
      /\ forall k, FStage_eqb k child = false -> fm_find k gs' = fm_find k gs.
Proof.
  induction stages as [| c stages IH]; intros gs gs' cg0 Hne Hc; simpl.
  - intros [= <-]. exists [], cg0. split; [constructor |]. split; [exact Hc |].
    split; [| reflexivity].
    repeat split; simpl; [now rewrite app_nil_r | intros n; now rewrite orb_false_r].
  - unfold absorb_stage at 1. rewrite Hc.
    destruct (fm_find c gs) as [cand_group |] eqn:Ed; simpl; [| discriminate].
    set (cg1 := mkGroup (output cg0) (members cg0 ++ members cand_group) _ (tile_sizes cg0)).
    set (gs1 := fm_put child cg1 gs).
    intros Hf.
    assert (Hc1 : fm_find child gs1 = Some cg1).
    { unfold gs1, fm_find, fm_put. now rewrite fm_find_put, FStage_eqb_refl. }
    assert (Hother : forall k, FStage_eqb k child = false -> fm_find k gs1 = fm_find k gs).
    { intros k Hk. unfold gs1, fm_find, fm_put. now rewrite fm_find_put, Hk. }
    destruct (IH gs1 gs' cg1 (fun cand H => Hne cand (or_intror H)) Hc1 Hf)
      as (cands & cg' & Hall & Hc' & (Ho & Ht & Hm & Hi) & Hrest).
    exists (cand_group :: cands), cg'. split; [| split; [exact Hc' | split]].
    + constructor; [exact Ed |].
      apply (Forall2_impl_In (fun cand g => fm_find cand gs1 = Some g)); [| exact Hall].
      intros cand g Hin Hg. rewrite <- Hg. symmetry. apply Hother, Hne. now right.
    + repeat split.
      * exact Ho.
      * exact Ht.
      * rewrite Hm. simpl. now rewrite <- app_assoc.
      * intros n. rewrite Hi. simpl. rewrite orb_assoc. f_equal.
        unfold inlined_from. destruct level.
        -- rewrite (ss_mem_insert_names (fun stg => name (func stg))). apply orb_comm.
        -- rewrite (ss_mem_insert_names (fun f => f)). apply orb_comm.
    + intros k Hk. rewrite (Hrest k Hk). now apply Hother.
Qed.

(** X28.  [merge_groups] for a choice whose consumer is no stage of the
    producer: the group of the consumer keeps its output and its members
    and gets, after them, the members of the group of every stage of the
    producer, in stage order; its [inlined] set gains the function names
    of those members in the INLINE pass and the [inlined] sets of those
    groups in the FAST_MEM pass; its tile sizes become those of the
    evaluated configuration, and its recorded cost is the analysis of the
    merged group.  Every other group and cost, the children and the cache
    are left as they were: the groups of the producer are still there. *)
Theorem merge_groups_absorbs (p : Partitioner) (choice : GroupingChoice)
        (eval : GroupConfig) (level : Level) (p' : Partitioner) (prod_f : Function) :
  merge_groups p choice eval level = Some p' ->
  get_element env (choice_prod choice) = Some prod_f ->
  (forall cand, In cand (stages_of prod_f) ->
                FStage_eqb cand (choice_cons choice) = false) ->
  exists child_group cand_groups merged,
    fm_find (choice_cons choice) (groups p) = Some child_group
    /\ Forall2 (fun cand g => fm_find cand (groups p) = Some g)
               (stages_of prod_f) cand_groups
    /\ fm_find (choice_cons choice) (groups p') = Some merged
    /\ output merged = output child_group
    /\ members merged = members child_group ++ flat_map members cand_groups
    /\ tile_sizes merged = config_tile_sizes eval
    /\ (forall n, ss_mem n (inlined merged)
                  = ss_mem n (inlined child_group)
                    || existsb (inlined_from level n) cand_groups)
    /\ fm_find (choice_cons choice) (group_costs p') = analyze_group merged
    /\ (forall k, FStage_eqb k (choice_cons choice) = false ->
                  fm_find k (groups p') = fm_find k (groups p)
                  /\ fm_find k (group_costs p') = fm_find k (group_costs p))
    /\ children p' = children p
    /\ grouping_cache p' = grouping_cache p.
Proof.
  unfold merge_groups. intros H Hprod Hne. rewrite Hprod in H.
  destruct (fm_find (choice_cons choice) (groups p)) as [cg0 |] eqn:Ec;
    [| discriminate].
  destruct (foldM _ _ _) as [gs |] eqn:Ef; [| discriminate].
  destruct (absorb_stages_spec level (choice_cons choice) (stages_of prod_f)
                               (groups p) gs cg0 Hne Ec Ef)
    as (cands & cg' & Hall & Hc' & (Ho & Ht & Hm & Hi) & Hrest).
  rewrite Hc' in H.
  destruct (analyze_group (set_tile_sizes cg' (config_tile_sizes eval))) as [a |] eqn:Ea;
    [| discriminate].
  injection H as <-. simpl.
  exists cg0, cands, (set_tile_sizes cg' (config_tile_sizes eval)).
  split; [reflexivity |]. split; [exact Hall |].
  split; [unfold fm_find, fm_put; now rewrite fm_find_put, FStage_eqb_refl |].
  split; [exact Ho |]. split; [exact Hm |]. split; [reflexivity |].
  split; [exact Hi |].
  split; [unfold fm_find, fm_put; now rewrite fm_find_put, FStage_eqb_refl, Ea |].
  split; [| split; reflexivity].
  intros k Hk. unfold fm_find, fm_put. rewrite !fm_find_put, Hk.
  split; [exact (Hrest k Hk) | reflexivity].
Qed.

End PartitionerModel.

(** ** The schedule emitter: [split_dim] and [vectorize_stage] *)

(** [std::to_string] on an [int]. *)
Definition to_string (z : Z) : string := NilZero.string_of_int (Z.to_int z).

Definition dquote : string := String (ascii_of_nat 34) EmptyString.
Definition newline : string := String (ascii_of_nat 10) EmptyString.

(** [name.rfind('.')]: the text after the last dot, if there is a dot. *)
Fixpoint after_last_dot (s : string) : option string :=
  match s with
  | EmptyString => None
  | String c r =>
      match after_last_dot r with
      | Some t => Some t
      | None => if Ascii.eqb c "."%char then Some r else None
      end
  end.

Definition get_base_name (s : string) : string :=
  match after_last_dot s with
  | Some t => t
  | None => s
  end.

(** *** Properties of [get_base_name] *)

(** Whether a name holds the character ['.']. *)
Fixpoint has_dot (s : string) : bool :=
  match s with
  | EmptyString => false
  | String c r => Ascii.eqb c "."%char || has_dot r
  end.

Lemma after_last_dot_none (s : string) :
  after_last_dot s = None <-> has_dot s = false.
Proof.
  induction s as [| c r IH]; simpl; [tauto |].
  destruct (after_last_dot r) as [t |].
  - split; [discriminate |]. intros H. apply orb_false_iff in H.
    destruct H as [_ H]. apply IH in H. discriminate.
  - destruct (Ascii.eqb c "."%char); simpl.
    + split; discriminate.
    + split; [intros _; now apply IH | reflexivity].
Qed.

Lemma after_last_dot_no_dot (s t : string) :
  after_last_dot s = Some t -> has_dot t = false.
Proof.
  induction s as [| c r IH]; simpl; [discriminate |].
  destruct (after_last_dot r) as [u |] eqn:E.
  - intros [= <-]. now apply IH.
  - destruct (Ascii.eqb c "."%char); [| discriminate].
    intros [= <-]. now apply after_last_dot_none.
Qed.

Lemma after_last_dot_app (p v : string) :
  has_dot v = false -> after_last_dot (p ++ String "."%char v) = Some v.
Proof.
  intros Hv. induction p as [| c r IH]; simpl.
  - now rewrite (proj2 (after_last_dot_none v) Hv).
  - now rewrite IH.
Qed.

Lemma get_base_name_no_dot (s : string) : has_dot (get_base_name s) = false.
Proof.
  unfold get_base_name. destruct (after_last_dot s) as [t |] eqn:E.
  - exact (after_last_dot_no_dot _ _ E).
  - now apply after_last_dot_none.
Qed.

Lemma get_base_name_id (s : string) : has_dot s = false -> get_base_name s = s.
Proof.
  intros Hs. unfold get_base_name. now rewrite (proj2 (after_last_dot_none s) Hs).
Qed.

(** X18.  [get_base_name] returns what follows the last ['.'] of a name: the
    result never holds a ['.'], a name without one is returned as it is, a
    prefix that ends in ['.'] is dropped from a name whose rest has none
    (so [f.s0.x] gives [x]), and applying the function twice changes
    nothing more. *)
Theorem get_base_name_spec :
  (forall s, has_dot (get_base_name s) = false)
  /\ (forall s, has_dot s = false -> get_base_name s = s)
  /\ (forall p v, has_dot v = false -> get_base_name (p ++ String "."%char v) = v)
  /\ (forall s, get_base_name (get_base_name s) = get_base_name s).
Proof.
  repeat split.
  - exact get_base_name_no_dot.
  - exact get_base_name_id.
  - intros p v Hv. unfold get_base_name. now rewrite (after_last_dot_app p v Hv).
  - intros s. apply get_base_name_id, get_base_name_no_dot.
Qed.

(** *** Single-precision arithmetic

    [std::ceil((float)estimate / factor)] as [split_dim] stores it in an
    [int64_t]: both operands are converted to [float], the division and
    the ceiling are those of binary32 (24 bits of mantissa, rounding to
    nearest, ties to even).  Converting an infinity, a NaN or a value
    outside [int64_t] back to an integer is undefined: [None]. *)
Definition float_of_int (z : Z) : spec_float := binary_normalize 24 128 z 0 false.

(** [std::ceil] of a finite value [(-1)^s * m * 2^e], as an integer. *)
Definition float_ceil (x : spec_float) : option Z :=
  match x with
  | S754_zero _ => Some 0
  | S754_finite s m e =>
      let v := if s then Z.neg m else Z.pos m in
      Some (if 0 <=? e then v * 2 ^ e else - ((- v) / 2 ^ (- e)))
  | S754_infinity _ | S754_nan => None
  end.

Definition float_ceil_div (estimate factor : Z) : option Z :=
  q <- float_ceil (SFdiv 24 128 (float_of_int estimate) (float_of_int factor)) ;;
  _ <- assert ((int64_min <=? q) && (q <=? int64_max)) ;;
  Some q.

(** The calls made on a [Stage] handle, in order. *)
Inductive Directive : Type :=
| DSplit (stage old outer inner : string) (factor : Z)
| DVectorize (stage var : string).

(** What the emitter threads through [split_dim] and [vectorize_stage]: the
    rvar set, the estimates, the transcript, the directives applied to the
    stage and the user warnings. *)
Record EmitState : Type := mkEmitState {
  es_rvars : sset;
  es_estimates : smap Z;
  es_sched : string;
  es_applied : list Directive;
  es_warnings : list string
}.

Section Emitter.
(** [unknown] and [can_parallelize_rvar] as above, the float division of
    [split_dim], and [Target::natural_vector_size]. *)
Variable unknown : Z.
Variable can_parallelize_rvar : string -> string -> StageDef -> bool.
Variable ceil_div_float : Z -> Z -> Z.
Variable natural_vector_size : HType -> Z.

(** [split_dim]: the new variables are [(inner, outer)]. *)
Definition split_dim (f_handle : string) (v : string) (factor : Z)
           (in_suffix out_suffix : string) (st : EmitState)
  : option (string * string * EmitState) :=
  let arg_name := v in
  let inner_name := (arg_name ++ in_suffix)%string in
  let outer_name := (arg_name ++ out_suffix)%string in
  let sched1 :=
    (es_sched st ++ "Var " ++ inner_name ++ "(" ++ dquote ++ outer_name ++ dquote ++ ")"
              ++ ";" ++ newline)%string in
  let sched2 :=
    (sched1 ++ "Var " ++ outer_name ++ "(" ++ dquote ++ outer_name ++ dquote ++ ")"
            ++ ";" ++ newline)%string in
  let sched3 :=
    (sched2 ++ f_handle ++ ".split(" ++ arg_name ++ "," ++ outer_name ++ ","
            ++ inner_name ++ "," ++ to_string factor ++ ");" ++ newline)%string in
  est <- sm_find arg_name (es_estimates st) ;;
  _ <- assert (negb (est =? unknown)) ;;
  let e1 := sm_put inner_name factor (es_estimates st) in
  arg_estimate <- get_element e1 arg_name ;;
  let e2 := sm_put outer_name (ceil_div_float arg_estimate factor) e1 in
  let e3 := sm_erase arg_name e2 in
  Some (inner_name, outer_name,
        mkEmitState (es_rvars st) e3 sched3
                    (es_applied st ++ [DSplit f_handle v outer_name inner_name factor])
                    (es_warnings st)).

(** [vec_len]: the maximum of the natural vector sizes of the output
    types. *)
Definition vec_len_of (f : Function) : Z :=
  fold_left (fun vec_len type => Z.max vec_len (natural_vector_size type))
            (output_types f) 0.

(** The search for [vec_dim_index]. *)
Fixpoint find_vec_dim (def : StageDef) (f : Function) (rv : sset) (est : smap Z)
         (vec_len : Z) (ds : list (nat * Dim)) : option nat :=
  match ds with
  | [] => None
  | (d, dim) :: rest =>
      let dim_name := get_base_name (dvar dim) in
      let can_vectorize :=
        if ss_mem dim_name rv then can_parallelize_rvar dim_name (name f) def else true in
      match sm_find dim_name est with
      | Some e =>
          if negb (e =? unknown) && (can_vectorize && (e >=? vec_len))
          then Some d
          else find_vec_dim def f rv est vec_len rest
      | None => find_vec_dim def f rv est vec_len rest
      end
  end.

(** [vectorize_stage]; [stage_dims] is [f_handle.get_schedule().dims()]. *)
Definition vectorize_stage (f_handle : string) (stage_dims : list Dim) (def : StageDef)
           (f : Function) (st : EmitState) : option EmitState :=
  let vec_len := vec_len_of f in
  match find_vec_dim def f (es_rvars st) (es_estimates st) vec_len
                     (indexed (loop_dims stage_dims)) with
  | None => Some st
  | Some vec_dim_index =>
      let vec_dim_name :=
        get_base_name (dvar (nth vec_dim_index stage_dims (mkDim EmptyString Serial PureVar))) in
      let is_rvar := ss_mem vec_dim_name (es_rvars st) in
      r <- split_dim f_handle vec_dim_name vec_len "_vi" "_vo" st ;;
      let '(inner, outer, st1) := r in
      let sched :=
        (es_sched st1 ++ f_handle ++ ".vectorize(" ++ inner ++ ");" ++ newline)%string in
      let rv :=
        if is_rvar
        then ss_insert outer (ss_insert inner (ss_erase vec_dim_name (es_rvars st1)))
        else es_rvars st1 in
      let warnings :=
        if Nat.ltb 0 vec_dim_index
        then es_warnings st1
               ++ [("Outer dim vectorization of var " ++ vec_dim_name
                      ++ " in function " ++ f_handle ++ newline)%string]
        else es_warnings st1 in
      Some (mkEmitState rv (es_estimates st1) sched
                        (es_applied st1 ++ [DVectorize f_handle inner]) warnings)
  end.

(** The reading of "the widest output type" by the width of the type in
    bits: the first output type of maximal [bits]. *)
Definition widest_output_type (f : Function) : option HType :=
  fold_left
    (fun acc t =>
       match acc with
       | None => Some t
       | Some w => if bits w <? bits t then Some t else Some w
       end)
    (output_types f) None.

(** *** Properties of [vectorize_stage] *)

(** The test a loop dimension passes to be vectorized. *)
Definition can_vectorize_dim (def : StageDef) (f : Function) (rv : sset) (est : smap Z)
           (vec_len : Z) (dim : Dim) : bool :=
  let dim_name := get_base_name (dvar dim) in
  match sm_find dim_name est with
  | Some e =>
      negb (e =? unknown)
      && ((if ss_mem dim_name rv then can_parallelize_rvar dim_name (name f) def else true)
          && (e >=? vec_len))
  | None => false
  end.

Lemma find_vec_dim_sound def f rv est vl (l : list Dim) :
  forall start d,
    find_vec_dim def f rv est vl (combine (seq start (length l)) l) = Some d ->
    exists dim,
      (start <= d)%nat
      /\ nth_error l (d - start) = Some dim
      /\ can_vectorize_dim def f rv est vl dim = true
      /\ forall j dim', (j < d - start)%nat -> nth_error l j = Some dim' ->
                        can_vectorize_dim def f rv est vl dim' = false.
Proof.
  induction l as [| x l IH]; intros start d; simpl; [discriminate |].
  assert (Hcase : can_vectorize_dim def f rv est vl x = true
                  \/ can_vectorize_dim def f rv est vl x = false)
    by (destruct (can_vectorize_dim def f rv est vl x); auto).
  unfold can_vectorize_dim in Hcase.
  destruct (sm_find (get_base_name (dvar x)) est) as [e |] eqn:Ee.
  - destruct Hcase as [Hc | Hc]; rewrite Hc.
    + intros [= <-]. exists x. rewrite Nat.sub_diag. simpl.
      repeat split; [lia | | intros j dim' Hj; lia].
      unfold can_vectorize_dim. now rewrite Ee.
    + intros H. destruct (IH _ _ H) as (dim & Hle & Hn & Hc' & Hmin).
      exists dim. replace (d - start)%nat with (S (d - S start)) by lia.
      simpl. repeat split; [lia | exact Hn | exact Hc' |].
      intros [| j] dim' Hj; simpl.
      * intros [= <-]. unfold can_vectorize_dim. now rewrite Ee.
      * apply Hmin. lia.
  - intros H. destruct (IH _ _ H) as (dim & Hle & Hn & Hc' & Hmin).
    exists dim. replace (d - start)%nat with (S (d - S start)) by lia.
    simpl. repeat split; [lia | exact Hn | exact Hc' |].
    intros [| j] dim' Hj; simpl.
    * intros [= <-]. unfold can_vectorize_dim. now rewrite Ee.
    * apply Hmin. lia.
Qed.

Lemma find_vec_dim_none def f rv est vl (l : list Dim) :
  forall start,
    find_vec_dim def f rv est vl (combine (seq start (length l)) l) = None ->
    forall dim, In dim l -> can_vectorize_dim def f rv est vl dim = false.
Proof.
  induction l as [| x l IH]; intros start; simpl; [intros _ dim [] |].
  intros H dim Hin.
  assert (Hx : can_vectorize_dim def f rv est vl x = false
               /\ find_vec_dim def f rv est vl (combine (seq (S start) (length l)) l) = None).
  { unfold can_vectorize_dim.
    destruct (sm_find (get_base_name (dvar x)) est); [| now split].
    destruct (negb _ && _); [discriminate | now split]. }
  destruct Hx as [Hx Hrest]. destruct Hin as [<- | Hin]; [exact Hx |].
  exact (IH _ Hrest dim Hin).
Qed.

Lemma nth_error_removelast {A} (l : list A) (d : nat) (x : A) :
  nth_error (removelast l) d = Some x -> nth_error l d = Some x.
Proof.
  revert d. induction l as [| a l IH]; intros d; simpl; [now destruct d |].
  destruct l as [| b l]; [now destruct d |].
  destruct d as [| d]; simpl; [auto |]. apply IH.
Qed.

Lemma vec_len_upper (f : Function) (t : HType) :
  In t (output_types f) -> natural_vector_size t <= vec_len_of f.
Proof.
  unfold vec_len_of. generalize 0. induction (output_types f) as [| x l IH]; simpl.
  - intros z [].
  - intros z [<- | Hin].
    + assert (Hmono : forall l z, z <= fold_left
                (fun vec_len type => Z.max vec_len (natural_vector_size type)) l z).
      { clear. induction l as [| y l IH]; intros z; simpl; [lia |].
        specialize (IH (Z.max z (natural_vector_size y))). lia. }
      specialize (Hmono l (Z.max z (natural_vector_size x))). lia.
    + now apply IH.
Qed.

Lemma vec_len_attained (f : Function) :
  vec_len_of f = 0
  \/ exists t, In t (output_types f) /\ natural_vector_size t = vec_len_of f.
Proof.
  unfold vec_len_of.
  assert (H : forall l z,
             fold_left (fun vec_len type => Z.max vec_len (natural_vector_size type)) l z = z
             \/ exists t, In t l
                          /\ natural_vector_size t
                             = fold_left (fun vec_len type =>
                                            Z.max vec_len (natural_vector_size type)) l z).
  { induction l as [| x l IH]; intros z; simpl; [now left |].
    destruct (IH (Z.max z (natural_vector_size x))) as [E | (t & Hin & E)].
    - rewrite E. destruct (Z.max_spec z (natural_vector_size x)) as [[_ ->] | [_ ->]].
      + right. exists x. auto.
      + now left.
    - right. exists t. auto. }
  destruct (H (output_types f) 0) as [E | (t & Hin & E)]; [now left |].
  right. exists t. auto.
Qed.

(** A name differs from itself with a suffix. *)
Lemma suffixed_name_differs (v : string) (c : ascii) (s : string) :
  String.eqb v (v ++ String c s) = false.
Proof.
  induction v as [| a v IH]; simpl; [reflexivity |].
  now rewrite Ascii.eqb_refl.
Qed.

Lemma ss_mem_insert (k k' : string) (s : sset) :
  ss_mem k (ss_insert k' s) = String.eqb k k' || ss_mem k s.
Proof.
  unfold ss_mem, ss_insert, os_mem.
  induction s as [| x s IH]; simpl; [reflexivity |].
  destruct (String.eqb_spec k' x) as [-> | Hne]; simpl.
  - destruct (String.eqb k x); reflexivity.
  - destruct (String.ltb k' x); simpl.
    + reflexivity.
    + rewrite IH. destruct (String.eqb k k'), (String.eqb k x); reflexivity.
Qed.

Lemma ss_mem_erase (k k' : string) (s : sset) :
  ss_mem k (ss_erase k' s) = negb (String.eqb k k') && ss_mem k s.
Proof.
  unfold ss_mem, ss_erase, os_mem, os_erase.
  induction s as [| x s IH]; simpl.
  - now rewrite andb_false_r.
  - destruct (String.eqb_spec k' x) as [-> | Hne]; simpl.
    + rewrite IH. destruct (String.eqb k x); reflexivity.
    + rewrite IH. destruct (String.eqb_spec k x) as [-> | Hkx]; simpl.
      * destruct (String.eqb_spec x k') as [E | _]; [now subst | reflexivity].
      * reflexivity.
Qed.

(** C7, as the code has it.  The split factor of [vectorize_stage] is the
    largest natural vector size over the output types of the function
    (zero when no type has a positive one).  The dimension that is split
    is the first loop dimension whose estimate is known and at least that
    factor and which, when it is an rvar, can be parallelized; when there
    is none the stage is left alone.  The inner variable of the split is
    the one vectorized, and when the split dimension was an rvar the rvar
    set holds both halves in place of it. *)
Theorem vectorize_stage_spec (f_handle : string) (stage_dims : list Dim)
        (def : StageDef) (f : Function) (st : EmitState) :
  (forall t, In t (output_types f) -> natural_vector_size t <= vec_len_of f)
  /\ (vec_len_of f = 0
      \/ exists t, In t (output_types f) /\ natural_vector_size t = vec_len_of f)
  /\ (((forall dim, In dim (loop_dims stage_dims) ->
                    can_vectorize_dim def f (es_rvars st) (es_estimates st)
                                      (vec_len_of f) dim = false)
       /\ vectorize_stage f_handle stage_dims def f st = Some st)
      \/ exists d dim e st',
          nth_error (loop_dims stage_dims) d = Some dim
          /\ (forall j dim', (j < d)%nat ->
                             nth_error (loop_dims stage_dims) j = Some dim' ->
                             can_vectorize_dim def f (es_rvars st) (es_estimates st)
                                               (vec_len_of f) dim' = false)
          /\ sm_find (get_base_name (dvar dim)) (es_estimates st) = Some e
          /\ e <> unknown /\ vec_len_of f <= e
          /\ (ss_mem (get_base_name (dvar dim)) (es_rvars st) = true ->
              can_parallelize_rvar (get_base_name (dvar dim)) (name f) def = true)
          /\ vectorize_stage f_handle stage_dims def f st = Some st'
          /\ es_applied st'
             = es_applied st
               ++ [DSplit f_handle (get_base_name (dvar dim))
                          (get_base_name (dvar dim) ++ "_vo")%string
                          (get_base_name (dvar dim) ++ "_vi")%string (vec_len_of f);
                   DVectorize f_handle (get_base_name (dvar dim) ++ "_vi")%string]
          /\ (forall k,
                 ss_mem k (es_rvars st')
                 = if ss_mem (get_base_name (dvar dim)) (es_rvars st)
                   then String.eqb k (get_base_name (dvar dim) ++ "_vo")%string
                        || (String.eqb k (get_base_name (dvar dim) ++ "_vi")%string
                            || (negb (String.eqb k (get_base_name (dvar dim)))
                                && ss_mem k (es_rvars st)))
                   else ss_mem k (es_rvars st))).
Proof.
  split; [apply vec_len_upper |]. split; [apply vec_len_attained |].
  unfold vectorize_stage, indexed.
  destruct (find_vec_dim _ _ _ _ _ _) as [d |] eqn:Ef.
  - right.
    apply find_vec_dim_sound in Ef as (dim & _ & Hn & Hc & Hmin).
    rewrite Nat.sub_0_r in Hn, Hmin.
    assert (Hnth : nth d stage_dims (mkDim EmptyString Serial PureVar) = dim).
    { apply nth_error_removelast in Hn. now apply nth_error_nth. }
    rewrite Hnth.
    unfold can_vectorize_dim in Hc.
    destruct (sm_find (get_base_name (dvar dim)) (es_estimates st)) as [e |] eqn:Ee;
      [| discriminate].
    apply andb_true_iff in Hc as [Hk Hc]. apply andb_true_iff in Hc as [Hp Hge].
    unfold split_dim. rewrite Ee, Hk. simpl.
    unfold get_element. rewrite sm_find_put, suffixed_name_differs, Ee.
    apply negb_true_iff, Z.eqb_neq in Hk. apply Z.geb_le in Hge.
    eexists d, dim, e, _.
    split; [exact Hn |]. split; [exact Hmin |]. split; [exact Ee |].
    split; [exact Hk |]. split; [exact Hge |].
    split; [intros Hr; now rewrite Hr in Hp |].
    split; [reflexivity |]. simpl. split.
    + rewrite <- app_assoc. reflexivity.
    + intros k.
      destruct (ss_mem (get_base_name (dvar dim)) (es_rvars st)); [| reflexivity].
      now rewrite !ss_mem_insert, ss_mem_erase.
  - left. split; [| reflexivity].
    exact (find_vec_dim_none _ _ _ _ _ _ _ Ef).
Qed.
(** *** Properties of [split_dim] *)

(** X19.  [split_dim] aborts when the split variable has no estimate or an
    unknown one.  Otherwise, for suffixes that are not empty, it returns
    the inner and the outer name; the estimate of the inner variable is
    the factor; that of the outer one is what
    [std::ceil((float)estimate / factor)] gives in single precision,
    wherever that value is defined; the split variable has no estimate any
    more and every other estimate is kept; the rvars and the warnings are
    untouched and one split is applied to the stage.  The single-precision
    value is the rounded-up quotient for 256 by 8, but not always: an
    estimate of 16777217 split by 1 leaves 16777216. *)
Theorem split_dim_estimates (f_handle v : string) (factor : Z)
        (in_suffix out_suffix : string) (st : EmitState) :
  (in_suffix <> EmptyString -> out_suffix <> EmptyString ->
   (forall estimate q,
       float_ceil_div estimate factor = Some q -> ceil_div_float estimate factor = q) ->
   match sm_find v (es_estimates st) with
   | None => split_dim f_handle v factor in_suffix out_suffix st = None
   | Some est =>
       if est =? unknown
       then split_dim f_handle v factor in_suffix out_suffix st = None
       else
         exists st',
           split_dim f_handle v factor in_suffix out_suffix st
           = Some ((v ++ in_suffix)%string, (v ++ out_suffix)%string, st')
           /\ (forall k,
                  sm_find k (es_estimates st')
                  = if String.eqb k (v ++ out_suffix) then Some (ceil_div_float est factor)
                    else if String.eqb k (v ++ in_suffix) then Some factor
                    else if String.eqb k v then None
                    else sm_find k (es_estimates st))
           /\ (forall q,
                  float_ceil_div est factor = Some q ->
                  sm_find (v ++ out_suffix) (es_estimates st') = Some q)
           /\ es_rvars st' = es_rvars st
           /\ es_warnings st' = es_warnings st
           /\ es_applied st'
              = es_applied st
                  ++ [DSplit f_handle v (v ++ out_suffix) (v ++ in_suffix) factor]
   end)
  /\ float_ceil_div 256 8 = Some 32
  /\ float_ceil_div 16777217 1 = Some 16777216.
Proof.
  split; [| split; vm_compute; reflexivity].
  intros Hin Hout Hfloat. unfold split_dim.
  destruct (sm_find v (es_estimates st)) as [est |] eqn:Ev; [| reflexivity].
  destruct (est =? unknown) eqn:Eu; simpl; [reflexivity |].
  assert (Hvi : String.eqb v (v ++ in_suffix) = false).
  { destruct in_suffix as [| c s]; [congruence | apply suffixed_name_differs]. }
  assert (Hvo : String.eqb v (v ++ out_suffix) = false).
  { destruct out_suffix as [| c s]; [congruence | apply suffixed_name_differs]. }
  unfold get_element. rewrite sm_find_put, Hvi, Ev. simpl.
  eexists. split; [reflexivity |]. simpl.
  assert (Hk : forall k,
             sm_find k (sm_erase v (sm_put (v ++ out_suffix) (ceil_div_float est factor)
                                           (sm_put (v ++ in_suffix) factor
                                                   (es_estimates st))))
             = if String.eqb k (v ++ out_suffix) then Some (ceil_div_float est factor)
               else if String.eqb k (v ++ in_suffix) then Some factor
               else if String.eqb k v then None
               else sm_find k (es_estimates st)).
  { intros k. rewrite sm_find_erase, sm_find_put, sm_find_put.
    destruct (String.eqb_spec k (v ++ out_suffix)) as [-> | Hko].
    - rewrite String.eqb_sym, Hvo. reflexivity.
    - destruct (String.eqb_spec k (v ++ in_suffix)) as [-> | Hki].
      + rewrite String.eqb_sym, Hvi. reflexivity.
      + destruct (String.eqb k v); reflexivity. }
  split; [exact Hk |]. split; [| repeat split].
  intros q Hq. rewrite Hk, String.eqb_refl. f_equal. exact (Hfloat est q Hq).
Qed.

End Emitter.

(** ** [reorder_dims] *)

(** The search for the pure dimension of smallest stride: one round of the
    [for] loop, on [(min_pure_stride, min_pure_var)]. *)
Definition min_pure_step (strides : smap Z) (acc : Z * string) (d : Dim) : Z * string :=
  let var_name := get_base_name (dvar d) in
  match sm_find var_name strides with
  | Some dim_stride =>
      if is_pure d && (dim_stride <? fst acc) then (dim_stride, var_name) else acc
  | None => acc
  end.

Definition min_pure (ds : list Dim) (strides : smap Z) : Z * string :=
  fold_left (min_pure_step strides) ds (int64_max, EmptyString).

(** The first reduction dimension that has a stride left; the loop breaks
    at it. *)
Fixpoint min_impure (ds : list Dim) (strides : smap Z) : Z * string :=
  match ds with
  | [] => (int64_max, EmptyString)
  | d :: rest =>
      let var_name := get_base_name (dvar d) in
      match sm_find var_name strides with
      | Some dim_stride =>
          if negb (is_pure d)
          then if dim_stride <? int64_max then (dim_stride, var_name)
               else (int64_max, EmptyString)
          else min_impure rest strides
      | None => min_impure rest strides
      end
  end.

Definition curr_min_var (ds : list Dim) (strides : smap Z) : string * bool :=
  let '(min_pure_stride, min_pure_var) := min_pure ds strides in
  let '(min_impure_stride, min_impure_var) := min_impure ds strides in
  if min_impure_stride <? min_pure_stride
  then (min_impure_var, false)
  else (min_pure_var, true).

(** [while (strides.size() > 0)]; [ds] holds the dimensions but
    [__outermost]. *)
Fixpoint reorder_loop (fuel : nat) (ds : list Dim) (strides : smap Z)
         (order : list (string * bool)) : option (list (string * bool)) :=
  match strides with
  | [] => Some order
  | _ :: _ =>
      match fuel with
      | O => None
      | S n =>
          let c := curr_min_var ds strides in
          reorder_loop n ds (sm_erase (fst c) strides) (order ++ [c])
      end
  end.

(** [var_order]; the first element of an empty [ordering] is read. *)
Definition var_order_of (ordering : list string) : option string :=
  match ordering with
  | [] => None
  | o :: rest => Some (fold_left (fun s n => (s ++ "," ++ n)%string) rest o)
  end.

(** [reorder_dims]: the ordering given to [f_handle.reorder], each name
    with the flag its [VarOrRVar] is built with, and the transcript. *)
Definition reorder_dims (fuel : nat) (f_handle : string) (ds : list Dim)
           (strides : smap Z) (sched : string)
  : option (list (string * bool) * string) :=
  _ <- assert (forallb (fun d => sm_mem (dvar d) strides) (loop_dims ds)) ;;
  order <- reorder_loop fuel (loop_dims ds) strides [] ;;
  var_order <- var_order_of (map fst order) ;;
  Some (order, (sched ++ f_handle ++ ".reorder(" ++ var_order ++ ");" ++ newline)%string).

(** *** Properties of [reorder_dims] *)

Lemma sm_mem_find {V} (k : string) (m : smap V) :
  sm_mem k m = true <-> exists v, sm_find k m = Some v.
Proof.
  unfold sm_mem, om_mem. change (om_find String.eqb k m) with (sm_find k m).
  destruct (sm_find k m) as [v |]; split; try discriminate; eauto.
  intros [v H]. discriminate.
Qed.

Lemma sm_mem_erase {V} (k k' : string) (m : smap V) :
  sm_mem k (sm_erase k' m) = negb (String.eqb k k') && sm_mem k m.
Proof.
  unfold sm_mem, om_mem.
  change (om_find String.eqb k (sm_erase k' m)) with (sm_find k (sm_erase k' m)).
  rewrite sm_find_erase. destruct (String.eqb k k'); reflexivity.
Qed.

Lemma min_pure_fold (strides : smap Z) (l : list Dim) :
  forall acc,
    fst (fold_left (min_pure_step strides) l acc) <= fst acc
    /\ (forall d s, In d l -> is_pure d = true ->
                    sm_find (get_base_name (dvar d)) strides = Some s ->
                    fst (fold_left (min_pure_step strides) l acc) <= s)
    /\ (fold_left (min_pure_step strides) l acc = acc
        \/ exists d, In d l /\ is_pure d = true
                     /\ snd (fold_left (min_pure_step strides) l acc)
                        = get_base_name (dvar d)
                     /\ sm_find (get_base_name (dvar d)) strides
                        = Some (fst (fold_left (min_pure_step strides) l acc))).
Proof.
  induction l as [| x l IH]; intros acc; simpl.
  - repeat split; [lia | intros d s [] | now left].
  - destruct (IH (min_pure_step strides acc x)) as (Hle & Hmin & Hsrc).
    assert (Hstep :
              fst (min_pure_step strides acc x) <= fst acc
              /\ (forall s, is_pure x = true ->
                            sm_find (get_base_name (dvar x)) strides = Some s ->
                            fst (min_pure_step strides acc x) <= s)
              /\ (min_pure_step strides acc x = acc
                  \/ (is_pure x = true
                      /\ snd (min_pure_step strides acc x) = get_base_name (dvar x)
                      /\ sm_find (get_base_name (dvar x)) strides
                         = Some (fst (min_pure_step strides acc x))))).
    { unfold min_pure_step.
      destruct (sm_find (get_base_name (dvar x)) strides) as [s0 |] eqn:E.
      - destruct (is_pure x) eqn:Ep; simpl.
        + destruct (Z.ltb_spec s0 (fst acc)); simpl.
          * repeat split; [lia | intros s _ [= <-]; lia | right; auto].
          * repeat split; [lia | intros s _ [= <-]; lia | now left].
        + repeat split; [lia | discriminate | now left].
      - repeat split; [lia | discriminate | now left]. }
    destruct Hstep as (Hle1 & Hmin1 & Hsrc1).
    split; [lia |]. split.
    + intros d s [<- | Hin] Hp Hf.
      * specialize (Hmin1 s Hp Hf). lia.
      * exact (Hmin d s Hin Hp Hf).
    + destruct Hsrc as [Hsame | (d & Hin & Hp & Hn & Hf)].
      * rewrite Hsame. destruct Hsrc1 as [-> | (Hp & Hn & Hf)]; [now left |].
        right. exists x. auto.
      * right. exists d. auto.
Qed.

(** The reduction dimensions that still have a stride. *)
Definition impure_left (strides : smap Z) (d : Dim) : bool :=
  negb (is_pure d) && sm_mem (get_base_name (dvar d)) strides.

Lemma min_impure_first (strides : smap Z) (l : list Dim) :
  (forall k s, sm_find k strides = Some s -> s < int64_max) ->
  min_impure l strides
  = match find (impure_left strides) l with
    | Some d =>
        match sm_find (get_base_name (dvar d)) strides with
        | Some s => (s, get_base_name (dvar d))
        | None => (int64_max, EmptyString)
        end
    | None => (int64_max, EmptyString)
    end.
Proof.
  intros Hmax. induction l as [| x l IH]; simpl; [reflexivity |].
  unfold impure_left at 1, sm_mem, om_mem.
  change (om_find String.eqb (get_base_name (dvar x)) strides)
    with (sm_find (get_base_name (dvar x)) strides).
  destruct (sm_find (get_base_name (dvar x)) strides) as [s |] eqn:E.
  - destruct (is_pure x); simpl; [exact IH |].
    rewrite E. specialize (Hmax _ _ E).
    destruct (Z.ltb_spec s int64_max); [reflexivity | lia].
  - rewrite andb_false_r. exact IH.
Qed.

Lemma curr_min_var_spec (l : list Dim) (strides : smap Z) :
  (forall k s, sm_find k strides = Some s -> s < int64_max) ->
  (forall k, sm_mem k strides = true ->
             exists d, In d l /\ get_base_name (dvar d) = k) ->
  strides <> [] ->
  exists s d,
    sm_find (fst (curr_min_var l strides)) strides = Some s
    /\ In d l
    /\ get_base_name (dvar d) = fst (curr_min_var l strides)
    /\ is_pure d = snd (curr_min_var l strides)
    /\ (snd (curr_min_var l strides) = false -> find (impure_left strides) l = Some d)
    /\ (forall d' s', In d' l -> is_pure d' = true ->
                      sm_find (get_base_name (dvar d')) strides = Some s' ->
                      s <= s' /\ (snd (curr_min_var l strides) = false -> s < s')).
Proof.
  intros Hmax Hkeys Hne. unfold curr_min_var, min_pure.
  destruct (min_pure_fold strides l (int64_max, EmptyString)) as (Hle & Hmin & Hsrc).
  rewrite (min_impure_first strides l Hmax).
  destruct (fold_left (min_pure_step strides) l (int64_max, EmptyString))
    as [mps mpv] eqn:Ep.
  simpl in Hle, Hmin, Hsrc.
  assert (Hpure : mps < int64_max ->
                  exists d, In d l /\ is_pure d = true /\ mpv = get_base_name (dvar d)
                            /\ sm_find (get_base_name (dvar d)) strides = Some mps).
  { intros Hlt. destruct Hsrc as [[= -> _] | H]; [lia | exact H]. }
  destruct (find (impure_left strides) l) as [di |] eqn:Ef.
  - destruct (find_some _ _ Ef) as [Hin Hdi].
    unfold impure_left in Hdi. apply andb_true_iff in Hdi as [Himp Hmem].
    apply negb_true_iff in Himp.
    apply sm_mem_find in Hmem as [si Hsi]. rewrite Hsi.
    pose proof (Hmax _ _ Hsi) as Hsmax.
    destruct (Z.ltb_spec si mps) as [Hlt | Hge]; simpl.
    + exists si, di. repeat split; auto.
      * specialize (Hmin _ _ H H0 H1). lia.
      * intros _. specialize (Hmin _ _ H H0 H1). lia.
    + destruct (Hpure ltac:(lia)) as (d & Hd & Hp & Hn & Hf).
      exists mps, d. subst mpv. repeat split; auto; try discriminate.
      exact (Hmin _ _ H H0 H1).
  - assert (Hlt : mps < int64_max).
    { assert (Hk0 : exists k0 s0, sm_find k0 strides = Some s0).
      { destruct strides as [| [k0 s0] r]; [congruence |].
        exists k0, s0. unfold sm_find. simpl. now rewrite String.eqb_refl. }
      destruct Hk0 as (k0 & s0 & Hk0).
      assert (Hm0 : sm_mem k0 strides = true) by (apply sm_mem_find; eauto).
      destruct (Hkeys k0 Hm0) as (d & Hd & Hb).
      pose proof (find_none _ _ Ef d Hd) as Hnot.
      unfold impure_left in Hnot. rewrite Hb, Hm0, andb_true_r in Hnot.
      apply negb_false_iff in Hnot.
      rewrite <- Hb in Hk0. specialize (Hmin _ _ Hd Hnot Hk0).
      specialize (Hmax _ _ Hk0). lia. }
    destruct (Z.ltb_spec int64_max mps) as [Hbad | _]; [lia |]. simpl.
    destruct (Hpure Hlt) as (d & Hd & Hp & Hn & Hf).
    exists mps, d. subst mpv. repeat split; auto; try discriminate.
    exact (Hmin _ _ H H0 H1).
Qed.

Lemma NoDup_map_injective {A B} (f : A -> B) (l : list A) (a b : A) :
  NoDup (map f l) -> In a l -> In b l -> f a = f b -> a = b.
Proof.
  induction l as [| x l IH]; simpl; [intros _ [] |].
  intros Hnd Ha Hb E. apply NoDup_cons_iff in Hnd as [Hx Hnd].
  destruct Ha as [-> | Ha], Hb as [-> | Hb]; auto.
  - exfalso. apply Hx. rewrite E. now apply in_map.
  - exfalso. apply Hx. rewrite <- E. now apply in_map.
Qed.

Lemma impure_left_erase_first (l : list Dim) (strides : smap Z) (d : Dim) :
  NoDup (map (fun d => get_base_name (dvar d)) l) ->
  find (impure_left strides) l = Some d ->
  filter (impure_left strides) l
  = d :: filter (impure_left (sm_erase (get_base_name (dvar d)) strides)) l.
Proof.
  induction l as [| x l IH]; simpl; [discriminate |].
  intros Hnd. apply NoDup_cons_iff in Hnd as [Hx Hnd].
  destruct (impure_left strides x) eqn:Ex.
  - intros [= ->].
    assert (Hgone : impure_left (sm_erase (get_base_name (dvar d)) strides) d = false).
    { unfold impure_left. now rewrite sm_mem_erase, String.eqb_refl, andb_false_r. }
    rewrite Hgone. f_equal.
    apply filter_ext_in. intros y Hy. unfold impure_left. rewrite sm_mem_erase.
    destruct (String.eqb_spec (get_base_name (dvar y)) (get_base_name (dvar d)))
      as [E | _]; [| reflexivity].
    exfalso. apply Hx. rewrite <- E.
    exact (in_map (fun d => get_base_name (dvar d)) _ _ Hy).
  - intros Hf. rewrite (IH Hnd Hf).
    assert (Hgone : impure_left (sm_erase (get_base_name (dvar d)) strides) x = false).
    { unfold impure_left in *. rewrite sm_mem_erase.
      destruct (negb (is_pure x)); simpl in *; [| reflexivity].
      now rewrite Ex, andb_false_r. }
    now rewrite Hgone.
Qed.

Lemma impure_left_erase_pure (l : list Dim) (strides : smap Z) (d : Dim) :
  NoDup (map (fun d => get_base_name (dvar d)) l) ->
  In d l -> is_pure d = true ->
  filter (impure_left (sm_erase (get_base_name (dvar d)) strides)) l
  = filter (impure_left strides) l.
Proof.
  intros Hnd Hd Hp. apply filter_ext_in. intros y Hy.
  unfold impure_left. rewrite sm_mem_erase.
  destruct (is_pure y) eqn:Ey; [reflexivity |]. simpl.
  destruct (String.eqb_spec (get_base_name (dvar y)) (get_base_name (dvar d)))
    as [E | _]; [| reflexivity].
  pose proof (NoDup_map_injective (fun d => get_base_name (dvar d)) l y d Hnd Hy Hd E).
  subst y. congruence.
Qed.

(** Whoever is placed inside a pure variable has a stride that is no
    larger, and a smaller one if it is a reduction variable. *)
Fixpoint inside_pure (strides : smap Z) (order : list (string * bool)) : Prop :=
  match order with
  | [] => True
  | c :: rest =>
      (forall k2 s1 s2,
          In (k2, true) rest ->
          sm_find (fst c) strides = Some s1 -> sm_find k2 strides = Some s2 ->
          s1 <= s2 /\ (snd c = false -> s1 < s2))
      /\ inside_pure strides rest
  end.

Lemma inside_pure_ext (s s' : smap Z) (order : list (string * bool)) :
  (forall k, In k (map fst order) -> sm_find k s = sm_find k s') ->
  inside_pure s' order -> inside_pure s order.
Proof.
  induction order as [| c rest IH]; simpl; [auto |].
  intros Hext [Hc Hrest]. split.
  - intros k2 s1 s2 Hin H1 H2.
    rewrite (Hext (fst c) (or_introl eq_refl)) in H1.
    rewrite (Hext k2) in H2.
    + exact (Hc k2 s1 s2 Hin H1 H2).
    + right. apply in_map_iff. exists (k2, true). auto.
  - apply IH; [| exact Hrest]. intros k Hk. apply Hext. now right.
Qed.

Lemma inside_pure_split (strides : smap Z) (order : list (string * bool)) :
  inside_pure strides order ->
  forall l1 c l2 k2 l3 s1 s2,
    order = l1 ++ c :: l2 ++ (k2, true) :: l3 ->
    sm_find (fst c) strides = Some s1 -> sm_find k2 strides = Some s2 ->
    s1 <= s2 /\ (snd c = false -> s1 < s2).
Proof.
  intros H l1. revert order H.
  induction l1 as [| a l1 IH]; intros order H c l2 k2 l3 s1 s2 ->; simpl in H.
  - destruct H as [Hc _]. apply Hc. apply in_or_app. right. now left.
  - destruct H as [_ Hrest]. exact (IH _ Hrest c l2 k2 l3 s1 s2 eq_refl).
Qed.

Lemma impure_left_nil (l : list Dim) : filter (impure_left []) l = [].
Proof.
  induction l as [| x l IH]; simpl; [reflexivity |].
  unfold impure_left at 1. simpl. now rewrite andb_false_r.
Qed.

Lemma reorder_loop_spec (l : list Dim) :
  NoDup (map (fun d => get_base_name (dvar d)) l) ->
  forall fuel strides order,
    (forall k s, sm_find k strides = Some s -> s < int64_max) ->
    (forall k, sm_mem k strides = true ->
               exists d, In d l /\ get_base_name (dvar d) = k) ->
    (length strides <= fuel)%nat ->
    exists picked,
      reorder_loop fuel l strides order = Some (order ++ picked)
      /\ (forall k, In k (map fst picked) <-> sm_mem k strides = true)
      /\ NoDup (map fst picked)
      /\ (forall k b, In (k, b) picked ->
                      exists d, In d l /\ get_base_name (dvar d) = k /\ is_pure d = b)
      /\ map fst (filter (fun c => negb (snd c)) picked)
         = map (fun d => get_base_name (dvar d)) (filter (impure_left strides) l)
      /\ inside_pure strides picked.
Proof.
  intros Hnd. induction fuel as [| n IH]; intros strides order Hmax Hkeys Hlen.
  - destruct strides as [| kv r]; [| simpl in Hlen; lia].
    exists []. simpl. rewrite app_nil_r, impure_left_nil.
    split; [reflexivity |]. split; [intros k; split; [intros [] | discriminate] |].
    split; [constructor |]. split; [intros k b [] |]. split; [reflexivity | exact I].
  - destruct strides as [| kv r] eqn:Es.
    { exists []. simpl. rewrite app_nil_r, impure_left_nil.
      split; [reflexivity |]. split; [intros k; split; [intros [] | discriminate] |].
      split; [constructor |]. split; [intros k b [] |]. split; [reflexivity | exact I]. }
    rewrite <- Es in *. assert (Hne : strides <> []) by (rewrite Es; discriminate).
    clear Es kv r.
    assert (Hstep : reorder_loop (S n) l strides order
                    = reorder_loop n l (sm_erase (fst (curr_min_var l strides)) strides)
                                   (order ++ [curr_min_var l strides])).
    { destruct strides; [congruence | reflexivity]. }
    rewrite Hstep. clear Hstep.
    destruct (curr_min_var_spec l strides Hmax Hkeys Hne)
      as (s & d & Hs & Hd & Hname & Hflag & Himp & Hinside).
    set (c := curr_min_var l strides) in *.
    destruct (IH (sm_erase (fst c) strides) (order ++ [c])) as
        (picked & Hrun & Hin & Hnodup & Hflags & Hord & Hpure).
    + intros k s0. rewrite sm_find_erase. destruct (String.eqb k (fst c)); [discriminate |].
      apply Hmax.
    + intros k. rewrite sm_mem_erase. intros H. apply andb_true_iff in H as [_ H].
      now apply Hkeys.
    + assert (length (sm_erase (fst c) strides) < length strides)%nat.
      { apply om_erase_length. unfold sm_find in Hs. rewrite Hs. discriminate. }
      lia.
    + exists (c :: picked). rewrite Hrun, <- app_assoc. simpl.
      split; [reflexivity |]. split; [| split; [| split; [| split]]].
      * intros k. rewrite Hin, sm_mem_erase. split.
        -- intros [<- | H]; [apply sm_mem_find; eauto |].
           now apply andb_true_iff in H as [_ H].
        -- intros H. destruct (String.eqb_spec k (fst c)) as [-> | Hk]; [now left |].
           right. now rewrite H.
      * constructor; [| exact Hnodup].
        rewrite Hin, sm_mem_erase, String.eqb_refl. discriminate.
      * intros k b [E | H]; [| exact (Hflags k b H)].
        exists d. rewrite E in Hname, Hflag. simpl in Hname, Hflag. auto.
      * destruct (snd c) eqn:Eb; simpl.
        -- rewrite Hord, <- Hname. f_equal.
           apply impure_left_erase_pure; assumption.
        -- rewrite (impure_left_erase_first l strides d Hnd (Himp eq_refl)).
           simpl. rewrite Hord, Hname. reflexivity.
      * split.
        -- intros k2 s1 s2 Hk2 H1 H2.
           destruct (Hflags _ _ Hk2) as (d2 & Hd2 & Hn2 & Hp2).
           rewrite Hs in H1. injection H1 as <-.
           apply (Hinside d2 s2 Hd2 Hp2). now rewrite Hn2.
        -- apply (inside_pure_ext _ (sm_erase (fst c) strides)); [| exact Hpure].
           intros k Hk. rewrite sm_find_erase.
           destruct (String.eqb_spec k (fst c)) as [-> | _]; [| reflexivity].
           apply Hin in Hk. rewrite sm_mem_erase, String.eqb_refl in Hk. discriminate.
Qed.


Lemma min_pure_no_dot (strides : smap Z) (l : list Dim) :
  forall acc, has_dot (snd acc) = false ->
              has_dot (snd (fold_left (min_pure_step strides) l acc)) = false.
Proof.
  induction l as [| x l IH]; intros acc Hacc; simpl; [exact Hacc |].
  apply IH. unfold min_pure_step.
  destruct (sm_find (get_base_name (dvar x)) strides) as [s |]; [| exact Hacc].
  destruct (is_pure x && (s <? fst acc)); [apply get_base_name_no_dot | exact Hacc].
Qed.

Lemma min_impure_no_dot (strides : smap Z) (l : list Dim) :
  has_dot (snd (min_impure l strides)) = false.
Proof.
  induction l as [| x l IH]; simpl; [reflexivity |].
  destruct (sm_find (get_base_name (dvar x)) strides) as [s |]; [| exact IH].
  destruct (negb (is_pure x)); [| exact IH].
  destruct (s <? int64_max); [apply get_base_name_no_dot | reflexivity].
Qed.

Lemma curr_min_var_no_dot (l : list Dim) (strides : smap Z) :
  has_dot (fst (curr_min_var l strides)) = false.
Proof.
  unfold curr_min_var.
  pose proof (min_pure_no_dot strides l (int64_max, EmptyString) eq_refl) as Hp.
  pose proof (min_impure_no_dot strides l) as Hi.
  unfold min_pure.
  destruct (fold_left (min_pure_step strides) l (int64_max, EmptyString)) as [mps mpv].
  destruct (min_impure l strides) as [mis miv].
  destruct (mis <? mps); assumption.
Qed.

Lemma reorder_loop_stuck (k : string) (l : list Dim) :
  has_dot k = true ->
  forall fuel strides order,
    sm_mem k strides = true -> reorder_loop fuel l strides order = None.
Proof.
  intros Hk. induction fuel as [| n IH]; intros strides order Hmem.
  - destruct strides; [discriminate | reflexivity].
  - destruct strides as [| kv r] eqn:Es; [discriminate |].
    rewrite <- Es in *. replace (reorder_loop (S n) l strides order)
      with (reorder_loop n l (sm_erase (fst (curr_min_var l strides)) strides)
                         (order ++ [curr_min_var l strides]))
      by (rewrite Es; reflexivity).
    apply IH. rewrite sm_mem_erase, Hmem, andb_true_r.
    apply negb_true_iff, String.eqb_neq. intros E.
    pose proof (curr_min_var_no_dot l strides) as Hc. rewrite <- E in Hc. congruence.
Qed.

Lemma reorder_loop_picks (fuel : nat) (ds : list Dim) (strides : smap Z) :
  (forall d, In d (loop_dims ds) -> has_dot (dvar d) = false) ->
  NoDup (map dvar (loop_dims ds)) ->
  (forall k, sm_mem k strides = true <-> In k (map dvar (loop_dims ds))) ->
  (forall k s, sm_find k strides = Some s -> s < int64_max) ->
  (length strides <= fuel)%nat ->
  forallb (fun d => sm_mem (dvar d) strides) (loop_dims ds) = true
  /\ exists order,
       reorder_loop fuel (loop_dims ds) strides [] = Some order
       /\ NoDup (map fst order)
       /\ (forall k, In k (map fst order) <-> In k (map dvar (loop_dims ds)))
       /\ (forall k b, In (k, b) order ->
                       exists d, In d (loop_dims ds) /\ dvar d = k /\ is_pure d = b)
       /\ map fst (filter (fun c => negb (snd c)) order)
          = map dvar (filter (fun d => negb (is_pure d)) (loop_dims ds))
       /\ inside_pure strides order.
Proof.
  intros Hdot Hnd Hkeys Hmax Hfuel.
  assert (Hbase : forall d, In d (loop_dims ds) -> get_base_name (dvar d) = dvar d).
  { intros d Hd. apply get_base_name_id, Hdot, Hd. }
  assert (Hmap : map (fun d => get_base_name (dvar d)) (loop_dims ds)
                 = map dvar (loop_dims ds)).
  { apply map_ext_in. exact Hbase. }
  split.
  { apply forallb_forall. intros d Hd. apply Hkeys. now apply in_map. }
  assert (Hnd' : NoDup (map (fun d => get_base_name (dvar d)) (loop_dims ds)))
    by now rewrite Hmap.
  destruct (reorder_loop_spec (loop_dims ds) Hnd' fuel strides [] Hmax)
    as (picked & Hrun & Hin & Hnodup & Hflags & Hord & Hins).
  { intros k Hk. apply Hkeys, in_map_iff in Hk as (d & Hd & Hdin).
    exists d. split; [exact Hdin |]. now rewrite Hbase. }
  { exact Hfuel. }
  exists picked. split; [exact Hrun |]. split; [exact Hnodup |].
  split; [| split; [| split]].
  - intros k. rewrite Hin. apply Hkeys.
  - intros k b Hkb. destruct (Hflags k b Hkb) as (d & Hd & Hn & Hp).
    exists d. rewrite (Hbase d Hd) in Hn. auto.
  - rewrite Hord.
    rewrite (filter_ext_in (impure_left strides) (fun d => negb (is_pure d))).
    + apply map_ext_in. intros d Hd. apply filter_In in Hd as [Hd _]. now apply Hbase.
    + intros d Hd. unfold impure_left. rewrite (Hbase d Hd).
      rewrite (proj2 (Hkeys (dvar d)) (in_map dvar _ _ Hd)). apply andb_true_r.
  - exact Hins.
Qed.

(** What [reorder_dims] does with the order its loop has found. *)
Lemma reorder_dims_of_loop (fuel : nat) (f_handle : string) (ds : list Dim)
      (strides : smap Z) (sched : string) (order : list (string * bool)) :
  forallb (fun d => sm_mem (dvar d) strides) (loop_dims ds) = true ->
  reorder_loop fuel (loop_dims ds) strides [] = Some order ->
  loop_dims ds <> [] ->
  (forall k, In k (map fst order) <-> In k (map dvar (loop_dims ds))) ->
  exists var_order,
    reorder_dims fuel f_handle ds strides sched
    = Some (order,
            (sched ++ f_handle ++ ".reorder(" ++ var_order ++ ");" ++ newline)%string)
    /\ var_order_of (map fst order) = Some var_order.
Proof.
  intros Hassert Hrun Hne Hin. unfold reorder_dims. rewrite Hassert. simpl.
  rewrite Hrun. simpl.
  destruct order as [| c order'] eqn:Eo.
  { exfalso. destruct (loop_dims ds) as [| d0 r0] eqn:El; [congruence |].
    assert (H0 : In (dvar d0) (map fst (@nil (string * bool)))).
    { apply Hin. now left. }
    exact H0. }
  simpl. eexists. split; reflexivity.
Qed.

(** X20.  For a stage whose loop dimensions have distinct names without a
    ['.'] and strides, all below [INT64_MAX], for exactly these names,
    [reorder_dims] returns once the loop has run as many rounds as there
    are strides.  The ordering it gives to [reorder] is a permutation of
    the loop dimensions, each with the flag [is_pure] of its dimension; the
    reduction dimensions keep the order they have in the stage; and
    whatever is placed before (inside) a pure dimension has a stride that
    is no larger, a smaller one if it is a reduction dimension. *)
Theorem reorder_dims_order (fuel : nat) (f_handle : string) (ds : list Dim)
        (strides : smap Z) (sched : string) :
  loop_dims ds <> [] ->
  (forall d, In d (loop_dims ds) -> has_dot (dvar d) = false) ->
  NoDup (map dvar (loop_dims ds)) ->
  (forall k, sm_mem k strides = true <-> In k (map dvar (loop_dims ds))) ->
  (forall k s, sm_find k strides = Some s -> s < int64_max) ->
  (length strides <= fuel)%nat ->
  exists order var_order,
    reorder_dims fuel f_handle ds strides sched
    = Some (order,
            (sched ++ f_handle ++ ".reorder(" ++ var_order ++ ");" ++ newline)%string)
    /\ var_order_of (map fst order) = Some var_order
    /\ Permutation (map fst order) (map dvar (loop_dims ds))
    /\ (forall k b, In (k, b) order ->
                    exists d, In d (loop_dims ds) /\ dvar d = k /\ is_pure d = b)
    /\ map fst (filter (fun c => negb (snd c)) order)
       = map dvar (filter (fun d => negb (is_pure d)) (loop_dims ds))
    /\ (forall l1 c l2 k2 l3 s1 s2,
           order = l1 ++ c :: l2 ++ (k2, true) :: l3 ->
           sm_find (fst c) strides = Some s1 -> sm_find k2 strides = Some s2 ->
           s1 <= s2 /\ (snd c = false -> s1 < s2)).
Proof.
  intros Hne Hdot Hnd Hkeys Hmax Hfuel.
  destruct (reorder_loop_picks fuel ds strides Hdot Hnd Hkeys Hmax Hfuel)
    as (Hassert & order & Hrun & Hnodup & Hin & Hflags & Hord & Hins).
  destruct (reorder_dims_of_loop fuel f_handle ds strides sched order
                                 Hassert Hrun Hne Hin) as (vo & Hres & Hvo).
  exists order, vo. split; [exact Hres |]. split; [exact Hvo |].
  split; [| split; [| split]].
  - apply NoDup_Permutation; [exact Hnodup | exact Hnd | exact Hin].
  - exact Hflags.
  - exact Hord.
  - exact (inside_pure_split strides order Hins).
Qed.

(** X21.  [reorder_dims] gives no result in two cases.  With no stride at
    all (a stage that has no loop dimension) the loop adds nothing and the
    first element of an empty ordering is read.  With a stride for a loop
    dimension whose name holds a ['.'], the loop never picks that name, as
    it compares base names, so its key stays among the strides and the loop
    does not end, however many rounds it runs. *)
Theorem reorder_dims_no_result (f_handle : string) (ds : list Dim)
        (strides : smap Z) (sched : string) :
  (strides = [] ->
   forall fuel, reorder_dims fuel f_handle ds strides sched = None)
  /\ (forall d,
         In d (loop_dims ds) -> has_dot (dvar d) = true ->
         sm_mem (dvar d) strides = true ->
         forall fuel,
           reorder_loop fuel (loop_dims ds) strides [] = None
           /\ reorder_dims fuel f_handle ds strides sched = None).
Proof.
  split.
  - intros -> fuel. unfold reorder_dims.
    destruct (assert _); simpl; [| reflexivity].
    destruct fuel; reflexivity.
  - intros d Hd Hdot Hmem fuel.
    pose proof (reorder_loop_stuck (dvar d) (loop_dims ds) Hdot fuel strides [] Hmem) as H.
    split; [exact H |]. unfold reorder_dims. rewrite H.
    destruct (assert _); reflexivity.
Qed.

(** ** The reordering step of [generate_group_cpu_schedule]

    [strides = analyze_spatial_locality(stage, ...)] followed by
    [reorder_dims(f_handle, def, strides, sched)], for the output stage of a
    group and for each of its members. *)
Section SpatialReordering.
Variable env : smap Function.
Variable pipeline_bounds : smap Box.
Variable get_extent : Interval -> Z.
Variable expr_uses_vars : Expr -> list string -> bool.
Variable type_bytes : HType -> Z.
Variable expr_type : Expr -> HType.
Variable storage_dims_size : Function -> nat.
Variable costs_inputs : smap HType.
Variable perform_inline : Expr -> sset -> Expr.
Variable find_all_calls : StageDef -> list (string * list Expr).
Variable find_vars_using_var : string -> StageDef -> list string.

(** X24.  The strides that [analyze_spatial_locality] computes for a stage
    are accepted by [reorder_dims]: if the stage has a loop dimension and
    its loop dimensions have distinct names without a ['.'], the loop of
    [reorder_dims] ends after as many rounds as there are strides and the
    stage is reordered by a permutation of its loop dimensions. *)
Theorem spatial_reordering_returns (f_handle : string) (stg : FStage)
        (allocation_bounds : smap Box) (inlines : sset) (sched : string)
        (strides : smap Z) :
  analyze_spatial_locality env pipeline_bounds get_extent expr_uses_vars
                           type_bytes expr_type storage_dims_size costs_inputs
                           perform_inline find_all_calls find_vars_using_var
                           stg allocation_bounds inlines = Some strides ->
  stage_loop_dims (func stg) (stage_num stg) <> [] ->
  (forall d, In d (stage_loop_dims (func stg) (stage_num stg)) ->
             has_dot (dvar d) = false) ->
  NoDup (map dvar (stage_loop_dims (func stg) (stage_num stg))) ->
  forall fuel, (length strides <= fuel)%nat ->
    exists order sched',
      reorder_dims fuel f_handle
                   (dims (schedule (get_stage_definition (func stg) (stage_num stg))))
                   strides sched
      = Some (order, sched')
      /\ Permutation (map fst order)
                     (map dvar (stage_loop_dims (func stg) (stage_num stg))).
Proof.
  intros Hs Hne Hdot Hnd fuel Hfuel.
  destruct (analyze_spatial_locality_fold
              env pipeline_bounds get_extent
              expr_uses_vars type_bytes expr_type storage_dims_size costs_inputs
              perform_inline find_all_calls find_vars_using_var
              stg allocation_bounds inlines strides Hs) as (_ & def & calls & Hfold).
  apply strides_fold in Hfold as [Hkeys Hint].
  assert (Hkeys' : forall k, sm_mem k strides = true
                             <-> In k (map dvar (stage_loop_dims (func stg)
                                                                 (stage_num stg)))).
  { intros k. rewrite Hkeys. split; [| intros H; left; exact H].
    intros [Hin | Hacc]; [exact Hin | discriminate]. }
  assert (Hmax : forall k s, sm_find k strides = Some s -> s < int64_max).
  { intros k s Hk. apply int_range_below_max.
    apply (fun H => Hint H k s Hk). intros k' s'. discriminate. }
  destruct (reorder_loop_picks
              fuel (dims (schedule (get_stage_definition (func stg) (stage_num stg))))
              strides Hdot Hnd Hkeys' Hmax Hfuel)
    as (Hassert & order & Hrun & Hnodup & Hin & _).
  destruct (reorder_dims_of_loop
              fuel f_handle
              (dims (schedule (get_stage_definition (func stg) (stage_num stg))))
              strides sched order Hassert Hrun Hne Hin) as (vo & Hres & _).
  exists order. eexists. split; [exact Hres |].
  apply NoDup_Permutation; [exact Hnodup | exact Hnd | exact Hin].
Qed.
End SpatialReordering.




(** ** [validate_no_partial_schedules] and [generate_schedules] *)

Definition is_serial (d : Dim) : bool :=
  match for_type d with Serial => true | _ => false end.

Fixpoint forallb2 {A B} (f : A -> B -> bool) (l1 : list A) (l2 : list B) : bool :=
  match l1, l2 with
  | a :: r1, b :: r2 => f a b && forallb2 f r1 r2
  | _, _ => true
  end.

(** Stage 0: no specialization, and the loop variables are the arguments of
    the definition, in order. *)
Definition validate_pure_def (def : StageDef) : bool :=
  let ds := dims (schedule def) in
  match specializations def, ds with
  | [], _ :: _ =>
      Nat.eqb (length ds - 1) (length (def_args def))
      && forallb2 (fun arg d =>
                     match as_Variable arg with
                     | Some n => String.eqb n (dvar d)
                     | None => false
                     end)
                  (def_args def) ds
  | _, _ => false
  end.

(** [std::find_if] over the arguments of the pure definition. *)
Fixpoint find_arg_index (a : list Expr) (var : string) (i : nat) : option nat :=
  match a with
  | [] => None
  | arg :: r =>
      match as_Variable arg with
      | Some n => if String.eqb var n then Some i else find_arg_index r var (S i)
      | None => find_arg_index r var (S i)
      end
  end.

(** The loop over the pure dimensions of an update definition. *)
Fixpoint check_pure_order (a : list Expr) (ds : list Dim) (last_index : Z) : bool :=
  match ds with
  | [] => true
  | d :: r =>
      if is_rvar d then false
      else
        match find_arg_index a (dvar d) 0 with
        | None => false
        | Some current_index =>
            if Z.of_nat current_index >? last_index
            then check_pure_order a r (Z.of_nat current_index)
            else false
        end
  end.

(** Stages above 0: the rvars first and in the order of the rvar list, then
    pure variables in the order of the arguments of the function. *)
Definition validate_update_def (f : Function) (def : StageDef) : bool :=
  let ds := dims (schedule def) in
  let rv := rvars (schedule def) in
  let a := def_args (definition f) in
  match ds with
  | [] => false
  | _ :: _ =>
      Nat.leb (length rv) (length ds - 1)
      && forallb2 (fun d r => is_rvar d && String.eqb (dvar d) r) ds rv
      && Nat.leb (length ds - length rv - 1) (length a)
      && check_pure_order a (skipn (length rv) (loop_dims ds)) (-1)
  end.

Definition validate_stage (f : Function) (stage : nat) : bool :=
  let def := get_stage_definition f stage in
  let sch := schedule def in
  match splits sch, bounds sch with
  | [], [] =>
      forallb is_serial (dims sch)
      && (if has_extern_definition f then true
          else match stage with
               | O => validate_pure_def def
               | S _ => validate_update_def f def
               end)
  | _, _ => false
  end.

(** [true] when no assertion of [validate_no_partial_schedules] fails. *)
Definition validate_no_partial_schedules (f : Function) : bool :=
  forallb (validate_stage f) (seq 0 (S (length (updates f)))).

(** *** What [validate_no_partial_schedules] accepts *)

(** Pure dimensions that follow the order of the arguments: each is found
    among the arguments, after the place of the one before. *)
Fixpoint in_arg_order (a : list Expr) (ds : list Dim) (from : nat) : Prop :=
  match ds with
  | [] => True
  | d :: r =>
      is_rvar d = false
      /\ exists i, (from <= i)%nat /\ nth_error a i = Some (Var (dvar d))
                   /\ in_arg_order a r (S i)
  end.

Lemma forallb2_args (a : list Expr) :
  forall ds,
    (length a <= length ds)%nat ->
    forallb2 (fun arg d =>
                match as_Variable arg with
                | Some n => String.eqb n (dvar d)
                | None => false
                end) a ds = true ->
    a = map (fun d => Var (dvar d)) (firstn (length a) ds).
Proof.
  induction a as [| x a IH]; intros ds Hlen H; simpl; [reflexivity |].
  destruct ds as [| d ds]; simpl in *; [lia |].
  apply andb_true_iff in H as [Hx Hr].
  destruct x; simpl in Hx; try discriminate.
  apply String.eqb_eq in Hx. subst. f_equal. apply IH; [lia | exact Hr].
Qed.

Lemma forallb2_rvars (rv : list string) :
  forall ds,
    (length rv <= length ds)%nat ->
    forallb2 (fun d r => is_rvar d && String.eqb (dvar d) r) ds rv = true ->
    map dvar (firstn (length rv) ds) = rv
    /\ forall d, In d (firstn (length rv) ds) -> is_rvar d = true.
Proof.
  induction rv as [| r rv IH]; intros ds Hlen H; simpl.
  - split; [reflexivity | intros d []].
  - destruct ds as [| d ds]; simpl in *; [lia |].
    apply andb_true_iff in H as [Hd Hr]. apply andb_true_iff in Hd as [Hrv Hn].
    apply String.eqb_eq in Hn. destruct (IH ds ltac:(lia) Hr) as [Hm Hall].
    split; [now rewrite Hn, Hm |].
    intros d' [<- | Hin]; [exact Hrv | now apply Hall].
Qed.

Lemma find_arg_index_found (a : list Expr) (var : string) :
  forall i0 i, find_arg_index a var i0 = Some i ->
               (i0 <= i)%nat /\ nth_error a (i - i0) = Some (Var var).
Proof.
  induction a as [| x a IH]; intros i0 i; simpl; [discriminate |].
  assert (Hnext : find_arg_index a var (S i0) = Some i ->
                  (i0 <= i)%nat /\ nth_error (x :: a) (i - i0) = Some (Var var)).
  { intros H. destruct (IH _ _ H) as [Hle Hn]. split; [lia |].
    replace (i - i0)%nat with (S (i - S i0)) by lia. exact Hn. }
  destruct x; simpl; try exact Hnext.
  destruct (String.eqb_spec var name0) as [-> | Hne]; [| exact Hnext].
  intros [= <-]. rewrite Nat.sub_diag. split; [lia | reflexivity].
Qed.

Lemma check_pure_order_sound (a : list Expr) (l : list Dim) :
  forall from, check_pure_order a l (Z.of_nat from - 1) = true -> in_arg_order a l from.
Proof.
  induction l as [| d l IH]; intros from; simpl; [auto |].
  destruct (is_rvar d); [discriminate |].
  destruct (find_arg_index a (dvar d) 0) as [ci |] eqn:Ei; [| discriminate].
  destruct (Z.gtb_spec (Z.of_nat ci) (Z.of_nat from - 1)) as [Hgt | _]; [| discriminate].
  intros H. split; [reflexivity |]. exists ci.
  destruct (find_arg_index_found _ _ _ _ Ei) as [_ Hn]. rewrite Nat.sub_0_r in Hn.
  split; [lia |]. split; [exact Hn |].
  apply IH. replace (Z.of_nat (S ci) - 1) with (Z.of_nat ci) by lia. exact H.
Qed.

(** X25.  A function that [validate_no_partial_schedules] accepts has, at
    every stage, no split, no bound and only serial dimensions.  If it is
    not an extern function, its pure definition has no specialization and
    its loop dimensions are the arguments of the definition, in their
    order; and in every update definition the reduction variables of the
    schedule come first, in the order of the rvar list, followed by pure
    dimensions that are arguments of the function in increasing
    position. *)
Theorem validate_no_partial_schedules_sound (f : Function) :
  validate_no_partial_schedules f = true ->
  (forall stage,
      (stage <= length (updates f))%nat ->
      splits (schedule (get_stage_definition f stage)) = []
      /\ bounds (schedule (get_stage_definition f stage)) = []
      /\ forall d, In d (dims (schedule (get_stage_definition f stage))) ->
                   for_type d = Serial)
  /\ (has_extern_definition f = false ->
      specializations (definition f) = []
      /\ def_args (definition f)
         = map (fun d => Var (dvar d)) (loop_dims (dims (schedule (definition f))))
      /\ forall u def,
           nth_error (updates f) u = Some def ->
           (length (rvars (schedule def)) < length (dims (schedule def)))%nat
           /\ map dvar (firstn (length (rvars (schedule def))) (dims (schedule def)))
              = rvars (schedule def)
           /\ (forall d, In d (firstn (length (rvars (schedule def)))
                                      (dims (schedule def))) ->
                         is_rvar d = true)
           /\ in_arg_order (def_args (definition f))
                           (skipn (length (rvars (schedule def)))
                                  (loop_dims (dims (schedule def)))) 0).
Proof.
  unfold validate_no_partial_schedules. intros H.
  assert (Hstage : forall stage, (stage <= length (updates f))%nat ->
                                 validate_stage f stage = true).
  { intros stage Hs. rewrite forallb_forall in H. apply H, in_seq. lia. }
  clear H. split.
  - intros stage Hs. specialize (Hstage stage Hs). unfold validate_stage in Hstage.
    destruct (splits _); [| discriminate]. destruct (bounds _); [| discriminate].
    apply andb_true_iff in Hstage as [Hser _].
    repeat split. intros d Hd. rewrite forallb_forall in Hser.
    specialize (Hser d Hd). unfold is_serial in Hser.
    destruct (for_type d); (reflexivity || discriminate).
  - intros Hext. split; [| split].
    + specialize (Hstage 0%nat ltac:(lia)). unfold validate_stage in Hstage.
      destruct (splits _); [| discriminate]. destruct (bounds _); [| discriminate].
      apply andb_true_iff in Hstage as [_ Hp]. rewrite Hext in Hp.
      simpl in Hp. unfold validate_pure_def in Hp.
      destruct (specializations (definition f)); [reflexivity | discriminate].
    + specialize (Hstage 0%nat ltac:(lia)). unfold validate_stage in Hstage.
      destruct (splits _); [| discriminate]. destruct (bounds _); [| discriminate].
      apply andb_true_iff in Hstage as [_ Hp]. rewrite Hext in Hp.
      simpl in Hp. unfold validate_pure_def in Hp.
      destruct (specializations (definition f)); [| discriminate].
      destruct (dims (schedule (definition f))) as [| d0 ds0] eqn:Ed; [discriminate |].
      apply andb_true_iff in Hp as [Hlen Hargs]. apply Nat.eqb_eq in Hlen.
      assert (Hle : (length (def_args (definition f)) <= length (d0 :: ds0))%nat)
        by (simpl in *; lia).
      rewrite (forallb2_args _ _ Hle Hargs) at 1.
      unfold loop_dims. rewrite removelast_firstn_len.
      replace (pred (length (d0 :: ds0))) with (length (def_args (definition f)))
        by (simpl in *; lia).
      reflexivity.
    + intros u def Hu.
      assert (Hlt : (u < length (updates f))%nat) by (apply nth_error_Some; congruence).
      specialize (Hstage (S u) ltac:(lia)). unfold validate_stage in Hstage.
      assert (Hdef : get_stage_definition f (S u) = def).
      { simpl. now apply nth_error_nth. }
      rewrite Hdef in Hstage.
      destruct (splits _); [| discriminate]. destruct (bounds _); [| discriminate].
      apply andb_true_iff in Hstage as [_ Hp]. rewrite Hext in Hp.
      unfold validate_update_def in Hp.
      destruct (dims (schedule def)) as [| d0 ds0] eqn:Ed; [discriminate |].
      rewrite <- Ed in *.
      apply andb_true_iff in Hp as [Hp Hord]. apply andb_true_iff in Hp as [Hp _].
      apply andb_true_iff in Hp as [Hlen Hrv]. apply Nat.leb_le in Hlen.
      assert (Hpos : (0 < length (dims (schedule def)))%nat) by (rewrite Ed; simpl; lia).
      assert (Hle : (length (rvars (schedule def)) <= length (dims (schedule def)))%nat)
        by lia.
      destruct (forallb2_rvars _ _ Hle Hrv) as [Hm Hall].
      split; [lia |]. split; [exact Hm |]. split; [exact Hall |].
      apply (check_pure_order_sound _ _ 0%nat). exact Hord.
Qed.


(** What a run of [generate_schedules] leaves behind: the transcript, the
    environment with its schedules, the user warnings, and whether the
    partitioner was run. *)
Record ScheduleRun : Type := mkScheduleRun {
  run_sched : string;
  run_env : smap Function;
  run_warnings : list string;
  run_partitioned : bool
}.

Definition estimates_warning : string :=
  ("Please provide estimates for each dimension of the pipeline output functions."
     ++ newline)%string.

Section GenerateSchedules.
(** FindCalls.h and RealizationOrder.h. *)
Variable find_transitive_calls : Function -> smap Function.
Variable FuncValueBounds : Type.
Variable realization_order : list Function -> smap Function -> list string.
Variable compute_function_value_bounds : list string -> smap Function -> FuncValueBounds.
(** The rest of [generate_schedules] once the estimates are there (lines
    2667-2721): bounds, costs, the two grouping passes and
    [generate_cpu_schedule]; it answers the transcript, the scheduled
    environment and the warnings, or aborts. *)
Variable partition_and_schedule :
  list Function -> smap Function -> FuncValueBounds ->
  option (string * smap Function * list string).

Definition build_env (outputs : list Function) : smap Function :=
  fold_left
    (fun env f =>
       fold_left (fun env kv => sm_emplace (fst kv) (snd kv) env)
                 (find_transitive_calls f) env)
    outputs [].

Definition generate_schedules (outputs : list Function) : option ScheduleRun :=
  let env := build_env outputs in
  _ <- assert (forallb (fun kv => validate_no_partial_schedules (snd kv)) env) ;;
  let order := realization_order outputs env in
  let func_val_bounds := compute_function_value_bounds order env in
  let estimates_avail := check_estimates_on_outputs outputs in
  if negb estimates_avail
  then Some (mkScheduleRun EmptyString (set_schedule_defaults env)
                           [estimates_warning] false)
  else
    r <- partition_and_schedule outputs env func_val_bounds ;;
    Some (mkScheduleRun (fst (fst r)) (snd (fst r)) (snd r) true).

(** The fallback: the warning, every stage at root, the empty
    transcript, no partitioner run. *)
Definition fallback_run (outputs : list Function) : ScheduleRun :=
  mkScheduleRun EmptyString (set_schedule_defaults (build_env outputs))
                [estimates_warning] false.

Definition validated (outputs : list Function) : Prop :=
  forallb (fun kv => validate_no_partial_schedules (snd kv)) (build_env outputs) = true.

(** An estimate the check accepts: it names an argument and both its
    [min] and [extent] are integer literals. *)
Definition estimate_accepted (out : Function) (e : Bound) : Prop :=
  In (bvar e) (args out)
  /\ (exists m, bmin e = IntImm m) /\ (exists x, bextent e = IntImm x).

Lemma estimate_rejected_false (out : Function) (e : Bound) :
  estimate_rejected (args out) e = false <-> estimate_accepted out e.
Proof.
  unfold estimate_rejected, estimate_accepted. rewrite orb_false_iff, !negb_false_iff.
  rewrite andb_true_iff. split.
  - intros [Hv [Hm Hx]]. split.
    + apply existsb_exists in Hv as (x & Hin & Hx'). apply String.eqb_eq in Hx'. now subst.
    + split.
      * destruct (bmin e); try discriminate. now eexists.
      * destruct (bextent e); try discriminate. now eexists.
  - intros [Hv [[m Hm] [x Hx]]]. split.
    + apply existsb_exists. exists (bvar e). split; [exact Hv | apply String.eqb_refl].
    + rewrite Hm, Hx. auto.
Qed.

Lemma check_estimates_inner_spec (vars : list string) (ests : list Bound) (flag : bool) :
  check_estimates_inner vars ests flag
  = flag && forallb (fun e => negb (estimate_rejected vars e)) ests.
Proof.
  induction ests as [| e r IH]; simpl.
  - now rewrite andb_true_r.
  - destruct (estimate_rejected vars e); simpl.
    + now rewrite andb_false_r.
    + exact IH.
Qed.

Definition output_accepted (out : Function) : bool :=
  Nat.eqb (length (estimates (schedule (definition out)))) (length (args out))
  && forallb (fun e => negb (estimate_rejected (args out) e))
             (estimates (schedule (definition out))).

Lemma check_estimates_outer_spec (outputs : list Function) (flag : bool) :
  check_estimates_outer outputs flag = flag && forallb output_accepted outputs.
Proof.
  revert flag. induction outputs as [| out rest IH]; intros flag; simpl.
  - now rewrite andb_true_r.
  - unfold output_accepted at 1.
    destruct (Nat.eqb _ _); simpl.
    + rewrite IH, check_estimates_inner_spec. now rewrite andb_assoc.
    + now rewrite andb_false_r.
Qed.

Definition pure_schedule (vars : list string) (ests : list Bound) : Schedule :=
  mkSchedule [] [] ests
             (map (fun v => mkDim v Serial PureVar) vars
                  ++ [mkDim "__outermost" Serial PureVar])
             [] LLInlined LLInlined.

(** A pure function [n(vars) = value] with the given estimates. *)
Definition pure_function (n : string) (vars : list string) (ests : list Bound)
           (value : Expr) : Function :=
  mkFunction n vars (mkStageDef [value] (map Var vars) (pure_schedule vars ests) [])
             [] [mkHType TInt 32 1] false [].

(** Every pure argument of an output is named by an estimate. *)
Definition every_argument_estimated (out : Function) : Prop :=
  forall arg, In arg (args out) ->
              exists e, In e (estimates (schedule (definition out))) /\ bvar e = arg.

(** C9, on the code.  [check_estimates_on_outputs] answers [true] exactly
    when every output has as many estimates as pure arguments and each
    estimate names an argument of the function and has integer literals
    for [min] and [extent].  So an estimate that is symbolic or names no
    argument sends [generate_schedules] down the path of a missing
    estimate: the warning, every stage of every function at root, the
    empty transcript, and no run of the partitioner.  But the estimates
    are counted, not matched to the arguments: an output [f(x, y)] with
    two literal estimates on [x] is accepted although no estimate names
    [y], so [true] does not mean one estimate per pure argument. *)
Theorem check_estimates_on_outputs_spec (outputs : list Function) :
  (check_estimates_on_outputs outputs = true <->
   forall out, In out outputs ->
     length (estimates (schedule (definition out))) = length (args out)
     /\ forall e, In e (estimates (schedule (definition out))) ->
                  estimate_accepted out e)
  /\ (forall out e,
        In out outputs -> In e (estimates (schedule (definition out))) ->
        ~ estimate_accepted out e ->
        validated outputs ->
        generate_schedules outputs = Some (fallback_run outputs))
  /\ (run_sched (fallback_run outputs) = EmptyString
      /\ run_warnings (fallback_run outputs) = [estimates_warning]
      /\ run_partitioned (fallback_run outputs) = false
      /\ forall n f, In (n, f) (run_env (fallback_run outputs)) -> all_stages_at_root f)
  /\ (forall n x y a b c d value,
        x <> y ->
        check_estimates_on_outputs
          [pure_function n [x; y]
                         [mkBound x (IntImm a) (IntImm b); mkBound x (IntImm c) (IntImm d)]
                         value] = true
        /\ ~ every_argument_estimated
               (pure_function n [x; y]
                              [mkBound x (IntImm a) (IntImm b);
                               mkBound x (IntImm c) (IntImm d)]
                              value)).
Proof.
  assert (Hiff : check_estimates_on_outputs outputs = true <->
                 forall out, In out outputs ->
                   length (estimates (schedule (definition out))) = length (args out)
                   /\ forall e, In e (estimates (schedule (definition out))) ->
                                estimate_accepted out e).
  { unfold check_estimates_on_outputs. rewrite check_estimates_outer_spec. simpl.
    rewrite forallb_forall. split.
    - intros H out Hin. specialize (H out Hin). unfold output_accepted in H.
      apply andb_true_iff in H as [Hlen Hall]. apply Nat.eqb_eq in Hlen.
      split; [exact Hlen |]. intros e He.
      rewrite forallb_forall in Hall. specialize (Hall e He).
      apply negb_true_iff in Hall. now apply estimate_rejected_false.
    - intros H out Hin. destruct (H out Hin) as [Hlen Hall].
      unfold output_accepted. apply andb_true_iff. split; [now apply Nat.eqb_eq |].
      apply forallb_forall. intros e He. apply negb_true_iff.
      apply estimate_rejected_false. now apply Hall. }
  split; [exact Hiff |]. split.
  - intros out e Hout He Hbad Hval. unfold generate_schedules, fallback_run.
    unfold validated in Hval. rewrite Hval. simpl.
    destruct (check_estimates_on_outputs outputs); [| reflexivity].
    exfalso. apply Hbad. now apply (proj1 Hiff eq_refl out Hout).
  - split.
    + split; [reflexivity |]. split; [reflexivity |]. split; [reflexivity |].
      intros n f. unfold fallback_run. simpl. apply set_schedule_defaults_root.
    + intros n x y a b c d value Hxy. split.
      * unfold check_estimates_on_outputs. rewrite check_estimates_outer_spec.
        simpl. unfold output_accepted, estimate_rejected. simpl.
        rewrite String.eqb_refl. reflexivity.
      * intros H. destruct (H y) as (e & He & Hy); [right; left; reflexivity |].
        simpl in He. destruct He as [<- | [<- | []]]; simpl in Hy; congruence.
Qed.

(** *** Estimates are counted, not matched to the dimensions *)

(** [f(x, y)] after [f.estimate(x, 0, 100).estimate(x, 0, 200)]: no
    estimate on [y]. *)
Definition twice_estimated_x : Function :=
  pure_function "f" ["x"; "y"]
                [mkBound "x" (IntImm 0) (IntImm 100); mkBound "x" (IntImm 0) (IntImm 200)]
                (Opaque 0).

(** [g(x)] after [g.estimate(x, 0, 100).estimate(x, 0, 200)]: its one
    dimension has an estimate. *)
Definition re_estimated_x : Function :=
  pure_function "g" ["x"]
                [mkBound "x" (IntImm 0) (IntImm 100); mkBound "x" (IntImm 0) (IntImm 200)]
                (Opaque 0).

(** Whether a dimension of an output has an estimate, as
    [get_pipeline_bounds] finds it: by the name of the dimension. *)
Definition has_estimate (out : Function) (arg : string) : bool :=
  is_some (most_recent_estimate (estimates (schedule (definition out))) arg).

(** C2, on the code: the output [f(x, y)] with two estimates on [x] has
    no estimate on [y] (the bounds of the pipeline are computed with [y]
    unbounded), yet [check_estimates_on_outputs] accepts it and
    [generate_schedules] does not take the fallback; and the output
    [g(x)], estimated twice on its only dimension, is sent to the
    fallback although no dimension lacks an estimate. *)
Theorem estimates_counted_not_matched :
  has_estimate twice_estimated_x "y" = false
  /\ (forall simplify : Expr -> Expr,
        sm_find "y" (fst (output_bounds simplify twice_estimated_x))
        = Some Interval_everything)
  /\ check_estimates_on_outputs [twice_estimated_x] = true
  /\ generate_schedules [twice_estimated_x] <> Some (fallback_run [twice_estimated_x])
  /\ forallb (has_estimate re_estimated_x) (args re_estimated_x) = true
  /\ check_estimates_on_outputs [re_estimated_x] = false
  /\ (validated [re_estimated_x] ->
      generate_schedules [re_estimated_x] = Some (fallback_run [re_estimated_x])).
Proof.
  split; [reflexivity |]. split; [reflexivity |]. split; [reflexivity |].
  split; [| split; [reflexivity | split; [reflexivity |]]].
  - unfold generate_schedules.
    destruct (assert _); [| discriminate].
    replace (check_estimates_on_outputs [twice_estimated_x]) with true by reflexivity.
    simpl. destruct (partition_and_schedule _ _ _); [| discriminate].
    unfold fallback_run. intros H. discriminate H.
  - intros Hval. unfold generate_schedules, fallback_run.
    unfold validated in Hval. rewrite Hval. reflexivity.
Qed.
End GenerateSchedules.

(** * A worked pipeline

    [f(x, y)] is pure; [out(x) = 0; out(x) += f(x, r)] for [r] in
    [0, 8); [out] is the output, estimated over [0, 256).  The oracles are
    small executable stand-ins for the bounds engine and the region
    costs. *)

Module Example.
Definition x_range : Interval := mkInterval (IntImm 0) (IntImm 255).
Definition r_range : Interval := mkInterval (IntImm 0) (IntImm 7).

Definition outermost : Dim := mkDim "__outermost" Serial PureVar.

Definition f : Function :=
  mkFunction "f" ["x"; "y"]
             (mkStageDef [Opaque 0] [Var "x"; Var "y"]
                         (mkSchedule [] [] []
                                     [mkDim "x" Serial PureVar; mkDim "y" Serial PureVar;
                                      outermost]
                                     [] LLInlined LLInlined)
                         [])
             [] [mkHType TInt 32 1] false [].

Definition out : Function :=
  mkFunction "out" ["x"]
             (mkStageDef [IntImm 0] [Var "x"]
                         (mkSchedule [] [] [mkBound "x" (IntImm 0) (IntImm 256)]
                                     [mkDim "x" Serial PureVar; outermost]
                                     [] LLInlined LLInlined)
                         [])
             [mkStageDef [Opaque 1] [Var "x"]
                         (mkSchedule [] [] []
                                     [mkDim "r" Serial PureRVar; mkDim "x" Serial PureVar;
                                      outermost]
                                     ["r"] LLInlined LLInlined)
                         []]
             [mkHType TInt 32 1] false [].

Definition env : smap Function := [("f", f); ("out", out)].
Definition pipeline_bounds : smap Box := [("f", [x_range; r_range]); ("out", [x_range])].
Definition outputs : list Function := [out].
Definition arch_parallelism : Z := 4.
Definition unknown : Z := int64_min.

Definition get_parents (fn : Function) (stage : nat) : sset :=
  if String.eqb (name fn) "out" && Nat.eqb stage 1 then ["f"; "out"] else [].

(** The bounds of a stage: the pure bounds, and [r_range] for each rvar. *)
Definition get_stage_bounds (fn : Function) (stage : nat) (b : DimBounds) : DimBounds :=
  fold_left (fun acc d => if is_rvar d then sm_put (dvar d) r_range acc else acc)
            (stage_loop_dims fn stage) b.

Definition get_extent (i : Interval) : Z :=
  match imin i, imax i with
  | IntImm lo, IntImm hi => hi - lo + 1
  | _, _ => unknown
  end.

Definition box_size (b : Box) : Z :=
  fold_left (fun acc i =>
               if (acc =? unknown) || (get_extent i =? unknown) then unknown
               else acc * get_extent i)
            b 1.

Definition combine_load_costs (result partial : smap Z) : smap Z :=
  fold_left (fun acc kv =>
               match sm_find (fst kv) acc with
               | Some v => sm_put (fst kv) (v + snd kv) acc
               | None => sm_put (fst kv) (snd kv) acc
               end)
            partial result.

Definition can_parallelize_rvar (var fname : string) (def : StageDef) : bool :=
  negb (existsb (String.eqb var) (rvars (schedule def))).

Definition Function_is_pure (fn : Function) : bool :=
  match updates fn with [] => negb (has_extern_definition fn) | _ => false end.

Definition bound_of (v : string) (b : DimBounds) : Interval :=
  match sm_find v b with Some i => i | None => Interval_everything end.

(** The bounds engine of the worked pipeline.  [simplify] folds the sums
    and differences of literals. *)
Fixpoint simplify (e : Expr) : Expr :=
  match e with
  | Add a b =>
      match simplify a, simplify b with
      | IntImm p, IntImm q => IntImm (p + q)
      | a', b' => Add a' b'
      end
  | Sub a b =>
      match simplify a, simplify b with
      | IntImm p, IntImm q => IntImm (p - q)
      | a', b' => Sub a' b'
      end
  | _ => e
  end.

Definition substitute_var_estimates (e : Expr) : Expr := e.

Definition make_intersection (a b : Interval) : Interval :=
  mkInterval
    (match imin a, imin b with
     | IntImm p, IntImm q => IntImm (Z.max p q)
     | NegInf, m => m
     | m, _ => m
     end)
    (match imax a, imax b with
     | IntImm p, IntImm q => IntImm (Z.min p q)
     | PosInf, m => m
     | m, _ => m
     end).

Definition merge_interval (a b : Interval) : Interval :=
  mkInterval
    (match imin a, imin b with
     | IntImm p, IntImm q => IntImm (Z.min p q)
     | _, _ => NegInf
     end)
    (match imax a, imax b with
     | IntImm p, IntImm q => IntImm (Z.max p q)
     | _, _ => PosInf
     end).

Definition merge_boxes (a b : Box) : Box :=
  match a, b with
  | _, [] => a
  | [], _ => b
  | _, _ => map2 merge_interval a b
  end.

Definition in_scope (v : string) (s : Scope) : Interval := bound_of v s.

(** The expressions of the pipeline: [Opaque 0] reads no function,
    [Opaque 1] is [f(x, r) + out(x)], and [Opaque 4] is
    [select(x < 256, mask(x), 0)], whose call is dropped over a scope that
    lies above 255. *)
Definition boxes_required (e : Expr) (s : Scope) : smap Box :=
  match e with
  | Opaque 1 => [("f", [in_scope "x" s; in_scope "r" s]); ("out", [in_scope "x" s])]
  | Opaque 4 =>
      match imin (in_scope "x" s) with
      | IntImm lo => if 255 <? lo then [] else [("mask", [in_scope "x" s])]
      | _ => [("mask", [in_scope "x" s])]
      end
  | _ => []
  end.

Definition bounds_of_expr_in_scope (e : Expr) (s : Scope) : Interval :=
  match e with
  | Var v => in_scope v s
  | IntImm _ => mkInterval e e
  | _ => Interval_everything
  end.

(** The queue of a query never holds more than the stages of the
    pipeline. *)
Definition fuel : nat := 8.

Definition regions_required : Function -> nat -> DimBounds -> sset -> bool
                              -> option (smap Box) :=
  regions_required env simplify merge_boxes boxes_required bounds_of_expr_in_scope
                   substitute_var_estimates get_stage_bounds fuel.

(** [pipeline_bounds] is what [get_pipeline_bounds] computes from the
    estimate on [out]. *)
Lemma pipeline_bounds_computed :
  get_pipeline_bounds env simplify merge_boxes boxes_required bounds_of_expr_in_scope
                      substitute_var_estimates get_stage_bounds fuel outputs
  = Some pipeline_bounds.
Proof. vm_compute. reflexivity. Qed.

Definition bounds_size (b : DimBounds) : Z := box_size (map snd b).

Definition region_cost (regs : smap Box) (inl : sset) : Cost :=
  fold_left (fun c kv =>
               if ss_mem (fst kv) inl then c
               else mkCost (arith c + 2 * box_size (snd kv)) (memory c + box_size (snd kv)))
            regs (mkCost 0 0).

Definition stage_region_cost (n : string) (stage : nat) (b : DimBounds) (inl : sset) : Cost :=
  let pts := bounds_size b in
  if String.eqb n "out" then
    match stage with
    | O => mkCost pts pts
    | S _ => if ss_mem "f" inl then mkCost (3 * pts) pts else mkCost pts (2 * pts)
    end
  else mkCost (2 * pts) pts.

Definition detailed_load_costs (regs : smap Box) (inl : sset) : smap Z :=
  fold_left (fun acc kv =>
               if ss_mem (fst kv) inl then acc else sm_put (fst kv) (box_size (snd kv)) acc)
            regs [].

Definition stage_detailed_load_costs (n : string) (stage : nat) (b : DimBounds)
           (inl : sset) : smap Z :=
  let pts := bounds_size b in
  if String.eqb n "out" then
    match stage with
    | O => [("out", pts)]
    | S _ => if ss_mem "f" inl then [("out", pts)] else [("f", pts); ("out", pts)]
    end
  else [("f", pts)].

Definition region_size (n : string) (b : Box) : Z :=
  if box_size b =? unknown then unknown else 4 * box_size b.
Definition input_region_size := region_size.
Definition ceil_div_float (extent size : Z) : Z :=
  if size =? 0 then 0 else (extent + size - 1) / size.
Definition cost_factor (footprint : Z) : Z := Z.min (1 + footprint / 1000) 40.

Definition p0 : Partitioner := new_Partitioner env get_parents.

Definition ex_analyze_group : Group -> option GroupAnalysis :=
  analyze_group env pipeline_bounds unknown
    get_parents get_stage_bounds get_extent box_size combine_load_costs
    can_parallelize_rvar regions_required region_cost stage_region_cost
    detailed_load_costs stage_detailed_load_costs region_size input_region_size
    ceil_div_float cost_factor.

Definition ex_find_best_tile_config : Group -> option (smap Z * GroupAnalysis) :=
  find_best_tile_config env pipeline_bounds arch_parallelism unknown
    get_parents get_stage_bounds get_extent box_size combine_load_costs
    can_parallelize_rvar regions_required region_cost stage_region_cost
    detailed_load_costs stage_detailed_load_costs region_size input_region_size
    ceil_div_float cost_factor.

Definition ex_tile_analysis : Group -> smap Z -> option GroupAnalysis :=
  tile_analysis env pipeline_bounds unknown
    get_parents get_stage_bounds get_extent box_size combine_load_costs
    can_parallelize_rvar regions_required region_cost stage_region_cost
    detailed_load_costs stage_detailed_load_costs region_size input_region_size
    ceil_div_float cost_factor.

Definition ex_initialize_groups : Partitioner -> option Partitioner :=
  initialize_groups env pipeline_bounds arch_parallelism unknown
    get_parents get_stage_bounds get_extent box_size combine_load_costs
    can_parallelize_rvar regions_required region_cost stage_region_cost
    detailed_load_costs stage_detailed_load_costs region_size input_region_size
    ceil_div_float cost_factor.

Definition ex_group_iteration : Level -> Partitioner -> option (Partitioner * bool) :=
  group_iteration env pipeline_bounds outputs arch_parallelism unknown
    get_parents get_stage_bounds get_extent box_size combine_load_costs
    can_parallelize_rvar Function_is_pure regions_required region_cost stage_region_cost
    detailed_load_costs stage_detailed_load_costs region_size input_region_size
    ceil_div_float cost_factor.

(** The partitioner after [initialize_groups], and after the first round
    of the INLINE pass. *)
Definition p1 : Partitioner :=
  match ex_initialize_groups p0 with Some p => p | None => p0 end.
Definition p2 : Partitioner :=
  match ex_group_iteration INLINE p1 with Some r => fst r | None => p1 end.

(** [f] grouped into the update of [out], not inlined. *)
Definition tiled_group : Group :=
  mkGroup (mkFStage out 1) [mkFStage f 0; mkFStage out 1] [] [].

Definition ex_grouping_state : Partitioner -> Prop :=
  grouping_state env pipeline_bounds outputs arch_parallelism unknown
    get_parents get_stage_bounds get_extent box_size combine_load_costs
    can_parallelize_rvar Function_is_pure regions_required region_cost stage_region_cost
    detailed_load_costs stage_detailed_load_costs region_size input_region_size
    ceil_div_float cost_factor.

Definition ex_analyze_group_setup : Group -> flow GroupAnalysis TileContext :=
  analyze_group_setup env pipeline_bounds unknown
    get_parents get_stage_bounds get_extent box_size combine_load_costs
    can_parallelize_rvar regions_required region_cost stage_region_cost
    detailed_load_costs stage_detailed_load_costs ceil_div_float.

Definition ex_per_tile_memory : Group -> TileContext -> flow GroupAnalysis Z :=
  per_tile_memory env pipeline_bounds unknown region_size input_region_size cost_factor.

(** The analysis of [tiled_group] without tiles. *)
Definition no_tile_analysis : GroupAnalysis := mkGroupAnalysis (mkCost 6144 40960) 1.
(** The analysis of the update of [out] with [f] inlined. *)
Definition inlined_analysis : GroupAnalysis := mkGroupAnalysis (mkCost 6144 4096) 256.

Definition ex_tile_benefit : GroupAnalysis -> Z :=
  tile_benefit arch_parallelism unknown no_tile_analysis.

Lemma unknown_not_positive : unknown <= 0.
Proof. intros H. discriminate H. Qed.

Lemma ex_initialized : ex_initialize_groups p0 = Some p1.
Proof. vm_compute. reflexivity. Qed.

Lemma ex_first_round : ex_group_iteration INLINE p1 = Some (p2, false).
Proof. vm_compute. reflexivity. Qed.

Lemma ex_p2_state : ex_grouping_state p2.
Proof.
  apply (after_iteration env pipeline_bounds outputs arch_parallelism unknown
           get_parents get_stage_bounds get_extent box_size combine_load_costs
           can_parallelize_rvar Function_is_pure regions_required region_cost
           stage_region_cost detailed_load_costs stage_detailed_load_costs region_size
           input_region_size ceil_div_float cost_factor INLINE p1 p2 false).
  - apply (after_initialize env pipeline_bounds outputs arch_parallelism unknown
             get_parents get_stage_bounds get_extent box_size combine_load_costs
             can_parallelize_rvar Function_is_pure regions_required region_cost
             stage_region_cost detailed_load_costs stage_detailed_load_costs region_size
             input_region_size ceil_div_float cost_factor p0 p1).
    exact ex_initialized.
  - exact ex_first_round.
Qed.

(** The whole run: the INLINE pass stops after one more round, and the
    FAST_MEM pass finds nothing left to group. *)
Lemma ex_partitioned :
  exists p,
    partition_pipeline env pipeline_bounds outputs arch_parallelism unknown
      get_parents get_stage_bounds get_extent box_size combine_load_costs
      can_parallelize_rvar Function_is_pure regions_required region_cost
      stage_region_cost detailed_load_costs stage_detailed_load_costs region_size
      input_region_size ceil_div_float cost_factor 4 = Some p
    /\ groups p = groups p2 /\ group_costs p = group_costs p2.
Proof. eexists. split; [vm_compute; reflexivity | split; reflexivity]. Qed.

(** C1 at the worked pipeline: the round that inlines [f] lowers the
    pipeline cost from 47872 to 11008. *)
Lemma group_cost_witness : cost_not_increased p1 p2.
Proof.
  apply (proj1 (group_cost_non_increasing env pipeline_bounds outputs arch_parallelism
                  unknown get_parents get_stage_bounds get_extent box_size
                  combine_load_costs can_parallelize_rvar Function_is_pure
                  regions_required region_cost stage_region_cost detailed_load_costs
                  stage_detailed_load_costs region_size input_region_size
                  ceil_div_float cost_factor) INLINE p1 p2).
  exact ex_first_round.
Defined.

(** C3 at the analyses of the worked pipeline. *)
Lemma estimate_benefit_witness :
  add64 (sub64 6144 6144) (sub64 40960 4096) = (6144 - 6144) + (40960 - 4096)
  /\ sub64 6144 6144 = 6144 - 6144.
Proof.
  apply (proj2 (estimate_benefit_spec arch_parallelism unknown no_tile_analysis
                                      inlined_analysis false true));
    split; reflexivity.
Defined.

(** C4 as the specification states it, at the worked pipeline: after the first
    round of the INLINE pass the group of [out]'s update has a tile size
    for the reduction variable [r], which is none of the pure loop
    variables of that stage. *)
Lemma inline_tiles_reduction_variable :
  ex_initialize_groups p0 = Some p1
  /\ ex_group_iteration INLINE p1 = Some (p2, false)
  /\ exists g,
       fm_find (mkFStage out 1) (groups p2) = Some g
       /\ sm_find "r" (tile_sizes g) = Some 1
       /\ In (mkDim "r" Serial PureRVar)
             (stage_loop_dims (func (output g)) (stage_num (output g)))
       /\ is_rvar (mkDim "r" Serial PureRVar) = true
       /\ tile_vars_of (output g) = ["x"].
Proof.
  split; [exact ex_initialized |]. split; [exact ex_first_round |].
  eexists. split; [vm_compute; reflexivity |].
  split; [vm_compute; reflexivity |].
  split; [left; reflexivity |].
  split; reflexivity.
Qed.

(** C4 as amended, at the same state: the key [r] is a loop variable of
    the output stage. *)
Lemma tile_sizes_witness : In "r" (loop_var_names (mkFStage out 1)).
Proof.
  destruct (tile_sizes_name_loop_variables env pipeline_bounds outputs arch_parallelism
              unknown get_parents get_stage_bounds get_extent box_size
              combine_load_costs can_parallelize_rvar Function_is_pure regions_required
              region_cost stage_region_cost detailed_load_costs
              stage_detailed_load_costs region_size input_region_size ceil_div_float
              cost_factor p2 ex_p2_state) as [H _].
  apply (H (mkFStage out 1)
           (mkGroup (mkFStage out 1) [mkFStage out 1; mkFStage f 0] ["f"]
                    [("r", 1); ("x", 1)])
           "r").
  - vm_compute. right. left. reflexivity.
  - vm_compute. discriminate.
Defined.

(** C6 at [tiled_group]: of the candidates [x:64], [x:128], [x:256] only
    the first leaves four parallel tiles, and it is the one returned. *)
Lemma find_best_tile_config_witness :
  exists cfg an,
    ex_find_best_tile_config tiled_group = Some (cfg, an)
    /\ ((cfg = [] /\ an = no_tile_analysis
         /\ forall c a, In c (generate_tile_configs (output tiled_group)) ->
                        ex_tile_analysis tiled_group c = Some a -> ex_tile_benefit a <= 0)
        \/ (exists pre post,
              generate_tile_configs (output tiled_group) = pre ++ cfg :: post
              /\ ex_tile_analysis tiled_group cfg = Some an
              /\ 0 < ex_tile_benefit an
              /\ (forall c a, In c (generate_tile_configs (output tiled_group)) ->
                              ex_tile_analysis tiled_group c = Some a ->
                              ex_tile_benefit a <= ex_tile_benefit an)
              /\ (forall c a, In c pre -> ex_tile_analysis tiled_group c = Some a ->
                              ex_tile_benefit a < ex_tile_benefit an))).
Proof.
  apply (find_best_tile_config_first_max env pipeline_bounds arch_parallelism unknown
           get_parents get_stage_bounds get_extent box_size combine_load_costs
           can_parallelize_rvar regions_required region_cost stage_region_cost
           detailed_load_costs stage_detailed_load_costs region_size input_region_size
           ceil_div_float cost_factor tiled_group no_tile_analysis).
  - exact unknown_not_positive.
  - vm_compute. reflexivity.
  - split; right; split; reflexivity.
  - intros c Hin. vm_compute in Hin.
    destruct Hin as [<- | [<- | [<- | []]]];
      eexists; (split; [vm_compute; reflexivity | split; right; split; reflexivity]).
Defined.

(** C8 at the pure stage of [f] with tile sizes [x:64], [y:8]: [x], of
    extent 256, is tiled; [y], of extent 8, keeps its full bound. *)
Lemma get_bounds_from_tile_sizes_witness :
  exists tile_bounds,
    get_bounds_from_tile_sizes pipeline_bounds get_stage_bounds get_extent
                               (mkFStage f 0) [("x", 64); ("y", 8)] = Some tile_bounds
    /\ sm_find "x" tile_bounds = Some (mkInterval (IntImm 0) (IntImm 63))
    /\ sm_find "y" tile_bounds = Some r_range.
Proof.
  destruct (get_bounds_from_tile_sizes_spec
              pipeline_bounds get_stage_bounds get_extent
              (mkFStage f 0) [("x", 64); ("y", 8)] [("x", x_range); ("y", r_range)])
    as (tb & Htb & Hdims & _).
  - reflexivity.
  - intros d [<- | [<- | []]]; discriminate.
  - intros v size H. unfold sm_find in H. simpl in H.
    destruct (String.eqb v "x"); [injection H as <-; lia |].
    destruct (String.eqb v "y"); [injection H as <-; lia | discriminate].
  - exists tb. split; [exact Htb |]. split.
    + destruct (Hdims (mkDim "x" Serial PureVar)) as (full & Hf & Ht);
        [left; reflexivity |].
      injection Hf as <-. exact Ht.
    + destruct (Hdims (mkDim "y" Serial PureVar)) as (full & Hf & Ht);
        [right; left; reflexivity |].
      injection Hf as <-. exact Ht.
Defined.

(** C10 at [tiled_group]: its analysis is known and rests on the
    per-tile memory cost 40960. *)
Lemma analyze_group_memory_positive_witness :
  exists ctx mem,
    ex_analyze_group_setup tiled_group = Go ctx
    /\ ex_per_tile_memory tiled_group ctx = Go mem
    /\ 0 < mem
    /\ no_tile_analysis
       = mkGroupAnalysis
           (mkCost (mul64 (arith (tc_group_cost ctx)) (tc_estimate_tiles ctx))
                   (mul64 mem (tc_estimate_tiles ctx)))
           (wrap64 (tc_parallelism ctx)).
Proof.
  apply (proj1 (analyze_group_memory_positive env pipeline_bounds unknown
                  get_parents get_stage_bounds get_extent box_size combine_load_costs
                  can_parallelize_rvar regions_required region_cost stage_region_cost
                  detailed_load_costs stage_detailed_load_costs region_size
                  input_region_size ceil_div_float cost_factor tiled_group)).
  - vm_compute. reflexivity.
  - intros H. discriminate H.
Defined.

(** *** A query whose shifted bounds lose a producer *)

Definition line_schedule : Schedule :=
  mkSchedule [] [] [] [mkDim "x" Serial PureVar; outermost] [] LLInlined LLInlined.

Definition mask : Function :=
  mkFunction "mask" ["x"] (mkStageDef [Opaque 0] [Var "x"] line_schedule [])
             [] [mkHType TUInt 8 1] false [].

(** [g(x) = select(x < 256, mask(x), 0)]. *)
Definition g : Function :=
  mkFunction "g" ["x"] (mkStageDef [Opaque 4] [Var "x"] line_schedule [])
             [] [mkHType TUInt 8 1] false [].

Definition guarded_env : smap Function := [("g", g); ("mask", mask)].

Definition x_shifted : Interval := mkInterval (IntImm 256) (IntImm 511).

(** The regions of the tile [0, 255] of [g], and of the tile above it. *)
Definition guarded_regions : smap Box := [("g", [x_range]); ("mask", [x_range])].
Definition guarded_regions_shifted : smap Box := [("g", [x_shifted])].

(** C5 at this query: [mask] is in the regions at [bounds] and not in the
    regions at the shifted bounds; [redundant_regions] does not answer,
    where skipping the producer would leave an empty map for it. *)
Lemma redundant_regions_witness :
  redundant_regions guarded_env simplify make_intersection merge_boxes boxes_required
                    bounds_of_expr_in_scope substitute_var_estimates get_stage_bounds
                    fuel g 0 "x" [("x", x_range)] ["mask"] false = None
  /\ foldM (overlap_step_documented make_intersection guarded_regions_shifted)
           [("mask", [x_range])] [] = Some [].
Proof.
  apply (redundant_regions_missing_producer
           guarded_env simplify make_intersection merge_boxes boxes_required
           bounds_of_expr_in_scope substitute_var_estimates get_stage_bounds
           fuel g 0 "x" [("x", x_range)] ["mask"] false
           guarded_regions guarded_regions_shifted).
  - reflexivity.
  - reflexivity.
  - right. left. reflexivity.
  - reflexivity.
Defined.

(** *** A function with two output types *)

(** 256-bit vectors: 32 lanes of 8 bits, 8 lanes of 32 bits. *)
Definition natural_vector_size (t : HType) : Z := 256 / bits t.

Definition pair_dims : list Dim := [mkDim "x" Serial PureVar; outermost].

Definition pair_def : StageDef :=
  mkStageDef [Opaque 2; Opaque 3] [Var "x"]
             (mkSchedule [] [] [] pair_dims [] LLInlined LLInlined) [].

(** [h(x) = {cast<uint8_t>(...), cast<int32_t>(...)}]. *)
Definition pair_function : Function :=
  mkFunction "h" ["x"] pair_def [] [mkHType TUInt 8 1; mkHType TInt 32 1] false [].

Definition pair_state : EmitState := mkEmitState [] [("x", 256)] EmptyString [] [].

(** C7 as the specification states it, at [h]: the widest output type is the
    32-bit one, whose natural vector has 8 lanes, and the stage is split
    by 32. *)
Lemma vectorize_factor_not_of_widest_type :
  exists st',
    vectorize_stage unknown can_parallelize_rvar ceil_div_float natural_vector_size
                    "h" pair_dims pair_def pair_function pair_state = Some st'
    /\ es_applied st' = [DSplit "h" "x" "x_vo" "x_vi" 32; DVectorize "h" "x_vi"]
    /\ widest_output_type pair_function = Some (mkHType TInt 32 1)
    /\ natural_vector_size (mkHType TInt 32 1) = 8
    /\ 32 <> natural_vector_size (mkHType TInt 32 1).
Proof.
  eexists. split; [vm_compute; reflexivity |].
  split; [reflexivity |]. split; [reflexivity |]. split; [reflexivity |].
  intros H. discriminate H.
Qed.

(** *** An output with a symbolic estimate *)

(** [s(x)] after [s.estimate(x, 0, w)] for a parameter [w]. *)
Definition symbolic_extent : Bound := mkBound "x" (IntImm 0) (Var "w").
Definition symbolic_output : Function :=
  pure_function "s" ["x"] [symbolic_extent] (Opaque 0).

Definition find_transitive_calls (fn : Function) : smap Function := [(name fn, fn)].
Definition realization_order (outs : list Function) (e : smap Function) : list string :=
  map fst e.
Definition compute_function_value_bounds (order : list string) (e : smap Function) : unit :=
  tt.
(** The partitioner is not reached on this path. *)
Definition partition_and_schedule (outs : list Function) (e : smap Function) (b : unit)
  : option (string * smap Function * list string) := None.

(** C9 at an output whose only estimate has a symbolic extent, which is
    sent to the fallback, and at [f(x, y)] with two estimates on [x], which
    is accepted although [y] has no estimate. *)
Lemma check_estimates_witness :
  generate_schedules find_transitive_calls unit realization_order
                     compute_function_value_bounds partition_and_schedule
                     [symbolic_output]
  = Some (fallback_run find_transitive_calls [symbolic_output])
  /\ check_estimates_on_outputs [twice_estimated_x] = true
  /\ ~ every_argument_estimated twice_estimated_x.
Proof.
  split.
  - apply (proj1 (proj2 (check_estimates_on_outputs_spec
                           find_transitive_calls unit realization_order
                           compute_function_value_bounds partition_and_schedule
                           [symbolic_output]))
                 symbolic_output symbolic_extent).
    + left. reflexivity.
    + left. reflexivity.
    + intros [_ [_ [e He]]]. discriminate He.
    + reflexivity.
  - apply (proj2 (proj2 (proj2 (check_estimates_on_outputs_spec
                                  find_transitive_calls unit realization_order
                                  compute_function_value_bounds partition_and_schedule
                                  [twice_estimated_x])))
                 "f" "x" "y" 0 100 0 200 (Opaque 0)).
    intros H. discriminate H.
Defined.

(** C2 at [g(x)] estimated twice: every dimension has an estimate and the
    run still ends in the fallback. *)
Lemma estimates_counted_witness :
  generate_schedules find_transitive_calls unit realization_order
                     compute_function_value_bounds partition_and_schedule
                     [re_estimated_x]
  = Some (fallback_run find_transitive_calls [re_estimated_x]).
Proof.
  apply (proj2 (proj2 (proj2 (proj2 (proj2 (proj2
           (estimates_counted_not_matched
              find_transitive_calls unit realization_order
              compute_function_value_bounds partition_and_schedule))))))).
  reflexivity.
Defined.
(** *** The extra properties at the worked pipeline *)

(** X1: merging the regions of two queries. *)
Lemma merge_regions_find_witness :
  sm_find "f" (merge_regions merge_boxes [("f", [x_range])]
                             [("f", [r_range]); ("out", [x_range])])
  = Some (merge_boxes [x_range] [r_range]).
Proof.
  apply (merge_regions_find merge_boxes [("f", [x_range])]
                            [("f", [r_range]); ("out", [x_range])] "f").
  repeat constructor.
Defined.

(** The loop bounds of the update of [out]. *)
Definition update_bounds : DimBounds := [("r", r_range); ("x", x_range)].

(** X2: the bounds of the update of [out] shifted along [x]. *)
Lemma shift_bounds_find_witness :
  sm_find "x" (shift_bounds "x" update_bounds) = Some (shifted_interval x_range)
  /\ sm_find "r" (shift_bounds "x" update_bounds) = Some r_range.
Proof.
  split.
  - apply (shift_bounds_find "x" "x" update_bounds). repeat constructor.
  - apply (shift_bounds_find "x" "r" update_bounds). repeat constructor.
Defined.

(** What the update of [out] requires over its bounds and over the bounds
    shifted along [x]. *)
Definition update_regions : smap Box := [("f", [x_range; r_range]); ("out", [x_range])].
Definition update_regions_shifted : smap Box :=
  [("f", [x_shifted; r_range]); ("out", [x_shifted])].

(** X3: both producers of the update of [out] are present in the shifted
    query. *)
Lemma redundant_regions_intersects_witness :
  exists overlaps,
    redundant_regions env simplify make_intersection merge_boxes boxes_required
                      bounds_of_expr_in_scope substitute_var_estimates get_stage_bounds
                      fuel out 1 "x" update_bounds ["f"] false = Some overlaps
    /\ forall p,
         sm_find p overlaps
         = match sm_find p update_regions, sm_find p update_regions_shifted with
           | Some b, Some b' => Some (simplify_box simplify (map2 make_intersection b b'))
           | _, _ => None
           end.
Proof.
  apply (redundant_regions_intersects
           env simplify make_intersection merge_boxes boxes_required
           bounds_of_expr_in_scope substitute_var_estimates get_stage_bounds
           fuel out 1 "x" update_bounds ["f"] false update_regions update_regions_shifted).
  - vm_compute. reflexivity.
  - vm_compute. reflexivity.
  - intros p b [H | [H | []]]; injection H as <- <-; eexists; split; reflexivity.
Defined.

(** X4: the update of [out] queried without a bound for [r]. *)
Lemma regions_required_needs_loop_bounds_witness :
  regions_required out 1 [("x", x_range)] ["f"] false = None.
Proof.
  apply (regions_required_needs_loop_bounds
           env simplify merge_boxes boxes_required bounds_of_expr_in_scope
           substitute_var_estimates get_stage_bounds fuel out 1 [("x", x_range)] ["f"]
           false (mkDim "r" Serial PureRVar)).
  - left. reflexivity.
  - reflexivity.
Defined.

(** The overlaps of the update of [out] along [r] and along [x]. *)
Definition update_overlaps : list (smap Box) :=
  [[("f", [x_range; mkInterval (IntImm 8) (IntImm 7)]); ("out", [x_range])];
   [("f", [mkInterval (IntImm 256) (IntImm 255); r_range]);
    ("out", [mkInterval (IntImm 256) (IntImm 255)])]].

(** X5: one overlap map per loop dimension of the update of [out]. *)
Lemma overlap_regions_one_per_dim_witness :
  length update_overlaps = length (stage_loop_dims out 1)
  /\ forall d dim,
       nth_error (stage_loop_dims out 1) d = Some dim ->
       exists conc_reg,
         nth_error update_overlaps d = Some conc_reg
         /\ redundant_regions env simplify make_intersection merge_boxes boxes_required
                              bounds_of_expr_in_scope substitute_var_estimates
                              get_stage_bounds fuel out 1 (dvar dim) update_bounds ["f"]
                              false = Some conc_reg.
Proof.
  apply (overlap_regions_one_per_dim
           env simplify make_intersection merge_boxes boxes_required
           bounds_of_expr_in_scope substitute_var_estimates get_stage_bounds
           fuel out 1 update_bounds ["f"] false update_overlaps).
  vm_compute. reflexivity.
Defined.


(** X11: the groups and costs of [p1], the partitioner after
    [initialize_groups]. *)
Lemma initialize_groups_costs_witness :
  (forall k g,
      In (k, g) (groups p1) ->
      exists cfg an,
        ex_find_best_tile_config (singleton_group k) = Some (cfg, an)
        /\ g = set_tile_sizes (singleton_group k) cfg
        /\ fm_find k (group_costs p1) = Some an)
  /\ map fst (groups p1) = map fst (groups p0)
  /\ grouping_cache p1 = []
  /\ (groups p1 <> [] -> get_pipeline_cost p1 <> None).
Proof.
  apply (initialize_groups_costs env pipeline_bounds arch_parallelism unknown
           get_parents get_stage_bounds get_extent box_size combine_load_costs
           can_parallelize_rvar regions_required region_cost stage_region_cost
           detailed_load_costs stage_detailed_load_costs region_size input_region_size
           ceil_div_float cost_factor p1).
  vm_compute. reflexivity.
Defined.

(** X12: the partitioner of a pipeline without functions. *)
Lemma empty_environment_aborts_witness :
  groups (new_Partitioner [] get_parents) = []
  /\ initialize_groups [] pipeline_bounds arch_parallelism unknown
       get_parents get_stage_bounds get_extent box_size combine_load_costs
       can_parallelize_rvar regions_required region_cost stage_region_cost
       detailed_load_costs stage_detailed_load_costs region_size input_region_size
       ceil_div_float cost_factor (new_Partitioner [] get_parents)
     = Some (new_Partitioner [] get_parents)
  /\ get_pipeline_cost (new_Partitioner [] get_parents) = None
  /\ (forall fuel,
         partition_pipeline [] pipeline_bounds outputs arch_parallelism unknown
           get_parents get_stage_bounds get_extent box_size combine_load_costs
           can_parallelize_rvar Function_is_pure regions_required region_cost
           stage_region_cost detailed_load_costs stage_detailed_load_costs region_size
           input_region_size ceil_div_float cost_factor fuel = None).
Proof.
  apply (empty_environment_aborts [] pipeline_bounds outputs arch_parallelism unknown
           get_parents get_stage_bounds get_extent box_size combine_load_costs
           can_parallelize_rvar Function_is_pure regions_required region_cost
           stage_region_cost detailed_load_costs stage_detailed_load_costs region_size
           input_region_size ceil_div_float cost_factor).
  reflexivity.
Defined.

(** A choice whose evaluation failed. *)
Definition failed_choice : GroupingChoice * GroupConfig :=
  (mkGroupingChoice "f" (mkFStage out 1), mkGroupConfig [] (unknown_analysis unknown)).

Definition failed_benefit : Z :=
  match estimate_benefit_choices env arch_parallelism unknown p1 [failed_choice] false true
  with
  | Some b => b
  | None => 0
  end.

(** X13: the benefit of [failed_choice] over the groups of [p1]. *)
Lemma unknown_cost_gives_unknown_benefit_witness : failed_benefit = unknown.
Proof.
  apply (unknown_cost_gives_unknown_benefit env arch_parallelism unknown p1
           [failed_choice] false true failed_benefit failed_choice).
  - vm_compute. reflexivity.
  - left. reflexivity.
  - left. reflexivity.
Defined.

(** The choice of the first round of the INLINE pass. *)
Definition ex_choose_candidate_grouping
  : Partitioner -> list (string * string) -> Level
    -> option (list (GroupingChoice * GroupConfig) * Partitioner) :=
  choose_candidate_grouping env pipeline_bounds arch_parallelism unknown
    get_parents get_stage_bounds get_extent box_size combine_load_costs
    can_parallelize_rvar regions_required region_cost stage_region_cost
    detailed_load_costs stage_detailed_load_costs region_size input_region_size
    ceil_div_float cost_factor.

Definition first_best : list (GroupingChoice * GroupConfig) :=
  match ex_choose_candidate_grouping p1 [("f", EmptyString)] INLINE with
  | Some r => fst r
  | None => []
  end.

Definition p1_cached : Partitioner :=
  match ex_choose_candidate_grouping p1 [("f", EmptyString)] INLINE with
  | Some r => snd r
  | None => p1
  end.

(** X14: inlining [f] into the update of [out] is chosen, with a positive
    benefit. *)
Lemma chosen_grouping_has_positive_benefit_witness :
  groups p1_cached = groups p1
  /\ group_costs p1_cached = group_costs p1
  /\ ([("f", EmptyString)] = [] -> first_best = [])
  /\ (first_best <> [] ->
      exists benefit cand prod_f,
        estimate_benefit_choices env arch_parallelism unknown p1 first_best false true
        = Some benefit
        /\ 0 < benefit
        /\ In cand [("f", EmptyString)]
        /\ get_element env (fst cand) = Some prod_f
        /\ forall c, In c first_best -> choice_prod (fst c) = name prod_f).
Proof.
  apply (chosen_grouping_has_positive_benefit
           env pipeline_bounds arch_parallelism unknown
           get_parents get_stage_bounds get_extent box_size combine_load_costs
           can_parallelize_rvar regions_required region_cost stage_region_cost
           detailed_load_costs stage_detailed_load_costs region_size input_region_size
           ceil_div_float cost_factor p1 [("f", EmptyString)] INLINE first_best p1_cached).
  vm_compute. reflexivity.
Defined.

(** X15: the candidate of the INLINE pass over [p1]. *)
Lemma grouping_candidates_spec_witness :
  grouping_candidate env outputs Function_is_pure p1 INLINE ("f", EmptyString).
Proof.
  apply (grouping_candidates_spec env outputs Function_is_pure p1 INLINE
                                  [("f", EmptyString)]).
  - vm_compute. reflexivity.
  - left. reflexivity.
Defined.

(** X17: [tiled_group] has no tile sizes. *)
Lemma untiled_group_is_serial_witness :
  (no_tile_analysis = unknown_analysis unknown \/ parallelism no_tile_analysis = 1)
  /\ (1 < arch_parallelism ->
      forall old_grouping no_redundant_work,
        estimate_benefit arch_parallelism unknown old_grouping no_tile_analysis
                         no_redundant_work true = unknown).
Proof.
  apply (untiled_group_is_serial env pipeline_bounds arch_parallelism unknown
           get_parents get_stage_bounds get_extent box_size combine_load_costs
           can_parallelize_rvar regions_required region_cost stage_region_cost
           detailed_load_costs stage_detailed_load_costs region_size input_region_size
           ceil_div_float cost_factor tiled_group no_tile_analysis).
  - reflexivity.
  - vm_compute. reflexivity.
Defined.


(** The single-precision division of [split_dim]; where the conversion
    back to an integer is undefined, the value is left at 0. *)
Definition single_ceil_div (estimate factor : Z) : Z :=
  match float_ceil_div estimate factor with
  | Some q => q
  | None => 0
  end.

Definition wide_state : EmitState :=
  mkEmitState [] [("x", 16777217)] EmptyString [] [].

(** X19: splitting [x], estimated at 16777217, by 1 leaves an outer
    estimate of 16777216. *)
Lemma split_dim_estimates_witness :
  exists st',
    split_dim unknown single_ceil_div "f" "x" 1 "_i" "_o" wide_state
    = Some ("x_i", "x_o", st')
    /\ (forall k,
           sm_find k (es_estimates st')
           = if String.eqb k "x_o" then Some (single_ceil_div 16777217 1)
             else if String.eqb k "x_i" then Some 1
             else if String.eqb k "x" then None
             else sm_find k (es_estimates wide_state))
    /\ (forall q,
           float_ceil_div 16777217 1 = Some q ->
           sm_find "x_o" (es_estimates st') = Some q)
    /\ es_rvars st' = es_rvars wide_state
    /\ es_warnings st' = es_warnings wide_state
    /\ es_applied st' = es_applied wide_state ++ [DSplit "f" "x" "x_o" "x_i" 1].
Proof.
  apply (proj1 (split_dim_estimates unknown single_ceil_div "f" "x" 1 "_i" "_o"
                                    wide_state)).
  - discriminate.
  - discriminate.
  - intros estimate q H. unfold single_ceil_div. now rewrite H.
Defined.

(** A reduction over [r] of stride 4 between two pure dimensions. *)
Definition strided_dims : list Dim :=
  [mkDim "r" Serial ImpureRVar; mkDim "x" Serial PureVar; mkDim "y" Serial PureVar;
   outermost].
Definition strided : smap Z := [("r", 4); ("x", 8); ("y", 1)].

(** X20: [y], of stride 1, goes innermost, then [r], then [x]. *)
Lemma reorder_dims_order_witness :
  exists order var_order,
    reorder_dims 3 "f" strided_dims strided EmptyString
    = Some (order,
            (EmptyString ++ "f" ++ ".reorder(" ++ var_order ++ ");" ++ newline)%string)
    /\ var_order_of (map fst order) = Some var_order
    /\ Permutation (map fst order) (map dvar (loop_dims strided_dims))
    /\ (forall k b, In (k, b) order ->
                    exists d, In d (loop_dims strided_dims) /\ dvar d = k /\ is_pure d = b)
    /\ map fst (filter (fun c => negb (snd c)) order)
       = map dvar (filter (fun d => negb (is_pure d)) (loop_dims strided_dims))
    /\ (forall l1 c l2 k2 l3 s1 s2,
           order = l1 ++ c :: l2 ++ (k2, true) :: l3 ->
           sm_find (fst c) strided = Some s1 -> sm_find k2 strided = Some s2 ->
           s1 <= s2 /\ (snd c = false -> s1 < s2)).
Proof.
  apply (reorder_dims_order 3 "f" strided_dims strided EmptyString).
  - intros H. vm_compute in H. discriminate H.
  - intros d H. vm_compute in H. destruct H as [<- | [<- | [<- | []]]]; reflexivity.
  - vm_compute.
    repeat (constructor; [intros H; vm_compute in H; intuition discriminate |]).
    constructor.
  - intros k. split.
    + intros H. apply sm_mem_find in H as [v H]. apply sm_find_In in H.
      vm_compute in H |- *.
      destruct H as [H | [H | [H | []]]]; injection H as <- _; auto.
    + intros H. vm_compute in H. destruct H as [<- | [<- | [<- | []]]]; reflexivity.
  - intros k s H. apply sm_find_In in H. vm_compute in H.
    destruct H as [H | [H | [H | []]]]; injection H as _ <-; reflexivity.
  - simpl. lia.
Defined.

(** The stride analysis of the worked pipeline: an expression uses a
    variable when it is that variable, every value takes four bytes, and
    the update of [out] calls [f(x, r)] and [out(x)]. *)
Definition expr_uses_vars (e : Expr) (vars : list string) : bool :=
  match e with
  | Var n => existsb (String.eqb n) vars
  | _ => false
  end.
Definition type_bytes (t : HType) : Z := (bits t + 7) / 8.
Definition expr_type (e : Expr) : HType := mkHType TInt 32 1.
Definition storage_dims_size (fn : Function) : nat := length (args fn).
Definition costs_inputs : smap HType := [].
Definition perform_inline (e : Expr) (inlines : sset) : Expr := e.
Definition find_all_calls (def : StageDef) : list (string * list Expr) :=
  match values def with
  | [Opaque 1] => [("f", [Var "x"; Var "r"]); ("out", [Var "x"])]
  | _ => []
  end.
Definition find_vars_using_var (v : string) (def : StageDef) : list string := [v].

(** X22: a loop over [r] walks [f(x, r)] with a stride of a row of [f]. *)
Lemma find_max_access_stride_spec_witness :
  exists bytes_per_ele num_storage_dims,
    storage_layout env type_bytes expr_type storage_dims_size costs_inputs "f"
                   [x_range; r_range]
    = Some (bytes_per_ele, num_storage_dims)
    /\ (num_storage_dims <= length [Var "x"; Var "r"])%nat
    /\ (num_storage_dims <= length [x_range; r_range])%nat
    /\ 0 <= 1024
    /\ (forall sdim e,
           (sdim < num_storage_dims)%nat ->
           nth_error [Var "x"; Var "r"] sdim = Some e ->
           expr_uses_vars e ["r"] = true ->
           stride_at get_extent bytes_per_ele [x_range; r_range] sdim <= 1024)
    /\ (1024 = 0
        \/ exists sdim e,
             (sdim < num_storage_dims)%nat
             /\ nth_error [Var "x"; Var "r"] sdim = Some e
             /\ expr_uses_vars e ["r"] = true
             /\ 1024 = stride_at get_extent bytes_per_ele [x_range; r_range] sdim).
Proof.
  apply (find_max_access_stride_spec env get_extent expr_uses_vars type_bytes expr_type
           storage_dims_size costs_inputs ["r"] "f" [Var "x"; Var "r"]
           [x_range; r_range] 1024).
  vm_compute. reflexivity.
Defined.

(** The strides of the update of [out]. *)
Definition update_strides : smap Z := [("r", 1024); ("x", 12)].

(** X23: the strides of the update of [out]. *)
Lemma analyze_spatial_locality_spec_witness :
  has_extern_definition out = false
  /\ (forall k, sm_mem k update_strides = true
                <-> In k (map dvar (stage_loop_dims out 1)))
  /\ (forall k s, sm_find k update_strides = Some s ->
                  - 2 ^ 31 <= s < 2 ^ 31 /\ s < int64_max).
Proof.
  apply (analyze_spatial_locality_spec env pipeline_bounds get_extent expr_uses_vars
           type_bytes expr_type storage_dims_size costs_inputs perform_inline
           find_all_calls find_vars_using_var (mkFStage out 1) [] [] update_strides).
  vm_compute. reflexivity.
Defined.

(** X24: the update of [out] reordered by its strides. *)
Lemma spatial_reordering_returns_witness :
  exists order sched',
    reorder_dims 2 "out.update(0)" (dims (schedule (get_stage_definition out 1)))
                 update_strides EmptyString
    = Some (order, sched')
    /\ Permutation (map fst order) (map dvar (stage_loop_dims out 1)).
Proof.
  apply (spatial_reordering_returns env pipeline_bounds get_extent expr_uses_vars
           type_bytes expr_type storage_dims_size costs_inputs perform_inline
           find_all_calls find_vars_using_var "out.update(0)" (mkFStage out 1) [] []
           EmptyString update_strides).
  - vm_compute. reflexivity.
  - intros H. vm_compute in H. discriminate H.
  - intros d H. vm_compute in H. destruct H as [<- | [<- | []]]; reflexivity.
  - vm_compute.
    repeat (constructor; [intros H; vm_compute in H; intuition discriminate |]).
    constructor.
  - simpl. lia.
Defined.

(** X25: [out] is accepted. *)
Lemma validate_no_partial_schedules_sound_witness :
  (forall stage,
      (stage <= length (updates out))%nat ->
      splits (schedule (get_stage_definition out stage)) = []
      /\ bounds (schedule (get_stage_definition out stage)) = []
      /\ forall d, In d (dims (schedule (get_stage_definition out stage))) ->
                   for_type d = Serial)
  /\ (has_extern_definition out = false ->
      specializations (definition out) = []
      /\ def_args (definition out)
         = map (fun d => Var (dvar d)) (loop_dims (dims (schedule (definition out))))
      /\ forall u def,
           nth_error (updates out) u = Some def ->
           (length (rvars (schedule def)) < length (dims (schedule def)))%nat
           /\ map dvar (firstn (length (rvars (schedule def))) (dims (schedule def)))
              = rvars (schedule def)
           /\ (forall d, In d (firstn (length (rvars (schedule def)))
                                      (dims (schedule def))) ->
                         is_rvar d = true)
           /\ in_arg_order (def_args (definition out))
                           (skipn (length (rvars (schedule def)))
                                  (loop_dims (dims (schedule def)))) 0).
Proof.
  apply (validate_no_partial_schedules_sound out). reflexivity.
Defined.

(** The storage bounds of the groups of [p2]. *)
Definition ex_group_storage_bounds : Partitioner -> option (list (FStage * smap Box)) :=
  group_storage_bounds pipeline_bounds get_stage_bounds get_extent regions_required.

Definition p2_storage_bounds : list (FStage * smap Box) :=
  match ex_group_storage_bounds p2 with
  | Some sb => sb
  | None => []
  end.

(** X26: the storage bounds of [p2], where [f] is inlined into the update
    of [out]. *)
Lemma group_storage_bounds_spec_witness :
  (forall k, fm_find k (groups p2) = None -> fm_find k p2_storage_bounds = None)
  /\ (forall k g,
         fm_find k (groups p2) = Some g ->
         exists bnds reg_alloc group_alloc,
           get_bounds_from_tile_sizes pipeline_bounds get_stage_bounds get_extent
                                      (output g) (tile_sizes g) = Some bnds
           /\ regions_required (func (output g)) (stage_num (output g))
                               bnds (group_members_of g) false = Some reg_alloc
           /\ fm_find k p2_storage_bounds = Some group_alloc
           /\ forall n,
                sm_find n group_alloc
                = if is_member_name g n && negb (String.eqb n (name (func (output g))))
                  then sm_find n reg_alloc
                  else None).
Proof.
  apply (group_storage_bounds_spec pipeline_bounds get_stage_bounds get_extent
                                   regions_required p2 p2_storage_bounds).
  - vm_compute. repeat constructor.
  - vm_compute. reflexivity.
Defined.


(** The merge of the first round of the INLINE pass. *)
Definition inline_f : GroupingChoice := mkGroupingChoice "f" (mkFStage out 1).
Definition inline_f_config : GroupConfig :=
  mkGroupConfig [("r", 1); ("x", 1)] inlined_analysis.

Definition ex_merge_groups
  : Partitioner -> GroupingChoice -> GroupConfig -> Level -> option Partitioner :=
  merge_groups env pipeline_bounds unknown
    get_parents get_stage_bounds get_extent box_size combine_load_costs
    can_parallelize_rvar regions_required region_cost stage_region_cost
    detailed_load_costs stage_detailed_load_costs region_size input_region_size
    ceil_div_float cost_factor.

Definition p1_merged : Partitioner :=
  match ex_merge_groups p1 inline_f inline_f_config INLINE with
  | Some q => q
  | None => p1
  end.

(** X28: [f] merged into the group of the update of [out]. *)
Lemma merge_groups_absorbs_witness :
  exists child_group cand_groups merged,
    fm_find (mkFStage out 1) (groups p1) = Some child_group
    /\ Forall2 (fun cand g => fm_find cand (groups p1) = Some g)
               (stages_of f) cand_groups
    /\ fm_find (mkFStage out 1) (groups p1_merged) = Some merged
    /\ output merged = output child_group
    /\ members merged = members child_group ++ flat_map members cand_groups
    /\ tile_sizes merged = [("r", 1); ("x", 1)]
    /\ (forall n, ss_mem n (inlined merged)
                  = ss_mem n (inlined child_group)
                    || existsb (inlined_from INLINE n) cand_groups)
    /\ fm_find (mkFStage out 1) (group_costs p1_merged) = ex_analyze_group merged
    /\ (forall k, FStage_eqb k (mkFStage out 1) = false ->
                  fm_find k (groups p1_merged) = fm_find k (groups p1)
                  /\ fm_find k (group_costs p1_merged) = fm_find k (group_costs p1))
    /\ children p1_merged = children p1
    /\ grouping_cache p1_merged = grouping_cache p1.
Proof.
  apply (merge_groups_absorbs env pipeline_bounds unknown
           get_parents get_stage_bounds get_extent box_size combine_load_costs
           can_parallelize_rvar regions_required region_cost stage_region_cost
           detailed_load_costs stage_detailed_load_costs region_size input_region_size
           ceil_div_float cost_factor p1 inline_f inline_f_config INLINE p1_merged f).
  - vm_compute. reflexivity.
  - reflexivity.
  - intros cand H. vm_compute in H. destruct H as [<- | []]. reflexivity.
Defined.


End Example.
